(** * SLATE tile layer: batched Hermitian tile norms and the rank-2k update

    A shallow embedding of two units of the SLATE library,
    - [src/hip/device_henorm.hip.cc]: the three device reduction kernels
      ([henorm_max_kernel], [henorm_one_kernel], [henorm_fro_kernel]) and the
      batch entry point [henorm];
    - [src/internal/internal_syr2k.cc]: the dispatcher [syr2k] and its four
      realizations (HostTask, HostNest, HostBatch, Devices),
    followed by the properties established for them.

    Conventions.  Device and tile memory is a function from offsets to values.
    The [int64_t] sizes of [henorm] that the source documents as non-negative
    ([n], [lda], [ldv], [batch_count]) are naturals; tile-grid indices of the
    rank-2k update are integers, because the source computes [C.nt()-1].
    Threads of one block write disjoint shared-memory cells between two
    barriers, so a block is run thread after thread. *)

From Stdlib Require Import ZArith List Reals Lra Lia Bool Permutation.
From Stdlib Require Import FunctionalExtensionality.
From stdpp Require Import base tactics list.

Set Default Proof Using "Type".

(** ** Enumerations of [lapack] and [slate] used by both units *)

Inductive Uplo := Upper | Lower | General.
Inductive Norm := One | Two | Inf | Fro | Max.
Inductive Op := NoTrans | Trans | ConjTrans.
Inductive Layout := ColMajor | RowMajor.
Inductive Target := HostTask | HostNest | HostBatch | Devices.

Global Instance Uplo_eq_dec : EqDecision Uplo.
Proof. solve_decision. Defined.
Global Instance Norm_eq_dec : EqDecision Norm.
Proof. solve_decision. Defined.
Global Instance Op_eq_dec : EqDecision Op.
Proof. solve_decision. Defined.
Global Instance Layout_eq_dec : EqDecision Layout.
Proof. solve_decision. Defined.
Global Instance Target_eq_dec : EqDecision Target.
Proof. solve_decision. Defined.

(** * Part I: [device_henorm.hip.cc] *)

(** ** Arithmetic interface of the kernels *)

(** [real_t = blas::real_type<scalar_t>]: the operations the kernels apply to
    it directly ([0], [1], [sum += x], [sumsq *= 2], [abs]). *)
Class RealType (real_t : Type) := {
  r_zero : real_t;
  r_one : real_t;
  r_add : real_t -> real_t -> real_t;
  r_double : real_t -> real_t;
  r_abs : real_t -> real_t;
}.

(** Modelled from the spec: [device_util.hip.hh] is not among the sources, so
    its helpers are an interface.  [max_nan x y] is the NaN-dominant maximum,
    [add_sumsq (scale, sumsq) absx] adds one magnitude to a scaled
    sum-of-squares pair and [combine_sumsq p1 p2] adds two pairs (section 3,
    Reduction Accumulator).  The source passes [scale] and [sumsq] by
    reference; here the updated pair is returned. *)
Class DeviceUtil (real_t : Type) := {
  max_nan : real_t -> real_t -> real_t;
  add_sumsq : real_t * real_t -> real_t -> real_t * real_t;
  combine_sumsq : real_t * real_t -> real_t * real_t -> real_t * real_t;
}.

(** [scalar_t]: [abs(x)] and [real(x)], both of type [real_t]. *)
Class ScalarType (scalar_t real_t : Type) := {
  s_abs : scalar_t -> real_t;
  s_real : scalar_t -> real_t;
}.

(** Memory cell update, [m[i] = x]. *)
Definition upd {A : Type} (m : nat -> A) (i : nat) (x : A) : nat -> A :=
  fun k => if Nat.eqb k i then x else m k.

(** Rows visited by thread [tid]:
    [for (int i = threadIdx.x; i < n; i += blockDim.x)]. *)
Definition thread_rows (blockDim n tid : nat) : list nat :=
  map (fun q => tid + q * blockDim) (seq 0 ((n - tid + (blockDim - 1)) / blockDim)).

(** [for (int64_t j = 0; j < i && j < n; ++j)]. *)
Definition strictly_lower (n i : nat) : list nat := seq 0 (Nat.min i n).

(** [for (int64_t j = n-1; j > i; --j)]. *)
Definition strictly_upper (n i : nat) : list nat := rev (seq (S i) (n - 1 - i)).

(** The stored off-diagonal columns of row [i]; the source tests
    [uplo == lapack::Uplo::Lower] and takes the other branch otherwise. *)
Definition stored_cols (uplo : Uplo) (n i : nat) : list nat :=
  match uplo with
  | Lower => strictly_lower n i
  | _ => strictly_upper n i
  end.

Section Kernels.
Context {scalar_t real_t : Type}.
Context `{RT : RealType real_t} `{DU : DeviceUtil real_t}.
Context `{ST : ScalarType scalar_t real_t}.

(** A tile, [scalar_t const* tile]: element (i, j) is [tile (i + j*lda)]. *)
Definition tile_t := nat -> scalar_t.

(** Modelled from the spec: [max_nan_reduce(n, tid, x)] of
    [device_util.hip.hh], the in-shared-memory tree-style reduction that
    leaves the NaN-dominant maximum of [x[0..n)] in [x[0]] (section 4.4):
    for each stride [s], thread [tid < s] with [tid + s < n] folds
    [x[tid+s]] into [x[tid]]. *)
Definition max_nan_reduce_step (n s : nat) (x : nat -> real_t) : nat -> real_t :=
  if Nat.ltb s n
  then fun tid => if Nat.ltb tid s && Nat.ltb (tid + s) n
                  then max_nan (x tid) (x (tid + s)) else x tid
  else x.

Definition reduce_strides : list nat :=
  [1024; 512; 256; 128; 64; 32; 16; 8; 4; 2; 1].

Definition max_nan_reduce (n : nat) (x : nat -> real_t) : nat -> real_t :=
  fold_left (fun x s => max_nan_reduce_step n s x) reduce_strides x.

(** *** [henorm_max_kernel] *)

(** Body of the row loop: the maximum of row [i] over the stored triangle. *)
Definition henorm_max_row (uplo : Uplo) (n : nat) (tile : tile_t) (lda i : nat) : real_t :=
  let row k := tile (i + k) in
  let max := fold_left (fun max j => max_nan max (s_abs (row (j * lda))))
                       (stored_cols uplo n i) r_zero in
  max_nan max (r_abs (s_real (row (i * lda)))).

(** One iteration of the row loop of a thread, on the shared [row_max]. *)
Definition henorm_max_iter (uplo : Uplo) (n : nat) (tile : tile_t) (lda blockDim : nat)
    (row_max : nat -> real_t) (i : nat) : nat -> real_t :=
  let chunk := i mod blockDim in
  let row_max := if Nat.ltb i blockDim then upd row_max chunk r_zero else row_max in
  let max := henorm_max_row uplo n tile lda i in
  upd row_max chunk (max_nan max (row_max chunk)).

(** Thread [tid] up to the barrier. *)
Definition henorm_max_thread (uplo : Uplo) (n : nat) (tile : tile_t) (lda blockDim : nat)
    (row_max : nat -> real_t) (tid : nat) : nat -> real_t :=
  let row_max := if Nat.ltb tid blockDim then upd row_max tid r_zero else row_max in
  fold_left (henorm_max_iter uplo n tile lda blockDim) (thread_rows blockDim n tid) row_max.

(** One thread block: [shared] is the content of the dynamic shared memory
    at launch; the result is the value stored to [tiles_maxima[blockIdx.x]]. *)
Definition henorm_max_block (uplo : Uplo) (n : nat) (tile : tile_t) (lda blockDim : nat)
    (shared : nat -> real_t) : real_t :=
  let row_max := fold_left (henorm_max_thread uplo n tile lda blockDim)
                           (seq 0 blockDim) shared in
  max_nan_reduce blockDim row_max 0.

(** The grid: block [k] handles [Aarray[k]]. *)
Definition henorm_max_kernel (gridDim blockDim : nat) (shared : nat -> nat -> real_t)
    (uplo : Uplo) (n : nat) (Aarray : nat -> tile_t) (lda : nat)
    (tiles_maxima : nat -> real_t) : nat -> real_t :=
  fold_left (fun out blockIdx =>
               upd out blockIdx
                   (henorm_max_block uplo n (Aarray blockIdx) lda blockDim (shared blockIdx)))
            (seq 0 gridDim) tiles_maxima.

(** *** [henorm_one_kernel] *)

(** Body of the loop over [k]: the sum of column [k] of the full tile, read
    from row [k] and column [k] of the stored triangle. *)
Definition henorm_one_col (uplo : Uplo) (n : nat) (tile : tile_t) (lda k : nat) : real_t :=
  let row j := tile (k + j) in
  let column i := tile (lda * k + i) in
  match uplo with
  | Lower =>
      let sum := fold_left (fun sum j => r_add sum (s_abs (row (j * lda)))) (seq 0 k) r_zero in
      let sum := r_add sum (r_abs (s_real (row (k * lda)))) in
      fold_left (fun sum i => r_add sum (s_abs (column i))) (seq (S k) (n - S k)) sum
  | _ =>
      let sum := fold_left (fun sum j => r_add sum (s_abs (row (j * lda))))
                           (strictly_upper n k) r_zero in
      let sum := r_add sum (r_abs (s_real (row (k * lda)))) in
      fold_left (fun sum i => r_add sum (s_abs (column i))) (seq 0 (Nat.min k n)) sum
  end.

Definition henorm_one_thread (uplo : Uplo) (n : nat) (tile : tile_t) (lda blockDim : nat)
    (blockIdx ldv : nat) (tiles_sums : nat -> real_t) (tid : nat) : nat -> real_t :=
  fold_left (fun out k => upd out (blockIdx * ldv + k) (henorm_one_col uplo n tile lda k))
            (thread_rows blockDim n tid) tiles_sums.

Definition henorm_one_block (uplo : Uplo) (n : nat) (tile : tile_t) (lda blockDim : nat)
    (blockIdx ldv : nat) (tiles_sums : nat -> real_t) : nat -> real_t :=
  fold_left (henorm_one_thread uplo n tile lda blockDim blockIdx ldv)
            (seq 0 blockDim) tiles_sums.

Definition henorm_one_kernel (gridDim blockDim : nat)
    (uplo : Uplo) (n : nat) (Aarray : nat -> tile_t) (lda : nat)
    (tiles_sums : nat -> real_t) (ldv : nat) : nat -> real_t :=
  fold_left (fun out blockIdx =>
               henorm_one_block uplo n (Aarray blockIdx) lda blockDim blockIdx ldv out)
            (seq 0 gridDim) tiles_sums.

(** *** [henorm_fro_kernel] *)

(** Body of the row loop up to the store: the scaled sum of squares of
    row [i], the off-diagonal part doubled, the diagonal added once. *)
Definition henorm_fro_row (uplo : Uplo) (n : nat) (tile : tile_t) (lda i : nat)
    : real_t * real_t :=
  let row k := tile (i + k) in
  let '(scale, sumsq) :=
    fold_left (fun p j => add_sumsq p (s_abs (row (j * lda))))
              (stored_cols uplo n i) (r_zero, r_one) in
  let sumsq := r_double sumsq in
  add_sumsq (scale, sumsq) (r_abs (s_real (row (i * lda)))).

(** [row_scale = shared], [row_sumsq = &row_scale[blockDim.x]]. *)
Definition henorm_fro_iter (uplo : Uplo) (n : nat) (tile : tile_t) (lda blockDim : nat)
    (shared : nat -> real_t) (i : nat) : nat -> real_t :=
  let chunk := i mod blockDim in
  let p := henorm_fro_row uplo n tile lda i in
  let shared :=
    if Nat.ltb i blockDim
    then upd (upd shared chunk r_zero) (blockDim + chunk) r_one
    else shared in
  let '(scale1, sumsq1) := combine_sumsq (shared chunk, shared (blockDim + chunk)) p in
  upd (upd shared (blockDim + chunk) sumsq1) chunk scale1.

Definition henorm_fro_thread (uplo : Uplo) (n : nat) (tile : tile_t) (lda blockDim : nat)
    (shared : nat -> real_t) (tid : nat) : nat -> real_t :=
  fold_left (henorm_fro_iter uplo n tile lda blockDim) (thread_rows blockDim n tid) shared.

(** One thread block; the result is the pair stored to
    [tiles_values[blockIdx.x*2 + 0]] and [tiles_values[blockIdx.x*2 + 1]]
    by thread 0, which combines the chunks
    [for (chunk = 1; chunk < blockDim.x && chunk < n; ++chunk)]. *)
Definition henorm_fro_block (uplo : Uplo) (n : nat) (tile : tile_t) (lda blockDim : nat)
    (shared : nat -> real_t) : real_t * real_t :=
  let shared := fold_left (henorm_fro_thread uplo n tile lda blockDim)
                          (seq 0 blockDim) shared in
  fold_left (fun p chunk => combine_sumsq p (shared chunk, shared (blockDim + chunk)))
            (seq 1 (Nat.min blockDim n - 1)) (shared 0, shared blockDim).

Definition henorm_fro_kernel (gridDim blockDim : nat) (shared : nat -> nat -> real_t)
    (uplo : Uplo) (n : nat) (Aarray : nat -> tile_t) (lda : nat)
    (tiles_values : nat -> real_t) : nat -> real_t :=
  fold_left (fun out blockIdx =>
               let '(tile_scale, tile_sumsq) :=
                 henorm_fro_block uplo n (Aarray blockIdx) lda blockDim (shared blockIdx) in
               upd (upd out (blockIdx * 2 + 0) tile_scale) (blockIdx * 2 + 1) tile_sumsq)
            (seq 0 gridDim) tiles_values.

(** *** The batch entry point [henorm] *)

Inductive kernel_id := KMax | KOne | KFro.

(** One [hipLaunchKernelGGL]: kernel, grid and block size, bytes of dynamic
    shared memory in units of [sizeof(real_t)], and the [n] and [ldv] passed. *)
Record launch := {
  l_kernel : kernel_id;
  l_grid : nat;
  l_block : nat;
  l_shared : nat;
  l_uplo : Uplo;
  l_n : nat;
  l_lda : nat;
  l_ldv : nat;
}.

(** How a call to [henorm] ends: it returns, an [assert] of the source
    fails, or [slate_assert(error == hipSuccess)] fails. *)
Inductive henorm_exit := Returned | AssertFailed | DeviceFault.

Record henorm_result := {
  h_exit : henorm_exit;
  h_values : nat -> real_t;
  h_launches : list launch;
}.

(** [blas::device_memset(ptr, 0, nelements, queue)]. *)
Definition device_memset (ptr : nat -> real_t) (nelements : nat) : nat -> real_t :=
  fun k => if Nat.ltb k nelements then r_zero else ptr k.

(** The environment of a call: [ndebug] tells whether [assert] is compiled
    out, [hip_ok] is what [hipGetLastError() == hipSuccess] yields, and
    [shared] the shared memory each block starts with. *)
Record henorm_env := {
  ndebug : bool;
  hip_ok : bool;
  shared_init : nat -> nat -> real_t;
}.

Definition finish (env : henorm_env) (values : nat -> real_t) (ls : list launch)
    : henorm_result :=
  {| h_exit := if hip_ok env then Returned else DeviceFault;
     h_values := values; h_launches := ls |}.

Definition assert_failed (values : nat -> real_t) : henorm_result :=
  {| h_exit := AssertFailed; h_values := values; h_launches := [] |}.

Definition henorm (env : henorm_env) (norm : Norm) (uplo : Uplo) (n : nat)
    (Aarray : nat -> tile_t) (lda : nat) (values : nat -> real_t)
    (ldv batch_count : nat) : henorm_result :=
  let nb := 512 in
  if Nat.eqb batch_count 0 then
    {| h_exit := Returned; h_values := values; h_launches := [] |}
  else if decide (norm = Max) then
    if Nat.eqb n 0 then finish env (device_memset values batch_count) []
    else if ndebug env || Nat.eqb ldv 1 then
      finish env
        (henorm_max_kernel batch_count nb (shared_init env) uplo n Aarray lda values)
        [{| l_kernel := KMax; l_grid := batch_count; l_block := nb; l_shared := nb;
            l_uplo := uplo; l_n := n; l_lda := lda; l_ldv := ldv |}]
    else assert_failed values
  else if decide (norm = One \/ norm = Inf) then
    if Nat.eqb n 0 then finish env (device_memset values (batch_count * n)) []
    else if ndebug env || Nat.leb n ldv then
      finish env
        (henorm_one_kernel batch_count nb uplo n Aarray lda values ldv)
        [{| l_kernel := KOne; l_grid := batch_count; l_block := nb; l_shared := 0;
            l_uplo := uplo; l_n := n; l_lda := lda; l_ldv := ldv |}]
    else assert_failed values
  else if decide (norm = Fro) then
    if Nat.eqb n 0 then finish env (device_memset values (batch_count * 2)) []
    else if ndebug env || Nat.eqb ldv 2 then
      finish env
        (henorm_fro_kernel batch_count nb (shared_init env) uplo n Aarray lda values)
        [{| l_kernel := KFro; l_grid := batch_count; l_block := nb; l_shared := nb * 2;
            l_uplo := uplo; l_n := n; l_lda := lda; l_ldv := ldv |}]
    else assert_failed values
  else finish env values [].

End Kernels.

(** ** Instances of the arithmetic interface *)

(** *** Idealized reals: no rounding, no overflow, no NaN *)

Global Instance R_RealType : RealType R := {|
  r_zero := 0%R;
  r_one := 1%R;
  r_add := Rplus;
  r_double := fun x => (x * 2)%R;
  r_abs := Rabs;
|}.

(** Modelled from the spec: [add_sumsq] of [device_util.hip.hh]; the pair
    (scale, sumsq) stands for scale^2 * sumsq, and a magnitude larger than
    the scale becomes the new scale, the old sum being rescaled (section 3). *)
Definition R_add_sumsq (p : R * R) (absx : R) : R * R :=
  let '(scale, sumsq) := p in
  if Rlt_dec scale absx then (absx, 1 + sumsq * (scale / absx) * (scale / absx))%R
  else if Req_dec_T scale 0 then (scale, sumsq)
  else (scale, sumsq + (absx / scale) * (absx / scale))%R.

(** Modelled from the spec: [combine_sumsq] of [device_util.hip.hh];
    combining two pairs rescales the one with the smaller scale before
    adding (section 3). *)
Definition R_combine_sumsq (p1 p2 : R * R) : R * R :=
  let '(scale1, sumsq1) := p1 in
  let '(scale2, sumsq2) := p2 in
  if Rlt_dec scale2 scale1
  then (scale1, sumsq1 + sumsq2 * (scale2 / scale1) * (scale2 / scale1))%R
  else if Req_dec_T scale2 0 then (scale1, sumsq1)
  else (scale2, sumsq1 * (scale1 / scale2) * (scale1 / scale2) + sumsq2)%R.

(** Modelled from the spec: on reals the NaN-dominant maximum is the maximum. *)
Global Instance R_DeviceUtil : DeviceUtil R := {|
  max_nan := Rmax;
  add_sumsq := R_add_sumsq;
  combine_sumsq := R_combine_sumsq;
|}.

(** [scalar_t = float, double]. *)
Global Instance R_real_scalar : ScalarType R R := {|
  s_abs := Rabs;
  s_real := fun x => x;
|}.

(** [scalar_t = hipFloatComplex, hipDoubleComplex]: (real part, imaginary part). *)
Definition complexR : Type := R * R.

Global Instance R_complex_scalar : ScalarType complexR R := {|
  s_abs := fun z => sqrt (fst z * fst z + snd z * snd z);
  s_real := fst;
|}.

(** *** Reals with a NaN: arithmetic is exact on finite values and NaN is
    absorbing *)

Inductive nreal := NaN | Fin (x : R).

Definition is_nan (x : nreal) : bool :=
  match x with NaN => true | Fin _ => false end.

Definition nlift1 (f : R -> R) (x : nreal) : nreal :=
  match x with Fin a => Fin (f a) | NaN => NaN end.

Definition nlift2 (f : R -> R -> R) (x y : nreal) : nreal :=
  match x, y with Fin a, Fin b => Fin (f a b) | _, _ => NaN end.

Definition nlift_pair (p : R * R) : nreal * nreal := (Fin (fst p), Fin (snd p)).

Global Instance nreal_RealType : RealType nreal := {|
  r_zero := Fin 0;
  r_one := Fin 1;
  r_add := nlift2 Rplus;
  r_double := nlift1 (fun x => (x * 2)%R);
  r_abs := nlift1 Rabs;
|}.

(** Modelled from the spec: the helpers of [device_util.hip.hh] on values that
    may be NaN.  Any NaN input makes the result NaN (section 3 for the maximum,
    section 8 for the sum of squares); on finite values they are the helpers
    above. *)
Definition nreal_add_sumsq (p : nreal * nreal) (absx : nreal) : nreal * nreal :=
  match p, absx with
  | (Fin scale, Fin sumsq), Fin a => nlift_pair (R_add_sumsq (scale, sumsq) a)
  | _, _ => (NaN, NaN)
  end.

Definition nreal_combine_sumsq (p1 p2 : nreal * nreal) : nreal * nreal :=
  match p1, p2 with
  | (Fin scale1, Fin sumsq1), (Fin scale2, Fin sumsq2) =>
      nlift_pair (R_combine_sumsq (scale1, sumsq1) (scale2, sumsq2))
  | _, _ => (NaN, NaN)
  end.

Global Instance nreal_DeviceUtil : DeviceUtil nreal := {|
  max_nan := nlift2 Rmax;
  add_sumsq := nreal_add_sumsq;
  combine_sumsq := nreal_combine_sumsq;
|}.

Global Instance nreal_real_scalar : ScalarType nreal nreal := {|
  s_abs := nlift1 Rabs;
  s_real := fun x => x;
|}.

Definition ncomplex : Type := nreal * nreal.

Global Instance nreal_complex_scalar : ScalarType ncomplex nreal := {|
  s_abs := fun z => nlift2 (fun a b => sqrt (a * a + b * b)) (fst z) (snd z);
  s_real := fst;
|}.

(** An entry is NaN when a component of it is. *)
Definition ncomplex_is_nan (z : ncomplex) : bool := is_nan (fst z) || is_nan (snd z).

(** ** Vocabulary of the properties of Part I *)

(** The strict part of the declared triangle: (i, j) is stored off the
    diagonal of an n-by-n tile. *)
Definition stored (uplo : Uplo) (n i j : nat) : Prop :=
  i < n /\ j < n /\ match uplo with Lower => j < i | _ => i < j end.

(** Two tiles agree on everything the declared triangle holds: the strict
    part and the real part of the diagonal. *)
Definition agree_declared {scalar_t real_t} `{ScalarType scalar_t real_t}
    (uplo : Uplo) (n lda : nat) (t1 t2 : nat -> scalar_t) : Prop :=
  (forall i j, stored uplo n i j -> t1 (i + j * lda) = t2 (i + j * lda)) /\
  (forall i, i < n -> s_real (t1 (i + i * lda)) = s_real (t2 (i + i * lda))).

(** A scaled sum-of-squares pair is NaN when a component of it is. *)
Definition pair_nan {real_t} (isnan : real_t -> bool) (p : real_t * real_t) : bool :=
  isnan (fst p) || isnan (snd p).

(** What section 3 asks of the helpers about NaN: it is dominant. *)
Class NanDominant {real_t} `{RealType real_t} `{DeviceUtil real_t}
    (isnan : real_t -> bool) : Prop := {
  max_nan_nan_l : forall x y, isnan x = true -> isnan (max_nan x y) = true;
  max_nan_nan_r : forall x y, isnan y = true -> isnan (max_nan x y) = true;
  r_double_nan : forall x, isnan x = true -> isnan (r_double x) = true;
  add_sumsq_nan_acc : forall p x,
    pair_nan isnan p = true -> pair_nan isnan (add_sumsq p x) = true;
  add_sumsq_nan_val : forall p x,
    isnan x = true -> pair_nan isnan (add_sumsq p x) = true;
  combine_sumsq_nan_l : forall p q,
    pair_nan isnan p = true -> pair_nan isnan (combine_sumsq p q) = true;
  combine_sumsq_nan_r : forall p q,
    pair_nan isnan q = true -> pair_nan isnan (combine_sumsq p q) = true;
}.

(** What the kernels take from the tile for position (i, j) of the declared
    triangle is NaN: the magnitude of a strict entry, or the magnitude of the
    real part of a diagonal entry. *)
Definition reads_nan {scalar_t real_t} `{RealType real_t} `{ScalarType scalar_t real_t}
    (isnan : real_t -> bool) (uplo : Uplo) (n : nat) (tile : nat -> scalar_t)
    (lda i j : nat) : Prop :=
  (stored uplo n i j /\ isnan (s_abs (tile (i + j * lda))) = true) \/
  (i < n /\ j = i /\ isnan (r_abs (s_real (tile (i + i * lda)))) = true).

(** The stride requirement that [henorm] asserts for each norm kind. *)
Definition stride_ok (norm : Norm) (n ldv : nat) : bool :=
  match norm with
  | Max => Nat.eqb ldv 1
  | One | Inf => Nat.leb n ldv
  | Fro => Nat.eqb ldv 2
  | Two => true
  end.

(** Number of leading entries of the output that [henorm] clears for a batch
    of empty tiles. *)
Definition zeroed_entries (norm : Norm) (n batch_count : nat) : nat :=
  match norm with
  | Max => batch_count
  | One | Inf => batch_count * n
  | Fro => batch_count * 2
  | Two => 0
  end.

(** The single launch [henorm] issues for a batch of non-empty tiles. *)
Definition batch_launch (norm : Norm) (uplo : Uplo) (n lda ldv batch_count : nat) : launch :=
  {| l_kernel := match norm with Max => KMax | Fro => KFro | _ => KOne end;
     l_grid := batch_count;
     l_block := 512;
     l_shared := match norm with Max => 512 | Fro => 512 * 2 | _ => 0 end;
     l_uplo := uplo; l_n := n; l_lda := lda; l_ldv := ldv |}.

(** Sum of [f] over a list of indices. *)
Definition sumR (l : list nat) (f : nat -> R) : R :=
  fold_right (fun i acc => (f i + acc)%R) 0%R l.

(** The value a scaled pair stands for. *)
Definition sumsq_value (p : R * R) : R := (fst p * fst p * snd p)%R.

(** Columns of the strict declared triangle in row [i]. *)
Definition strict_triangle (uplo : Uplo) (n i : nat) : list nat :=
  match uplo with
  | Lower => seq 0 i
  | Upper => seq (S i) (n - S i)
  | General => []
  end.

(** Reference Frobenius norm squared of the full Hermitian tile: |a|^2 over
    the strict declared triangle counted twice, the squared real parts of the
    diagonal once. *)
Definition frobenius_sq {scalar_t} `{ScalarType scalar_t R}
    (uplo : Uplo) (n : nat) (tile : nat -> scalar_t) (lda : nat) : R :=
  sumR (seq 0 n) (fun i =>
    let offdiag (j : nat) : R := s_abs (tile (i + j * lda)%nat) in
    let diag : R := s_real (tile (i + i * lda)%nat) in
    2 * sumR (strict_triangle uplo n i) (fun j => offdiag j * offdiag j) + diag * diag)%R.

(** ** Closed forms used in the proofs of Part I *)

Section KernelCells.
Context {scalar_t real_t : Type}.
Context `{RT : RealType real_t} `{DU : DeviceUtil real_t}.
Context `{ST : ScalarType scalar_t real_t}.
Implicit Types (tile : nat -> scalar_t) (uplo : Uplo).

(** What one row contributes to the cell of its thread in [row_max], and
    the content of that cell at the barrier. *)
Definition max_cell_step uplo n tile lda blockDim (v : real_t) (i : nat) : real_t :=
  max_nan (henorm_max_row uplo n tile lda i) (if Nat.ltb i blockDim then r_zero else v).

Definition max_cell uplo n tile lda blockDim (tid : nat) : real_t :=
  fold_left (max_cell_step uplo n tile lda blockDim) (thread_rows blockDim n tid) r_zero.

(** The same for the pair of cells of a thread in [row_scale], [row_sumsq]:
    the first row of a thread starts from the pair (0, 1). *)
Definition fro_cell_step uplo n tile lda blockDim (p : real_t * real_t) (i : nat)
    : real_t * real_t :=
  combine_sumsq (if Nat.ltb i blockDim then (r_zero, r_one) else p)
                (henorm_fro_row uplo n tile lda i).

Definition fro_cell uplo n tile lda blockDim (shared : nat -> real_t) (tid : nat)
    : real_t * real_t :=
  fold_left (fro_cell_step uplo n tile lda blockDim) (thread_rows blockDim n tid)
            (shared tid, shared (blockDim + tid)).

End KernelCells.


(** ** Example tiles *)

(** A 2-by-2 lower tile of reals, column-major with [lda = 2]: the stored
    entry (1, 0) is NaN. *)
Definition tile_nan_below : nat -> nreal :=
  fun k => match k with 1 => NaN | _ => Fin 1 end.

(** A 1-by-1 complex tile whose only entry has a NaN imaginary part. *)
Definition tile_nan_imag : nat -> ncomplex := fun _ => (Fin 1, NaN).

(** A 2-by-2 lower tile of reals, column-major with [lda = 2]:
    diagonal 1 and 3, the stored entry (1, 0) is 2, the mirrored cell holds
    100 and is not part of the norm. *)
Definition tile_123 : nat -> R :=
  fun k => match k with 0 => 1 | 1 => 2 | 2 => 100 | _ => 3 end%R.

(** A batch of all-zero tiles, and a debug build in which every launch
    succeeds. *)
Definition no_tiles : nat -> nat -> R := fun _ _ => 0%R.

Definition env_debug : henorm_env (real_t := R) :=
  {| ndebug := false; hip_ok := true; shared_init := fun _ _ => 0%R |}.

(** ** Reference values of the one norm *)

(** The magnitude that position (i, j) of the full Hermitian tile has: the
    real part on the diagonal, the stored entry inside the declared triangle,
    the mirrored stored entry outside it. *)
Definition hermitian_abs {scalar_t} `{ScalarType scalar_t R}
    (uplo : Uplo) (tile : nat -> scalar_t) (lda i j : nat) : R :=
  if Nat.eqb i j then Rabs (s_real (tile (i + i * lda)%nat))
  else if (match uplo with Lower => Nat.ltb j i | _ => Nat.ltb i j end)
       then s_abs (tile (i + j * lda)%nat)
       else s_abs (tile (j + i * lda)%nat).

(** The sum of the magnitudes of column [k] of the full tile. *)
Definition one_norm_col {scalar_t} `{ScalarType scalar_t R}
    (uplo : Uplo) (n : nat) (tile : nat -> scalar_t) (lda k : nat) : R :=
  sumR (seq 0 n) (fun i => hermitian_abs uplo tile lda i k).

(** An upper-triangular 2-by-2 tile of reals, column-major with [lda = 2]:
    diagonal -1 and 4, the stored entry (0, 1) is -7. *)
Definition tile_upper : nat -> R :=
  fun k => match k with 0 => -1 | 2 => -7 | 3 => 4 | _ => 50 end%R.

(** A release build in which every launch succeeds. *)
Definition env_release : henorm_env (real_t := R) :=
  {| ndebug := true; hip_ok := true; shared_init := fun _ _ => 9%R |}.
(** * Part II: [internal_syr2k.cc] *)

(** ** Scalars, tiles and the numeric kernels *)

(** [scalar_t] with exact arithmetic; [is_real] is the constant of that name
    of the matrix classes. *)
Class ScalarRing (K : Type) := {
  k_zero : K;
  k_one : K;
  k_add : K -> K -> K;
  k_mul : K -> K -> K;
  k_sub : K -> K -> K;
  k_opp : K -> K;
  k_conj : K -> K;
  is_real : bool;
}.

(** The laws of exact arithmetic: a commutative ring, and conjugation is the
    identity on a real type. *)
Class ScalarRingLaws (K : Type) `{ScalarRing K} : Prop := {
  k_ring : ring_theory k_zero k_one k_add k_mul k_sub k_opp (@eq K);
  k_conj_real : is_real = true -> forall x : K, k_conj x = x;
}.

(** The data of a tile under the layout requested at acquisition: entry
    (p, q) of the stored array.  Strides are not part of the model. *)
Definition tile_data (K : Type) : Type := nat -> nat -> K.

(** A transposed tile stores entry (r, c) at (c, r). *)
Definition logical_coords (op : Op) (r c : nat) : nat * nat :=
  match op with NoTrans => (r, c) | _ => (c, r) end.

Definition op_val {K} `{ScalarRing K} (op : Op) (x : K) : K :=
  match op with ConjTrans => k_conj x | _ => x end.

(** op(X): entry (r, c) of a stored array seen through a transpose tag. *)
Definition apply_op {K} `{ScalarRing K} (op : Op) (x : tile_data K) : tile_data K :=
  fun r c => let '(p, q) := logical_coords op r c in op_val op (x p q).

Definition dot {K} `{ScalarRing K} (k : nat) (f g : nat -> K) : K :=
  fold_right (fun l acc => k_add (k_mul (f l) (g l)) acc) k_zero (seq 0 k).

Definition in_triangle (uplo : Uplo) (r c : nat) : bool :=
  match uplo with
  | Lower => Nat.leb c r
  | Upper => Nat.leb r c
  | General => true
  end.

Definition flip_uplo (uplo : Uplo) : Uplo :=
  match uplo with Lower => Upper | Upper => Lower | General => General end.

(** Modelled from the spec: the numeric back-end is not among the sources.
    [blas::gemm] on stored arrays, C = alpha op(A) op(B) + beta C on the m-by-n
    leading block of C, with inner dimension k (section 6). *)
Definition blas_gemm {K} `{ScalarRing K} (opA opB : Op) (m n k : nat)
    (alpha : K) (a b : tile_data K) (beta : K) (c : tile_data K) : tile_data K :=
  fun r q =>
    if Nat.ltb r m && Nat.ltb q n
    then k_add (k_mul alpha (dot k (fun l => apply_op opA a r l) (fun l => apply_op opB b l q)))
               (k_mul beta (c r q))
    else c r q.

(** Modelled from the spec: [blas::syr2k] on stored arrays,
    C = alpha op(A) op(B)^T + alpha op(B) op(A)^T + beta C on the triangle
    [uplo] of the n-by-n leading block of C (section 6). *)
Definition blas_syr2k {K} `{ScalarRing K} (uplo : Uplo) (trans : Op) (n k : nat)
    (alpha : K) (a b : tile_data K) (beta : K) (c : tile_data K) : tile_data K :=
  fun r q =>
    if Nat.ltb r n && Nat.ltb q n && in_triangle uplo r q
    then k_add (k_add (k_mul alpha (dot k (fun l => apply_op trans a r l)
                                          (fun l => apply_op trans b q l)))
                      (k_mul alpha (dot k (fun l => apply_op trans b r l)
                                          (fun l => apply_op trans a q l))))
               (k_mul beta (c r q))
    else c r q.

(** A tile handle: transpose tag and stored data. *)
Record Tile (K : Type) := mkTile { t_op : Op; t_data : tile_data K }.
Global Arguments mkTile {K} _ _.
Global Arguments t_op {K} _.
Global Arguments t_data {K} _.

(** Entry (r, c) of the tile as a logical matrix. *)
Definition tile_at {K} `{ScalarRing K} (T : Tile K) (r c : nat) : K :=
  apply_op (t_op T) (t_data T) r c.

(** Modelled from the spec: [transpose] of a tile handle flips its transpose
    tag (section 3); conjugate-transposed tiles occur for real types only,
    where the flip of ConjTrans is NoTrans. *)
Definition transpose {K} (T : Tile K) : Tile K :=
  mkTile (match t_op T with NoTrans => Trans | _ => NoTrans end) (t_data T).

(** Modelled from the spec: the single-tile kernels of [Tile_blas.hh] are
    black boxes that compute on the logical tiles (sections 1 and 6).
    [gemm(alpha, A, B, beta, C)]: C = alpha A B + beta C for an m-by-n tile C
    with transpose tag [opC], returned as the new stored data of C. *)
Definition tile_gemm {K} `{ScalarRing K} (alpha : K) (A B : Tile K) (beta : K)
    (opC : Op) (m n k : nat) (c : tile_data K) : tile_data K :=
  fun p q =>
    let '(r, s) := logical_coords opC p q in
    if Nat.ltb r m && Nat.ltb s n
    then op_val opC (k_add (k_mul alpha (dot k (fun l => tile_at A r l) (fun l => tile_at B l s)))
                           (k_mul beta (op_val opC (c p q))))
    else c p q.

(** [syr2k(alpha, A, B, beta, C)]: C = alpha A B^T + alpha B A^T + beta C on
    the logical triangle [uplo] of an n-by-n tile C. *)
Definition tile_syr2k {K} `{ScalarRing K} (alpha : K) (A B : Tile K) (beta : K)
    (opC : Op) (uplo : Uplo) (n k : nat) (c : tile_data K) : tile_data K :=
  fun p q =>
    let '(r, s) := logical_coords opC p q in
    if Nat.ltb r n && Nat.ltb s n && in_triangle uplo r s
    then op_val opC
           (k_add (k_add (k_mul alpha (dot k (fun l => tile_at A r l) (fun l => tile_at B s l)))
                         (k_mul alpha (dot k (fun l => tile_at B r l) (fun l => tile_at A s l))))
                  (k_mul beta (op_val opC (c p q))))
    else c p q.

(** ** Matrices *)

(** [Matrix<scalar_t>] with a single block column: tile (i, 0) has
    [m_tileMb i] rows and [m_tileNb 0] columns as a logical matrix, transpose
    tag [m_op] and stored data [m_data i]. *)
Record Matrix (K : Type) := mkMatrix {
  m_op : Op;
  m_tileMb : Z -> nat;
  m_tileNb : Z -> nat;
  m_data : Z -> tile_data K;
}.
Global Arguments mkMatrix {K} _ _ _ _.
Global Arguments m_op {K} _.
Global Arguments m_tileMb {K} _ _.
Global Arguments m_tileNb {K} _ _.
Global Arguments m_data {K} _ _.

(** [SymmetricMatrix<scalar_t>] without its data, which the state holds. *)
Record SymmetricMatrix := mkSymmetricMatrix {
  c_op : Op;
  c_uploPhysical : Uplo;
  c_mt : Z;
  c_nt : Z;
  c_tileMb : Z -> nat;
  c_tileNb : Z -> nat;
  c_tileIsLocal : Z -> Z -> bool;
  c_tileDevice : Z -> Z -> Z;
  c_num_devices : Z;
}.

(** Modelled from the spec: [uplo()] is the stored triangle after normalizing
    for the transpose tag (section 4.2); the source says "C is Lower, NoTrans
    or Upper, Trans/ConjTrans". *)
Definition c_uplo (C : SymmetricMatrix) : Uplo :=
  match c_op C with
  | NoTrans => c_uploPhysical C
  | _ => flip_uplo (c_uploPhysical C)
  end.

(** ** State, exceptions and tasks *)

(** A tile of one of the three matrices: A(i, 0), B(i, 0), C(i, j). *)
Inductive tile_ref := RefA (i : Z) | RefB (i : Z) | RefC (i j : Z).

Global Instance tile_ref_eq_dec : EqDecision tile_ref.
Proof. solve_decision. Defined.

(** What is thrown: [std::exception] by the source itself, the exception of
    [slate_not_implemented], and the failure of a tile acquisition. *)
Inductive exn := std_exception | not_implemented | acquire_error.

(** One call into the numeric back-end, as issued. *)
Inductive blas_call (K : Type) :=
| call_batch_gemm (opA opB : Op) (m n k : nat) (alpha : K) (a_array b_array : list tile_ref)
    (beta : K) (c_array : list tile_ref)
| call_batch_syr2k (uplo : Uplo) (trans : Op) (n k : nat) (alpha : K)
    (a_array b_array : list tile_ref) (beta : K) (c_array : list tile_ref)
| call_syr2k (uplo : Uplo) (trans : Op) (n k : nat) (alpha : K) (a b : tile_ref)
    (beta : K) (c : tile_ref)
| call_cblas_gemm_batch (opA_array opB_array : list Op) (m_array n_array k_array : list nat)
    (alpha_array : list K) (a_array b_array : list tile_ref) (beta_array : list K)
    (c_array : list tile_ref).
Global Arguments call_batch_gemm {K} _ _ _ _ _ _ _ _ _ _.
Global Arguments call_batch_syr2k {K} _ _ _ _ _ _ _ _ _.
Global Arguments call_syr2k {K} _ _ _ _ _ _ _ _ _.
Global Arguments call_cblas_gemm_batch {K} _ _ _ _ _ _ _ _ _ _.

(** The state of a call: the stored data of the tiles of C, the life of the
    tiles, the local [err], the number of tasks created so far, the number of
    tasks of the current task region not yet waited for, and the back-end
    calls issued. *)
Record state (K : Type) := mkState {
  s_C : Z -> Z -> tile_data K;
  s_life : tile_ref -> Z;
  s_err : Z;
  s_spawned : nat;
  s_pending : nat;
  s_calls : list (blas_call K);
}.
Global Arguments mkState {K} _ _ _ _ _ _.
Global Arguments s_C {K} _ _ _.
Global Arguments s_life {K} _ _.
Global Arguments s_err {K} _.
Global Arguments s_spawned {K} _.
Global Arguments s_pending {K} _.
Global Arguments s_calls {K} _.

(** How a computation ends: normally, with an exception travelling up the
    current thread, with an exception that left a task or a parallel-loop
    iteration (the program is then terminated), or at a failed [assert]. *)
Inductive result (A : Type) :=
| Ok (a : A)
| Throw (e : exn)
| Escaped (e : exn)
| Aborted.
Global Arguments Ok {A} _.
Global Arguments Throw {A} _.
Global Arguments Escaped {A} _.
Global Arguments Aborted {A}.

Definition M (K A : Type) : Type := state K -> result A * state K.

Global Instance M_ret {K} : MRet (M K) := fun A a st => (Ok a, st).

Global Instance M_bind {K} : MBind (M K) := fun A B f m st =>
  match m st with
  | (Ok a, st') => f a st'
  | (Throw e, st') => (Throw e, st')
  | (Escaped e, st') => (Escaped e, st')
  | (Aborted, st') => (Aborted, st')
  end.

Definition throw {K A} (e : exn) : M K A := fun st => (Throw e, st).

Definition abort {K A} : M K A := fun st => (Aborted, st).

(** [try { body } catch (std::exception& e) { handler }]. *)
Definition try_catch {K} (body handler : M K unit) : M K unit := fun st =>
  match body st with
  | (Throw e, st') => handler st'
  | r => r
  end.

Fixpoint for_each {K X} (l : list X) (body : X -> M K unit) : M K unit :=
  match l with
  | [] => mret tt
  | x :: l => body x ;; for_each l body
  end.

(** [for (int64_t i = lo; i < hi; ++i)]. *)
Definition forZ {K} (lo hi : Z) (body : Z -> M K unit) : M K unit :=
  for_each (seqZ lo (hi - lo)) body.

Definition when {K} (b : bool) (body : M K unit) : M K unit :=
  if b then body else mret tt.

(** [#pragma omp task]: the body runs as a unit of its own; an exception that
    leaves it does not reach the creating thread. *)
Definition omp_task {K} (body : M K unit) : M K unit := fun st =>
  let st0 := mkState (s_C st) (s_life st) (s_err st) (S (s_spawned st)) 0 (s_calls st) in
  let '(r, st1) := body st0 in
  let st2 := mkState (s_C st1) (s_life st1) (s_err st1) (s_spawned st1)
                     (S (s_pending st)) (s_calls st1) in
  match r with
  | Throw e => (Escaped e, st2)
  | _ => (r, st2)
  end.

(** One iteration of a [#pragma omp parallel for]. *)
Definition omp_iteration {K} (body : M K unit) : M K unit := fun st =>
  match body st with
  | (Throw e, st') => (Escaped e, st')
  | r => r
  end.

(** [#pragma omp taskwait]. *)
Definition omp_taskwait {K} : M K unit := fun st =>
  (Ok tt, mkState (s_C st) (s_life st) (s_err st) (s_spawned st) 0 (s_calls st)).

Definition set_err {K} (line : Z) : M K unit := fun st =>
  (Ok tt, mkState (s_C st) (s_life st) line (s_spawned st) (s_pending st) (s_calls st)).

Definition get_err {K} : M K Z := fun st => (Ok (s_err st), st).

(** [if (err) throw std::exception();] *)
Definition rethrow {K} : M K unit :=
  err ← get_err; if decide (err = 0%Z) then mret tt else throw std_exception.

Definition set_C {K} (i j : Z) (d : tile_data K) : M K unit := fun st =>
  (Ok tt,
   mkState (fun i' j' => if decide (i' = i /\ j' = j) then d else s_C st i' j')
           (s_life st) (s_err st) (s_spawned st) (s_pending st) (s_calls st)).

Definition get_C {K} (i j : Z) : M K (tile_data K) := fun st => (Ok (s_C st i j), st).

Definition log_call {K} (c : blas_call K) : M K unit := fun st =>
  (Ok tt, mkState (s_C st) (s_life st) (s_err st) (s_spawned st) (s_pending st)
                  (s_calls st ++ [c])).

(** Modelled from the spec: [tileTick] decrements the life of the tile
    (section 4.1). *)
Definition tileTick {K} (t : tile_ref) : M K unit := fun st =>
  (Ok tt,
   mkState (s_C st) (fun t' => if decide (t' = t) then (s_life st t' - 1)%Z else s_life st t')
           (s_err st) (s_spawned st) (s_pending st) (s_calls st)).

(** Modelled from the spec: [tileRelease] marks a copy on a device as no
    longer needed (section 4.1); it changes neither data nor life. *)
Definition tileRelease {K} (t : tile_ref) (device : Z) : M K unit := mret tt.

(** ** The call environment *)

(** Build and run time: whether [SLATE_WITH_MKL] is defined, whether [assert]
    is compiled out, and which tile acquisitions fail (tile, and device for an
    acquisition on a device). *)
Record environment := mkEnvironment {
  slate_with_mkl : bool;
  asserts_off : bool;
  acquire_fails : tile_ref -> option Z -> bool;
}.

(** One group of [cblas_gemm_batch]; the source keeps one array per field and
    groups of size one. *)
Record gemm_group (K : Type) := mkGroup {
  g_opA : Op; g_opB : Op;
  g_m : nat; g_n : nat; g_k : nat;
  g_alpha : K; g_a : tile_ref; g_b : tile_ref;
  g_beta : K; g_c : tile_ref;
}.
Global Arguments mkGroup {K} _ _ _ _ _ _ _ _ _ _.
Global Arguments g_opA {K} _.
Global Arguments g_opB {K} _.
Global Arguments g_m {K} _.
Global Arguments g_n {K} _.
Global Arguments g_k {K} _.
Global Arguments g_alpha {K} _.
Global Arguments g_a {K} _.
Global Arguments g_b {K} _.
Global Arguments g_beta {K} _.
Global Arguments g_c {K} _.

Fixpoint zip3 {X Y Z} (xs : list X) (ys : list Y) (zs : list Z) : list (X * Y * Z) :=
  match xs, ys, zs with
  | x :: xs, y :: ys, z :: zs => (x, y, z) :: zip3 xs ys zs
  | _, _, _ => []
  end.

Section Syr2k.
Context {K : Type} `{SR : ScalarRing K}.
Variable env : environment.
Variables (alpha : K) (A B : Matrix K) (beta : K) (C : SymmetricMatrix).
Variables (priority queue_index : Z) (layout : Layout).

Local Abbreviation M := (M K).

(** [assert(cond)]. *)
Definition assert_ (cond : bool) : M unit :=
  if asserts_off env || cond then mret tt else abort.

(** [X.tileGetForReading(i, j, LayoutConvert(layout))] on the host and
    [X.tileGetForReading(i, j, device, LayoutConvert(layout))] on a device. *)
Definition tileGetForReading (t : tile_ref) (device : option Z) : M unit :=
  if acquire_fails env t device then throw acquire_error else mret tt.

Definition tileGetForWriting (t : tile_ref) (device : option Z) : M unit :=
  if acquire_fails env t device then throw acquire_error else mret tt.

(** The same for a [std::set<ij_tuple>] of tiles of one matrix. *)
Definition tileGetForReading_set (tiles : list tile_ref) (device : Z) : M unit :=
  if existsb (fun t => acquire_fails env t (Some device)) tiles
  then throw acquire_error else mret tt.

Definition tileGetForWriting_set (tiles : list tile_ref) (device : Z) : M unit :=
  if existsb (fun t => acquire_fails env t (Some device)) tiles
  then throw acquire_error else mret tt.

(** The tile handles [A(i, 0)] and [B(i, 0)]. *)
Definition A_tile (i : Z) : Tile K := mkTile (m_op A) (m_data A i).
Definition B_tile (i : Z) : Tile K := mkTile (m_op B) (m_data B i).

(** [X(i, 0).data()] and [C(i, j).data()] behind a pointer. *)
Definition deref (t : tile_ref) : M (tile_data K) :=
  match t with
  | RefA i => mret (m_data A i)
  | RefB i => mret (m_data B i)
  | RefC i j => get_C i j
  end.

(** [gemm(alpha, X, transpose(Y), beta, C(i, j))] of [Tile_blas.hh]. *)
Definition gemm (alpha : K) (X Y : Tile K) (beta : K) (i j : Z) : M unit :=
  c ← get_C i j;
  set_C i j (tile_gemm alpha X Y beta (c_op C) (c_tileMb C i) (c_tileNb C j) (m_tileNb A 0) c).

(** [syr2k(alpha, A(j, 0), B(j, 0), beta, C(j, j))] of [Tile_blas.hh]. *)
Definition syr2k_tile (alpha : K) (X Y : Tile K) (beta : K) (j : Z) : M unit :=
  c ← get_C j j;
  set_C j j (tile_syr2k alpha X Y beta (c_op C) (c_uplo C) (c_tileNb C j) (m_tileNb A 0) c).

(** The entry of a batch: [c = alpha op(a) op(b) + beta c]. *)
Definition run_gemm (opA opB : Op) (m n k : nat) (alpha : K) (a b : tile_ref) (beta : K)
    (c : tile_ref) : M unit :=
  match c with
  | RefC i j =>
      da ← deref a; db ← deref b; dc ← get_C i j;
      set_C i j (blas_gemm opA opB m n k alpha da db beta dc)
  | _ => mret tt
  end.

Definition run_syr2k (uplo : Uplo) (trans : Op) (n k : nat) (alpha : K) (a b : tile_ref)
    (beta : K) (c : tile_ref) : M unit :=
  match c with
  | RefC i j =>
      da ← deref a; db ← deref b; dc ← get_C i j;
      set_C i j (blas_syr2k uplo trans n k alpha da db beta dc)
  | _ => mret tt
  end.

(** [blas::batch::gemm] with one shape for the whole batch. *)
Definition blas_batch_gemm (opA opB : Op) (m n k : nat) (alpha : K)
    (a_array b_array : list tile_ref) (beta : K) (c_array : list tile_ref) : M unit :=
  log_call (call_batch_gemm opA opB m n k alpha a_array b_array beta c_array);;
  for_each (zip3 a_array b_array c_array)
           (fun '(a, b, c) => run_gemm opA opB m n k alpha a b beta c).

(** [blas::batch::syr2k] with one shape for the whole batch. *)
Definition blas_batch_syr2k (uplo : Uplo) (trans : Op) (n k : nat) (alpha : K)
    (a_array b_array : list tile_ref) (beta : K) (c_array : list tile_ref) : M unit :=
  log_call (call_batch_syr2k uplo trans n k alpha a_array b_array beta c_array);;
  for_each (zip3 a_array b_array c_array)
           (fun '(a, b, c) => run_syr2k uplo trans n k alpha a b beta c).

(** [blas::syr2k] on one tile. *)
Definition blas_syr2k_call (uplo : Uplo) (trans : Op) (n k : nat) (alpha : K)
    (a b : tile_ref) (beta : K) (c : tile_ref) : M unit :=
  log_call (call_syr2k uplo trans n k alpha a b beta c);;
  run_syr2k uplo trans n k alpha a b beta c.

(** [cblas_gemm_batch] with groups of size one. *)
Definition cblas_gemm_batch (groups : list (gemm_group K)) : M unit :=
  log_call (call_cblas_gemm_batch
              (map g_opA groups) (map g_opB groups)
              (map g_m groups) (map g_n groups) (map g_k groups)
              (map g_alpha groups) (map g_a groups) (map g_b groups)
              (map g_beta groups) (map g_c groups));;
  for_each groups (fun g =>
    run_gemm (g_opA g) (g_opB g) (g_m g) (g_n g) (g_k g) (g_alpha g) (g_a g) (g_b g)
             (g_beta g) (g_c g)).

(** *** The dispatcher *)

(** The condition under which [syr2k] throws before dispatching. *)
Definition syr2k_rejects : bool :=
  negb (bool_decide (c_uplo C = Lower)
        && (is_real || (bool_decide (c_op C <> ConjTrans)
                        && bool_decide (m_op A <> ConjTrans)))
        && bool_decide (m_op A = m_op B)).

(** *** Host OpenMP task implementation *)

(** The task of a diagonal tile; the three host implementations share it up
    to the line recorded in [err]. *)
Definition host_diag_body (j : Z) : M unit :=
  tileGetForReading (RefA j) None;;
  tileGetForReading (RefB j) None;;
  tileGetForWriting (RefC j j) None;;
  syr2k_tile alpha (A_tile j) (B_tile j) beta j;;
  tileTick (RefA j);;
  tileTick (RefB j).

(** The task of an off-diagonal tile. *)
Definition HostTask_offdiag_body (i j : Z) : M unit :=
  tileGetForReading (RefA i) None;;
  tileGetForReading (RefA j) None;;
  tileGetForReading (RefB i) None;;
  tileGetForReading (RefB j) None;;
  tileGetForWriting (RefC i j) None;;
  let Aj0 := A_tile j in
  let Bj0 := B_tile j in
  gemm alpha (A_tile i) (transpose Bj0) beta i j;;
  gemm alpha (B_tile i) (transpose Aj0) k_one i j;;
  tileTick (RefA i);;
  tileTick (RefA j);;
  tileTick (RefB i);;
  tileTick (RefB j).

Definition syr2k_HostTask : M unit :=
  assert_ (bool_decide (layout = ColMajor));;
  set_err 0;;
  forZ 0 (c_nt C) (fun j =>
    forZ j (c_mt C) (fun i =>
      when (c_tileIsLocal C i j)
        (if decide (i = j)
         then omp_task (try_catch (host_diag_body j) (set_err 90))
         else omp_task (try_catch (HostTask_offdiag_body i j) (set_err 118)))));;
  omp_taskwait;;
  rethrow.

(** *** Host nested OpenMP implementation *)

(** One iteration of the collapsed parallel loop, for a strictly lower tile. *)
Definition HostNest_offdiag_body (i j : Z) : M unit :=
  tileGetForReading (RefA i) None;;
  tileGetForReading (RefB j) None;;
  tileGetForWriting (RefC i j) None;;
  let Aj0 := A_tile j in
  let Bj0 := B_tile j in
  gemm alpha (A_tile i) (transpose Bj0) beta i j;;
  gemm alpha (B_tile i) (transpose Aj0) k_one i j;;
  tileTick (RefA i);;
  tileTick (RefA j);;
  tileTick (RefB i);;
  tileTick (RefB j).

Definition syr2k_HostNest : M unit :=
  assert_ (bool_decide (layout = ColMajor));;
  set_err 0;;
  forZ 0 (c_nt C) (fun j =>
    when (c_tileIsLocal C j j)
      (omp_task (try_catch (host_diag_body j) (set_err 169))));;
  let C_mt := c_mt C in
  let C_nt := c_nt C in
  forZ 0 C_nt (fun j =>
    forZ 0 C_mt (fun i =>
      when (bool_decide (i >= j + 1)%Z)
        (when (c_tileIsLocal C i j)
           (omp_iteration (try_catch (HostNest_offdiag_body i j) (set_err 203))))));;
  omp_taskwait;;
  rethrow.

(** *** The transpose tags of the batched products *)

(** [Op opA = A.op(); if (C.op() != Op::NoTrans) { ... }]. *)
Definition normalize_opA : M Op :=
  if decide (c_op C <> NoTrans) then
    if decide (m_op A = NoTrans) then mret (c_op C)
    else if bool_decide (m_op A = c_op C) || is_real then mret NoTrans
    else throw std_exception
  else mret (m_op A).

(** [Op opB = (opA == Op::NoTrans ? Op::Trans : Op::NoTrans)]. *)
Definition opB_of (opA : Op) : Op :=
  if decide (opA = NoTrans) then Trans else NoTrans.

(** *** Host batched implementation *)

(** The strictly lower local tiles, in the order of
    [for j < nt: for i = j+1 .. mt-1: if (C.tileIsLocal(i, j))]. *)
Definition offdiag_local : list (Z * Z) :=
  j ← seqZ 0 (c_nt C);
  i ← seqZ (j + 1) (c_mt C - (j + 1));
  if c_tileIsLocal C i j then [(i, j)] else [].

(** The arguments collected for tile (i, j), after the swap for a transposed
    C: the group of the first product and the group of the second. *)
Definition HostBatch_groups (opA opB : Op) (ij : Z * Z)
    : gemm_group K * gemm_group K :=
  let '(i, j) := ij in
  let m := c_tileMb C i in
  let n := c_tileNb C j in
  let k := m_tileNb A 0 in
  let '(opA, opB, ai, bj, aj, bi, m, n) :=
    if decide (c_op C <> NoTrans)
    then (opB, opA, RefB j, RefA i, RefB i, RefA j, n, m)
    else (opA, opB, RefA i, RefB j, RefA j, RefB i, m, n) in
  (mkGroup opA opB m n k alpha ai bj beta (RefC i j),
   mkGroup opA opB m n k alpha bi aj k_one (RefC i j)).

(** The body of [if (batch_count > 0)]. *)
Definition HostBatch_offdiag : M unit :=
  opA ← normalize_opA;
  let opB := opB_of opA in
  for_each offdiag_local (fun '(i, j) =>
    assert_ (Nat.eqb (m_tileMb A i) (c_tileMb C i));;
    assert_ (Nat.eqb (m_tileMb A j) (c_tileNb C j));;
    assert_ (Nat.eqb (m_tileNb A 0) (m_tileNb A 0)));;
  (if slate_with_mkl env then
     cblas_gemm_batch (map (fun ij => fst (HostBatch_groups opA opB ij)) offdiag_local);;
     cblas_gemm_batch (map (fun ij => snd (HostBatch_groups opA opB ij)) offdiag_local)
   else throw not_implemented);;
  for_each offdiag_local (fun '(i, j) =>
    tileTick (RefA i);;
    tileTick (RefA j);;
    tileTick (RefB i);;
    tileTick (RefB j)).

Definition syr2k_HostBatch : M unit :=
  assert_ (bool_decide (layout = ColMajor));;
  set_err 0;;
  forZ 0 (c_nt C) (fun j =>
    when (c_tileIsLocal C j j)
      (omp_task (try_catch (host_diag_body j) (set_err 254))));;
  forZ 0 (c_nt C) (fun j =>
    forZ (j + 1) (c_mt C) (fun i =>
      when (c_tileIsLocal C i j)
        (tileGetForReading (RefA i) None;;
         tileGetForReading (RefB j) None;;
         tileGetForWriting (RefC i j) None)));;
  let batch_count := length offdiag_local in
  when (Nat.ltb 0 batch_count) HostBatch_offdiag;;
  omp_taskwait;;
  rethrow.

(** *** GPU device batched implementation *)

(** The task of the single-tile case. *)
Definition Devices_single_body : M unit :=
  let device := c_tileDevice C 0 0 in
  tileGetForReading (RefA 0) (Some device);;
  tileGetForReading (RefB 0) (Some device);;
  tileGetForWriting (RefC 0 0) (Some device);;
  blas_syr2k_call (c_uploPhysical C) (m_op A) (c_tileNb C 0) (m_tileNb A 0)
                  alpha (RefA 0) (RefB 0) beta (RefC 0 0);;
  tileRelease (RefA 0) device;;
  tileRelease (RefB 0) device;;
  tileTick (RefA 0);;
  tileTick (RefA 0);;
  tileTick (RefB 0);;
  tileTick (RefB 0).

(** [C.tileIsLocal(i, j) && device == C.tileDevice(i, j)]. *)
Definition on_device (device i j : Z) : bool :=
  c_tileIsLocal C i j && bool_decide (device = c_tileDevice C i j).

(** The lower tiles of a device, in the order of
    [for j < nt: for i = j .. mt-1]. *)
Definition lower_on_device (device : Z) : list (Z * Z) :=
  j ← seqZ 0 (c_nt C);
  i ← seqZ j (c_mt C - j);
  if on_device device i j then [(i, j)] else [].

(** The tiles of the two gemm groups: the interior,
    [for j < nt-1: for i = j+1 .. mt-2], and the bottom row,
    [i = mt-1; for j < nt-1]. *)
Definition gemm00_tiles (device : Z) : list (Z * Z) :=
  j ← seqZ 0 (c_nt C - 1);
  i ← seqZ (j + 1) (c_mt C - 1 - (j + 1));
  if on_device device i j then [(i, j)] else [].

Definition gemm10_tiles (device : Z) : list (Z * Z) :=
  let i := (c_mt C - 1)%Z in
  j ← seqZ 0 (c_nt C - 1);
  if on_device device i j then [(i, j)] else [].

(** The tiles of the two syr2k groups: the diagonal, [for j < nt-1], and the
    bottom-right corner, tested at (mt-1, nt-1) and pushed as (nt-1, nt-1). *)
Definition syr2k_0_tiles (device : Z) : list (Z * Z) :=
  j ← seqZ 0 (c_nt C - 1);
  if on_device device j j then [(j, j)] else [].

Definition syr2k_1_tiles (device : Z) : list (Z * Z) :=
  let i := (c_mt C - 1)%Z in
  let j := (c_nt C - 1)%Z in
  if on_device device i j then [(j, j)] else [].

(** The sets of tiles to acquire; a [std::set] is the list of its insertions. *)
Definition A_tiles_gemm (device : Z) : list tile_ref :=
  '(i, j) ← lower_on_device device;
  if decide (i = j) then [] else [RefA i; RefA j].

Definition B_tiles_gemm (device : Z) : list tile_ref :=
  '(i, j) ← lower_on_device device;
  if decide (i = j) then [] else [RefB i; RefB j].

Definition C_tiles_gemm (device : Z) : list tile_ref :=
  '(i, j) ← lower_on_device device;
  if decide (i = j) then [] else [RefC i j].

Definition A_tiles_syr2k (device : Z) : list tile_ref :=
  '(i, j) ← lower_on_device device;
  if decide (i = j) then [RefA j] else [].

Definition B_tiles_syr2k (device : Z) : list tile_ref :=
  '(i, j) ← lower_on_device device;
  if decide (i = j) then [RefB j] else [].

Definition C_tiles_syr2k (device : Z) : list tile_ref :=
  '(i, j) ← lower_on_device device;
  if decide (i = j) then [RefC i j] else [].

(** The task of one device in the general case. *)
Definition Devices_device_body (device : Z) : M unit :=
  opA ← normalize_opA;
  let opB := opB_of opA in
  omp_task (tileGetForReading_set (A_tiles_gemm device) device);;
  omp_task (tileGetForReading_set (B_tiles_gemm device) device);;
  omp_task (tileGetForWriting_set (C_tiles_gemm device) device);;
  omp_taskwait;;
  (* A * B^T *)
  let a_array_gemm00 := map (fun ij => RefA (fst ij)) (gemm00_tiles device) in
  let b_array_gemm00 := map (fun ij => RefB (snd ij)) (gemm00_tiles device) in
  let c_array_gemm00 := map (fun ij => RefC (fst ij) (snd ij)) (gemm00_tiles device) in
  let mb00 := c_tileMb C 0 in
  let nb00 := c_tileNb C 0 in
  let kb := m_tileNb A 0 in
  let a_array_gemm10 := map (fun ij => RefA (fst ij)) (gemm10_tiles device) in
  let b_array_gemm10 := map (fun ij => RefB (snd ij)) (gemm10_tiles device) in
  let c_array_gemm10 := map (fun ij => RefC (fst ij) (snd ij)) (gemm10_tiles device) in
  let mb10 := c_tileMb C (c_mt C - 1) in
  let nb10 := c_tileNb C 0 in
  let swap := bool_decide (c_op C <> NoTrans) in
  let '(opA, opB) := if swap then (opB, opA) else (opA, opB) in
  let '(a_array_gemm00, b_array_gemm00) :=
    if swap then (b_array_gemm00, a_array_gemm00) else (a_array_gemm00, b_array_gemm00) in
  let '(a_array_gemm10, b_array_gemm10) :=
    if swap then (b_array_gemm10, a_array_gemm10) else (a_array_gemm10, b_array_gemm10) in
  let '(mb00, nb00) := if swap then (nb00, mb00) else (mb00, nb00) in
  let '(mb10, nb10) := if swap then (nb10, mb10) else (mb10, nb10) in
  when (Nat.ltb 0 (length c_array_gemm00))
    (blas_batch_gemm opA opB mb00 nb00 kb alpha a_array_gemm00 b_array_gemm00
                     beta c_array_gemm00);;
  when (Nat.ltb 0 (length c_array_gemm10))
    (blas_batch_gemm opA opB mb10 nb10 kb alpha a_array_gemm10 b_array_gemm10
                     beta c_array_gemm10);;
  (* B * A^T: ai => bi, bj => aj, set beta = 1 *)
  let a_array_gemm00 := map (fun ij => RefA (snd ij)) (gemm00_tiles device) in
  let b_array_gemm00 := map (fun ij => RefB (fst ij)) (gemm00_tiles device) in
  let a_array_gemm10 := map (fun ij => RefA (snd ij)) (gemm10_tiles device) in
  let b_array_gemm10 := map (fun ij => RefB (fst ij)) (gemm10_tiles device) in
  let '(a_array_gemm00, b_array_gemm00) :=
    if swap then (b_array_gemm00, a_array_gemm00) else (a_array_gemm00, b_array_gemm00) in
  let '(a_array_gemm10, b_array_gemm10) :=
    if swap then (b_array_gemm10, a_array_gemm10) else (a_array_gemm10, b_array_gemm10) in
  when (Nat.ltb 0 (length c_array_gemm00))
    (blas_batch_gemm opA opB mb00 nb00 kb alpha b_array_gemm00 a_array_gemm00
                     k_one c_array_gemm00);;
  when (Nat.ltb 0 (length c_array_gemm10))
    (blas_batch_gemm opA opB mb10 nb10 kb alpha b_array_gemm10 a_array_gemm10
                     k_one c_array_gemm10);;
  omp_task (tileGetForReading_set (A_tiles_syr2k device) device);;
  omp_task (tileGetForReading_set (B_tiles_syr2k device) device);;
  omp_task (tileGetForWriting_set (C_tiles_syr2k device) device);;
  omp_taskwait;;
  (* diagonal *)
  let a_array_syr2k_0 := map (fun ij => RefA (snd ij)) (syr2k_0_tiles device) in
  let b_array_syr2k_0 := map (fun ij => RefB (snd ij)) (syr2k_0_tiles device) in
  let c_array_syr2k_0 := map (fun ij => RefC (snd ij) (snd ij)) (syr2k_0_tiles device) in
  let nb_syr2k_0 := c_tileNb C 0 in
  (* bottom-right corner *)
  let a_array_syr2k_1 := map (fun ij => RefA (snd ij)) (syr2k_1_tiles device) in
  let b_array_syr2k_1 := map (fun ij => RefB (snd ij)) (syr2k_1_tiles device) in
  let c_array_syr2k_1 := map (fun ij => RefC (snd ij) (snd ij)) (syr2k_1_tiles device) in
  let nb_syr2k_1 := c_tileNb C (c_nt C - 1) in
  let uplo := c_uploPhysical C in
  when (Nat.ltb 0 (length c_array_syr2k_0))
    (blas_batch_syr2k uplo opA nb_syr2k_0 kb alpha a_array_syr2k_0 b_array_syr2k_0
                      beta c_array_syr2k_0);;
  when (Nat.ltb 0 (length c_array_syr2k_1))
    (blas_batch_syr2k uplo opA nb_syr2k_1 kb alpha a_array_syr2k_1 b_array_syr2k_1
                      beta c_array_syr2k_1);;
  (* queue->sync() *)
  for_each (lower_on_device device) (fun '(i, j) =>
    tileRelease (RefA i) device;;
    tileRelease (RefA j) device;;
    tileRelease (RefB i) device;;
    tileRelease (RefB j) device;;
    tileTick (RefA i);;
    tileTick (RefA j);;
    tileTick (RefB i);;
    tileTick (RefB j)).

Definition syr2k_Devices : M unit :=
  assert_ (bool_decide (c_num_devices C > 0)%Z);;
  set_err 0;;
  (if decide (c_nt C = 1%Z) then
     when (c_tileIsLocal C 0 0) (omp_task Devices_single_body)
   else
     forZ 0 (c_num_devices C) (fun device =>
       omp_task (try_catch (Devices_device_body device) (set_err 846))));;
  omp_taskwait;;
  rethrow.

(** *** The dispatch entry point *)

Definition syr2k (target : Target) : M unit :=
  if syr2k_rejects then throw std_exception
  else match target with
       | HostTask => syr2k_HostTask
       | HostNest => syr2k_HostNest
       | HostBatch => syr2k_HostBatch
       | Devices => syr2k_Devices
       end.

End Syr2k.

(** ** Vocabulary and examples for the properties of Part II *)

(** Exact integer scalars, a real type. *)
Global Instance Z_ScalarRing : ScalarRing Z := {|
  k_zero := 0%Z;
  k_one := 1%Z;
  k_add := Z.add;
  k_mul := Z.mul;
  k_sub := Z.sub;
  k_opp := Z.opp;
  k_conj := fun x => x;
  is_real := true;
|}.

(** The realization a target tag selects. *)
Definition realization {K} `{ScalarRing K} (env : environment) (alpha : K) (A B : Matrix K)
    (beta : K) (C : SymmetricMatrix) (layout : Layout) (target : Target) : M K unit :=
  match target with
  | HostTask => syr2k_HostTask env alpha A B beta C layout
  | HostNest => syr2k_HostNest env alpha A B beta C layout
  | HostBatch => syr2k_HostBatch env alpha A B beta C layout
  | Devices => syr2k_Devices env alpha A B beta C
  end.

(** No tile acquisition fails. *)
Definition no_failure (env : environment) : Prop :=
  forall t device, acquire_fails env t device = false.

(** The assertion on the layout passes: [layout == Layout::ColMajor], or
    assertions are compiled out. *)
Definition layout_ok (env : environment) (layout : Layout) : Prop :=
  asserts_off env = true \/ layout = ColMajor.

(** Number of times [t] occurs in a list of ticked tiles. *)
Definition ticks (l : list tile_ref) (t : tile_ref) : Z :=
  Z.of_nat (length (filter (fun t' => t' = t) l)).

(** The tiles ticked for the lower tile (i, j). *)
Definition ticked (ij : Z * Z) : list tile_ref :=
  [RefA (fst ij); RefA (snd ij); RefB (fst ij); RefB (snd ij)].

(** What a back-end call is about: its kind and the tiles of C it updates. *)
Inductive call_kind := KindGemm | KindSyr2k.

Definition call_target {K} (c : blas_call K) : call_kind * list tile_ref :=
  match c with
  | call_batch_gemm _ _ _ _ _ _ _ _ _ c_array => (KindGemm, c_array)
  | call_batch_syr2k _ _ _ _ _ _ _ _ c_array => (KindSyr2k, c_array)
  | call_syr2k _ _ _ _ _ _ _ _ c => (KindSyr2k, [c])
  | call_cblas_gemm_batch _ _ _ _ _ _ _ _ _ c_array => (KindGemm, c_array)
  end.

(** The pointers to the tiles of C in a group. *)
Definition c_refs (tiles : list (Z * Z)) : list tile_ref :=
  map (fun ij => RefC (fst ij) (snd ij)) tiles.

(** The calls that remain when those of the empty groups are skipped. *)
Definition issued (groups : list (call_kind * list (Z * Z))) : list (call_kind * list tile_ref) :=
  omap (fun g => if Nat.ltb 0 (length (snd g)) then Some (fst g, c_refs (snd g)) else None)
       groups.

(** Examples: integer matrices with 1-by-1 tiles, every tile local and on
    device 0; a 1-by-1 and a 2-by-2 tile grid for C. *)
Definition ones_matrix : Matrix Z :=
  mkMatrix NoTrans (fun _ => 1%nat) (fun _ => 1%nat) (fun _ _ _ => 2%Z).

Definition grid (nt : Z) : SymmetricMatrix :=
  mkSymmetricMatrix NoTrans Lower nt nt (fun _ => 1%nat) (fun _ => 1%nat)
                    (fun _ _ => true) (fun _ _ => 0%Z) 1.

Definition state0 : state Z :=
  mkState (fun _ _ _ _ => 5%Z) (fun _ => 3%Z) 0 0 0 [].

(** A debug build without MKL where nothing fails, one where the acquisition
    of A(0, 0) fails, and a build with MKL. *)
Definition env_plain : environment := mkEnvironment false false (fun _ _ => false).

Definition env_A00_fails : environment :=
  mkEnvironment false false (fun t _ => bool_decide (t = RefA 0)).

Definition env_mkl : environment := mkEnvironment true false (fun _ _ => false).

(** [C(i, j) = f(C(i, j))], the other tiles as they are. *)
Definition upd_tile {K} (i j : Z) (f : tile_data K -> tile_data K)
    (Cs : Z -> Z -> tile_data K) : Z -> Z -> tile_data K :=
  fun i' j' => if decide (i' = i /\ j' = j) then f (Cs i j) else Cs i' j'.

(** The summary of a successful run from [st] to [st']: how the tiles of C
    changed, which tiles were ticked, which back-end calls were issued and how
    many tasks were created; [err] is as before. *)
Definition effect {K} (st st' : state K)
    (updC : (Z -> Z -> tile_data K) -> Z -> Z -> tile_data K)
    (tk : list tile_ref) (calls : list (blas_call K)) (tasks : nat) : Prop :=
  s_C st' = updC (s_C st) /\
  s_life st' = (fun t => s_life st t - ticks tk t)%Z /\
  s_err st' = s_err st /\
  s_spawned st' = s_spawned st + tasks /\
  s_calls st' = s_calls st ++ calls.

(** [m] succeeds from every state, with that summary. *)
Definition has_effect {K} (m : M K unit)
    (updC : (Z -> Z -> tile_data K) -> Z -> Z -> tile_data K)
    (tk : list tile_ref) (calls : list (blas_call K)) (tasks : nat) : Prop :=
  forall st, exists st', m st = (Ok tt, st') /\ effect st st' updC tk calls tasks.

(** The data behind a pointer to a tile of A or B. *)
Definition operand {K} `{ScalarRing K} (A B : Matrix K) (t : tile_ref) : tile_data K :=
  match t with
  | RefA i => m_data A i
  | RefB i => m_data B i
  | RefC _ _ => fun _ _ => k_zero
  end.

Definition is_operand (t : tile_ref) : Prop :=
  match t with RefC _ _ => False | _ => True end.

(** What one entry of a batch does to the tiles of C. *)
Definition gemm_update {K} `{ScalarRing K} (A B : Matrix K) (opA opB : Op) (m n k : nat)
    (alpha : K) (a b : tile_ref) (beta : K) (c : tile_ref)
    (Cs : Z -> Z -> tile_data K) : Z -> Z -> tile_data K :=
  match c with
  | RefC i j =>
      upd_tile i j (blas_gemm opA opB m n k alpha (operand A B a) (operand A B b) beta) Cs
  | _ => Cs
  end.

Definition syr2k_update {K} `{ScalarRing K} (A B : Matrix K) (uplo : Uplo) (trans : Op)
    (n k : nat) (alpha : K) (a b : tile_ref) (beta : K) (c : tile_ref)
    (Cs : Z -> Z -> tile_data K) : Z -> Z -> tile_data K :=
  match c with
  | RefC i j =>
      upd_tile i j (blas_syr2k uplo trans n k alpha (operand A B a) (operand A B b) beta) Cs
  | _ => Cs
  end.

Section Updates.
Context {K : Type} `{SR : ScalarRing K}.
Variables (alpha : K) (A B : Matrix K) (beta : K) (C : SymmetricMatrix).

(** What the unit of a diagonal tile does to C on the host. *)
Definition diag_update (j : Z) : (Z -> Z -> tile_data K) -> Z -> Z -> tile_data K :=
  upd_tile j j (tile_syr2k alpha (A_tile A j) (B_tile B j) beta (c_op C) (c_uplo C)
                           (c_tileNb C j) (m_tileNb A 0)).

(** What the unit of an off-diagonal tile does to C on the host. *)
Definition offdiag_update (i j : Z) (Cs : Z -> Z -> tile_data K) : Z -> Z -> tile_data K :=
  upd_tile i j (tile_gemm alpha (B_tile B i) (transpose (A_tile A j)) k_one (c_op C)
                          (c_tileMb C i) (c_tileNb C j) (m_tileNb A 0))
    (upd_tile i j (tile_gemm alpha (A_tile A i) (transpose (B_tile B j)) beta (c_op C)
                             (c_tileMb C i) (c_tileNb C j) (m_tileNb A 0)) Cs).

(** What a back-end call does to C. *)
Definition call_update (c : blas_call K) (Cs : Z -> Z -> tile_data K)
    : Z -> Z -> tile_data K :=
  match c with
  | call_batch_gemm opA opB m n k al a_array b_array be c_array =>
      fold_left (fun Cs '(a, b, c) => gemm_update A B opA opB m n k al a b be c Cs)
                (zip3 a_array b_array c_array) Cs
  | call_batch_syr2k uplo trans n k al a_array b_array be c_array =>
      fold_left (fun Cs '(a, b, c) => syr2k_update A B uplo trans n k al a b be c Cs)
                (zip3 a_array b_array c_array) Cs
  | call_syr2k uplo trans n k al a b be c =>
      syr2k_update A B uplo trans n k al a b be c Cs
  | call_cblas_gemm_batch _ _ _ _ _ _ _ _ _ _ => Cs
  end.

(** The value [normalize_opA] returns when the dispatcher accepted the call. *)
Definition opA_normalized : Op :=
  if decide (c_op C <> NoTrans)
  then (if decide (m_op A = NoTrans) then c_op C else NoTrans)
  else m_op A.

(** The single call of the single-tile device case. *)
Definition single_call : blas_call K :=
  call_syr2k (c_uploPhysical C) (m_op A) (c_tileNb C 0) (m_tileNb A 0)
             alpha (RefA 0) (RefB 0) beta (RefC 0 0).

(** The calls of one device in the general case, those of empty groups
    skipped: the two groups of the first product, the two of the second, the
    two syr2k groups. *)
Definition device_calls (device : Z) : list (blas_call K) :=
  let swap := bool_decide (c_op C <> NoTrans) in
  let opA0 := opA_normalized in
  let opB0 := opB_of opA0 in
  let opA := if swap then opB0 else opA0 in
  let opB := if swap then opA0 else opB0 in
  let kb := m_tileNb A 0 in
  let t00 := gemm00_tiles C device in
  let t10 := gemm10_tiles C device in
  let s0 := syr2k_0_tiles C device in
  let s1 := syr2k_1_tiles C device in
  let shape00 := if swap then (c_tileNb C 0, c_tileMb C 0) else (c_tileMb C 0, c_tileNb C 0) in
  let shape10 := if swap then (c_tileNb C 0, c_tileMb C (c_mt C - 1))
                 else (c_tileMb C (c_mt C - 1), c_tileNb C 0) in
  let Ai tiles := map (fun ij : Z * Z => RefA (fst ij)) tiles in
  let Aj tiles := map (fun ij : Z * Z => RefA (snd ij)) tiles in
  let Bi tiles := map (fun ij : Z * Z => RefB (fst ij)) tiles in
  let Bj tiles := map (fun ij : Z * Z => RefB (snd ij)) tiles in
  let Cjj tiles := map (fun ij : Z * Z => RefC (snd ij) (snd ij)) tiles in
  let first tiles shape :=
    call_batch_gemm opA opB (fst shape) (snd shape) kb alpha
      (if swap then Bj tiles else Ai tiles) (if swap then Ai tiles else Bj tiles)
      beta (c_refs tiles) in
  let second tiles shape :=
    call_batch_gemm opA opB (fst shape) (snd shape) kb alpha
      (if swap then Aj tiles else Bi tiles) (if swap then Bi tiles else Aj tiles)
      k_one (c_refs tiles) in
  let diag tiles n :=
    call_batch_syr2k (c_uploPhysical C) opA n kb alpha (Aj tiles) (Bj tiles) beta (Cjj tiles) in
  (if Nat.ltb 0 (length (c_refs t00)) then [first t00 shape00] else []) ++
  (if Nat.ltb 0 (length (c_refs t10)) then [first t10 shape10] else []) ++
  (if Nat.ltb 0 (length (c_refs t00)) then [second t00 shape00] else []) ++
  (if Nat.ltb 0 (length (c_refs t10)) then [second t10 shape10] else []) ++
  (if Nat.ltb 0 (length (Cjj s0)) then [diag s0 (c_tileNb C 0)] else []) ++
  (if Nat.ltb 0 (length (Cjj s1)) then [diag s1 (c_tileNb C (c_nt C - 1))] else []).

End Updates.

(** What a sequence of back-end calls does to C. *)
Definition calls_update {K} `{ScalarRing K} (A B : Matrix K) (calls : list (blas_call K))
    (Cs : Z -> Z -> tile_data K) : Z -> Z -> tile_data K :=
  fold_left (fun Cs c => call_update A B c Cs) calls Cs.

(** An update of one tile of C: its coordinates and what happens to its data. *)
Definition tile_op (K : Type) : Type := (Z * Z * (tile_data K -> tile_data K))%type.

Definition apply_ops {K} (ops : list (tile_op K)) (Cs : Z -> Z -> tile_data K)
    : Z -> Z -> tile_data K :=
  fold_left (fun Cs op => upd_tile (fst (fst op)) (snd (fst op)) (snd op) Cs) ops Cs.

(** [m] succeeds from every state and updates C by the operations [ops]. *)
Definition has_ops {K} (m : M K unit) (ops : list (tile_op K))
    (tk : list tile_ref) (calls : list (blas_call K)) (tasks : nat) : Prop :=
  has_effect m (apply_ops ops) tk calls tasks.

Section Ops.
Context {K : Type} `{SR : ScalarRing K}.
Variables (alpha : K) (A B : Matrix K) (beta : K) (C : SymmetricMatrix).

(** The operation of a diagonal tile and the two of an off-diagonal tile on
    the host. *)
Definition diag_ops (j : Z) : list (tile_op K) :=
  [(j, j, tile_syr2k alpha (A_tile A j) (B_tile B j) beta (c_op C) (c_uplo C)
                     (c_tileNb C j) (m_tileNb A 0))].

Definition offdiag_ops (i j : Z) : list (tile_op K) :=
  [(i, j, tile_gemm alpha (A_tile A i) (transpose (B_tile B j)) beta (c_op C)
                    (c_tileMb C i) (c_tileNb C j) (m_tileNb A 0));
   (i, j, tile_gemm alpha (B_tile B i) (transpose (A_tile A j)) k_one (c_op C)
                    (c_tileMb C i) (c_tileNb C j) (m_tileNb A 0))].

(** The operations of the entries of a batch. *)
Definition gemm_ops (opA opB : Op) (m n k : nat) (al : K) (a b : tile_ref) (be : K)
    (c : tile_ref) : list (tile_op K) :=
  match c with
  | RefC i j => [(i, j, blas_gemm opA opB m n k al (operand A B a) (operand A B b) be)]
  | _ => []
  end.

Definition syr2k_ops (uplo : Uplo) (trans : Op) (n k : nat) (al : K) (a b : tile_ref)
    (be : K) (c : tile_ref) : list (tile_op K) :=
  match c with
  | RefC i j => [(i, j, blas_syr2k uplo trans n k al (operand A B a) (operand A B b) be)]
  | _ => []
  end.

Definition call_ops (c : blas_call K) : list (tile_op K) :=
  match c with
  | call_batch_gemm opA opB m n k al a_array b_array be c_array =>
      '(a, b, c) ← zip3 a_array b_array c_array; gemm_ops opA opB m n k al a b be c
  | call_batch_syr2k uplo trans n k al a_array b_array be c_array =>
      '(a, b, c) ← zip3 a_array b_array c_array; syr2k_ops uplo trans n k al a b be c
  | call_syr2k uplo trans n k al a b be c => syr2k_ops uplo trans n k al a b be c
  | call_cblas_gemm_batch _ _ _ _ _ _ _ _ _ _ => []
  end.

(** The operations of the groups of [cblas_gemm_batch]. *)
Definition group_ops (g : gemm_group K) : list (tile_op K) :=
  gemm_ops (g_opA g) (g_opB g) (g_m g) (g_n g) (g_k g) (g_alpha g) (g_a g) (g_b g)
           (g_beta g) (g_c g).

(** The lower local tiles, in the order of [for j < nt: for i = j .. mt-1]. *)
Definition lower_local : list (Z * Z) :=
  j ← seqZ 0 (c_nt C);
  i ← seqZ j (c_mt C - j);
  if c_tileIsLocal C i j then [(i, j)] else [].

(** The local diagonal tiles, in the order of [for j < nt]. *)
Definition diag_local : list Z :=
  j ← seqZ 0 (c_nt C); if c_tileIsLocal C j j then [j] else [].

(** The strictly lower local tiles in the order of the collapsed loop of
    HostNest, [for j < nt: for i < mt: if (i >= j+1)]. *)
Definition offdiag_nest : list (Z * Z) :=
  j ← seqZ 0 (c_nt C);
  i ← seqZ 0 (c_mt C);
  if bool_decide (i >= j + 1)%Z && c_tileIsLocal C i j then [(i, j)] else [].

(** The operations on the tiles of C of each realization, in program order. *)
Definition host_tile_ops (ij : Z * Z) : list (tile_op K) :=
  if decide (fst ij = snd ij) then diag_ops (snd ij) else offdiag_ops (fst ij) (snd ij).

Definition HostTask_ops : list (tile_op K) := lower_local ≫= host_tile_ops.

Definition HostNest_ops : list (tile_op K) :=
  (diag_local ≫= diag_ops) ++ (offdiag_nest ≫= (fun ij => offdiag_ops (fst ij) (snd ij))).

Definition HostBatch_ops : list (tile_op K) :=
  (diag_local ≫= diag_ops) ++
  (if Nat.ltb 0 (length (offdiag_local C)) then
     (offdiag_local C ≫= (fun ij =>
        group_ops (fst (HostBatch_groups alpha A beta C (opA_normalized A C)
                                         (opB_of (opA_normalized A C)) ij)))) ++
     (offdiag_local C ≫= (fun ij =>
        group_ops (snd (HostBatch_groups alpha A beta C (opA_normalized A C)
                                         (opB_of (opA_normalized A C)) ij))))
   else []).

Definition Devices_ops : list (tile_op K) :=
  if decide (c_nt C = 1%Z) then
    (if c_tileIsLocal C 0 0 then call_ops (single_call alpha A beta C) else [])
  else
    device ← seqZ 0 (c_num_devices C);
    c ← device_calls alpha A beta C device;
    call_ops c.

Definition realization_ops (target : Target) : list (tile_op K) :=
  match target with
  | HostTask => HostTask_ops
  | HostNest => HostNest_ops
  | HostBatch => HostBatch_ops
  | Devices => Devices_ops
  end.

(** The reference: entry (r, c) of tile (i, j) of
    alpha A B^T + alpha B A^T + beta C, on the logical matrices. *)
Definition reference (Cs : Z -> Z -> tile_data K) (i j : Z) (r c : nat) : K :=
  k_add (k_add (k_mul alpha (dot (m_tileNb A 0) (fun l => tile_at (A_tile A i) r l)
                                 (fun l => tile_at (B_tile B j) c l)))
               (k_mul alpha (dot (m_tileNb A 0) (fun l => tile_at (B_tile B i) r l)
                                 (fun l => tile_at (A_tile A j) c l))))
        (k_mul beta (tile_at (mkTile (c_op C) (Cs i j)) r c)).

End Ops.

(** The shape assertions of the host batched implementation pass. *)
Definition shapes_ok {K} (env : environment) (A : Matrix K) (C : SymmetricMatrix) : Prop :=
  asserts_off env = true \/
  forall i j, In (i, j) (offdiag_local C) ->
    m_tileMb A i = c_tileMb C i /\ m_tileMb A j = c_tileNb C j.

(** The tile grid the device implementation is written for: square, at least
    one tile, the tiles of a block row as high as those of the block column
    are wide, all block rows but the last of one height, every local tile on
    one of the devices, and at least one device (or assertions compiled out). *)
Definition device_grid (env : environment) (C : SymmetricMatrix) : Prop :=
  c_mt C = c_nt C /\ (1 <= c_nt C)%Z /\
  (forall i, c_tileMb C i = c_tileNb C i) /\
  (forall i, (0 <= i < c_nt C - 1)%Z -> c_tileNb C i = c_tileNb C 0) /\
  (forall i j, c_tileIsLocal C i j = true -> (0 <= c_tileDevice C i j < c_num_devices C)%Z) /\
  (asserts_off env = true \/ (c_num_devices C > 0)%Z).

(** The operations of a list that are on tile (i, j), applied in order to the
    data of that tile. *)
Definition ops_at {K} (i j : Z) (ops : list (tile_op K)) (d : tile_data K) : tile_data K :=
  fold_left (fun d op => if decide (fst (fst op) = i /\ snd (fst op) = j) then snd op d else d)
            ops d.

(** No operation of the list is on tile (i, j). *)
Definition misses {K} (i j : Z) (ops : list (tile_op K)) : Prop :=
  forall op, In op ops -> ~ (fst (fst op) = i /\ snd (fst op) = j).

(** A tile of the lower triangle of C that this process holds. *)
Definition lower_tile (C : SymmetricMatrix) (i j : Z) : Prop :=
  (0 <= j < c_nt C)%Z /\ (j <= i < c_mt C)%Z /\ c_tileIsLocal C i j = true.

(** Block row i of C is as high as block column i is wide. *)
Definition square_tiles (C : SymmetricMatrix) : Prop :=
  forall i, c_tileMb C i = c_tileNb C i.

(** What an implementation needs beyond the test of the dispatcher: the
    layout assertion for the host implementations, MKL and the shape
    assertions for HostBatch, the tile grid of the device implementation. *)
Definition target_ok {K} (env : environment) (A : Matrix K) (C : SymmetricMatrix)
    (layout : Layout) (target : Target) : Prop :=
  match target with
  | HostTask | HostNest => layout_ok env layout
  | HostBatch => layout_ok env layout /\ slate_with_mkl env = true /\ shapes_ok env A C
  | Devices => device_grid env C
  end.

Section TileOps.
Context {K : Type} `{SR : ScalarRing K}.
Variables (alpha : K) (A B : Matrix K) (beta : K) (C : SymmetricMatrix).

(** The operations of HostBatch and of a device on the lower tile (i, j). *)
Definition batch_tile_ops (ij : Z * Z) : list (tile_op K) :=
  let g := HostBatch_groups alpha A beta C (opA_normalized A C)
                            (opB_of (opA_normalized A C)) ij in
  group_ops A B (fst g) ++ group_ops A B (snd g).

(** The transpose tag the device implementation passes to the batched
    syr2k. *)
Definition device_trans : Op :=
  if bool_decide (c_op C <> NoTrans) then opB_of (opA_normalized A C)
  else opA_normalized A C.

Definition device_diag_ops (trans : Op) (j : Z) : list (tile_op K) :=
  [(j, j, blas_syr2k (c_uploPhysical C) trans (c_tileNb C j) (m_tileNb A 0) alpha
                     (m_data A j) (m_data B j) beta)].

(** The operations of the calls of one device in the general case, tile by
    tile: the first and the second product on the interior and on the bottom
    row, the syr2k on the diagonal and on the corner. *)
Definition device_ops (device : Z) : list (tile_op K) :=
  let swap := bool_decide (c_op C <> NoTrans) in
  let opA0 := opA_normalized A C in
  let opB0 := opB_of opA0 in
  let opA := if swap then opB0 else opA0 in
  let opB := if swap then opA0 else opB0 in
  let kb := m_tileNb A 0 in
  let shape00 := if swap then (c_tileNb C 0, c_tileMb C 0) else (c_tileMb C 0, c_tileNb C 0) in
  let shape10 := if swap then (c_tileNb C 0, c_tileMb C (c_mt C - 1))
                 else (c_tileMb C (c_mt C - 1), c_tileNb C 0) in
  let first (shape : nat * nat) (ij : Z * Z) :=
    gemm_ops A B opA opB (fst shape) (snd shape) kb alpha
             (if swap then RefB (snd ij) else RefA (fst ij))
             (if swap then RefA (fst ij) else RefB (snd ij))
             beta (RefC (fst ij) (snd ij)) in
  let second (shape : nat * nat) (ij : Z * Z) :=
    gemm_ops A B opA opB (fst shape) (snd shape) kb alpha
             (if swap then RefA (snd ij) else RefB (fst ij))
             (if swap then RefB (fst ij) else RefA (snd ij))
             k_one (RefC (fst ij) (snd ij)) in
  let diag (n : nat) (ij : Z * Z) :=
    syr2k_ops A B (c_uploPhysical C) opA n kb alpha (RefA (snd ij)) (RefB (snd ij))
              beta (RefC (snd ij) (snd ij)) in
  (gemm00_tiles C device ≫= first shape00) ++
  (gemm10_tiles C device ≫= first shape10) ++
  (gemm00_tiles C device ≫= second shape00) ++
  (gemm10_tiles C device ≫= second shape10) ++
  (syr2k_0_tiles C device ≫= diag (c_tileNb C 0)) ++
  (syr2k_1_tiles C device ≫= diag (c_tileNb C (c_nt C - 1))).

End TileOps.

(** ** Vocabulary of the further properties of Part II *)

(** The positions of the tiles of C an implementation may write: in the
    lower triangle, inside the block columns of C, and local. *)
Definition writable (C : SymmetricMatrix) (i j : Z) : Prop :=
  (0 <= j < c_nt C)%Z /\ (j <= i)%Z /\ c_tileIsLocal C i j = true.

(** [m] leaves every tile of C outside [P] as it found it, however it ends. *)
Definition keeps_C {K X} (P : Z -> Z -> Prop) (m : M K X) : Prop :=
  forall st i j, ~ P i j -> s_C (snd (m st)) i j = s_C st i j.

(** The tile a pointer into C names is in [P]. *)
Definition ref_in (P : Z -> Z -> Prop) (t : tile_ref) : Prop :=
  match t with RefC i j => P i j | _ => True end.

(** Whether an acquisition of the unit of tile (i, j) fails: the task of
    HostTask acquires A(j), B(j), C(j, j) on the diagonal and A(i), A(j),
    B(i), B(j), C(i, j) off it; the iteration of HostNest acquires A(i),
    B(j), C(i, j). *)
Definition diag_unit_fails (env : environment) (j : Z) : bool :=
  acquire_fails env (RefA j) None || acquire_fails env (RefB j) None
  || acquire_fails env (RefC j j) None.

Definition HostTask_unit_fails (env : environment) (ij : Z * Z) : bool :=
  let '(i, j) := ij in
  if decide (i = j) then diag_unit_fails env j
  else acquire_fails env (RefA i) None || acquire_fails env (RefA j) None
       || acquire_fails env (RefB i) None || acquire_fails env (RefB j) None
       || acquire_fails env (RefC i j) None.

Definition HostNest_unit_fails (env : environment) (ij : Z * Z) : bool :=
  let '(i, j) := ij in
  acquire_fails env (RefA i) None || acquire_fails env (RefB j) None
  || acquire_fails env (RefC i j) None.

(** [m] returns normally from every state, creates [tasks] tasks, and
    leaves [err] non-zero when [fails] and as it was otherwise. *)
Definition guarded {K} (m : M K unit) (fails : bool) (tasks : nat) : Prop :=
  forall st, exists st',
    m st = (Ok tt, st') /\
    s_spawned st' = s_spawned st + tasks /\
    (if fails then s_err st' <> 0%Z else s_err st' = s_err st).

(** An environment in which the acquisition of B(1, 0) on the host fails. *)
Definition env_B1_fails : environment :=
  mkEnvironment false false (fun t d => bool_decide (t = RefB 1 /\ d = None)).

(** The tiles a host unit ticks for the lower tile (i, j): A(j), B(j) on the
    diagonal, A(i), A(j), B(i), B(j) off it. *)
Definition host_unit_ticks (ij : Z * Z) : list tile_ref :=
  if decide (fst ij = snd ij) then [RefA (snd ij); RefB (snd ij)] else ticked ij.

(** All ticks of a host implementation, unit after unit in the order of
    HostTask. *)
Definition host_ticks (C : SymmetricMatrix) : list tile_ref :=
  lower_local C ≫= host_unit_ticks.

(** All ticks of the device implementation. *)
Definition device_ticks (C : SymmetricMatrix) : list tile_ref :=
  if decide (c_nt C = 1%Z) then
    (if c_tileIsLocal C 0 0 then ticked (0, 0)%Z else [])
  else
    device ← seqZ 0 (c_num_devices C); lower_on_device C device ≫= ticked.

(** The two calls of [cblas_gemm_batch] of HostBatch. *)
Definition HostBatch_calls {K} `{ScalarRing K} (alpha : K) (A : Matrix K) (beta : K)
    (C : SymmetricMatrix) : list (blas_call K) :=
  let opA := opA_normalized A C in
  let call (pick : gemm_group K * gemm_group K -> gemm_group K) :=
    let groups := map (fun ij => pick (HostBatch_groups alpha A beta C opA (opB_of opA) ij))
                      (offdiag_local C) in
    call_cblas_gemm_batch
      (map g_opA groups) (map g_opB groups) (map g_m groups) (map g_n groups)
      (map g_k groups) (map g_alpha groups) (map g_a groups) (map g_b groups)
      (map g_beta groups) (map g_c groups) in
  if Nat.ltb 0 (length (offdiag_local C)) then [call fst; call snd] else [].

(** The back-end calls of the device implementation, device after device. *)
Definition Devices_calls {K} `{ScalarRing K} (alpha : K) (A : Matrix K) (beta : K)
    (C : SymmetricMatrix) : list (blas_call K) :=
  if decide (c_nt C = 1%Z) then
    (if c_tileIsLocal C 0 0 then [single_call alpha A beta C] else [])
  else
    device ← seqZ 0 (c_num_devices C); device_calls alpha A beta C device.

(** The local lower tiles of C that lie in block row k or in block column k:
    the tiles whose update reads A(k, 0) and B(k, 0). *)
Definition tiles_with (C : SymmetricMatrix) (k : Z) : list (Z * Z) :=
  filter (fun ij => fst ij = k \/ snd ij = k) (lower_local C).

(** 1 when (k, k) is a local diagonal tile of C, 0 otherwise. *)
Definition diag_held (C : SymmetricMatrix) (k : Z) : Z :=
  if bool_decide (0 <= k < c_nt C)%Z && c_tileIsLocal C k k then 1%Z else 0%Z.

(** The number of tasks the device implementation creates: one in the
    single-tile case when the tile is local; otherwise, per device, the task
    of the device and the six tasks in it that acquire the tiles of A, B and
    C for the gemm and for the syr2k batches. *)
Definition device_tasks (C : SymmetricMatrix) : nat :=
  if decide (c_nt C = 1%Z) then (if c_tileIsLocal C 0 0 then 1 else 0)
  else 7 * Z.to_nat (c_num_devices C).

(** A 3-by-3 tile grid whose tiles are spread over two devices by block
    row. *)
Definition grid_two_devices : SymmetricMatrix :=
  mkSymmetricMatrix NoTrans Lower 3 3 (fun _ => 1%nat) (fun _ => 1%nat)
                    (fun _ _ => true) (fun i _ => (i mod 2)%Z) 2.

(** Whether an acquisition of the loading loop of HostBatch fails for the
    strictly lower tile (i, j): the loop acquires A(i), B(j) and C(i, j) in
    the calling thread. *)
Definition HostBatch_load_fails (env : environment) (ij : Z * Z) : bool :=
  let '(i, j) := ij in
  acquire_fails env (RefA i) None || acquire_fails env (RefB j) None
  || acquire_fails env (RefC i j) None.

(** A build with MKL in which the acquisition of A(1, 0) on the host fails. *)
Definition env_mkl_A1_fails : environment :=
  mkEnvironment true false (fun t d => bool_decide (t = RefA 1 /\ d = None)).

(** The environment with the same build in which no acquisition fails. *)
Definition without_failures (env : environment) : environment :=
  mkEnvironment (slate_with_mkl env) (asserts_off env) (fun _ _ => false).

(** [m] changes [err] in no state; it returns normally unless [fails], and
    then an exception of a tile acquisition has left a task. *)
Definition escapes {K} (m : M K unit) (fails : bool) : Prop :=
  forall st, exists st',
    m st = (if fails then Escaped acquire_error else Ok tt, st') /\ s_err st' = s_err st.

(** Whether an acquisition of the task of a device fails: a tile of one of
    the six sets the task acquires on the device. *)
Definition device_unit_fails (env : environment) (C : SymmetricMatrix) (device : Z) : bool :=
  existsb (fun t => acquire_fails env t (Some device))
          (A_tiles_gemm C device ++ B_tiles_gemm C device ++ C_tiles_gemm C device ++
           A_tiles_syr2k C device ++ B_tiles_syr2k C device ++ C_tiles_syr2k C device).

(** Whether an acquisition of the single-tile task fails. *)
Definition single_unit_fails (env : environment) (C : SymmetricMatrix) : bool :=
  let device := c_tileDevice C 0 0 in
  acquire_fails env (RefA 0) (Some device) || acquire_fails env (RefB 0) (Some device)
  || acquire_fails env (RefC 0 0) (Some device).

(** Whether an acquisition of the device implementation fails. *)
Definition Devices_fails (env : environment) (C : SymmetricMatrix) : bool :=
  if decide (c_nt C = 1%Z) then c_tileIsLocal C 0 0 && single_unit_fails env C
  else existsb (device_unit_fails env C) (seqZ 0 (c_num_devices C)).

(** A debug build in which the acquisition of B(1, 0) on device 1 fails. *)
Definition env_B1_fails_on_device : environment :=
  mkEnvironment false false (fun t d => bool_decide (t = RefB 1 /\ d = Some 1%Z)).

(** The assertion at the entry of an implementation:
    [assert(layout == Layout::ColMajor)] on the host,
    [assert(C.num_devices() > 0)] on the devices. *)
Definition entry_assertion (C : SymmetricMatrix) (layout : Layout) (target : Target) : bool :=
  match target with
  | Devices => bool_decide (c_num_devices C > 0)%Z
  | _ => bool_decide (layout = ColMajor)
  end.

(** Whether an acquisition that an implementation makes fails: the
    acquisitions of its units, as listed above. *)
Definition acquisition_fails (env : environment) (C : SymmetricMatrix) (target : Target)
    : bool :=
  match target with
  | HostTask => existsb (HostTask_unit_fails env) (lower_local C)
  | HostNest => existsb (diag_unit_fails env) (diag_local C)
                || existsb (HostNest_unit_fails env) (offdiag_nest C)
  | HostBatch => existsb (diag_unit_fails env) (diag_local C)
                 || existsb (HostBatch_load_fails env) (offdiag_local C)
  | Devices => Devices_fails env C
  end.

(** Tile [t] of A or B can be read in host memory.  The state keeps no
    record of the copies of a tile that are valid; the environment says what
    can be had where, so a tile is taken to be readable on the host when its
    acquisition on the host does not fail. *)
Definition on_host (env : environment) (t : tile_ref) : Prop :=
  acquire_fails env t None = false.

(** The inputs an implementation reads without acquiring them are on the
    host.  For a strictly lower tile (i, j) the iteration of HostNest and
    the loading loop of HostBatch acquire A(i, 0), B(j, 0) and C(i, j), and
    the second product reads B(i, 0) and A(j, 0) as well; HostTask and the
    device implementation acquire every tile they read. *)
Definition unacquired_inputs_on_host (env : environment) (C : SymmetricMatrix)
    (target : Target) : Prop :=
  match target with
  | HostNest | HostBatch =>
      forall i j, lower_tile C i j -> i <> j -> on_host env (RefA j) /\ on_host env (RefB i)
  | HostTask | Devices => True
  end.

(** The tiles of A have the shape of the tiles of C they update: what
    [assert(A(i, 0).mb() == m_array[index])] and
    [assert(A(j, 0).mb() == n_array[index])] of HostBatch test. *)
Definition shapes_match {K} (A : Matrix K) (C : SymmetricMatrix) : Prop :=
  forall i j, lower_tile C i j ->
    m_tileMb A i = c_tileMb C i /\ m_tileMb A j = c_tileNb C j.

(** What the values computed by an implementation rest on, whether or not
    assertions are compiled in.  The host implementations assume column
    major ("CPU assumes column major"; HostBatch passes [CblasColMajor]) and
    tiles of A shaped as those of C, and HostBatch needs MKL; the device
    implementation passes the layout on to the batched back-end and needs
    its tile grid. *)
Definition values_ok {K} (env : environment) (A : Matrix K) (C : SymmetricMatrix)
    (layout : Layout) (target : Target) : Prop :=
  match target with
  | HostTask | HostNest => layout = ColMajor /\ shapes_match A C
  | HostBatch => layout = ColMajor /\ shapes_match A C /\ slate_with_mkl env = true
  | Devices => device_grid env C
  end.

(** A debug build with MKL in which only the acquisition of A(0, 0) on
    device 3 fails: no implementation on a grid with one device makes it. *)
Definition env_elsewhere_fails : environment :=
  mkEnvironment true false (fun t d => bool_decide (t = RefA 0 /\ d = Some 3%Z)).
(** * Properties of Part I *)

(** ** Memory cells and loops *)

Lemma upd_same {A} (m : nat -> A) i x : upd m i x i = x.
Proof. unfold upd. by rewrite Nat.eqb_refl. Qed.

Lemma upd_other {A} (m : nat -> A) i k x : k <> i -> upd m i x k = m k.
Proof. intros Hne. unfold upd. by destruct (Nat.eqb_spec k i). Qed.

Lemma upd_upd {A} (m : nat -> A) i x y : upd (upd m i x) i y = upd m i y.
Proof.
  apply functional_extensionality; intros k. unfold upd.
  by destruct (Nat.eqb k i).
Qed.

Lemma fold_left_ext_in {A B} (f g : A -> B -> A) (l : list B) (a : A) :
  (forall acc x, In x l -> f acc x = g acc x) ->
  fold_left f l a = fold_left g l a.
Proof.
  revert a. induction l as [|x l IH]; intros a Hfg; simpl; [done|].
  rewrite Hfg by (by left). apply IH. intros acc y Hy. apply Hfg. by right.
Qed.

(** A fold that preserves a property of the accumulator. *)
Lemma fold_left_preserves {A B} (P : A -> Prop) (f : A -> B -> A) (l : list B) (a : A) :
  P a -> (forall acc x, In x l -> P acc -> P (f acc x)) -> P (fold_left f l a).
Proof.
  revert a. induction l as [|x l IH]; intros a Ha Hf; simpl; [done|].
  apply IH; [apply Hf; [by left | done] | intros acc y Hy; apply Hf; by right].
Qed.

(** Once some element establishes [P] and every later element keeps it,
    the fold ends in [P]. *)
Lemma fold_left_reaches {A B} (P : A -> Prop) (f : A -> B -> A) (l1 l2 : list B)
    (x : B) (a : A) :
  (forall acc, P (f acc x)) ->
  (forall acc y, In y l2 -> P acc -> P (f acc y)) ->
  P (fold_left f (l1 ++ x :: l2) a).
Proof.
  intros Hx Hl2. rewrite fold_left_app. simpl.
  apply fold_left_preserves; [apply Hx | done].
Qed.

(** ** The rows of a thread *)

Lemma trip_count blockDim n tid q :
  0 < blockDim ->
  q < (n - tid + (blockDim - 1)) / blockDim <-> tid + q * blockDim < n.
Proof.
  intros Hb. split.
  - intros Hq.
    destruct (Nat.lt_ge_cases (n - tid + (blockDim - 1)) (blockDim * S q)) as [Hlt|Hge]; [|nia].
    apply Nat.Div0.div_lt_upper_bound in Hlt. lia.
  - intros Hq.
    assert (Hle : blockDim * S q <= n - tid + (blockDim - 1)) by nia.
    apply Nat.div_le_lower_bound in Hle; lia.
Qed.

Lemma thread_rows_spec blockDim n tid i :
  0 < blockDim -> tid < blockDim ->
  In i (thread_rows blockDim n tid) <-> i < n /\ i mod blockDim = tid.
Proof.
  intros Hb Ht. unfold thread_rows. rewrite in_map_iff. split.
  - intros (q & <- & Hq). apply in_seq in Hq. destruct Hq as [_ Hq]. simpl in Hq.
    apply trip_count in Hq; [|done]. split; [done|].
    rewrite Nat.Div0.mod_add. by apply Nat.mod_small.
  - intros [Hi Hm]. exists (i / blockDim).
    pose proof (Nat.div_mod_eq i blockDim) as Hdm. split; [lia|].
    apply in_seq. split; [lia|]. simpl. apply trip_count; [done|]. lia.
Qed.

Lemma stored_cols_spec uplo n i j :
  i < n -> In j (stored_cols uplo n i) <-> stored uplo n i j.
Proof.
  intros Hi. unfold stored, stored_cols, strictly_lower, strictly_upper.
  destruct uplo; rewrite <- ?in_rev, in_seq; lia.
Qed.

Section KernelFacts.
Context {scalar_t real_t : Type}.
Context `{RT : RealType real_t} `{DU : DeviceUtil real_t}.
Context `{ST : ScalarType scalar_t real_t}.
Implicit Types (tile : nat -> scalar_t) (uplo : Uplo).

(** *** The tree reduction *)

Lemma max_nan_reduce_step_ext n s (x y : nat -> real_t) :
  (forall k, k < n -> x k = y k) ->
  forall k, k < n -> max_nan_reduce_step n s x k = max_nan_reduce_step n s y k.
Proof.
  intros Hxy k Hk. unfold max_nan_reduce_step.
  destruct (Nat.ltb s n); [|by apply Hxy].
  destruct (Nat.ltb_spec k s), (Nat.ltb_spec (k + s) n); simpl; rewrite ?Hxy; done.
Qed.

Lemma max_nan_reduce_ext n (x y : nat -> real_t) :
  (forall k, k < n -> x k = y k) ->
  forall k, k < n -> max_nan_reduce n x k = max_nan_reduce n y k.
Proof.
  unfold max_nan_reduce. generalize reduce_strides as l.
  intros l. revert x y. induction l as [|s l IH]; intros x y Hxy; simpl; [done|].
  apply IH. by apply max_nan_reduce_step_ext.
Qed.

(** *** Max kernel: what each shared cell holds at the barrier *)

Lemma henorm_max_iter_cell uplo n tile lda blockDim row_max i :
  henorm_max_iter uplo n tile lda blockDim row_max i
  = upd row_max (i mod blockDim)
        (max_cell_step uplo n tile lda blockDim (row_max (i mod blockDim)) i).
Proof.
  unfold henorm_max_iter, max_cell_step.
  destruct (Nat.ltb i blockDim); [|done]. by rewrite upd_same, upd_upd.
Qed.

Lemma henorm_max_fold_cell uplo n tile lda blockDim tid l row_max :
  (forall i, In i l -> i mod blockDim = tid) ->
  fold_left (henorm_max_iter uplo n tile lda blockDim) l row_max
  = upd row_max tid
        (fold_left (max_cell_step uplo n tile lda blockDim) l (row_max tid)).
Proof.
  revert row_max. induction l as [|i l IH]; intros row_max Hl; simpl.
  - apply functional_extensionality; intros k. unfold upd.
    by destruct (Nat.eqb_spec k tid) as [->|].
  - rewrite IH by (intros; apply Hl; by right).
    rewrite henorm_max_iter_cell, (Hl i) by (by left).
    by rewrite upd_same, upd_upd.
Qed.

Lemma henorm_max_thread_cell uplo n tile lda blockDim row_max tid :
  tid < blockDim ->
  henorm_max_thread uplo n tile lda blockDim row_max tid
  = upd row_max tid (max_cell uplo n tile lda blockDim tid).
Proof.
  intros Ht. unfold henorm_max_thread.
  destruct (Nat.ltb_spec tid blockDim); [|lia].
  rewrite (henorm_max_fold_cell _ _ _ _ _ tid).
  - by rewrite upd_same, upd_upd.
  - intros i Hi. apply thread_rows_spec in Hi; [tauto | lia | done].
Qed.

Lemma henorm_max_threads uplo n tile lda blockDim shared t k :
  t <= blockDim ->
  fold_left (henorm_max_thread uplo n tile lda blockDim) (seq 0 t) shared k
  = if Nat.ltb k t then max_cell uplo n tile lda blockDim k else shared k.
Proof.
  induction t as [|t IH]; intros Ht; [done|].
  rewrite seq_S, fold_left_app. simpl.
  rewrite henorm_max_thread_cell by lia. unfold upd.
  destruct (Nat.eqb_spec k t) as [->|Hne].
  - destruct (Nat.ltb_spec t (S t)); [done | lia].
  - rewrite IH by lia.
    destruct (Nat.ltb_spec k t), (Nat.ltb_spec k (S t)); done || lia.
Qed.

(** The block result in closed form; it does not depend on what the shared
    memory held at launch. *)
Lemma henorm_max_block_cells uplo n tile lda blockDim shared :
  0 < blockDim ->
  henorm_max_block uplo n tile lda blockDim shared
  = max_nan_reduce blockDim (max_cell uplo n tile lda blockDim) 0.
Proof.
  intros Hb. unfold henorm_max_block. apply max_nan_reduce_ext; [|done].
  intros k Hk. rewrite henorm_max_threads by done.
  destruct (Nat.ltb_spec k blockDim); [done | lia].
Qed.

Lemma henorm_max_row_agree uplo n lda t1 t2 i :
  agree_declared uplo n lda t1 t2 -> i < n ->
  henorm_max_row uplo n t1 lda i = henorm_max_row uplo n t2 lda i.
Proof.
  intros [Hoff Hdiag] Hi. unfold henorm_max_row. rewrite Hdiag by done. f_equal.
  apply fold_left_ext_in. intros acc j Hj.
  apply stored_cols_spec in Hj; [|done]. by rewrite Hoff.
Qed.

Lemma max_cell_agree uplo n lda blockDim t1 t2 tid :
  0 < blockDim -> tid < blockDim -> agree_declared uplo n lda t1 t2 ->
  max_cell uplo n t1 lda blockDim tid = max_cell uplo n t2 lda blockDim tid.
Proof.
  intros Hb Ht Hag. unfold max_cell. apply fold_left_ext_in.
  intros acc i Hi. apply thread_rows_spec in Hi; [|done..].
  unfold max_cell_step. by rewrite (henorm_max_row_agree _ _ _ t1 t2) by tauto.
Qed.

Lemma henorm_max_block_agree uplo n lda blockDim t1 t2 sh1 sh2 :
  0 < blockDim -> agree_declared uplo n lda t1 t2 ->
  henorm_max_block uplo n t1 lda blockDim sh1
  = henorm_max_block uplo n t2 lda blockDim sh2.
Proof.
  intros Hb Hag. rewrite !henorm_max_block_cells by done.
  apply max_nan_reduce_ext; [|done]. intros k Hk. by apply max_cell_agree.
Qed.

End KernelFacts.

Lemma thread_rows_head blockDim n tid :
  0 < blockDim -> tid < n ->
  exists rest, thread_rows blockDim n tid = tid :: rest /\ Forall (fun i => blockDim <= i) rest.
Proof.
  intros Hb Ht. unfold thread_rows.
  assert (Hc : 0 < (n - tid + (blockDim - 1)) / blockDim) by (apply trip_count; lia).
  destruct ((n - tid + (blockDim - 1)) / blockDim) as [|c]; [lia|].
  exists (map (fun q => tid + q * blockDim) (seq 1 c)). split.
  - simpl. f_equal. lia.
  - apply Forall_forall. intros i Hi. apply list_elem_of_In, in_map_iff in Hi.
    destruct Hi as (q & <- & Hq). apply in_seq in Hq. nia.
Qed.

Lemma thread_rows_NoDup blockDim n tid : 0 < blockDim -> NoDup (thread_rows blockDim n tid).
Proof.
  intros Hb. unfold thread_rows.
  apply (NoDup_fmap_2_strong (fun q => tid + q * blockDim)); [|apply NoDup_seq].
  intros q1 q2 _ _ Hq. nia.
Qed.

(** Every row below [n] belongs to exactly one of the threads that the final
    loop of the Frobenius kernel reads. *)
Lemma thread_rows_partition blockDim n :
  0 < blockDim ->
  (seq 0 (Nat.min blockDim n) ≫= thread_rows blockDim n) ≡ₚ seq 0 n.
Proof.
  intros Hb. apply NoDup_Permutation.
  - apply NoDup_bind; [|intros; by apply thread_rows_NoDup|apply NoDup_seq].
    intros t1 t2 i Ht1 Ht2 Hi1 Hi2.
    apply elem_of_seq in Ht1, Ht2.
    apply list_elem_of_In, thread_rows_spec in Hi1; [|lia..].
    apply list_elem_of_In, thread_rows_spec in Hi2; [|lia..]. lia.
  - apply NoDup_seq.
  - intros i. rewrite list_elem_of_bind, elem_of_seq. split.
    + intros (t & Hi & Ht). apply elem_of_seq in Ht.
      apply list_elem_of_In, thread_rows_spec in Hi; lia.
    + intros Hi. exists (i mod blockDim).
      pose proof (Nat.mod_upper_bound i blockDim).
      pose proof (Nat.Div0.mod_le i blockDim).
      split; [apply list_elem_of_In, thread_rows_spec; lia | apply elem_of_seq; lia].
Qed.

(** ** Sums *)

Lemma sumR_app l1 l2 f : sumR (l1 ++ l2) f = (sumR l1 f + sumR l2 f)%R.
Proof. induction l1 as [|x l1 IH]; simpl; [lra | rewrite IH; lra]. Qed.

Lemma sumR_perm l1 l2 f : l1 ≡ₚ l2 -> sumR l1 f = sumR l2 f.
Proof. induction 1; simpl; lra. Qed.

Lemma sumR_ext_in l f g : (forall i, In i l -> f i = g i) -> sumR l f = sumR l g.
Proof.
  induction l as [|x l IH]; intros Hfg; simpl; [done|].
  rewrite Hfg by (by left). rewrite IH; [done|]. intros; apply Hfg; by right.
Qed.

Lemma sumR_bind (l : list nat) (g : nat -> list nat) f :
  sumR (l ≫= g) f = sumR l (fun x => sumR (g x) f).
Proof. induction l as [|x l IH]; [done|]. rewrite bind_cons, sumR_app, IH. done. Qed.

Section FroFacts.
Context {scalar_t real_t : Type}.
Context `{RT : RealType real_t} `{DU : DeviceUtil real_t}.
Context `{ST : ScalarType scalar_t real_t}.
Implicit Types (tile : nat -> scalar_t) (uplo : Uplo).

(** *** Frobenius kernel: what each pair of shared cells holds *)

Lemma henorm_fro_iter_cell uplo n tile lda blockDim shared i :
  0 < blockDim ->
  let tid := i mod blockDim in
  let c := fro_cell_step uplo n tile lda blockDim (shared tid, shared (blockDim + tid)) i in
  henorm_fro_iter uplo n tile lda blockDim shared i
  = upd (upd shared (blockDim + tid) (snd c)) tid (fst c).
Proof.
  intros Hb tid c. subst c. unfold henorm_fro_iter, fro_cell_step. fold tid.
  destruct (Nat.ltb i blockDim).
  - rewrite upd_same, upd_other, upd_same by lia.
    destruct (combine_sumsq _ _) as [s q]. simpl.
    apply functional_extensionality; intros k. unfold upd.
    destruct (Nat.eqb k tid), (Nat.eqb k (blockDim + tid)); done.
  - by destruct (combine_sumsq _ _).
Qed.

Lemma henorm_fro_fold_cell uplo n tile lda blockDim tid l shared :
  0 < blockDim -> (forall i, In i l -> i mod blockDim = tid) ->
  let c := fold_left (fro_cell_step uplo n tile lda blockDim) l
                     (shared tid, shared (blockDim + tid)) in
  fold_left (henorm_fro_iter uplo n tile lda blockDim) l shared
  = upd (upd shared (blockDim + tid) (snd c)) tid (fst c).
Proof.
  intros Hb. revert shared. induction l as [|i l IH]; intros shared Hl; simpl.
  - apply functional_extensionality; intros k. unfold upd.
    destruct (Nat.eqb_spec k tid) as [->|]; [done|].
    by destruct (Nat.eqb_spec k (blockDim + tid)) as [->|].
  - rewrite IH by (intros; apply Hl; by right).
    rewrite henorm_fro_iter_cell, (Hl i) by (done || by left).
    rewrite upd_same, (upd_other _ tid), upd_same by lia.
    rewrite <- surjective_pairing.
    apply functional_extensionality; intros k. unfold upd.
    destruct (Nat.eqb k tid), (Nat.eqb k (blockDim + tid)); done.
Qed.

Lemma henorm_fro_thread_cell uplo n tile lda blockDim shared tid :
  0 < blockDim -> tid < blockDim ->
  let c := fro_cell uplo n tile lda blockDim shared tid in
  henorm_fro_thread uplo n tile lda blockDim shared tid
  = upd (upd shared (blockDim + tid) (snd c)) tid (fst c).
Proof.
  intros Hb Ht. unfold henorm_fro_thread, fro_cell.
  apply henorm_fro_fold_cell; [done|].
  intros i Hi. apply thread_rows_spec in Hi; tauto.
Qed.

(** The pair of a thread with at least one row does not read what the shared
    memory held at launch. *)
Lemma fro_cell_started uplo n tile lda blockDim shared tid :
  0 < blockDim -> tid < blockDim -> tid < n ->
  exists rest,
    thread_rows blockDim n tid = tid :: rest /\ Forall (fun i => blockDim <= i) rest /\
    fro_cell uplo n tile lda blockDim shared tid
    = fold_left (fro_cell_step uplo n tile lda blockDim) rest
                (combine_sumsq (r_zero, r_one) (henorm_fro_row uplo n tile lda tid)).
Proof.
  intros Hb Ht Hn. destruct (thread_rows_head blockDim n tid) as (rest & Hrows & Hrest); [done..|].
  exists rest. split; [done|]. split; [done|].
  unfold fro_cell. rewrite Hrows. simpl. unfold fro_cell_step at 2.
  by destruct (Nat.ltb_spec tid blockDim); [|lia].
Qed.

Lemma fro_cell_shared_irrelevant uplo n tile lda blockDim sh1 sh2 tid :
  0 < blockDim -> tid < blockDim -> tid < n ->
  fro_cell uplo n tile lda blockDim sh1 tid = fro_cell uplo n tile lda blockDim sh2 tid.
Proof.
  intros Hb Ht Hn.
  destruct (fro_cell_started uplo n tile lda blockDim sh1 tid) as (r1 & H1 & _ & ->); [done..|].
  destruct (fro_cell_started uplo n tile lda blockDim sh2 tid) as (r2 & H2 & _ & ->); [done..|].
  congruence.
Qed.

Lemma henorm_fro_threads uplo n tile lda blockDim shared t :
  0 < blockDim -> t <= blockDim ->
  forall k,
    fold_left (henorm_fro_thread uplo n tile lda blockDim) (seq 0 t) shared k
    = if Nat.ltb k t then fst (fro_cell uplo n tile lda blockDim shared k)
      else if Nat.leb blockDim k && Nat.ltb k (blockDim + t)
           then snd (fro_cell uplo n tile lda blockDim shared (k - blockDim))
           else shared k.
Proof.
  intros Hb. induction t as [|t IH]; intros Ht k.
  - simpl. destruct (Nat.leb_spec blockDim k), (Nat.ltb_spec k (blockDim + 0)); simpl; done || lia.
  - rewrite seq_S, fold_left_app. simpl.
    rewrite henorm_fro_thread_cell by lia.
    set (sh := fold_left _ _ _) in *.
    assert (Hcell : fro_cell uplo n tile lda blockDim sh t
                    = fro_cell uplo n tile lda blockDim shared t).
    { unfold fro_cell. f_equal. unfold sh. rewrite !IH by lia.
      destruct (Nat.ltb_spec t t); [lia|].
      destruct (Nat.ltb_spec (blockDim + t) t); [lia|].
      destruct (Nat.leb_spec blockDim t); [lia|].
      destruct (Nat.leb_spec blockDim (blockDim + t)); [|lia].
      destruct (Nat.ltb_spec (blockDim + t) (blockDim + t)); [lia|]. done. }
    rewrite Hcell. unfold upd.
    destruct (Nat.eqb_spec k t) as [->|Hkt].
    { destruct (Nat.ltb_spec t (S t)); [done|lia]. }
    destruct (Nat.eqb_spec k (blockDim + t)) as [->|Hkb].
    { destruct (Nat.ltb_spec (blockDim + t) (S t)); [lia|].
      destruct (Nat.leb_spec blockDim (blockDim + t)); [|lia].
      destruct (Nat.ltb_spec (blockDim + t) (blockDim + S t)); [|lia].
      simpl. do 2 f_equal. lia. }
    unfold sh. rewrite IH by lia.
    destruct (Nat.ltb_spec k t), (Nat.ltb_spec k (S t)); try lia; [done|].
    destruct (Nat.leb_spec blockDim k); simpl; [|done].
    destruct (Nat.ltb_spec k (blockDim + t)), (Nat.ltb_spec k (blockDim + S t)); done || lia.
Qed.

(** The block result in closed form. *)
Lemma henorm_fro_block_cells uplo n tile lda blockDim shared :
  0 < blockDim ->
  henorm_fro_block uplo n tile lda blockDim shared
  = fold_left (fun p chunk => combine_sumsq p (fro_cell uplo n tile lda blockDim shared chunk))
              (seq 1 (Nat.min blockDim n - 1)) (fro_cell uplo n tile lda blockDim shared 0).
Proof.
  intros Hb. unfold henorm_fro_block.
  assert (Hpair : forall k, k < blockDim ->
    (fold_left (henorm_fro_thread uplo n tile lda blockDim) (seq 0 blockDim) shared k,
     fold_left (henorm_fro_thread uplo n tile lda blockDim) (seq 0 blockDim) shared (blockDim + k))
    = fro_cell uplo n tile lda blockDim shared k).
  { intros k Hk. rewrite !henorm_fro_threads by lia.
    destruct (Nat.ltb_spec k blockDim); [|lia].
    destruct (Nat.ltb_spec (blockDim + k) blockDim); [lia|].
    destruct (Nat.leb_spec blockDim (blockDim + k)); [|lia].
    destruct (Nat.ltb_spec (blockDim + k) (blockDim + blockDim)); [|lia].
    simpl. replace (blockDim + k - blockDim) with k by lia.
    by rewrite <- surjective_pairing. }
  replace (fold_left _ (seq 0 blockDim) shared blockDim)
    with (fold_left (henorm_fro_thread uplo n tile lda blockDim) (seq 0 blockDim) shared
            (blockDim + 0)) by (f_equal; lia).
  rewrite Hpair by done.
  apply fold_left_ext_in. intros p chunk Hc. apply in_seq in Hc.
  rewrite Hpair by lia. done.
Qed.

Lemma henorm_fro_row_agree uplo n lda t1 t2 i :
  agree_declared uplo n lda t1 t2 -> i < n ->
  henorm_fro_row uplo n t1 lda i = henorm_fro_row uplo n t2 lda i.
Proof.
  intros [Hoff Hdiag] Hi. unfold henorm_fro_row. rewrite Hdiag by done.
  erewrite fold_left_ext_in; [done|]. intros acc j Hj. simpl.
  apply stored_cols_spec in Hj; [|done]. by rewrite Hoff.
Qed.

Lemma fro_cell_agree uplo n lda blockDim t1 t2 shared tid :
  0 < blockDim -> tid < blockDim -> agree_declared uplo n lda t1 t2 ->
  fro_cell uplo n t1 lda blockDim shared tid = fro_cell uplo n t2 lda blockDim shared tid.
Proof.
  intros Hb Ht Hag. unfold fro_cell. apply fold_left_ext_in.
  intros acc i Hi. apply thread_rows_spec in Hi; [|done..].
  unfold fro_cell_step. by rewrite (henorm_fro_row_agree _ _ _ t1 t2) by tauto.
Qed.

Lemma henorm_fro_block_agree uplo n lda blockDim t1 t2 sh1 sh2 :
  0 < blockDim -> 0 < n -> agree_declared uplo n lda t1 t2 ->
  henorm_fro_block uplo n t1 lda blockDim sh1
  = henorm_fro_block uplo n t2 lda blockDim sh2.
Proof.
  intros Hb Hn Hag. rewrite !henorm_fro_block_cells by done.
  rewrite (fro_cell_agree _ _ _ _ t1 t2) by done.
  rewrite (fro_cell_shared_irrelevant _ _ _ _ _ sh1 sh2) by lia.
  apply fold_left_ext_in. intros p chunk Hc. apply in_seq in Hc.
  rewrite (fro_cell_agree _ _ _ _ t1 t2) by (done || lia).
  by rewrite (fro_cell_shared_irrelevant _ _ _ _ _ sh1 sh2) by lia.
Qed.

(** *** One-norm kernel *)

Lemma henorm_one_col_agree uplo n lda t1 t2 k :
  agree_declared uplo n lda t1 t2 -> k < n ->
  henorm_one_col uplo n t1 lda k = henorm_one_col uplo n t2 lda k.
Proof.
  intros [Hoff Hdiag] Hk. unfold henorm_one_col.
  assert (Hcol : forall i, stored uplo n i k -> t1 (lda * k + i) = t2 (lda * k + i)).
  { intros i Hi. replace (lda * k + i) with (i + k * lda) by lia. by apply Hoff. }
  assert (Hrow : forall l, (forall j, In j l -> stored uplo n k j) ->
    fold_left (fun sum j => r_add sum (s_abs (t1 (k + j * lda)))) l r_zero
    = fold_left (fun sum j => r_add sum (s_abs (t2 (k + j * lda)))) l r_zero).
  { intros l Hl. apply fold_left_ext_in. intros acc j Hj. by rewrite Hoff by auto. }
  assert (Hcols : forall l a, (forall i, In i l -> stored uplo n i k) ->
    fold_left (fun sum i => r_add sum (s_abs (t1 (lda * k + i)))) l a
    = fold_left (fun sum i => r_add sum (s_abs (t2 (lda * k + i)))) l a).
  { intros l a Hl. apply fold_left_ext_in. intros acc i Hi. by rewrite Hcol by auto. }
  rewrite Hdiag by done.
  destruct uplo; rewrite Hrow, Hcols; try done.
  all: intros j Hj; unfold strictly_upper in Hj; rewrite <- ?in_rev in Hj.
  all: apply in_seq in Hj; unfold stored; lia.
Qed.

Lemma henorm_one_block_agree uplo n lda blockDim blockIdx ldv t1 t2 out :
  0 < blockDim -> agree_declared uplo n lda t1 t2 ->
  henorm_one_block uplo n t1 lda blockDim blockIdx ldv out
  = henorm_one_block uplo n t2 lda blockDim blockIdx ldv out.
Proof.
  intros Hb Hag. unfold henorm_one_block. apply fold_left_ext_in.
  intros acc tid Htid. apply in_seq in Htid. unfold henorm_one_thread.
  apply fold_left_ext_in. intros acc' k Hk.
  apply thread_rows_spec in Hk; [|lia..].
  by rewrite (henorm_one_col_agree _ _ _ t1 t2) by tauto.
Qed.

End FroFacts.

(** ** NaN reaches the result *)

Lemma thread_rows_split blockDim n tid i :
  0 < blockDim -> In i (thread_rows blockDim n tid) ->
  exists l1 l2, thread_rows blockDim n tid = l1 ++ i :: l2 /\ Forall (fun y => blockDim <= y) l2.
Proof.
  intros Hb Hi.
  assert (Htid : tid < n).
  { unfold thread_rows in Hi. apply in_map_iff in Hi. destruct Hi as (q & _ & Hq).
    apply in_seq in Hq. destruct Hq as [_ Hq]. simpl in Hq. apply trip_count in Hq; lia. }
  destruct (thread_rows_head blockDim n tid) as (rest & Hrows & Hrest); [done..|].
  rewrite Hrows in Hi. destruct Hi as [<-|Hi].
  - exists [], rest. by rewrite Hrows.
  - apply in_split in Hi. destruct Hi as (r1 & r2 & ->).
    exists (tid :: r1), r2. split; [by rewrite Hrows|].
    apply Forall_app in Hrest. destruct Hrest as [_ Hrest].
    by apply Forall_cons in Hrest as [_ ?].
Qed.

Section NanFacts.
Context {scalar_t real_t : Type}.
Context `{RT : RealType real_t} `{DU : DeviceUtil real_t}.
Context `{ST : ScalarType scalar_t real_t}.
Context (isnan : real_t -> bool) `{ND : !NanDominant isnan}.
Implicit Types (tile : nat -> scalar_t) (uplo : Uplo).

Lemma max_nan_reduce_step_nan n s s2 (x : nat -> real_t) :
  (exists k, k < s2 /\ k < n /\ isnan (x k) = true) ->
  s2 <= 2 * s ->
  exists k, k < s /\ k < n /\ isnan (max_nan_reduce_step n s x k) = true.
Proof using ND.
  intros (k & Hks & Hkn & Hnan) Hs2. unfold max_nan_reduce_step.
  destruct (Nat.ltb_spec s n) as [Hsn|Hsn]; [|exists k; split; [lia|done]].
  destruct (Nat.lt_ge_cases k s) as [Hlt|Hge].
  - exists k. split; [done|]. split; [done|].
    destruct (Nat.ltb k s && Nat.ltb (k + s) n); [by apply max_nan_nan_l | done].
  - exists (k - s). split; [lia|]. split; [lia|].
    destruct (Nat.ltb_spec (k - s) s); [|lia].
    replace (k - s + s) with k by lia.
    destruct (Nat.ltb_spec k n); [|lia]. simpl. by apply max_nan_nan_r.
Qed.

Lemma max_nan_reduce_nan n (x : nat -> real_t) :
  n <= 2048 -> (exists k, k < n /\ isnan (x k) = true) ->
  isnan (max_nan_reduce n x 0) = true.
Proof using ND.
  intros Hn (k & Hk & Hnan). unfold max_nan_reduce, reduce_strides. simpl fold_left.
  assert (H0 : exists k, k < 2048 /\ k < n /\ isnan (x k) = true)
    by (exists k; split; [lia|done]).
  apply (max_nan_reduce_step_nan n 1024) in H0; [|lia].
  apply (max_nan_reduce_step_nan n 512) in H0; [|lia].
  apply (max_nan_reduce_step_nan n 256) in H0; [|lia].
  apply (max_nan_reduce_step_nan n 128) in H0; [|lia].
  apply (max_nan_reduce_step_nan n 64) in H0; [|lia].
  apply (max_nan_reduce_step_nan n 32) in H0; [|lia].
  apply (max_nan_reduce_step_nan n 16) in H0; [|lia].
  apply (max_nan_reduce_step_nan n 8) in H0; [|lia].
  apply (max_nan_reduce_step_nan n 4) in H0; [|lia].
  apply (max_nan_reduce_step_nan n 2) in H0; [|lia].
  apply (max_nan_reduce_step_nan n 1) in H0; [|lia].
  destruct H0 as (k0 & Hk0 & _ & H0). by replace k0 with 0 in H0 by lia.
Qed.

Lemma henorm_max_row_nan uplo n tile lda i j :
  reads_nan isnan uplo n tile lda i j ->
  isnan (henorm_max_row uplo n tile lda i) = true.
Proof using ND.
  unfold henorm_max_row. intros [[Hst Hnan]|(Hi & -> & Hnan)]; [|by apply max_nan_nan_r].
  apply max_nan_nan_l.
  assert (Hi : i < n) by (unfold stored in Hst; tauto).
  apply stored_cols_spec in Hst; [|done]. apply in_split in Hst. destruct Hst as (l1 & l2 & ->).
  apply (fold_left_reaches (fun v => isnan v = true)).
  - intros acc. by apply max_nan_nan_r.
  - intros acc y _ Hacc. by apply max_nan_nan_l.
Qed.

Lemma max_cell_nan uplo n tile lda blockDim i :
  0 < blockDim -> i < n ->
  isnan (henorm_max_row uplo n tile lda i) = true ->
  isnan (max_cell uplo n tile lda blockDim (i mod blockDim)) = true.
Proof using ND.
  intros Hb Hi Hnan. pose proof (Nat.mod_upper_bound i blockDim) as Hm.
  destruct (thread_rows_split blockDim n (i mod blockDim) i) as (l1 & l2 & Hrows & Hl2);
    [done | apply thread_rows_spec; lia |].
  unfold max_cell. rewrite Hrows.
  apply (fold_left_reaches (fun v => isnan v = true)).
  - intros acc. unfold max_cell_step. by apply max_nan_nan_l.
  - intros acc y Hy Hacc. unfold max_cell_step.
    rewrite Forall_forall in Hl2. apply list_elem_of_In, Hl2 in Hy.
    destruct (Nat.ltb_spec y blockDim); [lia|]. by apply max_nan_nan_r.
Qed.

Lemma henorm_max_block_nan uplo n tile lda blockDim shared i j :
  0 < blockDim <= 2048 -> reads_nan isnan uplo n tile lda i j ->
  isnan (henorm_max_block uplo n tile lda blockDim shared) = true.
Proof using ND.
  intros Hb Hr. rewrite henorm_max_block_cells by lia.
  assert (Hi : i < n) by (destruct Hr as [[Hst _]|[? _]]; [unfold stored in Hst|]; tauto).
  apply max_nan_reduce_nan; [lia|]. exists (i mod blockDim).
  split; [apply Nat.mod_upper_bound; lia|].
  apply max_cell_nan; [lia | done |]. by apply (henorm_max_row_nan _ _ _ _ _ j).
Qed.

Lemma henorm_fro_row_nan uplo n tile lda i j :
  reads_nan isnan uplo n tile lda i j ->
  pair_nan isnan (henorm_fro_row uplo n tile lda i) = true.
Proof using ND.
  unfold henorm_fro_row. intros [[Hst Hnan]|(Hi & -> & Hnan)].
  - assert (Hi : i < n) by (unfold stored in Hst; tauto).
    apply stored_cols_spec in Hst; [|done]. apply in_split in Hst. destruct Hst as (l1 & l2 & ->).
    pose proof (fold_left_reaches (fun p => pair_nan isnan p = true)
      (fun p j0 => add_sumsq p (s_abs (tile (i + j0 * lda)))) l1 l2 j (r_zero, r_one)) as Hfold.
    simpl in Hfold. destruct (fold_left _ _ _) as [scale sumsq].
    apply add_sumsq_nan_acc. unfold pair_nan in *. simpl in *.
    apply orb_true_iff. apply orb_true_iff in Hfold as [Hs|Hq].
    + by left.
    + right. by apply r_double_nan.
    + intros acc. by apply add_sumsq_nan_val.
    + intros acc y _ Hacc. by apply add_sumsq_nan_acc.
  - destruct (fold_left _ _ _) as [scale sumsq]. by apply add_sumsq_nan_val.
Qed.

Lemma fro_cell_nan uplo n tile lda blockDim shared i :
  0 < blockDim -> i < n ->
  pair_nan isnan (henorm_fro_row uplo n tile lda i) = true ->
  pair_nan isnan (fro_cell uplo n tile lda blockDim shared (i mod blockDim)) = true.
Proof using ND.
  intros Hb Hi Hnan. pose proof (Nat.mod_upper_bound i blockDim) as Hm.
  destruct (thread_rows_split blockDim n (i mod blockDim) i) as (l1 & l2 & Hrows & Hl2);
    [done | apply thread_rows_spec; lia |].
  unfold fro_cell. rewrite Hrows.
  apply (fold_left_reaches (fun p => pair_nan isnan p = true)).
  - intros acc. unfold fro_cell_step. by apply combine_sumsq_nan_r.
  - intros acc y Hy Hacc. unfold fro_cell_step.
    rewrite Forall_forall in Hl2. apply list_elem_of_In, Hl2 in Hy.
    destruct (Nat.ltb_spec y blockDim); [lia|]. by apply combine_sumsq_nan_l.
Qed.

Lemma henorm_fro_block_nan uplo n tile lda blockDim shared i j :
  0 < blockDim -> reads_nan isnan uplo n tile lda i j ->
  pair_nan isnan (henorm_fro_block uplo n tile lda blockDim shared) = true.
Proof using ND.
  intros Hb Hr. rewrite henorm_fro_block_cells by lia.
  assert (Hi : i < n) by (destruct Hr as [[Hst _]|[? _]]; [unfold stored in Hst|]; tauto).
  pose proof (fro_cell_nan uplo n tile lda blockDim shared i Hb Hi
                (henorm_fro_row_nan _ _ _ _ _ _ Hr)) as Hcell.
  pose proof (Nat.mod_upper_bound i blockDim) as Hm.
  pose proof (Nat.Div0.mod_le i blockDim) as Hle.
  destruct (Nat.eq_dec (i mod blockDim) 0) as [H0|H0].
  - rewrite H0 in Hcell.
    apply (fold_left_preserves (fun p => pair_nan isnan p = true)); [done|].
    intros acc y _ Hacc. by apply combine_sumsq_nan_l.
  - assert (Hin : In (i mod blockDim) (seq 1 (Nat.min blockDim n - 1))) by (apply in_seq; lia).
    apply in_split in Hin. destruct Hin as (l1 & l2 & ->).
    apply (fold_left_reaches (fun p => pair_nan isnan p = true)).
    + intros acc. by apply combine_sumsq_nan_r.
    + intros acc y _ Hacc. by apply combine_sumsq_nan_l.
Qed.

End NanFacts.

(** ** The helpers on reals with a NaN satisfy the NaN contract *)

Global Instance nreal_NanDominant : NanDominant is_nan.
Proof.
  split.
  - by intros [|x] y.
  - by intros [|x] [|y].
  - by intros [|x].
  - intros [[|s] [|q]] [|x]; simpl; done.
  - intros [[|s] [|q]] [|x]; simpl; done.
  - intros [[|s1] [|q1]] [[|s2] [|q2]]; simpl; done.
  - intros [[|s1] [|q1]] [[|s2] [|q2]]; simpl; done.
Qed.

Lemma nreal_real_abs_nan (x : nreal) : is_nan (s_abs x) = is_nan x.
Proof. by destruct x. Qed.

Lemma ncomplex_abs_nan (z : ncomplex) : is_nan (s_abs z) = ncomplex_is_nan z.
Proof. by destruct z as [[|a] [|b]]. Qed.

Lemma ncomplex_real_abs_nan (z : ncomplex) : is_nan (r_abs (s_real z)) = is_nan (fst z).
Proof. by destruct z as [[|a] b]. Qed.

(** ** The scaled sum of squares on idealized reals *)

Lemma R_add_sumsq_value (p : R * R) (a : R) :
  (0 <= fst p)%R -> (0 <= a)%R ->
  sumsq_value (add_sumsq p a) = (sumsq_value p + a * a)%R /\ (0 <= fst (add_sumsq p a))%R.
Proof.
  destruct p as [s q]. unfold sumsq_value, add_sumsq. simpl. intros Hs Ha.
  destruct (Rlt_dec s a) as [Hlt|Hge]; simpl.
  - split; [field; lra | lra].
  - destruct (Req_dec_T s 0) as [->|Hne]; simpl.
    + split; [|lra]. assert (a = 0)%R as -> by lra. lra.
    + split; [field; lra | lra].
Qed.

Lemma R_combine_sumsq_value (p1 p2 : R * R) :
  (0 <= fst p1)%R -> (0 <= fst p2)%R ->
  sumsq_value (combine_sumsq p1 p2) = (sumsq_value p1 + sumsq_value p2)%R /\
  (0 <= fst (combine_sumsq p1 p2))%R.
Proof.
  destruct p1 as [s1 q1], p2 as [s2 q2]. unfold sumsq_value, combine_sumsq. simpl.
  intros H1 H2. destruct (Rlt_dec s2 s1) as [Hlt|Hge]; simpl.
  - split; [field; lra | lra].
  - destruct (Req_dec_T s2 0) as [->|Hne]; simpl.
    + split; [|lra]. assert (s1 = 0)%R as -> by lra. lra.
    + split; [field; lra | lra].
Qed.

Lemma R_abs_value (x : R) : (0 <= r_abs x)%R /\ (r_abs x * r_abs x = x * x)%R.
Proof.
  split; [apply Rabs_pos|]. simpl. unfold Rabs. destruct (Rcase_abs x); lra.
Qed.

Section FroValue.
Context {scalar_t : Type} `{ST : ScalarType scalar_t R}.
Context (s_abs_nonneg : forall x : scalar_t, (0 <= s_abs x)%R).
Implicit Types (tile : nat -> scalar_t) (uplo : Uplo).

(** What row [i] contributes to the norm squared. *)
Let row_sq uplo n tile lda (i : nat) : R :=
  (2 * sumR (stored_cols uplo n i)
          (fun j => s_abs (tile (i + j * lda)%nat) * s_abs (tile (i + j * lda)%nat))
   + s_real (tile (i + i * lda)%nat) * s_real (tile (i + i * lda)%nat))%R.

Lemma add_sumsq_fold_value tile (f : nat -> nat) l (p : R * R) :
  (0 <= fst p)%R ->
  sumsq_value (fold_left (fun p j => add_sumsq p (s_abs (tile (f j)))) l p)
  = (sumsq_value p + sumR l (fun j => s_abs (tile (f j)) * s_abs (tile (f j))))%R
  /\ (0 <= fst (fold_left (fun p j => add_sumsq p (s_abs (tile (f j)))) l p))%R.
Proof using s_abs_nonneg.
  revert p. induction l as [|j l IH]; intros p Hp.
  - simpl. split; [lra | done].
  - destruct (R_add_sumsq_value p (s_abs (tile (f j))) Hp (s_abs_nonneg _)) as [Hv Hs].
    destruct (IH _ Hs) as [Hv' Hs'].
    cbn [fold_left sumR fold_right]. split; [|done]. rewrite Hv', Hv. unfold sumR. lra.
Qed.

Lemma henorm_fro_row_value uplo n tile lda i :
  sumsq_value (henorm_fro_row uplo n tile lda i) = row_sq uplo n tile lda i /\
  (0 <= fst (henorm_fro_row uplo n tile lda i))%R.
Proof using s_abs_nonneg.
  unfold henorm_fro_row, row_sq.
  destruct (add_sumsq_fold_value tile (fun j => i + j * lda) (stored_cols uplo n i)
              (r_zero, r_one)) as [Hv Hs]; [simpl; lra|].
  destruct (fold_left _ _ _) as [scale sumsq].
  destruct (R_abs_value (s_real (tile (i + i * lda)))) as [Hd Hdd].
  destruct (R_add_sumsq_value (scale, r_double sumsq)
              (r_abs (s_real (tile (i + i * lda)))) Hs Hd) as [Hv' Hs'].
  split; [|done]. rewrite Hv', Hdd.
  unfold sumsq_value in *. simpl in *. lra.
Qed.

Lemma fro_cell_step_fold_value uplo n tile lda blockDim l (p : R * R) :
  Forall (fun i => blockDim <= i) l -> (0 <= fst p)%R ->
  sumsq_value (fold_left (fro_cell_step uplo n tile lda blockDim) l p)
  = (sumsq_value p + sumR l (row_sq uplo n tile lda))%R /\
  (0 <= fst (fold_left (fro_cell_step uplo n tile lda blockDim) l p))%R.
Proof using s_abs_nonneg.
  revert p. induction l as [|i l IH]; intros p Hl Hp.
  - simpl. split; [lra | done].
  - apply Forall_cons in Hl as [Hi Hl].
    destruct (henorm_fro_row_value uplo n tile lda i) as [Hr Hrs].
    destruct (R_combine_sumsq_value p _ Hp Hrs) as [Hv Hs].
    assert (Hstep : fro_cell_step uplo n tile lda blockDim p i
                    = combine_sumsq p (henorm_fro_row uplo n tile lda i)).
    { unfold fro_cell_step. by destruct (Nat.ltb_spec i blockDim); [lia|]. }
    cbn [fold_left sumR fold_right]. rewrite Hstep.
    destruct (IH _ Hl Hs) as [Hv' Hs']. split; [|done]. rewrite Hv', Hv, Hr.
    unfold sumR. lra.
Qed.

Lemma fro_cell_value uplo n tile lda blockDim shared tid :
  0 < blockDim -> tid < blockDim -> tid < n ->
  sumsq_value (fro_cell uplo n tile lda blockDim shared tid)
  = sumR (thread_rows blockDim n tid) (row_sq uplo n tile lda) /\
  (0 <= fst (fro_cell uplo n tile lda blockDim shared tid))%R.
Proof using s_abs_nonneg.
  intros Hb Ht Hn.
  destruct (fro_cell_started uplo n tile lda blockDim shared tid) as (rest & -> & Hrest & ->);
    [done..|].
  destruct (henorm_fro_row_value uplo n tile lda tid) as [Hr Hrs].
  assert (H0 : (0 <= fst (r_zero, r_one))%R) by (simpl; lra).
  destruct (R_combine_sumsq_value (r_zero, r_one) _ H0 Hrs) as [Hv Hs].
  destruct (fro_cell_step_fold_value uplo n tile lda blockDim rest _ Hrest Hs) as [Hv' Hs'].
  split; [|done]. rewrite Hv', Hv, Hr. unfold sumsq_value. simpl. lra.
Qed.

Lemma henorm_fro_block_value uplo n tile lda blockDim shared :
  0 < blockDim -> 0 < n ->
  sumsq_value (henorm_fro_block uplo n tile lda blockDim shared)
  = sumR (seq 0 n) (row_sq uplo n tile lda).
Proof using s_abs_nonneg.
  intros Hb Hn. rewrite henorm_fro_block_cells by done.
  rewrite <- (sumR_perm _ _ _ (thread_rows_partition blockDim n Hb)), sumR_bind.
  assert (Hfold : forall l (p : R * R),
    (forall c, In c l -> c < Nat.min blockDim n) -> (0 <= fst p)%R ->
    sumsq_value (fold_left (fun p chunk =>
                   combine_sumsq p (fro_cell uplo n tile lda blockDim shared chunk)) l p)
    = (sumsq_value p
       + sumR l (fun c => sumR (thread_rows blockDim n c) (row_sq uplo n tile lda)))%R).
  { induction l as [|c l IH]; intros p Hl Hp; [simpl; lra|].
    assert (Hc : c < Nat.min blockDim n) by (apply Hl; by left).
    destruct (fro_cell_value uplo n tile lda blockDim shared c) as [Hcv Hcs]; [lia..|].
    destruct (R_combine_sumsq_value p _ Hp Hcs) as [Hv Hs].
    cbn [fold_left sumR fold_right].
    rewrite IH; [|intros; apply Hl; by right|done]. rewrite Hv, Hcv. unfold sumR. lra. }
  destruct (fro_cell_value uplo n tile lda blockDim shared 0) as [H0v H0s]; [lia..|].
  rewrite Hfold; [|intros c Hc; apply in_seq in Hc; lia|done].
  rewrite H0v. replace (Nat.min blockDim n) with (S (Nat.min blockDim n - 1)) at 2 by lia.
  done.
Qed.

Lemma row_sq_reference uplo n tile lda i :
  uplo <> General -> i < n ->
  row_sq uplo n tile lda i
  = (2 * sumR (strict_triangle uplo n i)
            (fun j => s_abs (tile (i + j * lda)%nat) * s_abs (tile (i + j * lda)%nat))
     + s_real (tile (i + i * lda)%nat) * s_real (tile (i + i * lda)%nat))%R.
Proof.
  intros Hu Hi. unfold row_sq. do 2 f_equal.
  destruct uplo; [| |done]; unfold stored_cols, strict_triangle, strictly_lower, strictly_upper.
  - apply sumR_perm. replace (n - 1 - i) with (n - S i) by lia.
    symmetry. apply Permutation_rev.
  - by replace (Nat.min i n) with i by lia.
Qed.

End FroValue.

(** ** What a launch stores for each tile *)

Section KernelOutputs.
Context {scalar_t real_t : Type}.
Context `{RT : RealType real_t} `{DU : DeviceUtil real_t}.
Context `{ST : ScalarType scalar_t real_t}.

Lemma henorm_max_kernel_out gridDim blockDim shared uplo n (Aarray : nat -> nat -> scalar_t)
    lda tiles_maxima k :
  henorm_max_kernel gridDim blockDim shared uplo n Aarray lda tiles_maxima k
  = if Nat.ltb k gridDim
    then henorm_max_block uplo n (Aarray k) lda blockDim (shared k)
    else tiles_maxima k.
Proof.
  unfold henorm_max_kernel. induction gridDim as [|g IH]; [done|].
  rewrite seq_S, fold_left_app. simpl. unfold upd at 1.
  destruct (Nat.eqb_spec k g) as [->|Hne].
  - by destruct (Nat.ltb_spec g (S g)); [|lia].
  - rewrite IH. destruct (Nat.ltb_spec k g), (Nat.ltb_spec k (S g)); done || lia.
Qed.

Lemma henorm_fro_kernel_out gridDim blockDim shared uplo n (Aarray : nat -> nat -> scalar_t)
    lda tiles_values k :
  k < gridDim ->
  (henorm_fro_kernel gridDim blockDim shared uplo n Aarray lda tiles_values (k * 2 + 0),
   henorm_fro_kernel gridDim blockDim shared uplo n Aarray lda tiles_values (k * 2 + 1))
  = henorm_fro_block uplo n (Aarray k) lda blockDim (shared k).
Proof.
  unfold henorm_fro_kernel. induction gridDim as [|g IH]; [lia|]. intros Hk.
  rewrite seq_S, fold_left_app. simpl.
  destruct (henorm_fro_block uplo n (Aarray g) lda blockDim (shared g)) as [s q] eqn:Hg.
  destruct (Nat.eq_dec k g) as [->|Hne].
  - rewrite (upd_other _ (g * 2 + 1) (g * 2 + 0)), !upd_same by lia. done.
  - rewrite !upd_other by lia. apply IH. lia.
Qed.

(** The Frobenius launch stores to the first [2*gridDim] cells only. *)
Lemma henorm_fro_kernel_frame gridDim blockDim shared uplo n (Aarray : nat -> nat -> scalar_t)
    lda (tiles_values : nat -> real_t) c :
  gridDim * 2 <= c ->
  henorm_fro_kernel gridDim blockDim shared uplo n Aarray lda tiles_values c
  = tiles_values c.
Proof.
  unfold henorm_fro_kernel. induction gridDim as [|g IH]; [done|]. intros Hc.
  rewrite seq_S, fold_left_app. simpl.
  destruct (henorm_fro_block uplo n (Aarray g) lda blockDim (shared g)) as [s q].
  rewrite !upd_other by lia. apply IH. lia.
Qed.

End KernelOutputs.

(** ** The claims about [henorm] *)

(** C4 (amended).  For the three kernels the result for a tile depends only on
    the strict declared triangle and on the real parts of the diagonal: tiles
    that agree there give the same maximum, the same column sums and the same
    (scale, sumsq) pair, whatever the other triangle, the imaginary parts of
    the diagonal and the shared memory at launch hold.  With NaN-dominant
    helpers, a NaN among the magnitudes read (of a strict entry of the declared
    triangle, or of the real part of a diagonal entry) makes the max-abs result
    NaN and the Frobenius pair NaN. *)
Theorem henorm_declared_triangle_only :
  forall (scalar_t real_t : Type) (RT : RealType real_t) (DU : DeviceUtil real_t)
         (ST : ScalarType scalar_t real_t) (isnan : real_t -> bool),
    NanDominant isnan ->
    forall (uplo : Uplo) (n lda blockDim : nat),
      1 <= n -> 1 <= blockDim <= 2048 ->
      (forall (t1 t2 : nat -> scalar_t) sh1 sh2 blockIdx ldv out,
          agree_declared uplo n lda t1 t2 ->
          henorm_max_block uplo n t1 lda blockDim sh1
          = henorm_max_block uplo n t2 lda blockDim sh2 /\
          henorm_one_block uplo n t1 lda blockDim blockIdx ldv out
          = henorm_one_block uplo n t2 lda blockDim blockIdx ldv out /\
          henorm_fro_block uplo n t1 lda blockDim sh1
          = henorm_fro_block uplo n t2 lda blockDim sh2) /\
      (forall (tile : nat -> scalar_t) shared i j,
          reads_nan isnan uplo n tile lda i j ->
          isnan (henorm_max_block uplo n tile lda blockDim shared) = true /\
          pair_nan isnan (henorm_fro_block uplo n tile lda blockDim shared) = true).
Proof.
  intros scalar_t real_t RT DU ST isnan ND uplo n lda blockDim Hn Hb. split.
  - intros t1 t2 sh1 sh2 blockIdx ldv out Hag. split; [|split].
    + apply henorm_max_block_agree; [lia | done].
    + apply henorm_one_block_agree; [lia | done].
    + apply henorm_fro_block_agree; [lia | lia | done].
  - intros tile shared i j Hr. split.
    + by apply (henorm_max_block_nan isnan _ _ _ _ _ _ i j).
    + apply (henorm_fro_block_nan isnan _ _ _ _ _ _ i j); [lia | done].
Qed.

Lemma henorm_declared_triangle_only_witness :
  NanDominant is_nan /\ 1 <= 2 /\ 1 <= 512 <= 2048 /\
  is_nan (henorm_max_block Lower 2 tile_nan_below 2 512 (fun _ => Fin 0)) = true /\
  pair_nan is_nan (henorm_fro_block Lower 2 tile_nan_below 2 512 (fun _ => Fin 0)) = true.
Proof.
  split; [apply nreal_NanDominant|]. split; [lia|]. split; [lia|].
  apply (henorm_declared_triangle_only nreal nreal _ _ _ is_nan nreal_NanDominant
           Lower 2 2 512 ltac:(lia) ltac:(lia)) with (i := 1) (j := 0).
  left. split; [unfold stored; lia | reflexivity].
Defined.

(** C4, as stated, fails on complex tiles: the 1-by-1 tile whose only entry,
    on the diagonal, has a NaN imaginary part has a NaN entry, yet the kernels
    take [real(...)] of it and neither result is NaN. *)
Lemma henorm_nan_imaginary_diagonal :
  ncomplex_is_nan (tile_nan_imag (0 + 0 * 1)) = true /\
  is_nan (henorm_max_block Lower 1 tile_nan_imag 1 512 (fun _ => Fin 0)) = false /\
  pair_nan is_nan (henorm_fro_block Lower 1 tile_nan_imag 1 512 (fun _ => Fin 0)) = false.
Proof.
  split; [reflexivity|]. split.
  - rewrite henorm_max_block_cells by lia. lazy. reflexivity.
  - rewrite henorm_fro_block_cells by lia. lazy. reflexivity.
Qed.

Lemma R_real_abs_nonneg (x : R) : (0 <= s_abs x)%R.
Proof. apply Rabs_pos. Qed.

Lemma R_complex_abs_nonneg (z : complexR) : (0 <= s_abs z)%R.
Proof. apply sqrt_pos. Qed.

(** C5.  On idealized reals, for tiles with n >= 1 stored in a lower or
    upper triangle, a launch of the Frobenius kernel on [gridDim] blocks of
    any positive size stores for every tile [k < gridDim] the pair
    (scale, sumsq) in [tiles_values[2k]], [tiles_values[2k+1]], in this
    order, and the pair satisfies scale^2 * sumsq = the Frobenius norm
    squared of the full Hermitian tile [k]: |a|^2 over the strict declared
    triangle counted twice plus the squared real parts of the diagonal
    counted once, whatever the shared memory held before; the cells from
    [2*gridDim] on are left as they were. *)
Theorem henorm_fro_kernel_frobenius :
  forall (scalar_t : Type) (ST : ScalarType scalar_t R),
    (forall x : scalar_t, (0 <= s_abs x)%R) ->
    forall (gridDim blockDim : nat) (shared : nat -> nat -> R) (uplo : Uplo) (n : nat)
           (Aarray : nat -> nat -> scalar_t) (lda : nat) (tiles_values : nat -> R),
      uplo <> General -> 1 <= n -> 1 <= blockDim ->
      let out := henorm_fro_kernel gridDim blockDim shared uplo n Aarray lda tiles_values in
      (forall k, k < gridDim ->
         let scale := out (k * 2 + 0) in
         let sumsq := out (k * 2 + 1) in
         (scale * scale * sumsq)%R = frobenius_sq uplo n (Aarray k) lda) /\
      (forall c, gridDim * 2 <= c -> out c = tiles_values c).
Proof.
  intros scalar_t ST Habs gridDim blockDim shared uplo n Aarray lda tiles_values Hu Hn Hb out.
  split.
  - intros k Hk scale sumsq.
    change (scale * scale * sumsq)%R with (sumsq_value (scale, sumsq)).
    subst scale sumsq out. rewrite henorm_fro_kernel_out by done.
    rewrite (henorm_fro_block_value Habs) by lia.
    unfold frobenius_sq. apply sumR_ext_in. intros i Hi. apply in_seq in Hi.
    rewrite row_sq_reference by (done || lia). done.
  - intros c Hc. subst out. by apply henorm_fro_kernel_frame.
Qed.

Lemma henorm_fro_kernel_frobenius_witness :
  (forall x : R, (0 <= s_abs x)%R) /\ Lower <> General /\ 1 <= 2 /\ 1 <= 512 /\
  (henorm_fro_kernel 2 512 (fun _ _ => 0%R) Lower 2 (fun _ => tile_123) 2 (fun _ => 7%R)
     (1 * 2 + 0)
   * henorm_fro_kernel 2 512 (fun _ _ => 0%R) Lower 2 (fun _ => tile_123) 2 (fun _ => 7%R)
       (1 * 2 + 0)
   * henorm_fro_kernel 2 512 (fun _ _ => 0%R) Lower 2 (fun _ => tile_123) 2 (fun _ => 7%R)
       (1 * 2 + 1))%R
  = 18%R /\
  henorm_fro_kernel 2 512 (fun _ _ => 0%R) Lower 2 (fun _ => tile_123) 2 (fun _ => 7%R) 4
  = 7%R.
Proof.
  split; [apply R_real_abs_nonneg|]. split; [done|]. split; [lia|]. split; [lia|].
  destruct (henorm_fro_kernel_frobenius R _ R_real_abs_nonneg 2 512 (fun _ _ => 0%R) Lower 2
              (fun _ => tile_123) 2 (fun _ => 7%R)) as [Hk Hc]; [done | lia | lia |].
  split.
  - cbv zeta in Hk. rewrite (Hk 1) by lia.
    unfold frobenius_sq, sumR, tile_123. simpl.
    rewrite !Rabs_right by lra. lra.
  - apply Hc. lia.
Defined.

(** Decide the tests on the norm kind once it is known. *)
Ltac decide_norm :=
  repeat match goal with
         | |- context [decide ?P] =>
             destruct (decide P) as [?|?]; try (exfalso; intuition congruence)
         end.

(** C6 (amended).  For max-abs, one-norm and Frobenius: with
    [batch_count = 0] the call returns and leaves the output untouched; with
    [batch_count >= 1] and [n = 0] it clears the leading entries of the output
    (one per tile for max-abs, [batch_count * n], that is none, for the
    one-norm, two per tile for Frobenius) and launches nothing; with
    [batch_count >= 1] and [n >= 1] it launches exactly one kernel on a grid of
    [batch_count] blocks when the stride assertion of the norm kind holds or
    assertions are compiled out, and stops at the assertion without a launch
    otherwise. *)
Theorem henorm_dispatch :
  forall (scalar_t real_t : Type) (RT : RealType real_t) (DU : DeviceUtil real_t)
         (ST : ScalarType scalar_t real_t)
         (env : henorm_env) (norm : Norm) (uplo : Uplo) (n : nat)
         (Aarray : nat -> nat -> scalar_t) (lda : nat) (values : nat -> real_t)
         (ldv batch_count : nat),
    norm = Max \/ norm = One \/ norm = Fro ->
    let r := henorm env norm uplo n Aarray lda values ldv batch_count in
    (batch_count = 0 ->
       r = {| h_exit := Returned; h_values := values; h_launches := [] |}) /\
    (1 <= batch_count -> n = 0 ->
       h_launches r = [] /\ h_exit r <> AssertFailed /\
       h_values r = device_memset values (zeroed_entries norm n batch_count)) /\
    (1 <= batch_count -> 1 <= n -> ndebug env || stride_ok norm n ldv = true ->
       h_launches r = [batch_launch norm uplo n lda ldv batch_count] /\
       h_exit r <> AssertFailed) /\
    (1 <= batch_count -> 1 <= n -> ndebug env || stride_ok norm n ldv = false ->
       r = assert_failed values).
Proof.
  intros scalar_t real_t RT DU ST env norm uplo n Aarray lda values ldv batch_count Hnorm r.
  subst r. unfold henorm, finish.
  destruct (Nat.eqb_spec batch_count 0) as [Hb|Hb].
  { repeat split; intros; lia || done. }
  destruct (Nat.eqb_spec n 0) as [Hn|Hn].
  - destruct Hnorm as [-> | [-> | ->]]; decide_norm.
    all: repeat split; intros; try lia; simpl; try done.
    all: by destruct (hip_ok env).
  - destruct Hnorm as [-> | [-> | ->]]; decide_norm.
    all: simpl stride_ok.
    all: destruct (ndebug env || _) eqn:Hok.
    all: repeat split; intros; try lia; simpl; try done.
    all: by destruct (hip_ok env).
Qed.

Lemma henorm_dispatch_witness :
  (Max = Max \/ Max = One \/ Max = Fro) /\ 1 <= 3 /\ 1 <= 4 /\
  ndebug env_debug || stride_ok Max 4 1 = true /\
  h_launches (henorm env_debug Max Lower 4 no_tiles 4 (fun _ => 0%R) 1 3)
  = [batch_launch Max Lower 4 4 1 3].
Proof.
  split; [by left|]. split; [lia|]. split; [lia|]. split; [reflexivity|].
  apply (henorm_dispatch R R _ _ _ env_debug Max Lower 4 no_tiles 4 (fun _ => 0%R) 1 3);
    [by left | lia | lia | reflexivity].
Defined.

(** C6, as stated, fails when assertions are active: a max-abs call on one
    1-by-1 tile with output stride 2 stops at [assert(ldv == 1)] and launches
    no kernel. *)
Lemma henorm_stride_assert_no_launch :
  1 <= 1 /\ 1 <= 1 /\
  h_launches (henorm env_debug Max Lower 1 no_tiles 1 (fun _ => 0%R) 2 1) = [] /\
  h_exit (henorm env_debug Max Lower 1 no_tiles 1 (fun _ => 0%R) 2 1) = AssertFailed.
Proof. repeat split; lia || reflexivity. Qed.

(** C10.  [henorm] with norm kind Inf is [henorm] with norm kind One: the same
    launch with the same arguments, the same output, the same exit. *)
Theorem henorm_inf_is_one :
  forall (scalar_t real_t : Type) (RT : RealType real_t) (DU : DeviceUtil real_t)
         (ST : ScalarType scalar_t real_t)
         (env : henorm_env) (uplo : Uplo) (n : nat)
         (Aarray : nat -> nat -> scalar_t) (lda : nat) (values : nat -> real_t)
         (ldv batch_count : nat),
    henorm env Inf uplo n Aarray lda values ldv batch_count
    = henorm env One uplo n Aarray lda values ldv batch_count.
Proof.
  intros. unfold henorm. by decide_norm.
Qed.

(** * Further properties of Part I *)

(** ** The maximum on idealized reals *)

Section MaxReach.
Context {scalar_t real_t : Type}.
Context `{RT : RealType real_t} `{DU : DeviceUtil real_t}.
Context `{ST : ScalarType scalar_t real_t}.
Implicit Types (tile : nat -> scalar_t) (uplo : Uplo).

(** [P] is a property that either argument of [max_nan] passes on. *)
Variable P : real_t -> Prop.
Hypothesis P_l : forall x y, P x -> P (max_nan x y).
Hypothesis P_r : forall x y, P y -> P (max_nan x y).

Lemma max_nan_reduce_step_reach n s s2 (x : nat -> real_t) :
  (exists k, k < s2 /\ k < n /\ P (x k)) ->
  s2 <= 2 * s ->
  exists k, k < s /\ k < n /\ P (max_nan_reduce_step n s x k).
Proof using P_l P_r.
  intros (k & Hks & Hkn & HP) Hs2. unfold max_nan_reduce_step.
  destruct (Nat.ltb_spec s n) as [Hsn|Hsn]; [|exists k; split; [lia|done]].
  destruct (Nat.lt_ge_cases k s) as [Hlt|Hge].
  - exists k. split; [done|]. split; [done|].
    destruct (Nat.ltb k s && Nat.ltb (k + s) n); [by apply P_l | done].
  - exists (k - s). split; [lia|]. split; [lia|].
    destruct (Nat.ltb_spec (k - s) s); [|lia].
    replace (k - s + s) with k by lia.
    destruct (Nat.ltb_spec k n); [|lia]. simpl. by apply P_r.
Qed.

Lemma max_nan_reduce_reach n (x : nat -> real_t) k :
  n <= 2048 -> k < n -> P (x k) -> P (max_nan_reduce n x 0).
Proof using P_l P_r.
  intros Hn Hk HP. unfold max_nan_reduce, reduce_strides. simpl fold_left.
  assert (H0 : exists k, k < 2048 /\ k < n /\ P (x k)) by (exists k; split; [lia|done]).
  apply (max_nan_reduce_step_reach n 1024) in H0; [|lia].
  apply (max_nan_reduce_step_reach n 512) in H0; [|lia].
  apply (max_nan_reduce_step_reach n 256) in H0; [|lia].
  apply (max_nan_reduce_step_reach n 128) in H0; [|lia].
  apply (max_nan_reduce_step_reach n 64) in H0; [|lia].
  apply (max_nan_reduce_step_reach n 32) in H0; [|lia].
  apply (max_nan_reduce_step_reach n 16) in H0; [|lia].
  apply (max_nan_reduce_step_reach n 8) in H0; [|lia].
  apply (max_nan_reduce_step_reach n 4) in H0; [|lia].
  apply (max_nan_reduce_step_reach n 2) in H0; [|lia].
  apply (max_nan_reduce_step_reach n 1) in H0; [|lia].
  destruct H0 as (k0 & Hk0 & _ & H0). by replace k0 with 0 in H0 by lia.
Qed.

Lemma henorm_max_row_reach_stored uplo n tile lda i j :
  stored uplo n i j -> P (s_abs (tile (i + j * lda))) ->
  P (henorm_max_row uplo n tile lda i).
Proof using P_l P_r.
  intros Hst HP. unfold henorm_max_row. apply P_l.
  assert (Hi : i < n) by (unfold stored in Hst; tauto).
  apply stored_cols_spec in Hst; [|done]. apply in_split in Hst. destruct Hst as (l1 & l2 & ->).
  apply (fold_left_reaches P).
  - intros acc. by apply P_r.
  - intros acc y _ Hacc. by apply P_l.
Qed.

Lemma henorm_max_row_reach_diag uplo n tile lda i :
  P (r_abs (s_real (tile (i + i * lda)))) -> P (henorm_max_row uplo n tile lda i).
Proof using P_r. intros HP. unfold henorm_max_row. by apply P_r. Qed.

Lemma max_cell_reach uplo n tile lda blockDim i :
  0 < blockDim -> i < n ->
  P (henorm_max_row uplo n tile lda i) ->
  P (max_cell uplo n tile lda blockDim (i mod blockDim)).
Proof using P_l P_r.
  intros Hb Hi HP. pose proof (Nat.mod_upper_bound i blockDim) as Hm.
  destruct (thread_rows_split blockDim n (i mod blockDim) i) as (l1 & l2 & Hrows & Hl2);
    [done | apply thread_rows_spec; lia |].
  unfold max_cell. rewrite Hrows.
  apply (fold_left_reaches P).
  - intros acc. unfold max_cell_step. by apply P_l.
  - intros acc y Hy Hacc. unfold max_cell_step.
    rewrite Forall_forall in Hl2. apply list_elem_of_In, Hl2 in Hy.
    destruct (Nat.ltb_spec y blockDim); [lia|]. by apply P_r.
Qed.

Lemma henorm_max_block_reach uplo n tile lda blockDim shared i :
  0 < blockDim <= 2048 -> i < n ->
  P (henorm_max_row uplo n tile lda i) ->
  P (henorm_max_block uplo n tile lda blockDim shared).
Proof using P_l P_r.
  intros Hb Hi HP. rewrite henorm_max_block_cells by lia.
  apply (max_nan_reduce_reach _ _ (i mod blockDim)); [lia | apply Nat.mod_upper_bound; lia |].
  by apply max_cell_reach; [lia | |].
Qed.

End MaxReach.

Section MaxKeep.
Context {scalar_t real_t : Type}.
Context `{RT : RealType real_t} `{DU : DeviceUtil real_t}.
Context `{ST : ScalarType scalar_t real_t}.
Implicit Types (tile : nat -> scalar_t) (uplo : Uplo).

(** [Q] holds of zero and [max_nan] keeps it. *)
Variable Q : real_t -> Prop.
Hypothesis Q_zero : Q r_zero.
Hypothesis Q_max : forall x y, Q x -> Q y -> Q (max_nan x y).

Lemma max_nan_reduce_keep n (x : nat -> real_t) :
  (forall k, k < n -> Q (x k)) -> Q (max_nan_reduce n x 0) \/ n = 0.
Proof using Q_max.
  intros Hx. destruct (Nat.eq_dec n 0) as [->|Hn]; [by right|]. left.
  unfold max_nan_reduce.
  assert (Hall : forall l y, (forall k, k < n -> Q (y k)) ->
            forall k, k < n -> Q (fold_left (fun x s => max_nan_reduce_step n s x) l y k)).
  { induction l as [|s l IH]; intros y Hy k Hk; [by apply Hy|].
    simpl. apply IH; [|done]. intros k' Hk'. unfold max_nan_reduce_step.
    destruct (Nat.ltb s n); [|by apply Hy].
    destruct (Nat.ltb k' s && Nat.ltb (k' + s) n) eqn:Hc; [|by apply Hy].
    apply andb_true_iff in Hc as [_ Hc]. apply Nat.ltb_lt in Hc.
    apply Q_max; by apply Hy. }
  apply Hall; [done | lia].
Qed.

Lemma henorm_max_row_keep uplo n tile lda i :
  i < n ->
  (forall j, stored uplo n i j -> Q (s_abs (tile (i + j * lda)))) ->
  Q (r_abs (s_real (tile (i + i * lda)))) ->
  Q (henorm_max_row uplo n tile lda i).
Proof using Q_zero Q_max.
  intros Hi Hoff Hdiag. unfold henorm_max_row. apply Q_max; [|done].
  apply fold_left_preserves; [done|].
  intros acc j Hj Hacc. apply Q_max; [done|]. apply Hoff. by apply stored_cols_spec.
Qed.

Lemma max_cell_keep uplo n tile lda blockDim tid :
  0 < blockDim -> tid < blockDim ->
  (forall i, i < n -> Q (henorm_max_row uplo n tile lda i)) ->
  Q (max_cell uplo n tile lda blockDim tid).
Proof using Q_zero Q_max.
  intros Hb Ht Hrows. unfold max_cell. apply fold_left_preserves; [done|].
  intros acc i Hi Hacc. apply thread_rows_spec in Hi as [Hi _]; [|done..].
  unfold max_cell_step. apply Q_max; [by apply Hrows|].
  by destruct (Nat.ltb i blockDim).
Qed.

Lemma henorm_max_block_keep uplo n tile lda blockDim shared :
  0 < blockDim ->
  (forall i, i < n -> Q (henorm_max_row uplo n tile lda i)) ->
  Q (henorm_max_block uplo n tile lda blockDim shared).
Proof using Q_zero Q_max.
  intros Hb Hrows. rewrite henorm_max_block_cells by done.
  destruct (max_nan_reduce_keep blockDim (max_cell uplo n tile lda blockDim)) as [H|H];
    [|done|lia].
  intros k Hk. by apply max_cell_keep.
Qed.

End MaxKeep.

(** ** The column sums on idealized reals *)

Lemma fold_left_add_sumR (f : nat -> R) (l : list nat) (a : R) :
  fold_left (fun sum j => (sum + f j)%R) l a = (a + sumR l f)%R.
Proof.
  revert a. induction l as [|x l IH]; intros a; simpl; [lra|]. rewrite IH. lra.
Qed.

Lemma sumR_cons x l f : sumR (x :: l) f = (f x + sumR l f)%R.
Proof. done. Qed.

Lemma seq_split_at (n k : nat) :
  k < n -> seq 0 n = seq 0 k ++ k :: seq (S k) (n - S k).
Proof.
  intros Hk. replace n with (k + S (n - S k)) at 1 by lia.
  by rewrite seq_app.
Qed.

Section OneValue.
Context {scalar_t : Type} `{ST : ScalarType scalar_t R}.
Implicit Types (tile : nat -> scalar_t) (uplo : Uplo).

(** The loop body computes the sum of column [k] of the full tile. *)
Lemma henorm_one_col_value uplo n tile lda k :
  k < n -> henorm_one_col uplo n tile lda k = one_norm_col uplo n tile lda k.
Proof.
  intros Hk. unfold henorm_one_col, one_norm_col. rewrite (seq_split_at n k Hk).
  rewrite sumR_app, sumR_cons.
  assert (Hdiag : hermitian_abs uplo tile lda k k = Rabs (s_real (tile (k + k * lda)))).
  { unfold hermitian_abs. by rewrite Nat.eqb_refl. }
  assert (Hlow : forall f, (forall i, i < k -> f i = hermitian_abs uplo tile lda i k) ->
            sumR (seq 0 k) f = sumR (seq 0 k) (fun i => hermitian_abs uplo tile lda i k)).
  { intros f Hf. apply sumR_ext_in. intros i Hi. apply in_seq in Hi. apply Hf. lia. }
  assert (Hhigh : forall f, (forall i, k < i -> f i = hermitian_abs uplo tile lda i k) ->
            sumR (seq (S k) (n - S k)) f
            = sumR (seq (S k) (n - S k)) (fun i => hermitian_abs uplo tile lda i k)).
  { intros f Hf. apply sumR_ext_in. intros i Hi. apply in_seq in Hi. apply Hf. lia. }
  rewrite Hdiag.
  destruct uplo; cbn [r_add r_zero r_abs R_RealType];
    rewrite !fold_left_add_sumR.
  - unfold strictly_upper.
    rewrite <- (sumR_perm _ _ _ (Permutation_rev (seq (S k) (n - 1 - k)))).
    replace (n - 1 - k) with (n - S k) by lia. replace (Nat.min k n) with k by lia.
    rewrite (Hhigh (fun j => s_abs (tile (k + j * lda)))),
            (Hlow (fun i => s_abs (tile (lda * k + i)))); [lra| |].
    + intros i Hi. unfold hermitian_abs.
      destruct (Nat.eqb_spec i k); [lia|]. destruct (Nat.ltb_spec i k); [|lia].
      f_equal. f_equal. lia.
    + intros i Hi. unfold hermitian_abs.
      destruct (Nat.eqb_spec i k); [lia|]. by destruct (Nat.ltb_spec i k); [lia|].
  - rewrite (Hlow (fun j => s_abs (tile (k + j * lda)))),
            (Hhigh (fun i => s_abs (tile (lda * k + i)))); [lra| |].
    + intros i Hi. unfold hermitian_abs.
      destruct (Nat.eqb_spec i k); [lia|]. destruct (Nat.ltb_spec k i); [|lia].
      f_equal. f_equal. lia.
    + intros i Hi. unfold hermitian_abs.
      destruct (Nat.eqb_spec i k); [lia|]. by destruct (Nat.ltb_spec k i); [lia|].
  - unfold strictly_upper.
    rewrite <- (sumR_perm _ _ _ (Permutation_rev (seq (S k) (n - 1 - k)))).
    replace (n - 1 - k) with (n - S k) by lia. replace (Nat.min k n) with k by lia.
    rewrite (Hhigh (fun j => s_abs (tile (k + j * lda)))),
            (Hlow (fun i => s_abs (tile (lda * k + i)))); [lra| |].
    + intros i Hi. unfold hermitian_abs.
      destruct (Nat.eqb_spec i k); [lia|]. destruct (Nat.ltb_spec i k); [|lia].
      f_equal. f_equal. lia.
    + intros i Hi. unfold hermitian_abs.
      destruct (Nat.eqb_spec i k); [lia|]. by destruct (Nat.ltb_spec i k); [lia|].
Qed.

End OneValue.

(** ** What the one-norm and Frobenius launches store *)

Lemma fold_left_bind {A B C} (f : A -> C -> A) (g : B -> list C) (l : list B) (a : A) :
  fold_left f (l ≫= g) a = fold_left (fun a x => fold_left f (g x) a) l a.
Proof.
  revert a. induction l as [|x l IH]; intros a; [done|].
  by rewrite bind_cons, fold_left_app, IH.
Qed.

(** A loop of stores [out[base + k] = g k]. *)
Lemma fold_left_stores {A} (g : nat -> A) (base : nat) (l : list nat) (out : nat -> A) :
  (forall k, In k l ->
     fold_left (fun out k => upd out (base + k) (g k)) l out (base + k) = g k) /\
  (forall c, (forall k, In k l -> c <> base + k) ->
     fold_left (fun out k => upd out (base + k) (g k)) l out c = out c).
Proof.
  revert out. induction l as [|x l IH]; intros out.
  - split; [by intros k []|done].
  - destruct (IH (upd out (base + x) (g x))) as [IH1 IH2]. split.
    + intros k Hk. simpl. destruct (in_dec Nat.eq_dec k l) as [Hin|Hout]; [by apply IH1|].
      destruct Hk as [->|Hk]; [|done].
      rewrite IH2; [apply upd_same|]. intros k' Hk' Heq. apply Hout.
      by replace k with k' by lia.
    + intros c Hc. simpl. rewrite IH2 by (intros k Hk; apply Hc; by right).
      apply upd_other. apply Hc. by left.
Qed.

Section OneOutputs.
Context {scalar_t real_t : Type}.
Context `{RT : RealType real_t} `{DU : DeviceUtil real_t}.
Context `{ST : ScalarType scalar_t real_t}.
Implicit Types (tile : nat -> scalar_t) (uplo : Uplo).

Lemma block_rows blockDim n k :
  0 < blockDim -> In k (seq 0 blockDim ≫= thread_rows blockDim n) <-> k < n.
Proof.
  intros Hb. rewrite <- list_elem_of_In, list_elem_of_bind. split.
  - intros (t & Hk & Ht). apply elem_of_seq in Ht.
    apply list_elem_of_In, thread_rows_spec in Hk; lia.
  - intros Hk. exists (k mod blockDim).
    pose proof (Nat.mod_upper_bound k blockDim).
    split; [apply list_elem_of_In, thread_rows_spec; lia | apply elem_of_seq; lia].
Qed.

(** One block stores the sum of column [k] at [blockIdx*ldv + k] for every
    [k < n] and nothing else. *)
Lemma henorm_one_block_out uplo n tile lda blockDim blockIdx ldv (out : nat -> real_t) :
  0 < blockDim ->
  (forall k, k < n ->
     henorm_one_block uplo n tile lda blockDim blockIdx ldv out (blockIdx * ldv + k)
     = henorm_one_col uplo n tile lda k) /\
  (forall c, (forall k, k < n -> c <> blockIdx * ldv + k) ->
     henorm_one_block uplo n tile lda blockDim blockIdx ldv out c = out c).
Proof.
  intros Hb. unfold henorm_one_block, henorm_one_thread.
  rewrite <- (fold_left_bind
                (fun out k => upd out (blockIdx * ldv + k) (henorm_one_col uplo n tile lda k))
                (thread_rows blockDim n)).
  destruct (fold_left_stores (henorm_one_col uplo n tile lda) (blockIdx * ldv)
              (seq 0 blockDim ≫= thread_rows blockDim n) out) as [H1 H2].
  split.
  - intros k Hk. apply H1. by apply block_rows.
  - intros c Hc. apply H2. intros k Hk. apply Hc. by apply block_rows in Hk.
Qed.

(** With [ldv >= n] the blocks of a launch store to disjoint ranges. *)
Lemma henorm_one_kernel_out gridDim blockDim uplo n (Aarray : nat -> nat -> scalar_t)
    lda (tiles_sums : nat -> real_t) ldv :
  0 < blockDim -> n <= ldv ->
  (forall b k, b < gridDim -> k < n ->
     henorm_one_kernel gridDim blockDim uplo n Aarray lda tiles_sums ldv (b * ldv + k)
     = henorm_one_col uplo n (Aarray b) lda k) /\
  (forall c, (forall b k, b < gridDim -> k < n -> c <> b * ldv + k) ->
     henorm_one_kernel gridDim blockDim uplo n Aarray lda tiles_sums ldv c = tiles_sums c).
Proof.
  intros Hb Hldv. unfold henorm_one_kernel.
  induction gridDim as [|g [IH1 IH2]]; [split; [lia | done]|].
  rewrite seq_S, fold_left_app. simpl.
  set (prev := fold_left _ (seq 0 g) tiles_sums) in *.
  destruct (henorm_one_block_out uplo n (Aarray g) lda blockDim g ldv prev Hb) as [B1 B2].
  split.
  - intros b k Hbg Hk. destruct (Nat.eq_dec b g) as [->|Hne]; [by apply B1|].
    rewrite B2; [apply IH1; lia|]. intros k' Hk'. nia.
  - intros c Hc. rewrite B2 by (intros k Hk; apply Hc; lia).
    apply IH2. intros b k Hbg Hk. apply Hc; lia.
Qed.

End OneOutputs.

(** ** The batch entry point, norm by norm *)

Lemma Rle_max_nan_l (a x y : R) : (a <= x)%R -> (a <= max_nan x y)%R.
Proof. intros Hx. simpl. pose proof (Rmax_l x y). lra. Qed.

Lemma Rle_max_nan_r (a x y : R) : (a <= y)%R -> (a <= max_nan x y)%R.
Proof. intros Hy. simpl. pose proof (Rmax_r x y). lra. Qed.

Lemma Rmax_nan_lub (b x y : R) : (x <= b)%R -> (y <= b)%R -> (max_nan x y <= b)%R.
Proof. intros Hx Hy. simpl. by apply Rmax_lub. Qed.

(** X1.  [henorm] with [Norm::Max] on idealized reals, for tiles with
    [n >= 1] when the assertion on [ldv] passes: [values[k]] for
    [k < batch_count] is the maximum of the magnitudes the declared triangle
    of tile [k] holds (it is at least 0, at least the magnitude of every
    strict entry of the declared triangle and of the real part of every
    diagonal entry, and below every non-negative bound of these), and the
    entries from [batch_count] on are left as they were. *)
Theorem henorm_max_is_maximum :
  forall (scalar_t : Type) (ST : ScalarType scalar_t R) (env : henorm_env) (uplo : Uplo)
         (n : nat) (Aarray : nat -> nat -> scalar_t) (lda : nat) (values : nat -> R)
         (ldv batch_count : nat),
    1 <= n ->
    ndebug env || Nat.eqb ldv 1 = true ->
    let r := henorm env Max uplo n Aarray lda values ldv batch_count in
    (forall k, batch_count <= k -> h_values r k = values k) /\
    (forall k, k < batch_count ->
       (0 <= h_values r k)%R /\
       (forall i j, stored uplo n i j ->
          (s_abs (Aarray k (i + j * lda)%nat) <= h_values r k)%R) /\
       (forall i, i < n ->
          (Rabs (s_real (Aarray k (i + i * lda)%nat)) <= h_values r k)%R) /\
       (forall b : R,
          (0 <= b)%R ->
          (forall i j, stored uplo n i j -> (s_abs (Aarray k (i + j * lda)%nat) <= b)%R) ->
          (forall i, i < n -> (Rabs (s_real (Aarray k (i + i * lda)%nat)) <= b)%R) ->
          (h_values r k <= b)%R)).
Proof.
  intros scalar_t ST env uplo n Aarray lda values ldv batch_count Hn Hldv r.
  assert (Hr : forall k,
            h_values r k
            = if Nat.ltb k batch_count
              then henorm_max_block uplo n (Aarray k) lda 512 (shared_init env k)
              else values k).
  { intros k. subst r. unfold henorm.
    destruct (Nat.eqb_spec batch_count 0) as [->|Hb]; [done|].
    decide_norm. destruct (Nat.eqb_spec n 0); [lia|]. rewrite Hldv.
    apply henorm_max_kernel_out. }
  split.
  - intros k Hk. rewrite Hr. by destruct (Nat.ltb_spec k batch_count); [lia|].
  - intros k Hk. rewrite Hr. destruct (Nat.ltb_spec k batch_count); [|lia].
    split; [|split; [|split]].
    + apply (henorm_max_block_reach (fun v => (0 <= v)%R) (Rle_max_nan_l 0) (Rle_max_nan_r 0)
               uplo n (Aarray k) lda 512 (shared_init env k) 0); [lia | lia |].
      apply (henorm_max_row_reach_diag (fun v => (0 <= v)%R) (Rle_max_nan_r 0)).
      apply Rabs_pos.
    + intros i j Hst.
      set (a := s_abs (Aarray k (i + j * lda))).
      apply (henorm_max_block_reach (fun v => (a <= v)%R) (Rle_max_nan_l a) (Rle_max_nan_r a)
               uplo n (Aarray k) lda 512 (shared_init env k) i);
        [lia | unfold stored in Hst; tauto |].
      apply (henorm_max_row_reach_stored (fun v => (a <= v)%R) (Rle_max_nan_l a)
               (Rle_max_nan_r a) uplo n (Aarray k) lda i j Hst).
      subst a. lra.
    + intros i Hi.
      set (a := Rabs (s_real (Aarray k (i + i * lda)))).
      apply (henorm_max_block_reach (fun v => (a <= v)%R) (Rle_max_nan_l a) (Rle_max_nan_r a)
               uplo n (Aarray k) lda 512 (shared_init env k) i); [lia | done |].
      apply (henorm_max_row_reach_diag (fun v => (a <= v)%R) (Rle_max_nan_r a)).
      subst a. simpl. lra.
    + intros b Hb Hoff Hdiag.
      apply (henorm_max_block_keep (RT := R_RealType) (DU := R_DeviceUtil)
               (fun v => (v <= b)%R) Hb (Rmax_nan_lub b)); [lia|].
      intros i Hi.
      apply (henorm_max_row_keep (RT := R_RealType) (DU := R_DeviceUtil)
               (fun v => (v <= b)%R) Hb (Rmax_nan_lub b)); [done| |].
      * intros j Hst. by apply Hoff.
      * by apply Hdiag.
Qed.

Lemma henorm_max_is_maximum_witness :
  1 <= 2 /\ ndebug env_release || Nat.eqb 1 1 = true /\
  h_values (henorm env_release Max Upper 2 (fun _ => tile_upper) 2 (fun _ => 0%R) 1 3) 1
  = 7%R.
Proof.
  split; [lia|]. split; [reflexivity|].
  destruct (henorm_max_is_maximum R _ env_release Upper 2 (fun _ => tile_upper) 2
              (fun _ => 0%R) 1 3) as [_ Hk]; [lia | reflexivity |].
  destruct (Hk 1) as (_ & Hoff & _ & Hlub); [lia|].
  apply Rle_antisym.
  - apply Hlub; [lra | |].
    + intros i j (Hi & Hj & Hij).
      assert (i = 0 /\ j = 1) as [-> ->] by lia.
      simpl. rewrite Rabs_left by lra. lra.
    + intros i Hi. destruct i as [|[|i]]; [| |lia]; simpl.
      * rewrite Rabs_left by lra. lra.
      * rewrite Rabs_right by lra. lra.
  - assert (H01 : stored Upper 2 0 1) by (unfold stored; lia).
    assert (Ha : s_abs (tile_upper (0 + 1 * 2)) = 7%R)
      by (simpl; rewrite Rabs_left by lra; lra).
    rewrite <- Ha. exact (Hoff 0 1 H01).
Defined.

(** X2.  [henorm] with [Norm::One] or [Norm::Inf] on idealized reals, for
    tiles with [1 <= n <= ldv]: [values[k*ldv + j]] for [k < batch_count] and
    [j < n] is the sum of the magnitudes of column [j] of the full Hermitian
    tile [k] (real part on the diagonal, stored entries inside the declared
    triangle, mirrored entries outside it), and every other entry of
    [values] is left as it was. *)
Theorem henorm_one_is_column_sum :
  forall (scalar_t : Type) (ST : ScalarType scalar_t R) (env : henorm_env) (norm : Norm)
         (uplo : Uplo) (n : nat) (Aarray : nat -> nat -> scalar_t) (lda : nat)
         (values : nat -> R) (ldv batch_count : nat),
    norm = One \/ norm = Inf ->
    1 <= n -> n <= ldv ->
    let r := henorm env norm uplo n Aarray lda values ldv batch_count in
    (forall k j, k < batch_count -> j < n ->
       h_values r (k * ldv + j) = one_norm_col uplo n (Aarray k) lda j) /\
    (forall c, (forall k j, k < batch_count -> j < n -> c <> k * ldv + j) ->
       h_values r c = values c).
Proof.
  intros scalar_t ST env norm uplo n Aarray lda values ldv batch_count Hnorm Hn Hldv r.
  assert (Hr : batch_count <> 0 ->
            h_values r = henorm_one_kernel batch_count 512 uplo n Aarray lda values ldv).
  { intros Hb. subst r. unfold henorm.
    destruct (Nat.eqb_spec batch_count 0); [done|].
    destruct (Nat.eqb_spec n 0); [lia|].
    destruct (Nat.leb_spec n ldv); [|lia]. rewrite orb_true_r.
    destruct Hnorm as [-> | ->]; by decide_norm. }
  destruct (henorm_one_kernel_out batch_count 512 uplo n Aarray lda values ldv)
    as [K1 K2]; [lia | done |].
  split.
  - intros k j Hk Hj. rewrite Hr by lia. rewrite K1 by done.
    by apply henorm_one_col_value.
  - intros c Hc. destruct (Nat.eq_dec batch_count 0) as [->|Hb].
    + subst r. unfold henorm. done.
    + rewrite Hr by done. by apply K2.
Qed.

Lemma henorm_one_is_column_sum_witness :
  (One = One \/ One = Inf) /\ 1 <= 2 /\ 2 <= 3 /\
  h_values (henorm env_debug One Upper 2 (fun _ => tile_upper) 2 (fun _ => 0%R) 3 2)
           (1 * 3 + 1) = 11%R.
Proof.
  split; [by left|]. split; [lia|]. split; [lia|].
  destruct (henorm_one_is_column_sum R _ env_debug One Upper 2 (fun _ => tile_upper) 2
              (fun _ => 0%R) 3 2) as [Hk _]; [by left | lia | lia |].
  rewrite (Hk 1 1) by lia.
  unfold one_norm_col, hermitian_abs, sumR, tile_upper. simpl.
  rewrite Rabs_left, Rabs_right by lra. lra.
Defined.

(** X3.  [henorm] with [Norm::Fro] on idealized reals, for tiles with
    [n >= 1] stored in a lower or upper triangle when the assertion on [ldv]
    passes: the pair [values[2k]], [values[2k+1]] for [k < batch_count]
    satisfies scale^2 * sumsq = the Frobenius norm squared of the full
    Hermitian tile [k], and the entries from [2*batch_count] on are left as
    they were. *)
Theorem henorm_fro_is_frobenius :
  forall (scalar_t : Type) (ST : ScalarType scalar_t R) (env : henorm_env) (uplo : Uplo)
         (n : nat) (Aarray : nat -> nat -> scalar_t) (lda : nat) (values : nat -> R)
         (ldv batch_count : nat),
    (forall x : scalar_t, (0 <= s_abs x)%R) ->
    uplo <> General ->
    1 <= n ->
    ndebug env || Nat.eqb ldv 2 = true ->
    let r := henorm env Fro uplo n Aarray lda values ldv batch_count in
    (forall k, k < batch_count ->
       sumsq_value (h_values r (k * 2 + 0), h_values r (k * 2 + 1))
       = frobenius_sq uplo n (Aarray k) lda) /\
    (forall c, batch_count * 2 <= c -> h_values r c = values c).
Proof.
  intros scalar_t ST env uplo n Aarray lda values ldv batch_count Habs Hu Hn Hldv r.
  assert (Hr : batch_count <> 0 ->
            h_values r
            = henorm_fro_kernel batch_count 512 (shared_init env) uplo n Aarray lda values).
  { intros Hb. subst r. unfold henorm.
    destruct (Nat.eqb_spec batch_count 0); [done|].
    decide_norm. destruct (Nat.eqb_spec n 0); [lia|]. by rewrite Hldv. }
  split.
  - intros k Hk. rewrite Hr by lia. rewrite henorm_fro_kernel_out by done.
    rewrite (henorm_fro_block_value Habs) by lia.
    unfold frobenius_sq. apply sumR_ext_in. intros i Hi. apply in_seq in Hi.
    rewrite row_sq_reference by (done || lia). done.
  - intros c Hc. destruct (Nat.eq_dec batch_count 0) as [->|Hb].
    + subst r. unfold henorm. done.
    + rewrite Hr by done. by apply henorm_fro_kernel_frame.
Qed.

Lemma henorm_fro_is_frobenius_witness :
  (forall x : R, (0 <= s_abs x)%R) /\ Lower <> General /\ 1 <= 2 /\
  ndebug env_debug || Nat.eqb 2 2 = true /\
  sumsq_value
    (h_values (henorm env_debug Fro Lower 2 (fun _ => tile_123) 2 (fun _ => 0%R) 2 2) (1 * 2 + 0),
     h_values (henorm env_debug Fro Lower 2 (fun _ => tile_123) 2 (fun _ => 0%R) 2 2) (1 * 2 + 1))
  = 18%R.
Proof.
  split; [apply R_real_abs_nonneg|]. split; [done|]. split; [lia|]. split; [reflexivity|].
  destruct (henorm_fro_is_frobenius R _ env_debug Lower 2 (fun _ => tile_123) 2
              (fun _ => 0%R) 2 2 R_real_abs_nonneg) as [Hk _]; [done | lia | reflexivity |].
  rewrite (Hk 1) by lia.
  unfold frobenius_sq, sumR, tile_123. simpl.
  rewrite !Rabs_right by lra. lra.
Defined.

(** X4.  The strided row loops [for (i = threadIdx.x; i < n; i += blockDim.x)]
    of the threads of one block visit every row below [n] exactly once, for
    any positive block size. *)
Theorem thread_rows_cover_rows_once :
  forall blockDim n : nat,
    0 < blockDim ->
    (seq 0 blockDim ≫= thread_rows blockDim n) ≡ₚ seq 0 n.
Proof.
  intros blockDim n Hb. apply NoDup_Permutation.
  - apply NoDup_bind; [|intros; by apply thread_rows_NoDup|apply NoDup_seq].
    intros t1 t2 i Ht1 Ht2 Hi1 Hi2.
    apply elem_of_seq in Ht1, Ht2.
    apply list_elem_of_In, thread_rows_spec in Hi1; [|lia..].
    apply list_elem_of_In, thread_rows_spec in Hi2; [|lia..]. lia.
  - apply NoDup_seq.
  - intros i. rewrite list_elem_of_In, block_rows, elem_of_seq by done. lia.
Qed.

Lemma thread_rows_cover_rows_once_witness :
  0 < 2 /\ thread_rows 2 5 0 = [0; 2; 4] /\ thread_rows 2 5 1 = [1; 3] /\
  (seq 0 2 ≫= thread_rows 2 5) ≡ₚ seq 0 5.
Proof.
  split; [lia|]. split; [reflexivity|]. split; [reflexivity|].
  apply (thread_rows_cover_rows_once 2 5). lia.
Defined.

(** X5.  How a call of [henorm] ends, for every norm kind: it stops at an
    [assert] exactly when the batch is not empty, [n] is not 0, assertions
    are active and the stride test of the norm kind fails, and then nothing
    was launched and [values] is untouched; it fails at
    [slate_assert(error == hipSuccess)] exactly when the batch is not empty,
    no [assert] stopped it and the device reports an error; [Norm::Two]
    launches nothing and leaves [values] untouched. *)
Theorem henorm_exit_status :
  forall (scalar_t real_t : Type) (RT : RealType real_t) (DU : DeviceUtil real_t)
         (ST : ScalarType scalar_t real_t)
         (env : henorm_env) (norm : Norm) (uplo : Uplo) (n : nat)
         (Aarray : nat -> nat -> scalar_t) (lda : nat) (values : nat -> real_t)
         (ldv batch_count : nat),
    let r := henorm env norm uplo n Aarray lda values ldv batch_count in
    let stopped := negb (Nat.eqb batch_count 0) && negb (Nat.eqb n 0)
                   && negb (ndebug env || stride_ok norm n ldv) in
    (h_exit r = AssertFailed <-> stopped = true) /\
    (h_exit r = DeviceFault <->
       batch_count <> 0 /\ stopped = false /\ hip_ok env = false) /\
    (h_exit r = AssertFailed -> h_values r = values /\ h_launches r = []) /\
    (norm = Two -> h_values r = values /\ h_launches r = []).
Proof.
  intros scalar_t real_t RT DU ST env norm uplo n Aarray lda values ldv batch_count r stopped.
  subst r stopped. unfold henorm.
  destruct (Nat.eqb_spec batch_count 0) as [Hb|Hb]; simpl.
  { repeat split; try done. by intros (? & _). }
  destruct norm; decide_norm; simpl stride_ok.
  all: destruct (Nat.eqb_spec n 0) as [Hn|Hn]; simpl.
  all: try destruct (ndebug env || _) eqn:Hok; simpl.
  all: try (rewrite orb_true_r in Hok; discriminate).
  all: unfold finish, assert_failed; simpl.
  all: destruct (hip_ok env); simpl.
  all: repeat split; try done; try (by intros (? & ? & ?)); try (by intros (? & ?)).
Qed.

(** * Properties of Part II *)

(** ** The monad *)

Lemma bind_ok {K A B} (m : M K A) (f : A -> M K B) st a st' :
  m st = (Ok a, st') -> (m ≫= f) st = f a st'.
Proof. intros Hm. unfold mbind, M_bind. by rewrite Hm. Qed.

Lemma for_each_app {K X} (l1 l2 : list X) (body : X -> M K unit) st st1 :
  for_each l1 body st = (Ok tt, st1) ->
  for_each (l1 ++ l2) body st = for_each l2 body st1.
Proof.
  revert st. induction l1 as [|x l1 IH]; intros st Hl1; simpl in *.
  - by injection Hl1 as ->.
  - unfold mbind, M_bind in *. destruct (body x st) as [[[]| | |] st2]; try done.
    by apply IH.
Qed.

(** A loop whose body succeeds and keeps an invariant succeeds and keeps it. *)
Lemma for_each_invariant {K X} (I : list X -> state K -> Prop) (l : list X)
    (body : X -> M K unit) st :
  I [] st ->
  (forall done x st, In x l -> I done st ->
     exists st', body x st = (Ok tt, st') /\ I (done ++ [x]) st') ->
  exists st', for_each l body st = (Ok tt, st') /\ I l st'.
Proof.
  intros H0 Hstep.
  assert (Hgen : forall l2 l1 st1, l = l1 ++ l2 -> I l1 st1 ->
            exists st', for_each l2 body st1 = (Ok tt, st') /\ I (l1 ++ l2) st').
  { induction l2 as [|x l2 IH]; intros l1 st1 Hl HI.
    - exists st1. by rewrite app_nil_r.
    - destruct (Hstep l1 x st1) as (st2 & Hx & HI2); [subst l; apply in_elt | done |].
      destruct (IH (l1 ++ [x]) st2) as (st3 & Hrest & HI3);
        [by rewrite <- app_assoc | done |].
      exists st3. simpl. rewrite (bind_ok _ _ _ _ _ Hx).
      split; [done|]. by rewrite <- app_assoc in HI3. }
  by apply (Hgen l [] st).
Qed.

(** ** C2: the dispatcher *)

(** C2.  [syr2k] throws before dispatching, with the state as it found it
    and so before any task exists, exactly when C's stored triangle after
    normalizing for its transpose tag is not Lower, or the transpose tags of
    A and B differ, or the type is complex and the tag of A, B or C is
    ConjTrans; otherwise it is the realization its target tag selects. *)
Theorem syr2k_dispatch_precondition :
  forall (K : Type) (SR : ScalarRing K) (env : environment) (alpha : K) (A B : Matrix K)
         (beta : K) (C : SymmetricMatrix) (layout : Layout) (target : Target)
         (st : state K),
    (syr2k_rejects A B C = true <->
       c_uplo C <> Lower \/ m_op A <> m_op B \/
       (is_real = false /\
        (m_op A = ConjTrans \/ m_op B = ConjTrans \/ c_op C = ConjTrans))) /\
    (syr2k_rejects A B C = true ->
       syr2k env alpha A B beta C layout target st = (Throw std_exception, st)) /\
    (syr2k_rejects A B C = false ->
       syr2k env alpha A B beta C layout target st
       = realization env alpha A B beta C layout target st).
Proof.
  intros K SR env alpha A B beta C layout target st. split; [|split].
  - unfold syr2k_rejects. rewrite negb_true_iff, !andb_false_iff, orb_false_iff,
      andb_false_iff, !bool_decide_eq_false.
    destruct is_real; split.
    + intros [[H|[H _]]|H]; [by left | done | by right; left].
    + intros [H|[H|[H _]]]; [by left; left | by right | done].
    + intros [[H|[_ [H|H]]]|H].
      * by left.
      * right; right. split; [done|]. right; right. by destruct (c_op C); try (exfalso; by apply H).
      * right; right. split; [done|]. left. by destruct (m_op A); try (exfalso; by apply H).
      * by right; left.
    + intros [H|[H|[_ [H|[H|H]]]]].
      * by left; left.
      * by right.
      * left; right. split; [done|]. right. by rewrite H; intros Hc; apply Hc.
      * destruct (decide (m_op A = m_op B)) as [Heq|Hne]; [|by right].
        left; right. split; [done|]. right. rewrite Heq, H. by intros Hc; apply Hc.
      * left; right. split; [done|]. left. by rewrite H; intros Hc; apply Hc.
  - intros Hrej. unfold syr2k. by rewrite Hrej.
  - intros Hrej. unfold syr2k. rewrite Hrej. by destruct target.
Qed.

(** ** C3: an exception in the single-tile device task *)

(** C3 (the code departs from it).  In the single-tile case of the device
    implementation the task has no [try]: when the acquisition of A(0, 0)
    fails, the exception leaves the task and [err] is never written, whereas
    the claim has every exception of a unit caught in the unit and recorded
    in the shared flag. *)
Theorem syr2k_Devices_single_tile_escapes :
  forall (K : Type) (SR : ScalarRing K) (env : environment) (alpha : K) (A B : Matrix K)
         (beta : K) (C : SymmetricMatrix) (layout : Layout) (st : state K),
    syr2k_rejects A B C = false ->
    (asserts_off env = true \/ (c_num_devices C > 0)%Z) ->
    c_nt C = 1%Z ->
    c_tileIsLocal C 0 0 = true ->
    acquire_fails env (RefA 0) (Some (c_tileDevice C 0 0)) = true ->
    exists st',
      syr2k env alpha A B beta C layout Devices st = (Escaped acquire_error, st') /\
      s_err st' = 0%Z /\ s_spawned st' = S (s_spawned st).
Proof.
  intros K SR env alpha A B beta C layout st Hrej Hdev Hnt Hlocal Hfail.
  unfold syr2k. rewrite Hrej. unfold syr2k_Devices, assert_.
  assert (Hassert : asserts_off env || bool_decide (c_num_devices C > 0)%Z = true).
  { destruct Hdev as [->|Hdev]; [done|]. rewrite bool_decide_eq_true_2 by done.
    apply orb_true_r. }
  rewrite Hassert. destruct (decide (c_nt C = 1%Z)); [|done].
  rewrite Hlocal. unfold when, Devices_single_body, tileGetForReading.
  rewrite Hfail. eexists. cbn. split; [reflexivity|]. done.
Qed.

Lemma syr2k_Devices_single_tile_escapes_witness :
  syr2k_rejects ones_matrix ones_matrix (grid 1) = false /\
  (c_num_devices (grid 1) > 0)%Z /\ c_nt (grid 1) = 1%Z /\
  c_tileIsLocal (grid 1) 0 0 = true /\
  acquire_fails env_A00_fails (RefA 0) (Some (c_tileDevice (grid 1) 0 0)) = true /\
  fst (syr2k env_A00_fails 1%Z ones_matrix ones_matrix 1%Z (grid 1) ColMajor Devices state0)
  = Escaped acquire_error.
Proof.
  split; [reflexivity|]. split; [done|]. split; [reflexivity|]. split; [reflexivity|].
  split; [reflexivity|].
  destruct (syr2k_Devices_single_tile_escapes Z _ env_A00_fails 1%Z ones_matrix ones_matrix
              1%Z (grid 1) ColMajor state0) as (st' & Hrun & _);
    [reflexivity | by right | reflexivity | reflexivity | reflexivity |].
  by rewrite Hrun.
Defined.

(** ** Summaries of successful runs *)

Lemma ticks_nil t : ticks [] t = 0%Z.
Proof. done. Qed.

Lemma ticks_app l1 l2 t : ticks (l1 ++ l2) t = (ticks l1 t + ticks l2 t)%Z.
Proof. unfold ticks. rewrite filter_app, length_app. lia. Qed.

Lemma ticks_cons t' l t :
  ticks (t' :: l) t = ((if decide (t' = t) then 1 else 0) + ticks l t)%Z.
Proof.
  unfold ticks. rewrite filter_cons. destruct (decide (t' = t)); simpl; lia.
Qed.

Section Effects.
Context {K : Type}.
Implicit Types (m : M K unit) (st : state K).

Lemma effect_refl st : effect st st (fun Cs => Cs) [] [] 0.
Proof.
  unfold effect. rewrite app_nil_r, Nat.add_0_r. repeat split; try done.
  apply functional_extensionality; intros t. rewrite ticks_nil. lia.
Qed.

Lemma effect_trans st st1 st2 U1 U2 T1 T2 C1 C2 N1 N2 :
  effect st st1 U1 T1 C1 N1 -> effect st1 st2 U2 T2 C2 N2 ->
  effect st st2 (fun Cs => U2 (U1 Cs)) (T1 ++ T2) (C1 ++ C2) (N1 + N2).
Proof.
  intros (HC1 & HL1 & HE1 & HS1 & HK1) (HC2 & HL2 & HE2 & HS2 & HK2).
  unfold effect. rewrite HC2, HC1, HL2, HL1, HE2, HE1, HS2, HS1, HK2, HK1.
  repeat split; try done; [|lia|by rewrite app_assoc].
  apply functional_extensionality; intros t. rewrite ticks_app. lia.
Qed.

Lemma has_effect_ret : has_effect (mret tt : M K unit) (fun Cs => Cs) [] [] 0.
Proof. intros st. exists st. split; [done | apply effect_refl]. Qed.

Lemma has_effect_bind m1 m2 U1 U2 T1 T2 C1 C2 N1 N2 :
  has_effect m1 U1 T1 C1 N1 -> has_effect m2 U2 T2 C2 N2 ->
  has_effect (m1;; m2) (fun Cs => U2 (U1 Cs)) (T1 ++ T2) (C1 ++ C2) (N1 + N2).
Proof.
  intros H1 H2 st. destruct (H1 st) as (st1 & Hr1 & He1).
  destruct (H2 st1) as (st2 & Hr2 & He2). exists st2.
  split; [by rewrite (bind_ok _ _ _ _ _ Hr1) | by eapply effect_trans].
Qed.

(** The same summary under other names. *)
Lemma has_effect_eq m U U' T T' C C' N N' :
  has_effect m U T C N -> U' = U -> T' = T -> C' = C -> N' = N ->
  has_effect m U' T' C' N'.
Proof. by intros H -> -> -> ->. Qed.

Lemma has_effect_when (b : bool) m U T C N :
  has_effect m U T C N ->
  has_effect (when b m) (if b then U else fun Cs => Cs) (if b then T else [])
             (if b then C else []) (if b then N else 0).
Proof. destruct b; [done | intros _; apply has_effect_ret]. Qed.

Lemma has_effect_try_catch m handler U T C N :
  has_effect m U T C N -> has_effect (try_catch m handler) U T C N.
Proof.
  intros H st. destruct (H st) as (st' & Hr & He). exists st'.
  unfold try_catch. by rewrite Hr.
Qed.

Lemma has_effect_omp_iteration m U T C N :
  has_effect m U T C N -> has_effect (omp_iteration m) U T C N.
Proof.
  intros H st. destruct (H st) as (st' & Hr & He). exists st'.
  unfold omp_iteration. by rewrite Hr.
Qed.

Lemma has_effect_omp_task m U T C N :
  has_effect m U T C N -> has_effect (omp_task m) U T C (S N).
Proof.
  intros H st. unfold omp_task.
  destruct (H (mkState (s_C st) (s_life st) (s_err st) (S (s_spawned st)) 0 (s_calls st)))
    as (st' & Hr & HC & HL & HE & HS & HK).
  rewrite Hr. eexists. split; [reflexivity|].
  unfold effect. simpl in *. rewrite HC, HL, HE, HS, HK. repeat split; done || lia.
Qed.

Lemma has_effect_omp_taskwait : has_effect (omp_taskwait : M K unit) (fun Cs => Cs) [] [] 0.
Proof.
  intros st. eexists. split; [reflexivity|].
  destruct (effect_refl st) as (HC & HL & HE & HS & HK). by repeat split.
Qed.

Lemma has_effect_tileTick t : has_effect (tileTick t : M K unit) (fun Cs => Cs) [t] [] 0.
Proof.
  intros st. eexists. split; [reflexivity|]. unfold effect. simpl.
  rewrite app_nil_r, Nat.add_0_r. repeat split; try done.
  apply functional_extensionality; intros t'. rewrite ticks_cons, ticks_nil.
  destruct (decide (t' = t)) as [->|Hne].
  - destruct (decide (t = t)); [lia | done].
  - destruct (decide (t = t')); [congruence | lia].
Qed.

Lemma has_effect_tileRelease t device :
  has_effect (tileRelease t device : M K unit) (fun Cs => Cs) [] [] 0.
Proof. apply has_effect_ret. Qed.

Lemma has_effect_log_call c : has_effect (log_call c : M K unit) (fun Cs => Cs) [] [c] 0.
Proof.
  intros st. eexists. split; [reflexivity|]. unfold effect. simpl.
  rewrite Nat.add_0_r. repeat split; try done.
  apply functional_extensionality; intros t. rewrite ticks_nil. lia.
Qed.

(** A loop: the summaries of the iterations in sequence. *)
Lemma has_effect_for_each {X} (l : list X) (body : X -> M K unit)
    (U : X -> (Z -> Z -> tile_data K) -> Z -> Z -> tile_data K)
    (T : X -> list tile_ref) (C : X -> list (blas_call K)) (N : X -> nat) :
  (forall x, In x l -> has_effect (body x) (U x) (T x) (C x) (N x)) ->
  has_effect (for_each l body)
             (fun Cs => fold_left (fun Cs x => U x Cs) l Cs)
             (l ≫= T) (l ≫= C) (list_sum (map N l)).
Proof.
  induction l as [|x l IH]; intros Hbody; [apply has_effect_ret|].
  simpl for_each. eapply has_effect_eq.
  - apply has_effect_bind; [apply Hbody; by left | apply IH; intros; apply Hbody; by right].
  - done.
  - done.
  - done.
  - done.
Qed.

End Effects.

Section BodyEffects.
Context {K : Type} `{SR : ScalarRing K}.
Variable env : environment.
Variables (alpha : K) (A B : Matrix K) (beta : K) (C : SymmetricMatrix).
Hypothesis Hnf : no_failure env.

Lemma has_effect_tileGetForReading t device :
  has_effect (tileGetForReading (K := K) env t device) (fun Cs => Cs) [] [] 0.
Proof using Hnf. unfold tileGetForReading. rewrite Hnf. apply has_effect_ret. Qed.

Lemma has_effect_tileGetForWriting t device :
  has_effect (tileGetForWriting (K := K) env t device) (fun Cs => Cs) [] [] 0.
Proof using Hnf. unfold tileGetForWriting. rewrite Hnf. apply has_effect_ret. Qed.

Lemma existsb_no_failure tiles device :
  existsb (fun t => acquire_fails env t (Some device)) tiles = false.
Proof using Hnf. induction tiles as [|t l IH]; [done|]. simpl. by rewrite Hnf, IH. Qed.

Lemma has_effect_tileGetForReading_set tiles device :
  has_effect (tileGetForReading_set (K := K) env tiles device) (fun Cs => Cs) [] [] 0.
Proof using Hnf.
  unfold tileGetForReading_set. rewrite existsb_no_failure. apply has_effect_ret.
Qed.

Lemma has_effect_tileGetForWriting_set tiles device :
  has_effect (tileGetForWriting_set (K := K) env tiles device) (fun Cs => Cs) [] [] 0.
Proof using Hnf.
  unfold tileGetForWriting_set. rewrite existsb_no_failure. apply has_effect_ret.
Qed.

Lemma has_effect_set_after_get i j (f : tile_data K -> tile_data K) :
  has_effect (c ← get_C i j; set_C i j (f c)) (upd_tile i j f) [] [] 0.
Proof.
  intros st. eexists. split; [reflexivity|]. unfold effect. simpl.
  rewrite app_nil_r, Nat.add_0_r. repeat split; try done.
  apply functional_extensionality; intros t. rewrite ticks_nil. lia.
Qed.

Lemma has_effect_gemm a X Y b i j :
  has_effect (gemm A C a X Y b i j)
    (upd_tile i j (tile_gemm a X Y b (c_op C) (c_tileMb C i) (c_tileNb C j) (m_tileNb A 0)))
    [] [] 0.
Proof. apply has_effect_set_after_get. Qed.

Lemma has_effect_syr2k_tile a X Y b j :
  has_effect (syr2k_tile A C a X Y b j)
    (upd_tile j j (tile_syr2k a X Y b (c_op C) (c_uplo C) (c_tileNb C j) (m_tileNb A 0)))
    [] [] 0.
Proof. apply has_effect_set_after_get. Qed.

Lemma has_effect_run_gemm opA opB m n k al a b be c :
  is_operand a -> is_operand b ->
  has_effect (run_gemm A B opA opB m n k al a b be c)
             (gemm_update A B opA opB m n k al a b be c) [] [] 0.
Proof.
  intros Ha Hb. destruct c as [i|i|i j]; try apply has_effect_ret.
  destruct a as [ia|ia|? ?], b as [ib|ib|? ?]; try done;
    apply (has_effect_set_after_get i j).
Qed.

Lemma has_effect_run_syr2k uplo trans n k al a b be c :
  is_operand a -> is_operand b ->
  has_effect (run_syr2k A B uplo trans n k al a b be c)
             (syr2k_update A B uplo trans n k al a b be c) [] [] 0.
Proof.
  intros Ha Hb. destruct c as [i|i|i j]; try apply has_effect_ret.
  destruct a as [ia|ia|? ?], b as [ib|ib|? ?]; try done;
    apply (has_effect_set_after_get i j).
Qed.

End BodyEffects.

(** Summarize a straight-line body from the summaries of its steps. *)
Ltac effect_step Hnf extra :=
  lazymatch goal with
  | |- has_effect (tileGetForReading _ _ _) _ _ _ _ =>
      apply (has_effect_tileGetForReading _ Hnf)
  | |- has_effect (tileGetForWriting _ _ _) _ _ _ _ =>
      apply (has_effect_tileGetForWriting _ Hnf)
  | |- has_effect (tileGetForReading_set _ _ _) _ _ _ _ =>
      apply (has_effect_tileGetForReading_set _ Hnf)
  | |- has_effect (tileGetForWriting_set _ _ _) _ _ _ _ =>
      apply (has_effect_tileGetForWriting_set _ Hnf)
  | |- has_effect (tileTick _) _ _ _ _ => apply has_effect_tileTick
  | |- has_effect (tileRelease _ _) _ _ _ _ => apply has_effect_tileRelease
  | |- has_effect (gemm _ _ _ _ _ _ _ _) _ _ _ _ => apply has_effect_gemm
  | |- has_effect (syr2k_tile _ _ _ _ _ _ _) _ _ _ _ => apply has_effect_syr2k_tile
  | |- has_effect (log_call _) _ _ _ _ => apply has_effect_log_call
  | |- has_effect omp_taskwait _ _ _ _ => apply has_effect_omp_taskwait
  | |- has_effect (omp_task _) _ _ _ _ => apply has_effect_omp_task
  | |- has_effect (try_catch _ _) _ _ _ _ => apply has_effect_try_catch
  | |- has_effect (omp_iteration _) _ _ _ _ => apply has_effect_omp_iteration
  | |- has_effect (_ ≫= _) _ _ _ _ => apply has_effect_bind
  | |- has_effect _ _ _ _ _ => extra
  end.

Ltac effect_steps_with Hnf extra := repeat (effect_step Hnf extra).

Ltac effect_steps Hnf := effect_steps_with Hnf fail.

Section UnitEffects.
Context {K : Type} `{SR : ScalarRing K}.
Variable env : environment.
Variables (alpha : K) (A B : Matrix K) (beta : K) (C : SymmetricMatrix).
Hypothesis Hnf : no_failure env.

Lemma host_diag_body_effect j :
  has_effect (host_diag_body env alpha A B beta C j)
             (diag_update alpha A B beta C j) [RefA j; RefB j] [] 0.
Proof using Hnf.
  unfold host_diag_body. eapply has_effect_eq; [effect_steps Hnf | done..].
Qed.

Lemma HostTask_offdiag_body_effect i j :
  has_effect (HostTask_offdiag_body env alpha A B beta C i j)
             (offdiag_update alpha A B beta C i j) (ticked (i, j)) [] 0.
Proof using Hnf.
  unfold HostTask_offdiag_body. eapply has_effect_eq; [effect_steps Hnf | done..].
Qed.

Lemma HostNest_offdiag_body_effect i j :
  has_effect (HostNest_offdiag_body env alpha A B beta C i j)
             (offdiag_update alpha A B beta C i j) (ticked (i, j)) [] 0.
Proof using Hnf.
  unfold HostNest_offdiag_body. eapply has_effect_eq; [effect_steps Hnf | done..].
Qed.

Lemma blas_syr2k_call_effect uplo trans n k al a b be c :
  is_operand a -> is_operand b ->
  has_effect (blas_syr2k_call A B uplo trans n k al a b be c)
             (call_update A B (call_syr2k uplo trans n k al a b be c)) []
             [call_syr2k uplo trans n k al a b be c] 0.
Proof.
  intros Ha Hb. unfold blas_syr2k_call.
  eapply has_effect_eq;
    [apply has_effect_bind; [apply has_effect_log_call | by apply has_effect_run_syr2k]
    | done..].
Qed.

Lemma Devices_single_body_effect :
  has_effect (Devices_single_body env alpha A B beta C)
             (call_update A B (single_call alpha A beta C))
             [RefA 0; RefA 0; RefB 0; RefB 0] [single_call alpha A beta C] 0.
Proof using Hnf.
  unfold Devices_single_body.
  eapply has_effect_eq;
    [effect_steps_with Hnf ltac:(by apply blas_syr2k_call_effect) | done..].
Qed.

End UnitEffects.

Section LoopEffects.
Context {K : Type} `{SR : ScalarRing K}.
Variables (A B : Matrix K).

Lemma has_effect_bind_value {X} (m : M K X) (f : X -> M K unit) (x : X) U T C N :
  (forall st, m st = (Ok x, st)) -> has_effect (f x) U T C N ->
  has_effect (m ≫= f) U T C N.
Proof.
  intros Hm Hf st. destruct (Hf st) as (st' & Hr & He). exists st'.
  by rewrite (bind_ok _ _ _ _ _ (Hm st)).
Qed.

Lemma bind_nothing {X Y} (l : list X) : l ≫= (fun _ => @nil Y) = [].
Proof. induction l as [|x l IH]; [done|]. by rewrite bind_cons, IH. Qed.

Lemma list_sum_zero {X} (l : list X) : list_sum (map (fun _ => 0) l) = 0.
Proof. by induction l. Qed.

(** A loop that only updates C. *)
Lemma has_effect_for_each_update {X} (l : list X) (body : X -> M K unit)
    (U : X -> (Z -> Z -> tile_data K) -> Z -> Z -> tile_data K) :
  (forall x, In x l -> has_effect (body x) (U x) [] [] 0) ->
  has_effect (for_each l body) (fun Cs => fold_left (fun Cs x => U x Cs) l Cs) [] [] 0.
Proof.
  intros Hbody.
  eapply has_effect_eq;
    [apply (has_effect_for_each l body U (fun _ => []) (fun _ => []) (fun _ => 0) Hbody)
    | done | | |].
  - by rewrite bind_nothing.
  - by rewrite bind_nothing.
  - by rewrite list_sum_zero.
Qed.

(** A loop that only ticks. *)
Lemma has_effect_for_each_ticks {X} (l : list X) (body : X -> M K unit)
    (T : X -> list tile_ref) :
  (forall x, In x l -> has_effect (body x) (fun Cs => Cs) (T x) [] 0) ->
  has_effect (for_each l body) (fun Cs => Cs) (l ≫= T) [] 0.
Proof.
  intros Hbody.
  eapply has_effect_eq;
    [apply (has_effect_for_each l body (fun _ Cs => Cs) T (fun _ => []) (fun _ => 0) Hbody)
    | | done | |].
  - apply functional_extensionality; intros Cs. clear Hbody. induction l; simpl; auto.
  - by rewrite bind_nothing.
  - by rewrite list_sum_zero.
Qed.

Lemma in_zip3 {X Y W} (x : X) (y : Y) (w : W) xs ys ws :
  In (x, y, w) (zip3 xs ys ws) -> In x xs /\ In y ys /\ In w ws.
Proof.
  revert ys ws. induction xs as [|x0 xs IH]; intros [|y0 ys] [|w0 ws]; simpl; try done.
  intros [Heq|Hin]; [injection Heq as -> -> ->; tauto|].
  apply IH in Hin. tauto.
Qed.

Lemma blas_batch_gemm_effect opA opB m n k al a_array b_array be c_array :
  Forall is_operand a_array -> Forall is_operand b_array ->
  has_effect (blas_batch_gemm A B opA opB m n k al a_array b_array be c_array)
    (call_update A B (call_batch_gemm opA opB m n k al a_array b_array be c_array)) []
    [call_batch_gemm opA opB m n k al a_array b_array be c_array] 0.
Proof.
  intros Ha Hb. unfold blas_batch_gemm.
  eapply has_effect_eq;
    [apply has_effect_bind;
       [apply has_effect_log_call
       |apply (has_effect_for_each_update _ _
                 (fun x Cs => let '(a, b, c) := x in
                              gemm_update A B opA opB m n k al a b be c Cs))]
    | done..].
  intros [[a b] c] Hin. apply in_zip3 in Hin as (Hina & Hinb & _).
  rewrite Forall_forall in Ha, Hb.
  apply has_effect_run_gemm; [apply Ha | apply Hb]; by apply list_elem_of_In.
Qed.

Lemma blas_batch_syr2k_effect uplo trans n k al a_array b_array be c_array :
  Forall is_operand a_array -> Forall is_operand b_array ->
  has_effect (blas_batch_syr2k A B uplo trans n k al a_array b_array be c_array)
    (call_update A B (call_batch_syr2k uplo trans n k al a_array b_array be c_array)) []
    [call_batch_syr2k uplo trans n k al a_array b_array be c_array] 0.
Proof.
  intros Ha Hb. unfold blas_batch_syr2k.
  eapply has_effect_eq;
    [apply has_effect_bind;
       [apply has_effect_log_call
       |apply (has_effect_for_each_update _ _
                 (fun x Cs => let '(a, b, c) := x in
                              syr2k_update A B uplo trans n k al a b be c Cs))]
    | done..].
  intros [[a b] c] Hin. apply in_zip3 in Hin as (Hina & Hinb & _).
  rewrite Forall_forall in Ha, Hb.
  apply has_effect_run_syr2k; [apply Ha | apply Hb]; by apply list_elem_of_In.
Qed.

(** A call that is skipped when its group is empty. *)
Lemma has_effect_when_call (b : bool) (m : M K unit) (c : blas_call K) :
  has_effect m (call_update A B c) [] [c] 0 ->
  has_effect (when b m) (calls_update A B (if b then [c] else [])) []
             (if b then [c] else []) 0.
Proof.
  intros Hm. destruct b; [done | apply has_effect_ret].
Qed.

Lemma calls_update_app calls1 calls2 Cs :
  calls_update A B (calls1 ++ calls2) Cs = calls_update A B calls2 (calls_update A B calls1 Cs).
Proof. unfold calls_update. by rewrite fold_left_app. Qed.

Lemma Forall_operand_A {X} (f : X -> Z) l : Forall is_operand (map (fun x => RefA (f x)) l).
Proof. apply Forall_forall. intros t Ht. apply list_elem_of_In, in_map_iff in Ht. by destruct Ht as (x & <- & _). Qed.

Lemma Forall_operand_B {X} (f : X -> Z) l : Forall is_operand (map (fun x => RefB (f x)) l).
Proof. apply Forall_forall. intros t Ht. apply list_elem_of_In, in_map_iff in Ht. by destruct Ht as (x & <- & _). Qed.

End LoopEffects.

Section DeviceEffect.
Context {K : Type} `{SR : ScalarRing K}.
Variable env : environment.
Variables (alpha : K) (A B : Matrix K) (beta : K) (C : SymmetricMatrix).
Hypothesis Hnf : no_failure env.
Hypothesis Hacc : syr2k_rejects A B C = false.

(** What the dispatcher accepted. *)
Lemma accepted :
  c_uplo C = Lower /\ m_op A = m_op B /\
  (is_real = true \/ (c_op C <> ConjTrans /\ m_op A <> ConjTrans)).
Proof using Hacc.
  unfold syr2k_rejects in Hacc. apply negb_false_iff in Hacc.
  apply andb_true_iff in Hacc as [Hacc HAB]. apply andb_true_iff in Hacc as [Hlow Hreal].
  apply bool_decide_eq_true in Hlow, HAB. split; [done|]. split; [done|].
  apply orb_true_iff in Hreal as [Hreal|Hops]; [by left|]. right.
  apply andb_true_iff in Hops as [H1 H2]. by apply bool_decide_eq_true in H1, H2.
Qed.

Lemma normalize_opA_ok (st : state K) :
  normalize_opA A C st = (Ok (opA_normalized A C), st).
Proof using Hacc.
  destruct accepted as (_ & _ & Hreal). unfold normalize_opA, opA_normalized.
  destruct (decide (c_op C <> NoTrans)) as [HC|HC]; [|done].
  destruct (decide (m_op A = NoTrans)) as [HA|HA]; [done|].
  destruct Hreal as [->|[HCc HAc]]; [by rewrite orb_true_r|].
  rewrite bool_decide_eq_true_2; [done|].
  destruct (m_op A), (c_op C); done.
Qed.

Lemma tick_loop_effect (l : list (Z * Z)) (device : Z) :
  has_effect (K := K)
    (for_each l (fun '(i, j) =>
       tileRelease (RefA i) device;;
       tileRelease (RefA j) device;;
       tileRelease (RefB i) device;;
       tileRelease (RefB j) device;;
       tileTick (RefA i);;
       tileTick (RefA j);;
       tileTick (RefB i);;
       tileTick (RefB j)))
    (fun Cs => Cs) (l ≫= ticked) [] 0.
Proof.
  apply has_effect_for_each_ticks. intros [i j] _.
  eapply has_effect_eq; [effect_steps Hnf | done..].
Qed.

Lemma Devices_device_body_effect device :
  has_effect (Devices_device_body env alpha A B beta C device)
             (calls_update A B (device_calls alpha A beta C device))
             (lower_on_device C device ≫= ticked)
             (device_calls alpha A beta C device) 6.
Proof using Hnf Hacc.
  unfold Devices_device_body.
  apply (has_effect_bind_value _ _ (opA_normalized A C)); [apply normalize_opA_ok|].
  unfold device_calls.
  destruct (bool_decide (c_op C <> NoTrans)); cbv zeta.
  all: eapply has_effect_eq;
    [effect_steps_with Hnf
       ltac:(first [ apply tick_loop_effect
                   | apply has_effect_when_call; apply blas_batch_gemm_effect;
                     first [apply Forall_operand_A | apply Forall_operand_B]
                   | apply has_effect_when_call; apply blas_batch_syr2k_effect;
                     first [apply Forall_operand_A | apply Forall_operand_B] ])
    | | done | | done].
  all: try (apply functional_extensionality; intros Cs; by rewrite !calls_update_app).
  all: simpl; by rewrite ?app_nil_r.
Qed.

End DeviceEffect.

(** ** C7: the life of the input tiles *)

Lemma has_effect_life {K} (m : M K unit) U T Cl N st :
  has_effect m U T Cl N ->
  exists st', m st = (Ok tt, st') /\ forall t, s_life st' t = (s_life st t - ticks T t)%Z.
Proof.
  intros H. destruct (H st) as (st' & Hr & _ & HL & _). exists st'.
  split; [done|]. intros t. by rewrite HL.
Qed.

(** C7 (amended).  When nothing fails, a unit of the host implementations
    that updates one tile (the task of a diagonal tile, shared by the three
    host implementations, the task of an off-diagonal tile of HostTask, the
    iteration of an off-diagonal tile of HostNest) decrements the life of
    each distinct tile of A and B it used exactly once.  The device
    implementation decrements per tile of C and operand position: a device
    unit decrements A(i,0), A(j,0), B(i,0), B(j,0) once for each lower tile
    (i, j) of the device, so the inputs of a diagonal tile are decremented
    twice, and the single-tile unit decrements A(0,0) and B(0,0) twice. *)
Theorem syr2k_units_tick :
  forall (K : Type) (SR : ScalarRing K) (env : environment) (alpha : K) (A B : Matrix K)
         (beta : K) (C : SymmetricMatrix),
    no_failure env ->
    (forall j st, exists st',
        host_diag_body env alpha A B beta C j st = (Ok tt, st') /\
        forall t, s_life st' t = (s_life st t - ticks [RefA j; RefB j] t)%Z) /\
    (forall i j st, exists st',
        HostTask_offdiag_body env alpha A B beta C i j st = (Ok tt, st') /\
        forall t, s_life st' t = (s_life st t - ticks (ticked (i, j)) t)%Z) /\
    (forall i j st, exists st',
        HostNest_offdiag_body env alpha A B beta C i j st = (Ok tt, st') /\
        forall t, s_life st' t = (s_life st t - ticks (ticked (i, j)) t)%Z) /\
    (forall st, exists st',
        Devices_single_body env alpha A B beta C st = (Ok tt, st') /\
        forall t, s_life st' t = (s_life st t - ticks (ticked (0, 0)%Z) t)%Z) /\
    (syr2k_rejects A B C = false ->
     forall device st, exists st',
        Devices_device_body env alpha A B beta C device st = (Ok tt, st') /\
        forall t, s_life st' t
                  = (s_life st t - ticks (lower_on_device C device ≫= ticked) t)%Z) /\
    (forall j : Z, ticks [RefA j; RefB j] (RefA j) = 1%Z /\
                   ticks [RefA j; RefB j] (RefB j) = 1%Z) /\
    (forall i j : Z, i <> j -> forall t, In t (ticked (i, j)) -> ticks (ticked (i, j)) t = 1%Z) /\
    (forall j : Z, ticks (ticked (j, j)) (RefA j) = 2%Z /\ ticks (ticked (j, j)) (RefB j) = 2%Z).
Proof.
  intros K SR env alpha A B beta C Hnf. repeat split.
  - intros j st. eapply has_effect_life. by apply host_diag_body_effect.
  - intros i j st. eapply has_effect_life. by apply HostTask_offdiag_body_effect.
  - intros i j st. eapply has_effect_life. by apply HostNest_offdiag_body_effect.
  - intros st. eapply has_effect_life. by apply Devices_single_body_effect.
  - intros Hacc device st. eapply has_effect_life. by apply Devices_device_body_effect.
  - rewrite !ticks_cons, ticks_nil. by repeat case_decide.
  - rewrite !ticks_cons, ticks_nil. by repeat case_decide.
  - intros i j Hij t Ht. unfold ticked in *. rewrite !ticks_cons, ticks_nil.
    cbn [fst snd In] in *.
    destruct Ht as [<-|[<-|[<-|[<-|[]]]]]; repeat case_decide; simplify_eq; lia.
  - unfold ticked. rewrite !ticks_cons, ticks_nil. cbn [fst snd]. by repeat case_decide.
  - unfold ticked. rewrite !ticks_cons, ticks_nil. cbn [fst snd]. by repeat case_decide.
Qed.

Lemma syr2k_units_tick_witness :
  no_failure env_plain /\
  fst (HostTask_offdiag_body env_plain 1%Z ones_matrix ones_matrix 1%Z (grid 2) 1 0 state0)
  = Ok tt /\
  forall t, In t (ticked (1, 0)%Z) ->
    s_life (snd (HostTask_offdiag_body env_plain 1%Z ones_matrix ones_matrix 1%Z (grid 2)
                   1 0 state0)) t
    = (s_life state0 t - 1)%Z.
Proof.
  assert (Hnf : no_failure env_plain) by (by intros t d).
  split; [done|].
  destruct (syr2k_units_tick Z _ env_plain 1%Z ones_matrix ones_matrix 1%Z (grid 2) Hnf)
    as (_ & Hoff & _ & _ & _ & _ & Honce & _).
  destruct (Hoff 1%Z 0%Z state0) as (st' & Hrun & Hlife).
  rewrite Hrun. split; [done|]. intros t Ht. simpl.
  rewrite Hlife, (Honce 1%Z 0%Z) by done. done.
Defined.

(** C7, as stated, fails in the single-tile case of the device
    implementation: the unit ticks A(0, 0) twice, so a life of 3 becomes 1. *)
Lemma Devices_single_ticks_twice :
  fst (Devices_single_body env_plain 1%Z ones_matrix ones_matrix 1%Z (grid 1) state0) = Ok tt /\
  s_life state0 (RefA 0) = 3%Z /\
  s_life (snd (Devices_single_body env_plain 1%Z ones_matrix ones_matrix 1%Z (grid 1) state0))
         (RefA 0) = 1%Z.
Proof. repeat split. Qed.

(** ** C8: the batch groups of a device *)

Lemma filter_absent {X} `{EqDecision X} (l : list X) (x : X) :
  x ∉ l -> filter (fun y => y = x) l = [].
Proof.
  induction l as [|y l IH]; intros Hx; [done|].
  apply not_elem_of_cons in Hx as [Hne Hx]. rewrite filter_cons.
  destruct (decide (y = x)); [congruence | by apply IH].
Qed.

Lemma count_NoDup {X} `{EqDecision X} (l : list X) (x : X) :
  NoDup l -> x ∈ l -> length (filter (fun y => y = x) l) = 1.
Proof.
  induction 1 as [|y l Hy Hl IH]; intros Hx; [by apply elem_of_nil in Hx|].
  rewrite filter_cons. apply elem_of_cons in Hx as [->|Hx].
  - destruct (decide (y = y)); [|done]. simpl. by rewrite filter_absent.
  - destruct (decide (y = x)) as [->|_]; [done | by apply IH].
Qed.

Section Groups.
Variable C : SymmetricMatrix.
Variable device : Z.

Lemma elem_of_gemm00_tiles i j :
  (i, j) ∈ gemm00_tiles C device <->
  (0 <= j < c_nt C - 1 /\ j + 1 <= i < c_mt C - 1)%Z /\ on_device C device i j = true.
Proof.
  unfold gemm00_tiles. rewrite list_elem_of_bind. split.
  - intros (j' & Hin & Hj'). apply elem_of_seqZ in Hj'.
    apply list_elem_of_bind in Hin as (i' & Hin & Hi'). apply elem_of_seqZ in Hi'.
    destruct (on_device C device i' j') eqn:Hon; [|by apply elem_of_nil in Hin].
    apply list_elem_of_singleton in Hin. injection Hin as -> ->. split; [lia | done].
  - intros [Hr Hon]. exists j. split; [|apply elem_of_seqZ; lia].
    apply list_elem_of_bind. exists i. split; [|apply elem_of_seqZ; lia].
    rewrite Hon. by apply list_elem_of_singleton.
Qed.

Lemma elem_of_gemm10_tiles i j :
  (i, j) ∈ gemm10_tiles C device <->
  (i = c_mt C - 1 /\ 0 <= j < c_nt C - 1)%Z /\ on_device C device i j = true.
Proof.
  unfold gemm10_tiles. rewrite list_elem_of_bind. split.
  - intros (j' & Hin & Hj'). apply elem_of_seqZ in Hj'.
    destruct (on_device C device (c_mt C - 1) j') eqn:Hon; [|by apply elem_of_nil in Hin].
    apply list_elem_of_singleton in Hin. injection Hin as -> ->. split; [lia | done].
  - intros [[-> Hr] Hon]. exists j. split; [|apply elem_of_seqZ; lia].
    rewrite Hon. by apply list_elem_of_singleton.
Qed.

Lemma elem_of_syr2k_0_tiles i j :
  (i, j) ∈ syr2k_0_tiles C device <->
  (i = j /\ 0 <= j < c_nt C - 1)%Z /\ on_device C device j j = true.
Proof.
  unfold syr2k_0_tiles. rewrite list_elem_of_bind. split.
  - intros (j' & Hin & Hj'). apply elem_of_seqZ in Hj'.
    destruct (on_device C device j' j') eqn:Hon; [|by apply elem_of_nil in Hin].
    apply list_elem_of_singleton in Hin. injection Hin as -> ->. split; [lia | done].
  - intros [[-> Hr] Hon]. exists j. split; [|apply elem_of_seqZ; lia].
    rewrite Hon. by apply list_elem_of_singleton.
Qed.

Lemma elem_of_syr2k_1_tiles i j :
  (i, j) ∈ syr2k_1_tiles C device <->
  (i = j /\ j = c_nt C - 1)%Z /\ on_device C device (c_mt C - 1) (c_nt C - 1) = true.
Proof.
  unfold syr2k_1_tiles.
  destruct (on_device C device (c_mt C - 1) (c_nt C - 1)) eqn:Hon.
  - rewrite list_elem_of_singleton. split; [by intros [= -> ->] | by intros [[-> ->] _]].
  - split; [by intros Hin; apply elem_of_nil in Hin | by intros [_ ?]].
Qed.

Lemma NoDup_gemm00_tiles : NoDup (gemm00_tiles C device).
Proof.
  unfold gemm00_tiles. apply NoDup_bind; [| |apply NoDup_seqZ].
  - intros j1 j2 [i j] _ _ H1 H2.
    apply list_elem_of_bind in H1 as (i1 & H1 & _), H2 as (i2 & H2 & _).
    destruct (on_device C device i1 j1); [|by apply elem_of_nil in H1].
    destruct (on_device C device i2 j2); [|by apply elem_of_nil in H2].
    apply list_elem_of_singleton in H1, H2. congruence.
  - intros j _. apply NoDup_bind; [| |apply NoDup_seqZ].
    + intros i1 i2 [i j'] _ _ H1 H2.
      destruct (on_device C device i1 j); [|by apply elem_of_nil in H1].
      destruct (on_device C device i2 j); [|by apply elem_of_nil in H2].
      apply list_elem_of_singleton in H1, H2. congruence.
    + intros i _. destruct (on_device C device i j); [apply NoDup_singleton | apply NoDup_nil_2].
Qed.

Lemma NoDup_gemm10_tiles : NoDup (gemm10_tiles C device).
Proof.
  unfold gemm10_tiles. apply NoDup_bind; [| |apply NoDup_seqZ].
  - intros j1 j2 [i j] _ _ H1 H2.
    destruct (on_device C device (c_mt C - 1) j1); [|by apply elem_of_nil in H1].
    destruct (on_device C device (c_mt C - 1) j2); [|by apply elem_of_nil in H2].
    apply list_elem_of_singleton in H1, H2. congruence.
  - intros j _. destruct (on_device C device (c_mt C - 1) j);
      [apply NoDup_singleton | apply NoDup_nil_2].
Qed.

Lemma NoDup_syr2k_0_tiles : NoDup (syr2k_0_tiles C device).
Proof.
  unfold syr2k_0_tiles. apply NoDup_bind; [| |apply NoDup_seqZ].
  - intros j1 j2 [i j] _ _ H1 H2.
    destruct (on_device C device j1 j1); [|by apply elem_of_nil in H1].
    destruct (on_device C device j2 j2); [|by apply elem_of_nil in H2].
    apply list_elem_of_singleton in H1, H2. congruence.
  - intros j _. destruct (on_device C device j j); [apply NoDup_singleton | apply NoDup_nil_2].
Qed.

Lemma NoDup_syr2k_1_tiles : NoDup (syr2k_1_tiles C device).
Proof.
  unfold syr2k_1_tiles.
  destruct (on_device C device _ _); [apply NoDup_singleton | apply NoDup_nil_2].
Qed.

Lemma NoDup_gemm_tiles : NoDup (gemm00_tiles C device ++ gemm10_tiles C device).
Proof.
  apply NoDup_app. split; [apply NoDup_gemm00_tiles|]. split; [|apply NoDup_gemm10_tiles].
  intros [i j] H00 H10. apply elem_of_gemm00_tiles in H00. apply elem_of_gemm10_tiles in H10.
  lia.
Qed.

Lemma NoDup_syr2k_tiles : NoDup (syr2k_0_tiles C device ++ syr2k_1_tiles C device).
Proof.
  apply NoDup_app. split; [apply NoDup_syr2k_0_tiles|]. split; [|apply NoDup_syr2k_1_tiles].
  intros [i j] H0 H1. apply elem_of_syr2k_0_tiles in H0. apply elem_of_syr2k_1_tiles in H1.
  lia.
Qed.

(** The pointers of a syr2k group are those of its tiles (j, j). *)
Lemma syr2k_tiles_refs tiles :
  (forall i j, (i, j) ∈ tiles -> i = j) ->
  map (fun ij : Z * Z => RefC (snd ij) (snd ij)) tiles = c_refs tiles.
Proof.
  intros Hd. unfold c_refs. apply map_ext_in. intros [i j] Hin. simpl.
  by rewrite (Hd i j) by (by apply list_elem_of_In).
Qed.

End Groups.

Lemma device_calls_targets {K} `{ScalarRing K} (alpha : K) (A : Matrix K) (beta : K)
    (C : SymmetricMatrix) (device : Z) :
  map call_target (device_calls alpha A beta C device)
  = issued [(KindGemm, gemm00_tiles C device); (KindGemm, gemm10_tiles C device);
            (KindGemm, gemm00_tiles C device); (KindGemm, gemm10_tiles C device);
            (KindSyr2k, syr2k_0_tiles C device); (KindSyr2k, syr2k_1_tiles C device)].
Proof.
  unfold device_calls, issued. cbv zeta. rewrite !map_app. unfold c_refs.
  rewrite !length_map. cbn [omap list_omap fst snd].
  rewrite (syr2k_tiles_refs (syr2k_0_tiles C device)),
          (syr2k_tiles_refs (syr2k_1_tiles C device)).
  - unfold c_refs.
    destruct (Nat.ltb 0 (length (gemm00_tiles C device)));
    destruct (Nat.ltb 0 (length (gemm10_tiles C device)));
    destruct (Nat.ltb 0 (length (syr2k_0_tiles C device)));
    destruct (Nat.ltb 0 (length (syr2k_1_tiles C device))); reflexivity.
  - intros i j Hin. by apply elem_of_syr2k_1_tiles in Hin as [[-> _] _].
  - intros i j Hin. by apply elem_of_syr2k_0_tiles in Hin as [[-> _] _].
Qed.

(** C8.  In the device implementation with more than one block column and a
    square tile grid, on every device each strictly lower tile of C that is
    local and resident on the device is in exactly one of the two gemm groups
    (interior, bottom row), once, and the same two groups serve both
    products; each such diagonal tile is in exactly one of the two syr2k
    groups (diagonal, corner), once; and the calls issued are those of the
    non-empty groups, in order, the call of an empty group being skipped. *)
Theorem device_batch_groups :
  forall (C : SymmetricMatrix) (device : Z),
    c_mt C = c_nt C -> (1 < c_nt C)%Z ->
    (forall i j : Z,
        (0 <= j < i)%Z -> (i < c_mt C)%Z -> on_device C device i j = true ->
        length (filter (fun t => t = (i, j))
                       (gemm00_tiles C device ++ gemm10_tiles C device)) = 1) /\
    (forall j : Z,
        (0 <= j < c_nt C)%Z -> on_device C device j j = true ->
        length (filter (fun t => t = (j, j))
                       (syr2k_0_tiles C device ++ syr2k_1_tiles C device)) = 1) /\
    (forall (K : Type) (SR : ScalarRing K) (env : environment) (alpha : K) (A B : Matrix K)
            (beta : K) (st : state K),
        no_failure env -> syr2k_rejects A B C = false ->
        exists st',
          Devices_device_body env alpha A B beta C device st = (Ok tt, st') /\
          map call_target (s_calls st')
          = map call_target (s_calls st) ++
            issued [(KindGemm, gemm00_tiles C device); (KindGemm, gemm10_tiles C device);
                    (KindGemm, gemm00_tiles C device); (KindGemm, gemm10_tiles C device);
                    (KindSyr2k, syr2k_0_tiles C device);
                    (KindSyr2k, syr2k_1_tiles C device)]).
Proof.
  intros C device Hsq Hnt. split; [|split].
  - intros i j Hji Hi Hon. apply count_NoDup; [apply NoDup_gemm_tiles|].
    apply elem_of_app. destruct (decide (i = c_mt C - 1)%Z) as [Hlast|Hint].
    + right. apply elem_of_gemm10_tiles. split; [lia | done].
    + left. apply elem_of_gemm00_tiles. split; [lia | done].
  - intros j Hj Hon. apply count_NoDup; [apply NoDup_syr2k_tiles|].
    apply elem_of_app. destruct (decide (j = c_nt C - 1)%Z) as [Hlast|Hint].
    + right. apply elem_of_syr2k_1_tiles. split; [lia|].
      by rewrite Hsq, <- Hlast.
    + left. apply elem_of_syr2k_0_tiles. split; [lia | done].
  - intros K SR env alpha A B beta st Hnf Hacc.
    destruct (Devices_device_body_effect env alpha A B beta C Hnf Hacc device st)
      as (st' & Hrun & _ & _ & _ & _ & Hcalls).
    exists st'. split; [done|]. by rewrite Hcalls, map_app, device_calls_targets.
Qed.

Lemma device_batch_groups_witness :
  c_mt (grid 3) = c_nt (grid 3) /\ (1 < c_nt (grid 3))%Z /\
  gemm00_tiles (grid 3) 0 = [(1, 0)%Z] /\
  gemm10_tiles (grid 3) 0 = [(2, 0)%Z; (2, 1)%Z] /\
  length (filter (fun t => t = (2, 1)%Z)
                 (gemm00_tiles (grid 3) 0 ++ gemm10_tiles (grid 3) 0)) = 1.
Proof.
  split; [reflexivity|]. split; [done|]. split; [reflexivity|]. split; [reflexivity|].
  apply (device_batch_groups (grid 3) 0); [reflexivity | done | lia | done | reflexivity].
Defined.

(** ** Runs as lists of tile operations *)

Lemma bind_bind {X Y W} (l : list X) (f : X -> list Y) (g : Y -> list W) :
  (l ≫= f) ≫= g = l ≫= (fun x => f x ≫= g).
Proof.
  induction l as [|x l IH]; [done|]. by rewrite !bind_cons, bind_app, IH.
Qed.

Lemma bind_ext_in {X Y} (l : list X) (f g : X -> list Y) :
  (forall x, In x l -> f x = g x) -> l ≫= f = l ≫= g.
Proof.
  induction l as [|x l IH]; intros Hfg; [done|].
  rewrite !bind_cons, Hfg by (by left). f_equal. apply IH. intros; apply Hfg; by right.
Qed.

Lemma bind_if {X Y} (b : bool) (x : X) (g : X -> list Y) :
  (if b then [x] else []) ≫= g = if b then g x else [].
Proof. destruct b; [by rewrite bind_singleton | done]. Qed.

Section OpsFacts.
Context {K : Type}.
Implicit Types (m : M K unit) (ops : list (tile_op K)).

Lemma apply_ops_app ops1 ops2 (Cs : Z -> Z -> tile_data K) :
  apply_ops (ops1 ++ ops2) Cs = apply_ops ops2 (apply_ops ops1 Cs).
Proof. unfold apply_ops. by rewrite fold_left_app. Qed.

Lemma apply_ops_bind {X} (l : list X) (g : X -> list (tile_op K)) (Cs : Z -> Z -> tile_data K) :
  fold_left (fun Cs x => apply_ops (g x) Cs) l Cs = apply_ops (l ≫= g) Cs.
Proof.
  revert Cs. induction l as [|x l IH]; intros Cs; [done|].
  simpl fold_left. by rewrite IH, bind_cons, apply_ops_app.
Qed.

Lemma has_ops_eq m ops ops' T T' C C' N N' :
  has_ops m ops T C N -> ops' = ops -> T' = T -> C' = C -> N' = N ->
  has_ops m ops' T' C' N'.
Proof. by intros H -> -> -> ->. Qed.

Lemma has_ops_of_effect m U ops T C N :
  has_effect m U T C N -> (forall Cs, U Cs = apply_ops ops Cs) -> has_ops m ops T C N.
Proof.
  intros H HU. unfold has_ops. eapply has_effect_eq; [exact H| |done..].
  apply functional_extensionality; intros Cs. by rewrite HU.
Qed.

Lemma has_ops_ret : has_ops (mret tt : M K unit) [] [] [] 0.
Proof. apply has_effect_ret. Qed.

Lemma has_ops_bind m1 m2 ops1 ops2 T1 T2 C1 C2 N1 N2 :
  has_ops m1 ops1 T1 C1 N1 -> has_ops m2 ops2 T2 C2 N2 ->
  has_ops (m1;; m2) (ops1 ++ ops2) (T1 ++ T2) (C1 ++ C2) (N1 + N2).
Proof.
  intros H1 H2. eapply has_ops_of_effect; [by apply has_effect_bind|].
  intros Cs. by rewrite apply_ops_app.
Qed.

Lemma has_ops_when (b : bool) m ops T C N :
  has_ops m ops T C N ->
  has_ops (when b m) (if b then ops else []) (if b then T else [])
          (if b then C else []) (if b then N else 0).
Proof. destruct b; [done | intros _; apply has_ops_ret]. Qed.

Lemma has_ops_try_catch m handler ops T C N :
  has_ops m ops T C N -> has_ops (try_catch m handler) ops T C N.
Proof. apply has_effect_try_catch. Qed.

Lemma has_ops_omp_iteration m ops T C N :
  has_ops m ops T C N -> has_ops (omp_iteration m) ops T C N.
Proof. apply has_effect_omp_iteration. Qed.

Lemma has_ops_omp_task m ops T C N :
  has_ops m ops T C N -> has_ops (omp_task m) ops T C (S N).
Proof. apply has_effect_omp_task. Qed.

Lemma has_ops_for_each {X} (l : list X) (body : X -> M K unit)
    (g : X -> list (tile_op K)) (T : X -> list tile_ref) (C : X -> list (blas_call K))
    (N : X -> nat) :
  (forall x, In x l -> has_ops (body x) (g x) (T x) (C x) (N x)) ->
  has_ops (for_each l body) (l ≫= g) (l ≫= T) (l ≫= C) (list_sum (map N l)).
Proof.
  intros Hbody.
  eapply has_ops_of_effect;
    [apply (has_effect_for_each l body (fun x => apply_ops (g x)) T C N Hbody)|].
  intros Cs. apply apply_ops_bind.
Qed.

Lemma has_ops_forZ (lo hi : Z) (body : Z -> M K unit)
    (g : Z -> list (tile_op K)) (T : Z -> list tile_ref) (C : Z -> list (blas_call K))
    (N : Z -> nat) :
  (forall x, (lo <= x < hi)%Z -> has_ops (body x) (g x) (T x) (C x) (N x)) ->
  has_ops (forZ lo hi body) (seqZ lo (hi - lo) ≫= g) (seqZ lo (hi - lo) ≫= T)
          (seqZ lo (hi - lo) ≫= C) (list_sum (map N (seqZ lo (hi - lo)))).
Proof.
  intros Hbody. apply has_ops_for_each. intros x Hx.
  apply Hbody. apply list_elem_of_In, elem_of_seqZ in Hx. lia.
Qed.

(** The frame of the four implementations: the assertion, [err = 0], the
    work, the final [taskwait] and the test of [err]. *)
Lemma run_frame (env : environment) (cond : bool) (work : M K unit) ops T Cl N st :
  asserts_off env || cond = true -> has_ops work ops T Cl N ->
  exists st',
    (assert_ env cond;; set_err 0;; work;; omp_taskwait;; rethrow) st = (Ok tt, st') /\
    s_C st' = apply_ops ops (s_C st) /\
    s_life st' = (fun t => s_life st t - ticks T t)%Z /\
    s_err st' = 0%Z /\
    s_spawned st' = s_spawned st + N /\
    s_calls st' = s_calls st ++ Cl.
Proof.
  intros Hassert Hwork. unfold assert_. rewrite Hassert.
  destruct (Hwork (mkState (s_C st) (s_life st) 0 (s_spawned st) (s_pending st) (s_calls st)))
    as (st1 & Hrun & HC & HL & HE & HS & HK). simpl in *.
  exists (mkState (s_C st1) (s_life st1) (s_err st1) (s_spawned st1) 0 (s_calls st1)).
  split.
  - erewrite bind_ok by reflexivity.
    erewrite bind_ok by reflexivity.
    erewrite bind_ok by exact Hrun.
    erewrite bind_ok by reflexivity.
    unfold rethrow. erewrite bind_ok by reflexivity. simpl. rewrite HE.
    by destruct (decide (0 = 0)%Z).
  - simpl. by rewrite HC, HL, HE, HS, HK.
Qed.

End OpsFacts.

Lemma M_bind_assoc {K X Y W} (m : M K X) (f : X -> M K Y) (g : Y -> M K W) :
  (m ≫= f) ≫= g = m ≫= (fun x => f x ≫= g).
Proof.
  apply functional_extensionality; intros st. unfold mbind, M_bind.
  by destruct (m st) as [[x| | |] st'].
Qed.

Lemma has_ops_if {K} {P : Prop} (d : {P} + {~ P}) (m1 m2 : M K unit)
    ops1 ops2 T1 T2 C1 C2 N1 N2 :
  has_ops m1 ops1 T1 C1 N1 -> has_ops m2 ops2 T2 C2 N2 ->
  has_ops (if d then m1 else m2) (if d then ops1 else ops2) (if d then T1 else T2)
          (if d then C1 else C2) (if d then N1 else N2).
Proof. by destruct d. Qed.

Section HostOps.
Context {K : Type} `{SR : ScalarRing K}.
Variable env : environment.
Variables (alpha : K) (A B : Matrix K) (beta : K) (C : SymmetricMatrix).
Hypothesis Hnf : no_failure env.

Lemma host_diag_body_ops j :
  has_ops (host_diag_body env alpha A B beta C j)
          (diag_ops alpha A B beta C j) [RefA j; RefB j] [] 0.
Proof using Hnf. by apply host_diag_body_effect. Qed.

Lemma HostTask_offdiag_body_ops i j :
  has_ops (HostTask_offdiag_body env alpha A B beta C i j)
          (offdiag_ops alpha A B beta C i j) (ticked (i, j)) [] 0.
Proof using Hnf. by apply HostTask_offdiag_body_effect. Qed.

Lemma HostNest_offdiag_body_ops i j :
  has_ops (HostNest_offdiag_body env alpha A B beta C i j)
          (offdiag_ops alpha A B beta C i j) (ticked (i, j)) [] 0.
Proof using Hnf. by apply HostNest_offdiag_body_effect. Qed.

End HostOps.

(** Summarize loops and tasks from the summaries of their bodies. *)
Ltac ops_step Hnf :=
  lazy beta;
  lazymatch goal with
  | |- has_ops (forZ _ _ _) _ _ _ _ => apply has_ops_forZ; intros ? ?
  | |- has_ops (when _ _) _ _ _ _ => apply has_ops_when
  | |- has_ops (if _ then _ else _) _ _ _ _ => apply has_ops_if
  | |- has_ops (omp_task _) _ _ _ _ => apply has_ops_omp_task
  | |- has_ops (try_catch _ _) _ _ _ _ => apply has_ops_try_catch
  | |- has_ops (omp_iteration _) _ _ _ _ => apply has_ops_omp_iteration
  | |- has_ops (host_diag_body _ _ _ _ _ _ _) _ _ _ _ =>
      apply (host_diag_body_ops _ _ _ _ _ _ Hnf)
  | |- has_ops (HostTask_offdiag_body _ _ _ _ _ _ _ _) _ _ _ _ =>
      apply (HostTask_offdiag_body_ops _ _ _ _ _ _ Hnf)
  | |- has_ops (HostNest_offdiag_body _ _ _ _ _ _ _ _) _ _ _ _ =>
      apply (HostNest_offdiag_body_ops _ _ _ _ _ _ Hnf)
  | |- has_ops (tileGetForReading _ _ _) _ _ _ _ =>
      apply (has_effect_tileGetForReading _ Hnf)
  | |- has_ops (tileGetForWriting _ _ _) _ _ _ _ =>
      apply (has_effect_tileGetForWriting _ Hnf)
  | |- has_ops (_ ≫= _) _ _ _ _ => apply has_ops_bind
  end.

Section HostRuns.
Context {K : Type} `{SR : ScalarRing K}.
Variable env : environment.
Variables (alpha : K) (A B : Matrix K) (beta : K) (C : SymmetricMatrix).
Variable layout : Layout.
Hypothesis Hnf : no_failure env.
Hypothesis Hlayout : layout_ok env layout.

Lemma layout_assert : asserts_off env || bool_decide (layout = ColMajor) = true.
Proof using Hlayout.
  destruct Hlayout as [-> | ->]; [done | by rewrite bool_decide_eq_true_2, orb_true_r].
Qed.

Lemma HostTask_run st :
  exists st',
    syr2k_HostTask env alpha A B beta C layout st = (Ok tt, st') /\
    s_C st' = apply_ops (HostTask_ops alpha A B beta C) (s_C st).
Proof using Hnf Hlayout.
  unfold syr2k_HostTask.
  edestruct (run_frame (K := K) env (bool_decide (layout = ColMajor))) as (st' & Hrun & HC & _);
    [apply layout_assert | |exists st'; split; [exact Hrun | exact HC]].
  eapply has_ops_eq; [repeat ops_step Hnf | | reflexivity..].
  unfold HostTask_ops, lower_local. rewrite !bind_bind, Z.sub_0_r.
  apply bind_ext_in; intros j _. rewrite bind_bind.
  apply bind_ext_in; intros i _. rewrite bind_if. unfold host_tile_ops. simpl.
  by destruct (c_tileIsLocal C i j), (decide (i = j)).
Qed.

End HostRuns.

Section MoreFrames.
Context {K : Type}.

(** The frame around two and three pieces of work in sequence. *)
Lemma run_frame2 (env : environment) (cond : bool) (w1 w2 : M K unit)
    ops1 ops2 T1 T2 C1 C2 N1 N2 st :
  asserts_off env || cond = true ->
  has_ops w1 ops1 T1 C1 N1 -> has_ops w2 ops2 T2 C2 N2 ->
  exists st',
    (assert_ env cond;; set_err 0;; w1;; w2;; omp_taskwait;; rethrow) st = (Ok tt, st') /\
    s_C st' = apply_ops (ops1 ++ ops2) (s_C st).
Proof.
  intros Hassert H1 H2.
  destruct (run_frame env cond (w1;; w2) _ _ _ _ st Hassert (has_ops_bind _ _ _ _ _ _ _ _ _ _ H1 H2))
    as (st' & Hrun & HC & _).
  exists st'. split; [|done]. rewrite <- Hrun.
  by rewrite (M_bind_assoc w1 (fun _ => w2) (fun _ => omp_taskwait;; rethrow)).
Qed.

Lemma run_frame3 (env : environment) (cond : bool) (w1 w2 w3 : M K unit)
    ops1 ops2 ops3 T1 T2 T3 C1 C2 C3 N1 N2 N3 st :
  asserts_off env || cond = true ->
  has_ops w1 ops1 T1 C1 N1 -> has_ops w2 ops2 T2 C2 N2 -> has_ops w3 ops3 T3 C3 N3 ->
  exists st',
    (assert_ env cond;; set_err 0;; w1;; w2;; w3;; omp_taskwait;; rethrow) st = (Ok tt, st') /\
    s_C st' = apply_ops (ops1 ++ ops2 ++ ops3) (s_C st).
Proof.
  intros Hassert H1 H2 H3.
  destruct (run_frame2 env cond w1 (w2;; w3) _ _ _ _ _ _ _ _ st Hassert H1
              (has_ops_bind _ _ _ _ _ _ _ _ _ _ H2 H3))
    as (st' & Hrun & HC).
  exists st'. split; [|done]. rewrite <- Hrun.
  by rewrite (M_bind_assoc w2 (fun _ => w3) (fun _ => omp_taskwait;; rethrow)).
Qed.

End MoreFrames.

Section HostNestRun.
Context {K : Type} `{SR : ScalarRing K}.
Variable env : environment.
Variables (alpha : K) (A B : Matrix K) (beta : K) (C : SymmetricMatrix).
Variable layout : Layout.
Hypothesis Hnf : no_failure env.
Hypothesis Hlayout : layout_ok env layout.

Lemma diag_loop_ops (line : Z) :
  exists T Cl N,
    has_ops (forZ 0 (c_nt C) (fun j =>
               when (c_tileIsLocal C j j)
                 (omp_task (try_catch (host_diag_body env alpha A B beta C j) (set_err line)))))
            (diag_local C ≫= diag_ops alpha A B beta C) T Cl N.
Proof using Hnf.
  do 3 eexists.
  eapply has_ops_eq; [repeat ops_step Hnf | | reflexivity..].
  unfold diag_local. rewrite bind_bind, Z.sub_0_r.
  apply bind_ext_in; intros j _. by rewrite bind_if.
Qed.

Lemma nest_loop_ops :
  exists T Cl N,
    has_ops (forZ 0 (c_nt C) (fun j =>
               forZ 0 (c_mt C) (fun i =>
                 when (bool_decide (i >= j + 1)%Z)
                   (when (c_tileIsLocal C i j)
                      (omp_iteration
                         (try_catch (HostNest_offdiag_body env alpha A B beta C i j)
                                    (set_err 203)))))))
            (offdiag_nest C ≫= (fun ij => offdiag_ops alpha A B beta C (fst ij) (snd ij)))
            T Cl N.
Proof using Hnf.
  do 3 eexists.
  eapply has_ops_eq; [repeat ops_step Hnf | | reflexivity..].
  unfold offdiag_nest. rewrite !Z.sub_0_r, bind_bind.
  apply bind_ext_in; intros j _. rewrite bind_bind.
  apply bind_ext_in; intros i _. rewrite bind_if. simpl.
  destruct (bool_decide (i >= j + 1)%Z), (c_tileIsLocal C i j); simpl;
    by rewrite ?app_nil_r.
Qed.

Lemma HostNest_run st :
  exists st',
    syr2k_HostNest env alpha A B beta C layout st = (Ok tt, st') /\
    s_C st' = apply_ops (HostNest_ops alpha A B beta C) (s_C st).
Proof using Hnf Hlayout.
  unfold syr2k_HostNest. cbv zeta.
  destruct (diag_loop_ops 169) as (T1 & C1 & N1 & Hdiag).
  destruct nest_loop_ops as (T2 & C2 & N2 & Hnest).
  destruct (run_frame2 env _ _ _ _ _ _ _ _ _ _ _ st (layout_assert env layout Hlayout)
              Hdiag Hnest) as (st' & Hrun & HC).
  by exists st'.
Qed.

End HostNestRun.

(** ** The host batched implementation *)

Lemma bind_throw {K X Y} (m : M K X) (f : X -> M K Y) st e st' :
  m st = (Throw e, st') -> (m ≫= f) st = (Throw e, st').
Proof. intros Hm. unfold mbind, M_bind. by rewrite Hm. Qed.

Lemma count_local {X} (b : X -> bool) (l : list X) :
  list_sum (map (fun x => if b x then 1 else 0) l)
  = length (l ≫= (fun x => if b x then [x] else [])).
Proof.
  induction l as [|x l IH]; [done|].
  rewrite bind_cons, length_app. simpl. rewrite IH. by destruct (b x).
Qed.

Lemma has_effect_for_each_skip {K X} (l : list X) (body : X -> M K unit) :
  (forall x, In x l -> has_effect (body x) (fun Cs => Cs) [] [] 0) ->
  has_effect (for_each l body) (fun Cs => Cs) [] [] 0.
Proof.
  intros Hbody.
  eapply has_effect_eq;
    [apply (has_effect_for_each_ticks l body (fun _ => []) Hbody) | done | | done..].
  by rewrite bind_nothing.
Qed.

Lemma has_effect_assert {K} (env : environment) (cond : bool) :
  asserts_off env || cond = true ->
  has_effect (assert_ (K := K) env cond) (fun Cs => Cs) [] [] 0.
Proof. intros H. unfold assert_. rewrite H. apply has_effect_ret. Qed.

Section HostBatchRun.
Context {K : Type} `{SR : ScalarRing K}.
Variable env : environment.
Variables (alpha : K) (A B : Matrix K) (beta : K) (C : SymmetricMatrix).
Variable layout : Layout.
Hypothesis Hnf : no_failure env.
Hypothesis Hlayout : layout_ok env layout.
Hypothesis Hacc : syr2k_rejects A B C = false.
Hypothesis Hshapes : shapes_ok env A C.

(** The tasks of the diagonal tiles: one per local diagonal tile. *)
Lemma diag_tasks_ops (line : Z) :
  exists T Cl,
    has_ops (forZ 0 (c_nt C) (fun j =>
               when (c_tileIsLocal C j j)
                 (omp_task (try_catch (host_diag_body env alpha A B beta C j) (set_err line)))))
            (diag_local C ≫= diag_ops alpha A B beta C) T Cl (length (diag_local C)).
Proof using Hnf.
  do 2 eexists.
  eapply has_ops_eq; [repeat ops_step Hnf | | reflexivity | reflexivity |].
  - unfold diag_local. rewrite bind_bind, Z.sub_0_r.
    apply bind_ext_in; intros j _. by rewrite bind_if.
  - unfold diag_local. rewrite Z.sub_0_r.
    by rewrite <- (count_local (fun j => c_tileIsLocal C j j)).
Qed.

(** The loop that brings the off-diagonal tiles to the host. *)
Lemma acquire_loop_ops :
  has_ops (forZ 0 (c_nt C) (fun j =>
             forZ (j + 1) (c_mt C) (fun i =>
               when (c_tileIsLocal C i j)
                 (tileGetForReading env (RefA i) None;;
                  tileGetForReading env (RefB j) None;;
                  tileGetForWriting (K := K) env (RefC i j) None))))
          [] [] [] 0.
Proof using Hnf.
  apply has_effect_for_each_skip; intros j _.
  apply has_effect_for_each_skip; intros i _.
  destruct (c_tileIsLocal C i j); [|apply has_effect_ret].
  unfold when. eapply has_effect_eq; [effect_steps Hnf | done..].
Qed.

(** The shape assertions. *)
Lemma shape_asserts_effect :
  has_effect (K := K)
    (for_each (offdiag_local C) (fun '(i, j) =>
       assert_ env (Nat.eqb (m_tileMb A i) (c_tileMb C i));;
       assert_ env (Nat.eqb (m_tileMb A j) (c_tileNb C j));;
       assert_ env (Nat.eqb (m_tileNb A 0) (m_tileNb A 0))))
    (fun Cs => Cs) [] [] 0.
Proof using Hshapes.
  apply has_effect_for_each_skip; intros [i j] Hin.
  assert (Hok : asserts_off env = true \/
                (m_tileMb A i = c_tileMb C i /\ m_tileMb A j = c_tileNb C j)).
  { destruct Hshapes as [Hoff|Hsh]; [by left | right; by apply Hsh]. }
  eapply has_effect_eq;
    [apply has_effect_bind; [|apply has_effect_bind]; apply has_effect_assert | done..].
  - destruct Hok as [-> | [-> _]]; [done|]. by rewrite Nat.eqb_refl, orb_true_r.
  - destruct Hok as [-> | [_ ->]]; [done|]. by rewrite Nat.eqb_refl, orb_true_r.
  - by rewrite Nat.eqb_refl, orb_true_r.
Qed.

(** Everything before [if (batch_count > 0)]: the diagonal tasks exist, the
    diagonal tiles are updated, [err] is 0. *)
Lemma HostBatch_prefix (rest : M K unit) st :
  exists st2,
    (assert_ env (bool_decide (layout = ColMajor));;
     set_err 0;;
     forZ 0 (c_nt C) (fun j =>
       when (c_tileIsLocal C j j)
         (omp_task (try_catch (host_diag_body env alpha A B beta C j) (set_err 254))));;
     forZ 0 (c_nt C) (fun j =>
       forZ (j + 1) (c_mt C) (fun i =>
         when (c_tileIsLocal C i j)
           (tileGetForReading env (RefA i) None;;
            tileGetForReading env (RefB j) None;;
            tileGetForWriting env (RefC i j) None)));;
     rest) st = rest st2 /\
    s_C st2 = apply_ops (diag_local C ≫= diag_ops alpha A B beta C) (s_C st) /\
    s_err st2 = 0%Z /\
    s_spawned st2 = s_spawned st + length (diag_local C).
Proof using Hnf Hlayout.
  unfold assert_. rewrite (layout_assert env layout Hlayout).
  destruct (diag_tasks_ops 254) as (T1 & C1 & Hdiag).
  destruct (Hdiag (mkState (s_C st) (s_life st) 0 (s_spawned st) (s_pending st) (s_calls st)))
    as (st1 & Hr1 & HC1 & _ & HE1 & HS1 & _).
  destruct (acquire_loop_ops st1) as (st2 & Hr2 & HC2 & _ & HE2 & HS2 & _).
  exists st2. simpl in *. split; [|split; [|split]].
  - erewrite bind_ok by reflexivity.
    erewrite bind_ok by reflexivity.
    erewrite bind_ok by exact Hr1.
    erewrite bind_ok by exact Hr2. done.
  - by rewrite HC2, HC1.
  - by rewrite HE2, HE1.
  - rewrite HS2, HS1. lia.
Qed.

Lemma bind_map {X Y W} (f : X -> Y) (g : Y -> list W) (l : list X) :
  map f l ≫= g = l ≫= (fun x => g (f x)).
Proof. induction l as [|x l IH]; [done|]. simpl map. by rewrite !bind_cons, IH. Qed.

Lemma run_gemm_ops opA opB m n k al a b be c :
  is_operand a -> is_operand b ->
  has_ops (run_gemm A B opA opB m n k al a b be c)
          (gemm_ops A B opA opB m n k al a b be c) [] [] 0.
Proof.
  intros Ha Hb. eapply has_ops_of_effect; [by apply has_effect_run_gemm|].
  intros Cs. by destruct c.
Qed.

Lemma cblas_gemm_batch_ops (groups : list (gemm_group K)) :
  (forall g, In g groups -> is_operand (g_a g) /\ is_operand (g_b g)) ->
  exists Cl, has_ops (cblas_gemm_batch A B groups) (groups ≫= group_ops A B) [] Cl 0.
Proof.
  intros Hop. eexists. unfold cblas_gemm_batch.
  eapply has_ops_eq;
    [apply has_ops_bind;
       [apply (has_ops_of_effect _ (fun Cs => Cs) []); [apply has_effect_log_call | done]
       |apply (has_ops_for_each groups _ (group_ops A B) (fun _ => []) (fun _ => [])
                 (fun _ => 0))]
    | done | | reflexivity |].
  - intros g Hin. destruct (Hop g Hin). by apply run_gemm_ops.
  - by rewrite bind_nothing.
  - by rewrite list_sum_zero.
Qed.

Lemma HostBatch_groups_operands opA opB ij :
  let g := HostBatch_groups alpha A beta C opA opB ij in
  (is_operand (g_a (fst g)) /\ is_operand (g_b (fst g))) /\
  (is_operand (g_a (snd g)) /\ is_operand (g_b (snd g))).
Proof.
  destruct ij as [i j]. unfold HostBatch_groups.
  by destruct (decide (c_op C <> NoTrans)).
Qed.

(** The body of [if (batch_count > 0)] in a build with MKL. *)
Lemma HostBatch_offdiag_ops :
  slate_with_mkl env = true ->
  exists T Cl,
    has_ops (HostBatch_offdiag env alpha A B beta C)
      ((offdiag_local C ≫= (fun ij =>
          group_ops A B (fst (HostBatch_groups alpha A beta C (opA_normalized A C)
                                               (opB_of (opA_normalized A C)) ij)))) ++
       (offdiag_local C ≫= (fun ij =>
          group_ops A B (snd (HostBatch_groups alpha A beta C (opA_normalized A C)
                                               (opB_of (opA_normalized A C)) ij)))))
      T Cl 0.
Proof using Hnf Hacc Hshapes.
  intros Hmkl. unfold HostBatch_offdiag.
  set (opA := opA_normalized A C). set (opB := opB_of opA).
  destruct (cblas_gemm_batch_ops
              (map (fun ij => fst (HostBatch_groups alpha A beta C opA opB ij))
                   (offdiag_local C))) as (Cl1 & H1).
  { intros g Hg. apply in_map_iff in Hg as (ij & <- & _).
    apply (HostBatch_groups_operands opA opB ij). }
  destruct (cblas_gemm_batch_ops
              (map (fun ij => snd (HostBatch_groups alpha A beta C opA opB ij))
                   (offdiag_local C))) as (Cl2 & H2).
  { intros g Hg. apply in_map_iff in Hg as (ij & <- & _).
    apply (HostBatch_groups_operands opA opB ij). }
  rewrite bind_map in H1, H2.
  do 2 eexists.
  apply (has_effect_bind_value _ _ opA); [apply (normalize_opA_ok A B C Hacc)|].
  cbv zeta. rewrite Hmkl. fold opB.
  eapply has_ops_eq;
    [apply has_ops_bind;
       [apply (has_ops_of_effect _ (fun Cs => Cs) []); [apply shape_asserts_effect | done]
       |apply has_ops_bind;
          [apply has_ops_bind; [exact H1 | exact H2]
          |apply (has_ops_of_effect _ (fun Cs => Cs) []);
             [apply (has_effect_for_each_ticks (offdiag_local C) _ ticked) | done]]]
    | | reflexivity | reflexivity |].
  - intros [i j] _. eapply has_effect_eq; [effect_steps Hnf | done..].
  - simpl. by rewrite app_nil_r.
  - done.
Qed.

(** The same body in a build without MKL. *)
Lemma HostBatch_offdiag_throws st :
  slate_with_mkl env = false ->
  exists st',
    HostBatch_offdiag env alpha A B beta C st = (Throw not_implemented, st') /\
    s_spawned st' = s_spawned st.
Proof using Hacc Hshapes.
  intros Hmkl. unfold HostBatch_offdiag.
  erewrite bind_ok by (apply (normalize_opA_ok A B C Hacc)).
  cbv zeta. rewrite Hmkl.
  destruct (shape_asserts_effect st) as (st1 & Hr & _ & _ & _ & HS & _).
  erewrite bind_ok by exact Hr.
  exists st1. split; [done|]. rewrite HS. lia.
Qed.

Lemma HostBatch_run st :
  slate_with_mkl env = true ->
  exists st',
    syr2k_HostBatch env alpha A B beta C layout st = (Ok tt, st') /\
    s_C st' = apply_ops (HostBatch_ops alpha A B beta C) (s_C st).
Proof using Hnf Hlayout Hacc Hshapes.
  intros Hmkl. unfold syr2k_HostBatch. cbv zeta.
  destruct (diag_tasks_ops 254) as (T1 & C1 & Hdiag).
  destruct (HostBatch_offdiag_ops Hmkl) as (T3 & C3 & Hoff).
  destruct (run_frame3 env _ _ _ _ _ _ _ _ _ _ _ _ _ _ _ _ st (layout_assert env layout Hlayout)
              Hdiag acquire_loop_ops
              (has_ops_when (Nat.ltb 0 (length (offdiag_local C))) _ _ _ _ _ Hoff))
    as (st' & Hrun & HC).
  by exists st'.
Qed.

End HostBatchRun.

(** ** C9: the host batched implementation in a build without MKL *)

(** C9 (amended).  In a build without MKL, for a call the dispatcher accepts
    whose acquisitions and assertions pass, the host batched implementation
    throws the exception of [slate_not_implemented] exactly when C has a
    local tile strictly below the diagonal, and returns normally otherwise;
    in both cases one task per local diagonal tile has been created before,
    so the failure does not come at the selection of the implementation. *)
Theorem HostBatch_without_mkl :
  forall (K : Type) (SR : ScalarRing K) (env : environment) (alpha : K) (A B : Matrix K)
         (beta : K) (C : SymmetricMatrix) (layout : Layout) (st : state K),
    slate_with_mkl env = false ->
    syr2k_rejects A B C = false ->
    no_failure env ->
    layout_ok env layout ->
    shapes_ok env A C ->
    exists st',
      syr2k env alpha A B beta C layout HostBatch st
      = (if Nat.ltb 0 (length (offdiag_local C)) then Throw not_implemented else Ok tt, st') /\
      s_spawned st' = s_spawned st + length (diag_local C).
Proof.
  intros K SR env alpha A B beta C layout st Hmkl Hacc Hnf Hlayout Hshapes.
  unfold syr2k. rewrite Hacc. unfold syr2k_HostBatch. cbv zeta.
  destruct (HostBatch_prefix env alpha A B beta C layout Hnf Hlayout
              (when (Nat.ltb 0 (length (offdiag_local C)))
                    (HostBatch_offdiag env alpha A B beta C);;
               omp_taskwait;; rethrow) st) as (st2 & Hrun & _ & HE & HS).
  rewrite Hrun. destruct (Nat.ltb 0 (length (offdiag_local C))); unfold when.
  - destruct (HostBatch_offdiag_throws env alpha A B beta C Hacc Hshapes st2 Hmkl)
      as (st3 & Hthrow & HS3).
    exists st3. split; [by apply bind_throw | by rewrite HS3].
  - eexists. split.
    + erewrite bind_ok by reflexivity.
      erewrite bind_ok by reflexivity.
      unfold rethrow. erewrite bind_ok by reflexivity. simpl. rewrite HE.
      destruct (decide (0 = 0)%Z); [reflexivity | done].
    + done.
Qed.

Lemma HostBatch_without_mkl_witness :
  slate_with_mkl env_plain = false /\
  syr2k_rejects ones_matrix ones_matrix (grid 2) = false /\
  fst (syr2k env_plain 1%Z ones_matrix ones_matrix 1%Z (grid 2) ColMajor HostBatch state0)
  = Throw not_implemented.
Proof.
  split; [reflexivity|]. split; [reflexivity|].
  destruct (HostBatch_without_mkl Z _ env_plain 1%Z ones_matrix ones_matrix 1%Z (grid 2)
              ColMajor state0) as (st' & Hrun & _);
    [reflexivity | reflexivity | by intros t d | by right | by right |].
  by rewrite Hrun.
Defined.

(** C9, as stated, fails when C has no local tile below the diagonal: on a
    grid of one tile the host batched implementation returns normally in a
    build without MKL. *)
Lemma single_tile_HostBatch_returns :
  slate_with_mkl env_plain = false /\
  syr2k_rejects ones_matrix ones_matrix (grid 1) = false /\
  fst (syr2k env_plain 1%Z ones_matrix ones_matrix 1%Z (grid 1) ColMajor HostBatch state0)
  = Ok tt.
Proof. repeat split. Qed.

(** ** The device implementation *)

Section DeviceRun.
Context {K : Type} `{SR : ScalarRing K}.
Variable env : environment.
Variables (alpha : K) (A B : Matrix K) (beta : K) (C : SymmetricMatrix).
Hypothesis Hnf : no_failure env.
Hypothesis Hacc : syr2k_rejects A B C = false.

Lemma fold_left_ops {X} (l : list X) (U : X -> (Z -> Z -> tile_data K) -> Z -> Z -> tile_data K)
    (g : X -> list (tile_op K)) Cs :
  (forall x Cs, U x Cs = apply_ops (g x) Cs) ->
  fold_left (fun Cs x => U x Cs) l Cs = apply_ops (l ≫= g) Cs.
Proof.
  intros HU. rewrite <- apply_ops_bind. revert Cs.
  induction l as [|x l IH]; intros Cs; [done|]. simpl. by rewrite HU, IH.
Qed.

Lemma call_update_ops (c : blas_call K) Cs :
  call_update A B c Cs = apply_ops (call_ops A B c) Cs.
Proof.
  destruct c as [opA opB m n k al a_array b_array be c_array
                |uplo trans n k al a_array b_array be c_array
                |uplo trans n k al a b be c
                |]; simpl.
  - apply (fold_left_ops _ (fun x Cs => let '(a, b, c) := x in
                                        gemm_update A B opA opB m n k al a b be c Cs)).
    intros [[a b] [| |i j]] Cs'; reflexivity.
  - apply (fold_left_ops _ (fun x Cs => let '(a, b, c) := x in
                                        syr2k_update A B uplo trans n k al a b be c Cs)).
    intros [[a b] [| |i j]] Cs'; reflexivity.
  - by destruct c.
  - done.
Qed.

Lemma calls_update_ops (calls : list (blas_call K)) Cs :
  calls_update A B calls Cs = apply_ops (calls ≫= call_ops A B) Cs.
Proof. apply (fold_left_ops _ (call_update A B)). apply call_update_ops. Qed.

Lemma Devices_work_ops :
  exists T Cl N,
    has_ops (if decide (c_nt C = 1%Z) then
               when (c_tileIsLocal C 0 0) (omp_task (Devices_single_body env alpha A B beta C))
             else
               forZ 0 (c_num_devices C) (fun device =>
                 omp_task (try_catch (Devices_device_body env alpha A B beta C device)
                                     (set_err 846))))
            (Devices_ops alpha A B beta C) T Cl N.
Proof using Hnf Hacc.
  do 3 eexists. unfold Devices_ops.
  eapply has_ops_eq;
    [apply has_ops_if;
       [apply has_ops_when, has_ops_omp_task;
        eapply has_ops_of_effect; [by apply Devices_single_body_effect | apply call_update_ops]
       |apply has_ops_forZ; intros device _;
        apply has_ops_omp_task, has_ops_try_catch;
        eapply has_ops_of_effect;
          [by apply Devices_device_body_effect | apply calls_update_ops]]
    | | reflexivity..].
  by rewrite Z.sub_0_r.
Qed.

Lemma Devices_run st :
  asserts_off env = true \/ (c_num_devices C > 0)%Z ->
  exists st',
    syr2k_Devices env alpha A B beta C st = (Ok tt, st') /\
    s_C st' = apply_ops (Devices_ops alpha A B beta C) (s_C st).
Proof using Hnf Hacc.
  intros Hdev. unfold syr2k_Devices.
  destruct Devices_work_ops as (T & Cl & N & Hwork).
  assert (Hassert : asserts_off env || bool_decide (c_num_devices C > 0)%Z = true).
  { destruct Hdev as [->|Hdev]; [done|].
    by rewrite bool_decide_eq_true_2, orb_true_r. }
  destruct (run_frame env _ _ _ _ _ _ st Hassert Hwork) as (st' & Hrun & HC & _).
  by exists st'.
Qed.

End DeviceRun.

(** ** The operations on one tile *)

Section TileLocal.
Context {K : Type}.
Implicit Types (ops : list (tile_op K)) (d : tile_data K).

Lemma apply_ops_at ops (Cs : Z -> Z -> tile_data K) i j :
  apply_ops ops Cs i j = ops_at i j ops (Cs i j).
Proof.
  unfold apply_ops, ops_at. revert Cs.
  induction ops as [|[[a b] f] ops IH]; intros Cs; [done|].
  simpl. rewrite IH. unfold upd_tile. simpl.
  destruct (decide (i = a /\ j = b)) as [[-> ->]|Hne].
  - by destruct (decide (a = a /\ b = b)) as [_|[]].
  - destruct (decide (a = i /\ b = j)) as [[-> ->]|_]; [by destruct Hne | done].
Qed.

Lemma ops_at_app i j ops1 ops2 d :
  ops_at i j (ops1 ++ ops2) d = ops_at i j ops2 (ops_at i j ops1 d).
Proof. unfold ops_at. by rewrite fold_left_app. Qed.

Lemma ops_at_misses i j ops d : misses i j ops -> ops_at i j ops d = d.
Proof.
  unfold ops_at, misses. revert d. induction ops as [|op ops IH]; intros d Hm; [done|].
  simpl. destruct (decide (fst (fst op) = i /\ snd (fst op) = j)) as [Heq|_].
  - destruct (Hm op); [by left | done].
  - apply IH. intros op' Hin. apply Hm. by right.
Qed.

Lemma misses_nil i j : misses (K := K) i j [].
Proof. by intros op []. Qed.

Lemma misses_app i j ops1 ops2 : misses i j ops1 -> misses i j ops2 -> misses i j (ops1 ++ ops2).
Proof. intros H1 H2 op Hin. apply in_app_or in Hin as [Hin|Hin]; [by apply H1 | by apply H2]. Qed.

Lemma misses_bind {X} i j (l : list X) (g : X -> list (tile_op K)) :
  (forall x, In x l -> misses i j (g x)) -> misses i j (l ≫= g).
Proof.
  intros Hg op Hin. apply list_elem_of_In, list_elem_of_bind in Hin as (x & Hop & Hx).
  apply (Hg x); by apply list_elem_of_In.
Qed.

(** In a loop over distinct items, only the item of the tile counts. *)
Lemma ops_at_bind_single {X} i j (l : list X) (g : X -> list (tile_op K)) (x : X) d :
  NoDup l -> In x l ->
  (forall y, In y l -> y <> x -> misses i j (g y)) ->
  ops_at i j (l ≫= g) d = ops_at i j (g x) d.
Proof.
  intros Hnd. revert d. induction Hnd as [|y l Hy Hnd IH]; intros d Hin Hm; [done|].
  rewrite bind_cons, ops_at_app. destruct Hin as [->|Hin].
  - apply ops_at_misses, misses_bind. intros z Hz. apply Hm; [by right|].
    intros ->. by apply Hy, list_elem_of_In.
  - rewrite (ops_at_misses i j (g y)).
    + apply IH; [done|]. intros z Hz Hne. apply Hm; [by right | done].
    + apply Hm; [by left|]. intros ->. by apply Hy, list_elem_of_In.
Qed.

End TileLocal.

(** Lists of tiles written as loops over columns and rows. *)
Section TileLists.

Lemma elem_of_pairs (J : list Z) (I : Z -> list Z) (b : Z -> Z -> bool) i j :
  (i, j) ∈ (J ≫= (fun j => I j ≫= (fun i => if b i j then [(i, j)] else []))) <->
  j ∈ J /\ i ∈ I j /\ b i j = true.
Proof.
  rewrite list_elem_of_bind. split.
  - intros (j' & Hin & Hj'). apply list_elem_of_bind in Hin as (i' & Hin & Hi').
    destruct (b i' j') eqn:Hb; [|by apply elem_of_nil in Hin].
    apply list_elem_of_singleton in Hin. by injection Hin as -> ->.
  - intros (Hj & Hi & Hb). exists j. split; [|done].
    apply list_elem_of_bind. exists i. split; [|done].
    rewrite Hb. by apply list_elem_of_singleton.
Qed.

Lemma NoDup_pairs (J : list Z) (I : Z -> list Z) (b : Z -> Z -> bool) :
  NoDup J -> (forall j, NoDup (I j)) ->
  NoDup (J ≫= (fun j => I j ≫= (fun i => if b i j then [(i, j)] else []))).
Proof.
  intros HJ HI. apply NoDup_bind; [| |done].
  - intros j1 j2 [i j] _ _ H1 H2.
    apply list_elem_of_bind in H1 as (i1 & H1 & _), H2 as (i2 & H2 & _).
    destruct (b i1 j1); [|by apply elem_of_nil in H1].
    destruct (b i2 j2); [|by apply elem_of_nil in H2].
    apply list_elem_of_singleton in H1, H2. congruence.
  - intros j _. apply NoDup_bind; [| |done].
    + intros i1 i2 [i j'] _ _ H1 H2.
      destruct (b i1 j); [|by apply elem_of_nil in H1].
      destruct (b i2 j); [|by apply elem_of_nil in H2].
      apply list_elem_of_singleton in H1, H2. congruence.
    + intros i _. destruct (b i j); [apply NoDup_singleton | apply NoDup_nil_2].
Qed.

Lemma elem_of_items (J : list Z) (b : Z -> bool) j :
  j ∈ (J ≫= (fun j => if b j then [j] else [])) <-> j ∈ J /\ b j = true.
Proof.
  rewrite list_elem_of_bind. split.
  - intros (j' & Hin & Hj'). destruct (b j') eqn:Hb; [|by apply elem_of_nil in Hin].
    by apply list_elem_of_singleton in Hin as ->.
  - intros (Hj & Hb). exists j. split; [|done]. rewrite Hb. by apply list_elem_of_singleton.
Qed.

Lemma NoDup_items (J : list Z) (b : Z -> bool) :
  NoDup J -> NoDup (J ≫= (fun j => if b j then [j] else [])).
Proof.
  intros HJ. apply NoDup_bind; [| |done].
  - intros j1 j2 j _ _ H1 H2.
    destruct (b j1); [|by apply elem_of_nil in H1].
    destruct (b j2); [|by apply elem_of_nil in H2].
    apply list_elem_of_singleton in H1, H2. congruence.
  - intros j _. destruct (b j); [apply NoDup_singleton | apply NoDup_nil_2].
Qed.

Variable C : SymmetricMatrix.

Lemma elem_of_lower_local i j : (i, j) ∈ lower_local C <-> lower_tile C i j.
Proof.
  unfold lower_local, lower_tile.
  rewrite (elem_of_pairs _ (fun j => seqZ j (c_mt C - j)) (c_tileIsLocal C)).
  rewrite !elem_of_seqZ. intuition lia.
Qed.

Lemma NoDup_lower_local : NoDup (lower_local C).
Proof.
  apply (NoDup_pairs _ (fun j => seqZ j (c_mt C - j)) (c_tileIsLocal C));
    intros; apply NoDup_seqZ.
Qed.

Lemma elem_of_diag_local j :
  j ∈ diag_local C <-> (0 <= j < c_nt C)%Z /\ c_tileIsLocal C j j = true.
Proof.
  unfold diag_local. rewrite (elem_of_items _ (fun j => c_tileIsLocal C j j)).
  rewrite elem_of_seqZ. intuition lia.
Qed.

Lemma NoDup_diag_local : NoDup (diag_local C).
Proof. apply (NoDup_items _ (fun j => c_tileIsLocal C j j)), NoDup_seqZ. Qed.

Lemma elem_of_offdiag_nest i j :
  (i, j) ∈ offdiag_nest C <-> lower_tile C i j /\ i <> j.
Proof.
  unfold offdiag_nest, lower_tile.
  rewrite (elem_of_pairs _ (fun _ => seqZ 0 (c_mt C))
             (fun i j => bool_decide (i >= j + 1)%Z && c_tileIsLocal C i j)).
  rewrite !elem_of_seqZ, andb_true_iff, bool_decide_eq_true. intuition lia.
Qed.

Lemma NoDup_offdiag_nest : NoDup (offdiag_nest C).
Proof.
  apply (NoDup_pairs _ (fun _ => seqZ 0 (c_mt C))
           (fun i j => bool_decide (i >= j + 1)%Z && c_tileIsLocal C i j));
    intros; apply NoDup_seqZ.
Qed.

Lemma elem_of_offdiag_local i j :
  (i, j) ∈ offdiag_local C <-> lower_tile C i j /\ i <> j.
Proof.
  unfold offdiag_local, lower_tile.
  rewrite (elem_of_pairs _ (fun j => seqZ (j + 1) (c_mt C - (j + 1))) (c_tileIsLocal C)).
  rewrite !elem_of_seqZ. intuition lia.
Qed.

Lemma NoDup_offdiag_local : NoDup (offdiag_local C).
Proof.
  apply (NoDup_pairs _ (fun j => seqZ (j + 1) (c_mt C - (j + 1))) (c_tileIsLocal C));
    intros; apply NoDup_seqZ.
Qed.

End TileLists.

(** What each host implementation does to one lower tile. *)
Section HostTiles.
Context {K : Type} `{SR : ScalarRing K}.
Variables (alpha : K) (A B : Matrix K) (beta : K) (C : SymmetricMatrix).

Lemma misses_diag_ops i j j' :
  (i, j) <> (j', j') -> misses i j (diag_ops alpha A B beta C j').
Proof. intros Hne op [<-|[]] [H1 H2]. simpl in *. congruence. Qed.

Lemma misses_offdiag_ops i j i' j' :
  (i, j) <> (i', j') -> misses i j (offdiag_ops alpha A B beta C i' j').
Proof. intros Hne op [<-|[<-|[]]] [H1 H2]; simpl in *; congruence. Qed.

Lemma misses_batch_tile_ops i j i' j' :
  (i, j) <> (i', j') -> misses i j (batch_tile_ops alpha A B beta C (i', j')).
Proof.
  intros Hne. unfold batch_tile_ops, HostBatch_groups, group_ops.
  destruct (decide (c_op C <> NoTrans));
    intros op [<-|[<-|[]]] [H1 H2]; simpl in *; congruence.
Qed.

Lemma misses_host_tile_ops i j ij :
  (i, j) <> ij -> misses i j (host_tile_ops alpha A B beta C ij).
Proof.
  destruct ij as [i' j']. intros Hne. unfold host_tile_ops. simpl.
  destruct (decide (i' = j')) as [->|_];
    [by apply misses_diag_ops | by apply misses_offdiag_ops].
Qed.

Lemma HostTask_ops_at i j d :
  lower_tile C i j ->
  ops_at i j (HostTask_ops alpha A B beta C) d
  = ops_at i j (host_tile_ops alpha A B beta C (i, j)) d.
Proof.
  intros Hij. unfold HostTask_ops.
  apply ops_at_bind_single; [apply NoDup_lower_local | |].
  - by apply list_elem_of_In, elem_of_lower_local.
  - intros ij _ Hne. by apply misses_host_tile_ops.
Qed.

Lemma diag_loop_at j d :
  (0 <= j < c_nt C)%Z -> c_tileIsLocal C j j = true ->
  ops_at j j (diag_local C ≫= diag_ops alpha A B beta C) d
  = ops_at j j (diag_ops alpha A B beta C j) d.
Proof.
  intros Hj Hlocal. apply ops_at_bind_single; [apply NoDup_diag_local | |].
  - by apply list_elem_of_In, elem_of_diag_local.
  - intros j' _ Hne. apply misses_diag_ops. congruence.
Qed.

Lemma diag_loop_misses i j :
  i <> j -> misses i j (diag_local C ≫= diag_ops alpha A B beta C).
Proof. intros Hne. apply misses_bind. intros j' _. apply misses_diag_ops. congruence. Qed.

Lemma HostNest_ops_at i j d :
  lower_tile C i j ->
  ops_at i j (HostNest_ops alpha A B beta C) d
  = ops_at i j (host_tile_ops alpha A B beta C (i, j)) d.
Proof.
  intros Hij. unfold HostNest_ops, host_tile_ops. rewrite ops_at_app. simpl.
  destruct (decide (i = j)) as [->|Hne].
  - rewrite diag_loop_at; [|apply Hij..].
    apply ops_at_misses, misses_bind. intros [i' j'] Hin.
    apply list_elem_of_In, elem_of_offdiag_nest in Hin as [_ Hne].
    apply misses_offdiag_ops. simpl. congruence.
  - rewrite (ops_at_misses i j (diag_local C ≫= _)) by (by apply diag_loop_misses).
    apply (ops_at_bind_single i j _
             (fun ij => offdiag_ops alpha A B beta C (fst ij) (snd ij)) (i, j));
      [apply NoDup_offdiag_nest | |].
    + by apply list_elem_of_In, elem_of_offdiag_nest.
    + intros [i' j'] _ Hne'. by apply misses_offdiag_ops.
Qed.

Lemma HostBatch_ops_at i j d :
  lower_tile C i j ->
  ops_at i j (HostBatch_ops alpha A B beta C) d
  = ops_at i j (if decide (i = j) then diag_ops alpha A B beta C j
                else batch_tile_ops alpha A B beta C (i, j)) d.
Proof.
  intros Hij. unfold HostBatch_ops. rewrite ops_at_app.
  set (g := HostBatch_groups alpha A beta C (opA_normalized A C)
                             (opB_of (opA_normalized A C))).
  assert (Hmiss : forall (pick : gemm_group K * gemm_group K -> gemm_group K) i' j',
             pick = fst \/ pick = snd -> (i, j) <> (i', j') ->
             misses i j (group_ops A B (pick (g (i', j'))))).
  { intros pick i' j' Hpick Hne op Hin. apply (misses_batch_tile_ops i j i' j' Hne).
    unfold batch_tile_ops. fold g. apply in_or_app.
    destruct Hpick as [-> | ->]; [by left | by right]. }
  destruct (decide (i = j)) as [->|Hne].
  - rewrite diag_loop_at; [|apply Hij..].
    apply ops_at_misses. destruct (Nat.ltb 0 (length (offdiag_local C))); [|apply misses_nil].
    apply misses_app; apply misses_bind; intros [i' j'] Hin;
      apply list_elem_of_In, elem_of_offdiag_local in Hin as [_ Hne].
    + apply (Hmiss fst); [by left | congruence].
    + apply (Hmiss snd); [by right | congruence].
  - rewrite (ops_at_misses i j (diag_local C ≫= _)) by (by apply diag_loop_misses).
    assert (Hin : In (i, j) (offdiag_local C))
      by (by apply list_elem_of_In, elem_of_offdiag_local).
    assert (Hlen : Nat.ltb 0 (length (offdiag_local C)) = true)
      by (by destruct (offdiag_local C)).
    rewrite Hlen. unfold batch_tile_ops. fold g. rewrite !ops_at_app.
    rewrite (ops_at_bind_single i j _ (fun ij => group_ops A B (fst (g ij))) (i, j));
      [|apply NoDup_offdiag_local | done
       |intros [i' j'] _ Hne'; apply (Hmiss fst); [by left | done]].
    apply (ops_at_bind_single i j _ (fun ij => group_ops A B (snd (g ij))) (i, j));
      [apply NoDup_offdiag_local | done
      |intros [i' j'] _ Hne'; apply (Hmiss snd); [by right | done]].
Qed.

End HostTiles.

(** What the device implementation does to one lower tile. *)
Section DeviceCalls.
Context {K : Type} `{SR : ScalarRing K}.
Variables (alpha : K) (A B : Matrix K) (beta : K) (C : SymmetricMatrix).

Lemma zip3_map {X Y1 Y2 Y3} (fa : X -> Y1) (fb : X -> Y2) (fc : X -> Y3) (l : list X) :
  zip3 (map fa l) (map fb l) (map fc l) = map (fun x => (fa x, fb x, fc x)) l.
Proof. induction l as [|x l IH]; [done|]. simpl. by rewrite IH. Qed.

Lemma batch_gemm_call_ops (tiles : list (Z * Z)) (fa fb fc : Z * Z -> tile_ref)
    opA opB m n k (al be : K) :
  (if Nat.ltb 0 (length (map fc tiles))
   then [call_batch_gemm opA opB m n k al (map fa tiles) (map fb tiles) be (map fc tiles)]
   else []) ≫= call_ops A B
  = tiles ≫= (fun ij => gemm_ops A B opA opB m n k al (fa ij) (fb ij) be (fc ij)).
Proof.
  destruct tiles as [|ij tiles]; [done|].
  change (Nat.ltb 0 (length (map fc (ij :: tiles)))) with true. cbv iota.
  rewrite bind_cons, app_nil_r. cbn [call_ops]. by rewrite zip3_map, bind_map.
Qed.

Lemma batch_syr2k_call_ops (tiles : list (Z * Z)) (fa fb fc : Z * Z -> tile_ref)
    uplo trans n k (al be : K) :
  (if Nat.ltb 0 (length (map fc tiles))
   then [call_batch_syr2k uplo trans n k al (map fa tiles) (map fb tiles) be (map fc tiles)]
   else []) ≫= call_ops A B
  = tiles ≫= (fun ij => syr2k_ops A B uplo trans n k al (fa ij) (fb ij) be (fc ij)).
Proof.
  destruct tiles as [|ij tiles]; [done|].
  change (Nat.ltb 0 (length (map fc (ij :: tiles)))) with true. cbv iota.
  rewrite bind_cons, app_nil_r. cbn [call_ops]. by rewrite zip3_map, bind_map.
Qed.

Lemma device_calls_ops device :
  device_calls alpha A beta C device ≫= call_ops A B = device_ops alpha A B beta C device.
Proof.
  unfold device_calls, device_ops, c_refs. cbv zeta.
  rewrite !bind_app.
  destruct (bool_decide (c_op C <> NoTrans));
    by rewrite !batch_gemm_call_ops, !batch_syr2k_call_ops.
Qed.

End DeviceCalls.

Section DeviceTiles.
Context {K : Type} `{SR : ScalarRing K}.
Variable env : environment.
Variables (alpha : K) (A B : Matrix K) (beta : K) (C : SymmetricMatrix).
Hypothesis Hgrid : device_grid env C.

(** A loop over distinct tiles whose items work on tiles of their own. *)
Lemma ops_at_own (tiles : list (Z * Z)) (g : Z * Z -> list (tile_op K)) i j d :
  NoDup tiles ->
  (forall ij, In ij tiles -> (i, j) <> ij -> misses i j (g ij)) ->
  ops_at i j (tiles ≫= g) d
  = if decide ((i, j) ∈ tiles) then ops_at i j (g (i, j)) d else d.
Proof.
  intros Hnd Hown. destruct (decide ((i, j) ∈ tiles)) as [Hin|Hout].
  - apply ops_at_bind_single; [done | by apply list_elem_of_In |].
    intros ij Hij Hne. by apply Hown.
  - apply ops_at_misses, misses_bind. intros ij Hij. apply Hown; [done|].
    intros <-. by apply Hout, list_elem_of_In.
Qed.

Lemma misses_gemm_ops i j i' j' opA opB m n k (al : K) a b be :
  (i, j) <> (i', j') -> misses i j (gemm_ops A B opA opB m n k al a b be (RefC i' j')).
Proof. intros Hne op [<-|[]] [H1 H2]. simpl in *. congruence. Qed.

Lemma misses_syr2k_ops i j i' j' uplo trans n k (al : K) a b be :
  (i, j) <> (i', j') -> misses i j (syr2k_ops A B uplo trans n k al a b be (RefC i' j')).
Proof. intros Hne op [<-|[]] [H1 H2]. simpl in *. congruence. Qed.

(** The operations of a device are on tiles of the device. *)
Lemma device_ops_misses device i j :
  c_tileIsLocal C i j = true -> device <> c_tileDevice C i j ->
  misses i j (device_ops alpha A B beta C device).
Proof using Hgrid.
  intros Hlocal Hdev. destruct Hgrid as (Hsq & _).
  assert (Hoff : forall i' j', on_device C device i' j' = true -> (i, j) <> (i', j')).
  { intros i' j' Hon [= -> ->]. unfold on_device in Hon.
    apply andb_true_iff in Hon as [_ Hon]. by apply bool_decide_eq_true in Hon. }
  unfold device_ops. cbv zeta.
  repeat apply misses_app; apply misses_bind; intros [i' j'] Hin; apply list_elem_of_In in Hin.
  - apply elem_of_gemm00_tiles in Hin as [_ Hon]. by apply misses_gemm_ops, Hoff.
  - apply elem_of_gemm10_tiles in Hin as [_ Hon]. by apply misses_gemm_ops, Hoff.
  - apply elem_of_gemm00_tiles in Hin as [_ Hon]. by apply misses_gemm_ops, Hoff.
  - apply elem_of_gemm10_tiles in Hin as [_ Hon]. by apply misses_gemm_ops, Hoff.
  - apply elem_of_syr2k_0_tiles in Hin as [[-> _] Hon]. by apply misses_syr2k_ops, Hoff.
  - apply elem_of_syr2k_1_tiles in Hin as [[-> ->] Hon]. apply misses_syr2k_ops, Hoff.
    by rewrite Hsq in Hon.
Qed.

Lemma device_ops_at i j d :
  (1 < c_nt C)%Z -> lower_tile C i j ->
  ops_at i j (device_ops alpha A B beta C (c_tileDevice C i j)) d
  = ops_at i j (if decide (i = j)
                then device_diag_ops alpha A B beta C (device_trans A C) j
                else batch_tile_ops alpha A B beta C (i, j)) d.
Proof using Hgrid.
  intros Hnt (Hj & Hi & Hlocal). destruct Hgrid as (Hsq & _ & Hmbnb & Hunif & _).
  set (dev := c_tileDevice C i j).
  assert (Hon : on_device C dev i j = true).
  { unfold on_device. rewrite Hlocal. by rewrite bool_decide_eq_true_2. }
  pose proof (elem_of_gemm00_tiles C dev i j) as H00.
  pose proof (elem_of_gemm10_tiles C dev i j) as H10.
  pose proof (elem_of_syr2k_0_tiles C dev i j) as Hs0.
  pose proof (elem_of_syr2k_1_tiles C dev i j) as Hs1.
  unfold device_ops. cbv zeta. rewrite !ops_at_app.
  rewrite (ops_at_own (gemm00_tiles C dev)), (ops_at_own (gemm10_tiles C dev)),
          (ops_at_own (gemm00_tiles C dev)), (ops_at_own (gemm10_tiles C dev)),
          (ops_at_own (syr2k_0_tiles C dev)), (ops_at_own (syr2k_1_tiles C dev)).
  all: try apply NoDup_gemm00_tiles; try apply NoDup_gemm10_tiles;
       try apply NoDup_syr2k_0_tiles; try apply NoDup_syr2k_1_tiles.
  all: try (intros [i' j'] Hin Hne'; apply list_elem_of_In in Hin).
  all: try (by apply misses_gemm_ops).
  all: try (apply elem_of_syr2k_0_tiles in Hin as [[-> _] _]; by apply misses_syr2k_ops).
  all: try (apply elem_of_syr2k_1_tiles in Hin as [[-> _] _]; by apply misses_syr2k_ops).
  destruct (decide (i = j)) as [->|Hne].
  - destruct (decide ((j, j) ∈ gemm00_tiles C dev)) as [Hin|_];
      [apply H00 in Hin; lia|].
    destruct (decide ((j, j) ∈ gemm10_tiles C dev)) as [Hin|_];
      [apply H10 in Hin; lia|].
    unfold device_diag_ops, device_trans, syr2k_ops. cbn [operand fst snd].
    destruct (decide (j = c_nt C - 1)%Z) as [Hlast|Hint].
    + destruct (decide ((j, j) ∈ syr2k_0_tiles C dev)) as [Hin|_];
        [apply Hs0 in Hin; lia|].
      destruct (decide ((j, j) ∈ syr2k_1_tiles C dev)) as [_|Hout].
      * by rewrite <- Hlast.
      * destruct Hout. apply Hs1. split; [lia|]. by rewrite Hsq, <- Hlast.
    + destruct (decide ((j, j) ∈ syr2k_1_tiles C dev)) as [Hin|_];
        [apply Hs1 in Hin; lia|].
      destruct (decide ((j, j) ∈ syr2k_0_tiles C dev)) as [_|Hout].
      * by rewrite (Hunif j) by lia.
      * destruct Hout. apply Hs0. split; [lia | done].
  - destruct (decide ((i, j) ∈ syr2k_0_tiles C dev)) as [Hin|_];
      [apply Hs0 in Hin; lia|].
    destruct (decide ((i, j) ∈ syr2k_1_tiles C dev)) as [Hin|_];
      [apply Hs1 in Hin; lia|].
    unfold batch_tile_ops, HostBatch_groups, group_ops, gemm_ops. rewrite ops_at_app.
    destruct (decide (i = c_mt C - 1)%Z) as [Hlast|Hint].
    + destruct (decide ((i, j) ∈ gemm00_tiles C dev)) as [Hin|_];
        [apply H00 in Hin; lia|].
      destruct (decide ((i, j) ∈ gemm10_tiles C dev)) as [_|Hout].
      * rewrite <- Hlast.
        destruct (decide (c_op C <> NoTrans)) as [Hop|Hop].
        -- rewrite (bool_decide_eq_true_2 _ Hop). cbn [fst snd g_opA g_opB g_m g_n g_k
             g_alpha g_a g_b g_beta g_c operand]. by rewrite (Hunif j) by lia.
        -- rewrite (bool_decide_eq_false_2 _ Hop). cbn [fst snd g_opA g_opB g_m g_n g_k
             g_alpha g_a g_b g_beta g_c operand]. by rewrite (Hunif j) by lia.
      * destruct Hout. apply H10. split; [lia | done].
    + destruct (decide ((i, j) ∈ gemm10_tiles C dev)) as [Hin|_];
        [apply H10 in Hin; lia|].
      destruct (decide ((i, j) ∈ gemm00_tiles C dev)) as [_|Hout].
      * assert (Hmi : c_tileMb C i = c_tileMb C 0)
          by (rewrite !Hmbnb; apply Hunif; lia).
        assert (Hnj : c_tileNb C j = c_tileNb C 0) by (apply Hunif; lia).
        destruct (decide (c_op C <> NoTrans)) as [Hop|Hop].
        -- rewrite (bool_decide_eq_true_2 _ Hop). cbn [fst snd g_opA g_opB g_m g_n g_k
             g_alpha g_a g_b g_beta g_c operand]. by rewrite Hmi, Hnj.
        -- rewrite (bool_decide_eq_false_2 _ Hop). cbn [fst snd g_opA g_opB g_m g_n g_k
             g_alpha g_a g_b g_beta g_c operand]. by rewrite Hmi, Hnj.
      * destruct Hout. apply H00. split; [lia | done].
Qed.

Lemma Devices_ops_at i j d :
  lower_tile C i j ->
  ops_at i j (Devices_ops alpha A B beta C) d
  = ops_at i j (if decide (i = j)
                then device_diag_ops alpha A B beta C
                       (if decide (c_nt C = 1%Z) then m_op A else device_trans A C) j
                else batch_tile_ops alpha A B beta C (i, j)) d.
Proof using Hgrid.
  intros Hij. pose proof Hij as (Hj & Hi & Hlocal).
  pose proof Hgrid as (Hsq & Hnt & _ & _ & Hdev & _).
  unfold Devices_ops. destruct (decide (c_nt C = 1%Z)) as [Hone|Hmany].
  - assert (j = 0%Z) as -> by lia. assert (i = 0%Z) as -> by lia.
    rewrite Hlocal. by destruct (decide (0 = 0)%Z).
  - rewrite (ops_at_bind_single i j _ _ (c_tileDevice C i j)).
    + rewrite device_calls_ops. apply device_ops_at; [lia | done].
    + apply NoDup_seqZ.
    + apply list_elem_of_In, elem_of_seqZ. specialize (Hdev i j Hlocal). lia.
    + intros device _ Hne. rewrite device_calls_ops. by apply device_ops_misses.
Qed.

End DeviceTiles.

(** ** The values of the entries *)

Section Numeric.
Context {K : Type} {SR : ScalarRing K} {SRL : ScalarRingLaws K}.

Add Ring scalar_ring : k_ring.

Lemma dot_comm (k : nat) (f g : nat -> K) : dot k f g = dot k g f.
Proof using SRL.
  unfold dot. induction (seq 0 k) as [|l ls IH]; [done|].
  simpl. rewrite IH. ring.
Qed.

Variables (alpha : K) (A B : Matrix K) (beta : K) (C : SymmetricMatrix).
Hypothesis Hlow : c_uplo C = Lower.
Hypothesis HAB : m_op A = m_op B.
Hypothesis Hconj :
  m_op A = ConjTrans \/ c_op C = ConjTrans -> k_conj = (fun x : K => x).
Hypothesis Hsquare : square_tiles C.

Lemma host_tile_value (d : tile_data K) (Cs : Z -> Z -> tile_data K) i j r c :
  d = Cs i j ->
  r < c_tileMb C i -> c < c_tileNb C j -> (i = j -> c <= r) ->
  tile_at (mkTile (c_op C) (ops_at i j (host_tile_ops alpha A B beta C (i, j)) d)) r c
  = reference alpha A B beta C Cs i j r c.
Proof using Hlow HAB Hconj Hsquare SRL.
  intros -> Hr Hc Htri.
  unfold host_tile_ops, reference. cbn [fst snd].
  destruct (decide (i = j)) as [->|Hne].
  - unfold diag_ops, ops_at. cbn [fold_left fst snd].
    destruct (decide (j = j /\ j = j)) as [_|[]]; [|done].
    unfold tile_syr2k, tile_at, A_tile, B_tile, apply_op. cbn [t_op t_data].
    rewrite Hlow, <- HAB.
    rewrite Hsquare in Hr.
    assert (Hr' : Nat.ltb r (c_tileNb C j) = true) by (by apply Nat.ltb_lt).
    assert (Hc' : Nat.ltb c (c_tileNb C j) = true) by (by apply Nat.ltb_lt).
    assert (Ht' : Nat.leb c r = true) by (apply Nat.leb_le; auto).
    destruct (m_op A) eqn:EA, (c_op C) eqn:EC; cbn [logical_coords op_val in_triangle];
      rewrite ?Hr', ?Hc', ?Ht'; cbn [andb]; rewrite ?Hconj by auto; cbv beta.
    all: reflexivity.
  - unfold offdiag_ops, ops_at. cbn [fold_left fst snd].
    destruct (decide (i = i /\ j = j)) as [_|[]]; [|done].
    unfold tile_gemm, tile_at, transpose, A_tile, B_tile, apply_op. cbn [t_op t_data].
    rewrite <- HAB.
    assert (Hr' : Nat.ltb r (c_tileMb C i) = true) by (by apply Nat.ltb_lt).
    assert (Hc' : Nat.ltb c (c_tileNb C j) = true) by (by apply Nat.ltb_lt).
    destruct (m_op A) eqn:EA, (c_op C) eqn:EC; cbn [logical_coords op_val];
      rewrite ?Hr', ?Hc'; cbn [andb]; rewrite ?Hconj by auto; cbv beta.
    all: ring.
Qed.

Lemma batch_tile_value (d : tile_data K) (Cs : Z -> Z -> tile_data K) i j r c :
  d = Cs i j -> i <> j ->
  r < c_tileMb C i -> c < c_tileNb C j ->
  tile_at (mkTile (c_op C) (ops_at i j (batch_tile_ops alpha A B beta C (i, j)) d)) r c
  = reference alpha A B beta C Cs i j r c.
Proof using Hlow HAB Hconj SRL.
  intros -> Hne Hr Hc.
  unfold batch_tile_ops, HostBatch_groups, group_ops, gemm_ops, reference.
  unfold opA_normalized, opB_of.
  unfold tile_at, A_tile, B_tile, apply_op. cbn [t_op t_data].
  rewrite <- HAB.
  assert (Hr' : Nat.ltb r (c_tileMb C i) = true) by (by apply Nat.ltb_lt).
  assert (Hc' : Nat.ltb c (c_tileNb C j) = true) by (by apply Nat.ltb_lt).
  set (D := dot (m_tileNb A 0)).
  destruct (m_op A) eqn:EA, (c_op C) eqn:EC; simpl;
    destruct (decide (i = i /\ j = j)) as [_|[]]; try done;
    unfold blas_gemm, apply_op; simpl; fold D;
    rewrite ?Hr', ?Hc'; simpl; rewrite ?Hconj by auto; cbv beta.
  all: try ring.
  all: unfold D;
    rewrite (dot_comm _ (fun l => m_data A j _ _)), (dot_comm _ (fun l => m_data B j _ _));
    ring.
Qed.

Lemma device_diag_value (d : tile_data K) (Cs : Z -> Z -> tile_data K) trans j r c :
  d = Cs j j -> trans = m_op A \/ trans = device_trans A C ->
  r < c_tileNb C j -> c < c_tileNb C j -> c <= r ->
  tile_at (mkTile (c_op C) (ops_at j j (device_diag_ops alpha A B beta C trans j) d)) r c
  = reference alpha A B beta C Cs j j r c.
Proof using Hlow HAB Hconj SRL.
  intros -> Htrans Hr Hc Htri.
  unfold device_diag_ops, reference, ops_at. cbn [fold_left fst snd].
  destruct (decide (j = j /\ j = j)) as [_|[]]; [|done].
  unfold tile_at, A_tile, B_tile, apply_op. cbn [t_op t_data].
  rewrite <- HAB.
  assert (Hr' : Nat.ltb r (c_tileNb C j) = true) by (by apply Nat.ltb_lt).
  assert (Hc' : Nat.ltb c (c_tileNb C j) = true) by (by apply Nat.ltb_lt).
  assert (Ht' : Nat.leb c r = true) by (by apply Nat.leb_le).
  set (D := dot (m_tileNb A 0)).
  unfold c_uplo in Hlow. unfold device_trans, opA_normalized, opB_of in Htrans.
  destruct (m_op A) eqn:EA, (c_op C) eqn:EC, (c_uploPhysical C) eqn:EU; try done;
    simpl in Htrans; destruct Htrans as [-> | ->];
    unfold blas_syr2k, apply_op; simpl; fold D;
    rewrite ?Hr', ?Hc', ?Ht'; simpl; rewrite ?Hconj by auto; cbv beta.
  all: try ring.
  all: unfold D;
    first [ rewrite (dot_comm _ (fun l => m_data A j c l)),
                    (dot_comm _ (fun l => m_data B j c l))
          | rewrite (dot_comm _ (fun l => m_data A j l c)),
                    (dot_comm _ (fun l => m_data B j l c)) ];
    ring.
Qed.

Lemma host_diag_value (d : tile_data K) (Cs : Z -> Z -> tile_data K) j r c :
  d = Cs j j ->
  r < c_tileMb C j -> c < c_tileNb C j -> c <= r ->
  tile_at (mkTile (c_op C) (ops_at j j (diag_ops alpha A B beta C j) d)) r c
  = reference alpha A B beta C Cs j j r c.
Proof using Hlow HAB Hconj Hsquare SRL.
  intros Hd Hr Hc Htri.
  rewrite <- (host_tile_value d Cs j j r c) by auto.
  unfold host_tile_ops. cbn [fst snd]. by destruct (decide (j = j)).
Qed.

End Numeric.

Global Instance Z_ScalarRingLaws : ScalarRingLaws Z.
Proof.
  split; [|done].
  constructor; intros; simpl; lia.
Qed.

(** ** The four implementations and the reference *)

(** In an environment in which no acquisition of any tile fails, for a call
    the dispatcher accepts whose assertions pass: each implementation returns
    normally and leaves in every local lower tile the entries of
    alpha A B^T + alpha B A^T + beta C computed from the logical tiles. *)
Lemma syr2k_reference_nothing_fails :
  forall (K : Type) (SR : ScalarRing K) (SRL : ScalarRingLaws K) (env : environment)
         (alpha : K) (A B : Matrix K) (beta : K) (C : SymmetricMatrix) (layout : Layout)
         (target : Target) (st : state K),
    syr2k_rejects A B C = false ->
    no_failure env ->
    square_tiles C ->
    target_ok env A C layout target ->
    exists st',
      syr2k env alpha A B beta C layout target st = (Ok tt, st') /\
      forall (i j : Z) (r c : nat),
        lower_tile C i j -> r < c_tileMb C i -> c < c_tileNb C j -> (i = j -> c <= r) ->
        tile_at (mkTile (c_op C) (s_C st' i j)) r c
        = reference alpha A B beta C (s_C st) i j r c.
Proof.
  intros K SR SRL env alpha A B beta C layout target st Hacc Hnf Hsquare Hok.
  destruct (accepted A B C Hacc) as (Hlow & HAB & Hreal).
  assert (Hconj : m_op A = ConjTrans \/ c_op C = ConjTrans -> k_conj = (fun x : K => x)).
  { destruct Hreal as [Hreal|[HC HA]]; [|by intros [?|?]].
    intros _. apply functional_extensionality. by apply k_conj_real. }
  unfold syr2k. rewrite Hacc. destruct target; simpl in Hok.
  - destruct (HostTask_run env alpha A B beta C layout Hnf Hok st) as (st' & Hrun & HC).
    exists st'. split; [done|]. intros i j r c Hij Hr Hc Htri.
    rewrite HC, apply_ops_at, HostTask_ops_at by done.
    by apply host_tile_value.
  - destruct (HostNest_run env alpha A B beta C layout Hnf Hok st) as (st' & Hrun & HC).
    exists st'. split; [done|]. intros i j r c Hij Hr Hc Htri.
    rewrite HC, apply_ops_at, HostNest_ops_at by done.
    by apply host_tile_value.
  - destruct Hok as (Hlayout & Hmkl & Hshapes).
    destruct (HostBatch_run env alpha A B beta C layout Hnf Hlayout Hacc Hshapes st Hmkl)
      as (st' & Hrun & HC).
    exists st'. split; [done|]. intros i j r c Hij Hr Hc Htri.
    rewrite HC, apply_ops_at, HostBatch_ops_at by done.
    destruct (decide (i = j)) as [->|Hne].
    + apply host_diag_value; auto.
    + by apply batch_tile_value.
  - pose proof Hok as (_ & _ & _ & _ & _ & Hdev).
    destruct (Devices_run env alpha A B beta C Hnf Hacc st Hdev) as (st' & Hrun & HC).
    exists st'. split; [done|]. intros i j r c Hij Hr Hc Htri.
    rewrite HC, apply_ops_at, (Devices_ops_at env) by done.
    destruct (decide (i = j)) as [->|Hne].
    + apply device_diag_value; auto.
      * destruct (decide (c_nt C = 1%Z)); [by left | by right].
      * by rewrite <- Hsquare.
    + by apply batch_tile_value.
Qed.


(** ** C1: the four implementations and the reference *)

Lemma for_each_ext_in {K X} (l : list X) (f g : X -> M K unit) :
  (forall x, In x l -> f x = g x) -> for_each l f = for_each l g.
Proof.
  induction l as [|x l IH]; intros Hfg; [done|]. simpl.
  rewrite (Hfg x) by (by left). rewrite IH; [done|]. intros y Hy. apply Hfg. by right.
Qed.

Lemma bind_congr {K X Y} (m m' : M K X) (k k' : X -> M K Y) :
  m = m' -> (forall x, k x = k' x) -> m ≫= k = m' ≫= k'.
Proof.
  intros -> Hk. f_equal. apply functional_extensionality. exact Hk.
Qed.

Lemma existsb_false_in {X} (F : X -> bool) (l : list X) (x : X) :
  existsb F l = false -> In x l -> F x = false.
Proof.
  intros Hl Hx. destruct (F x) eqn:HF; [|done].
  rewrite <- Hl. symmetry. apply existsb_exists. by exists x.
Qed.

(** When the acquisitions an implementation makes succeed, it runs as in the
    environment of the same build in which no acquisition fails. *)
Section Transfer.
Context {K : Type} `{SR : ScalarRing K}.
Variable env : environment.
Variables (alpha : K) (A B : Matrix K) (beta : K) (C : SymmetricMatrix).
Variable layout : Layout.

Lemma host_diag_body_transfer j :
  diag_unit_fails env j = false ->
  host_diag_body env alpha A B beta C j
  = host_diag_body (without_failures env) alpha A B beta C j.
Proof.
  unfold diag_unit_fails. intros Hf.
  apply orb_false_iff in Hf as [Hf HC]. apply orb_false_iff in Hf as [HA HB].
  unfold host_diag_body, tileGetForReading, tileGetForWriting.
  by rewrite HA, HB, HC.
Qed.

Lemma HostTask_offdiag_body_transfer i j :
  i <> j -> HostTask_unit_fails env (i, j) = false ->
  HostTask_offdiag_body env alpha A B beta C i j
  = HostTask_offdiag_body (without_failures env) alpha A B beta C i j.
Proof.
  unfold HostTask_unit_fails. intros Hne Hf. destruct (decide (i = j)); [done|].
  apply orb_false_iff in Hf as [Hf HC]. apply orb_false_iff in Hf as [Hf HBj].
  apply orb_false_iff in Hf as [Hf HBi]. apply orb_false_iff in Hf as [HAi HAj].
  unfold HostTask_offdiag_body, tileGetForReading, tileGetForWriting.
  by rewrite HAi, HAj, HBi, HBj, HC.
Qed.

Lemma HostNest_offdiag_body_transfer i j :
  HostNest_unit_fails env (i, j) = false ->
  HostNest_offdiag_body env alpha A B beta C i j
  = HostNest_offdiag_body (without_failures env) alpha A B beta C i j.
Proof.
  unfold HostNest_unit_fails. intros Hf.
  apply orb_false_iff in Hf as [Hf HC]. apply orb_false_iff in Hf as [HA HB].
  unfold HostNest_offdiag_body, tileGetForReading, tileGetForWriting.
  by rewrite HA, HB, HC.
Qed.

Lemma diag_tasks_transfer (line : Z) :
  existsb (diag_unit_fails env) (diag_local C) = false ->
  forZ 0 (c_nt C) (fun j =>
    when (c_tileIsLocal C j j)
      (omp_task (try_catch (host_diag_body env alpha A B beta C j) (set_err line))))
  = forZ 0 (c_nt C) (fun j =>
      when (c_tileIsLocal C j j)
        (omp_task (try_catch (host_diag_body (without_failures env) alpha A B beta C j)
                             (set_err line)))).
Proof.
  intros Hf. unfold forZ. apply for_each_ext_in. intros j Hj.
  destruct (c_tileIsLocal C j j) eqn:Hl; [|done]. unfold when.
  rewrite host_diag_body_transfer; [done|].
  apply (existsb_false_in _ _ j Hf), list_elem_of_In, elem_of_diag_local.
  apply list_elem_of_In, elem_of_seqZ in Hj. split; [lia | done].
Qed.

Lemma syr2k_HostTask_transfer :
  existsb (HostTask_unit_fails env) (lower_local C) = false ->
  syr2k_HostTask env alpha A B beta C layout
  = syr2k_HostTask (without_failures env) alpha A B beta C layout.
Proof.
  intros Hf. unfold syr2k_HostTask.
  apply bind_congr; [done|intros _]. apply bind_congr; [done|intros _].
  apply bind_congr; [|done].
  unfold forZ. apply for_each_ext_in. intros j Hj. apply for_each_ext_in. intros i Hi.
  destruct (c_tileIsLocal C i j) eqn:Hl; [|done]. unfold when.
  apply list_elem_of_In, elem_of_seqZ in Hj, Hi.
  assert (Hij : HostTask_unit_fails env (i, j) = false).
  { apply (existsb_false_in _ _ (i, j) Hf), list_elem_of_In, elem_of_lower_local.
    unfold lower_tile. split; [lia|]. split; [lia | done]. }
  destruct (decide (i = j)) as [->|Hne].
  - rewrite host_diag_body_transfer; [done|].
    unfold HostTask_unit_fails in Hij. by destruct (decide (j = j)).
  - by rewrite HostTask_offdiag_body_transfer.
Qed.

Lemma syr2k_HostNest_transfer :
  existsb (diag_unit_fails env) (diag_local C) = false ->
  existsb (HostNest_unit_fails env) (offdiag_nest C) = false ->
  syr2k_HostNest env alpha A B beta C layout
  = syr2k_HostNest (without_failures env) alpha A B beta C layout.
Proof.
  intros Hd Hf. unfold syr2k_HostNest. cbv zeta.
  apply bind_congr; [done|intros _]. apply bind_congr; [done|intros _].
  apply bind_congr; [by apply diag_tasks_transfer|intros _].
  apply bind_congr; [|done].
  unfold forZ. apply for_each_ext_in. intros j Hj. apply for_each_ext_in. intros i Hi.
  destruct (bool_decide (i >= j + 1)%Z) eqn:Hlow; [|done].
  destruct (c_tileIsLocal C i j) eqn:Hl; [|done]. unfold when.
  apply list_elem_of_In, elem_of_seqZ in Hj, Hi. apply bool_decide_eq_true in Hlow.
  rewrite HostNest_offdiag_body_transfer; [done|].
  apply (existsb_false_in _ _ (i, j) Hf), list_elem_of_In, elem_of_offdiag_nest.
  unfold lower_tile. split; [|lia]. split; [lia|]. split; [lia | done].
Qed.

Lemma syr2k_HostBatch_transfer :
  existsb (diag_unit_fails env) (diag_local C) = false ->
  existsb (HostBatch_load_fails env) (offdiag_local C) = false ->
  syr2k_HostBatch env alpha A B beta C layout
  = syr2k_HostBatch (without_failures env) alpha A B beta C layout.
Proof.
  intros Hd Hf. unfold syr2k_HostBatch. cbv zeta.
  apply bind_congr; [done|intros _]. apply bind_congr; [done|intros _].
  apply bind_congr; [by apply diag_tasks_transfer|intros _].
  apply bind_congr; [|done].
  unfold forZ. apply for_each_ext_in. intros j Hj. apply for_each_ext_in. intros i Hi.
  destruct (c_tileIsLocal C i j) eqn:Hl; [|done]. unfold when.
  apply list_elem_of_In, elem_of_seqZ in Hj, Hi.
  assert (Hij : HostBatch_load_fails env (i, j) = false).
  { apply (existsb_false_in _ _ (i, j) Hf), list_elem_of_In, elem_of_offdiag_local.
    unfold lower_tile. split; [|lia]. split; [lia|]. split; [lia | done]. }
  unfold HostBatch_load_fails in Hij.
  apply orb_false_iff in Hij as [Hij HC]. apply orb_false_iff in Hij as [HA HB].
  unfold tileGetForReading, tileGetForWriting. by rewrite HA, HB, HC.
Qed.

Lemma Devices_single_body_transfer :
  single_unit_fails env C = false ->
  Devices_single_body env alpha A B beta C
  = Devices_single_body (without_failures env) alpha A B beta C.
Proof.
  unfold single_unit_fails. intros Hf.
  apply orb_false_iff in Hf as [Hf HC]. apply orb_false_iff in Hf as [HA HB].
  unfold Devices_single_body, tileGetForReading, tileGetForWriting.
  by rewrite HA, HB, HC.
Qed.

Lemma Devices_device_body_transfer device :
  device_unit_fails env C device = false ->
  Devices_device_body env alpha A B beta C device
  = Devices_device_body (without_failures env) alpha A B beta C device.
Proof.
  unfold device_unit_fails. rewrite !existsb_app. intros Hf.
  apply orb_false_iff in Hf as [H1 Hf]. apply orb_false_iff in Hf as [H2 Hf].
  apply orb_false_iff in Hf as [H3 Hf]. apply orb_false_iff in Hf as [H4 Hf].
  apply orb_false_iff in Hf as [H5 H6].
  unfold Devices_device_body, tileGetForReading_set, tileGetForWriting_set.
  rewrite H1, H2, H3, H4, H5, H6.
  assert (Hnf : no_failure (without_failures env)) by (by intros t d).
  by rewrite !(existsb_no_failure _ Hnf).
Qed.

Lemma syr2k_Devices_transfer :
  Devices_fails env C = false ->
  syr2k_Devices env alpha A B beta C
  = syr2k_Devices (without_failures env) alpha A B beta C.
Proof.
  unfold Devices_fails. intros Hf. unfold syr2k_Devices.
  apply bind_congr; [done|intros _]. apply bind_congr; [done|intros _].
  apply bind_congr; [|done].
  destruct (decide (c_nt C = 1%Z)).
  - destruct (c_tileIsLocal C 0 0); [|done]. unfold when.
    by rewrite Devices_single_body_transfer.
  - unfold forZ. apply for_each_ext_in. intros device Hd.
    rewrite Devices_device_body_transfer; [done|].
    apply (existsb_false_in _ _ device Hf). by rewrite Z.sub_0_r in Hd.
Qed.

End Transfer.




(** * Further properties of Part II *)

(** ** The tiles of C an implementation writes *)

Section KeepsC.
Context {K : Type}.
Variable P : Z -> Z -> Prop.

Lemma keeps_C_ret {X} (x : X) : keeps_C (K := K) P (mret x).
Proof. by intros st i j _. Qed.

Lemma keeps_C_throw {X} e : keeps_C (K := K) (X := X) P (throw e).
Proof. by intros st i j _. Qed.

Lemma keeps_C_abort {X} : keeps_C (K := K) (X := X) P abort.
Proof. by intros st i j _. Qed.

Lemma keeps_C_bind {X Y} (m : M K X) (f : X -> M K Y) :
  keeps_C P m -> (forall x, keeps_C P (f x)) -> keeps_C P (m ≫= f).
Proof.
  intros Hm Hf st i j Hij. specialize (Hm st i j Hij).
  unfold mbind, M_bind. destruct (m st) as [[x| | |] st1]; simpl in *; try done.
  by rewrite (Hf x st1 i j Hij).
Qed.

Lemma keeps_C_try_catch (m handler : M K unit) :
  keeps_C P m -> keeps_C P handler -> keeps_C P (try_catch m handler).
Proof.
  intros Hm Hh st i j Hij. specialize (Hm st i j Hij).
  unfold try_catch. destruct (m st) as [[x|e|e|] st1]; simpl in *; try done.
  by rewrite (Hh st1 i j Hij).
Qed.

Lemma keeps_C_omp_task (m : M K unit) : keeps_C P m -> keeps_C P (omp_task m).
Proof.
  intros Hm st i j Hij. unfold omp_task.
  specialize (Hm (mkState (s_C st) (s_life st) (s_err st) (S (s_spawned st)) 0 (s_calls st))
                 i j Hij).
  destruct (m _) as [[x|e|e|] st1]; simpl in *; done.
Qed.

Lemma keeps_C_omp_iteration (m : M K unit) : keeps_C P m -> keeps_C P (omp_iteration m).
Proof.
  intros Hm st i j Hij. specialize (Hm st i j Hij). unfold omp_iteration.
  destruct (m st) as [[x|e|e|] st1]; simpl in *; done.
Qed.

Lemma keeps_C_when (b : bool) (m : M K unit) :
  (b = true -> keeps_C P m) -> keeps_C P (when b m).
Proof. destruct b; [by intros H; apply H | intros _; apply keeps_C_ret]. Qed.

Lemma keeps_C_for_each {X} (l : list X) (body : X -> M K unit) :
  (forall x, In x l -> keeps_C P (body x)) -> keeps_C P (for_each l body).
Proof.
  induction l as [|x l IH]; intros Hbody; [apply keeps_C_ret|].
  simpl. apply keeps_C_bind; [apply Hbody; by left|].
  intros _. apply IH. intros y Hy. apply Hbody. by right.
Qed.

Lemma keeps_C_forZ (lo hi : Z) (body : Z -> M K unit) :
  (forall x, (lo <= x < hi)%Z -> keeps_C P (body x)) -> keeps_C P (forZ lo hi body).
Proof.
  intros Hbody. apply keeps_C_for_each. intros x Hx. apply Hbody.
  apply list_elem_of_In, elem_of_seqZ in Hx. lia.
Qed.

Lemma keeps_C_set_err line : keeps_C (K := K) P (set_err line).
Proof. by intros st i j _. Qed.

Lemma keeps_C_rethrow : keeps_C (K := K) P rethrow.
Proof.
  intros st i j _. unfold rethrow, get_err, mbind, M_bind.
  by destruct (decide (s_err st = 0%Z)).
Qed.

Lemma keeps_C_omp_taskwait : keeps_C (K := K) P omp_taskwait.
Proof. by intros st i j _. Qed.

Lemma keeps_C_tileTick t : keeps_C (K := K) P (tileTick t).
Proof. by intros st i j _. Qed.

Lemma keeps_C_tileRelease t device : keeps_C (K := K) P (tileRelease t device).
Proof. by intros st i j _. Qed.

Lemma keeps_C_log_call c : keeps_C (K := K) P (log_call c).
Proof. by intros st i j _. Qed.

Lemma keeps_C_assert env cond : keeps_C (K := K) P (assert_ env cond).
Proof. unfold assert_. destruct (_ || _); [apply keeps_C_ret | apply keeps_C_abort]. Qed.

Lemma keeps_C_tileGetForReading env t device :
  keeps_C (K := K) P (tileGetForReading env t device).
Proof.
  unfold tileGetForReading. destruct (acquire_fails _ _ _);
    [apply keeps_C_throw | apply keeps_C_ret].
Qed.

Lemma keeps_C_tileGetForWriting env t device :
  keeps_C (K := K) P (tileGetForWriting env t device).
Proof.
  unfold tileGetForWriting. destruct (acquire_fails _ _ _);
    [apply keeps_C_throw | apply keeps_C_ret].
Qed.

Lemma keeps_C_tileGetForReading_set env tiles device :
  keeps_C (K := K) P (tileGetForReading_set env tiles device).
Proof.
  unfold tileGetForReading_set. destruct (existsb _ _);
    [apply keeps_C_throw | apply keeps_C_ret].
Qed.

Lemma keeps_C_tileGetForWriting_set env tiles device :
  keeps_C (K := K) P (tileGetForWriting_set env tiles device).
Proof.
  unfold tileGetForWriting_set. destruct (existsb _ _);
    [apply keeps_C_throw | apply keeps_C_ret].
Qed.

(** A store to a tile of [P]. *)
Lemma keeps_C_set_after_get i j (f : tile_data K -> tile_data K) :
  P i j -> keeps_C P (c ← get_C i j; set_C i j (f c)).
Proof.
  intros HP st i' j' Hij. simpl.
  destruct (decide (i' = i /\ j' = j)) as [[-> ->]|_]; [by destruct Hij | done].
Qed.

End KeepsC.

Section KeepsBodies.
Context {K : Type} `{SR : ScalarRing K}.
Variable env : environment.
Variables (alpha : K) (A B : Matrix K) (beta : K) (C : SymmetricMatrix).
Variable P : Z -> Z -> Prop.

Lemma keeps_C_gemm a X Y b i j : P i j -> keeps_C P (gemm A C a X Y b i j).
Proof. apply keeps_C_set_after_get. Qed.

Lemma keeps_C_syr2k_tile a X Y b j : P j j -> keeps_C P (syr2k_tile A C a X Y b j).
Proof. apply keeps_C_set_after_get. Qed.

Lemma keeps_C_deref {Y} t (f : tile_data K -> M K Y) :
  (forall d, keeps_C P (f d)) -> keeps_C P (deref A B t ≫= f).
Proof.
  intros Hf. destruct t as [i|i|i j]; intros st i' j' Hij; apply (Hf _ st i' j' Hij).
Qed.

Lemma keeps_C_run_gemm opA opB m n k al a b be c :
  ref_in P c -> keeps_C P (run_gemm A B opA opB m n k al a b be c).
Proof.
  intros Hc. destruct c as [i|i|i j]; try apply keeps_C_ret. simpl in Hc.
  unfold run_gemm. apply keeps_C_deref; intros da. apply keeps_C_deref; intros db.
  by apply (keeps_C_set_after_get P i j).
Qed.

Lemma keeps_C_run_syr2k uplo trans n k al a b be c :
  ref_in P c -> keeps_C P (run_syr2k A B uplo trans n k al a b be c).
Proof.
  intros Hc. destruct c as [i|i|i j]; try apply keeps_C_ret. simpl in Hc.
  unfold run_syr2k. apply keeps_C_deref; intros da. apply keeps_C_deref; intros db.
  by apply (keeps_C_set_after_get P i j).
Qed.

Lemma keeps_C_blas_batch_gemm opA opB m n k al a_array b_array be c_array :
  (forall c, In c c_array -> ref_in P c) ->
  keeps_C P (blas_batch_gemm A B opA opB m n k al a_array b_array be c_array).
Proof.
  intros Hc. unfold blas_batch_gemm.
  apply keeps_C_bind; [apply keeps_C_log_call|]. intros _.
  apply keeps_C_for_each. intros [[a b] c] Hin. apply in_zip3 in Hin as (_ & _ & Hin).
  by apply keeps_C_run_gemm, Hc.
Qed.

Lemma keeps_C_blas_batch_syr2k uplo trans n k al a_array b_array be c_array :
  (forall c, In c c_array -> ref_in P c) ->
  keeps_C P (blas_batch_syr2k A B uplo trans n k al a_array b_array be c_array).
Proof.
  intros Hc. unfold blas_batch_syr2k.
  apply keeps_C_bind; [apply keeps_C_log_call|]. intros _.
  apply keeps_C_for_each. intros [[a b] c] Hin. apply in_zip3 in Hin as (_ & _ & Hin).
  by apply keeps_C_run_syr2k, Hc.
Qed.

Lemma keeps_C_blas_syr2k_call uplo trans n k al a b be c :
  ref_in P c -> keeps_C P (blas_syr2k_call A B uplo trans n k al a b be c).
Proof.
  intros Hc. unfold blas_syr2k_call.
  apply keeps_C_bind; [apply keeps_C_log_call|]. intros _. by apply keeps_C_run_syr2k.
Qed.

Lemma keeps_C_cblas_gemm_batch (groups : list (gemm_group K)) :
  (forall g, In g groups -> ref_in P (g_c g)) ->
  keeps_C P (cblas_gemm_batch A B groups).
Proof.
  intros Hc. unfold cblas_gemm_batch.
  apply keeps_C_bind; [apply keeps_C_log_call|]. intros _.
  apply keeps_C_for_each. intros g Hin. by apply keeps_C_run_gemm, Hc.
Qed.

Lemma keeps_C_normalize_opA {Y} (f : Op -> M K Y) :
  (forall op, keeps_C P (f op)) -> keeps_C P (normalize_opA A C ≫= f).
Proof.
  intros Hf. apply keeps_C_bind; [|done]. unfold normalize_opA.
  destruct (decide (c_op C <> NoTrans)); [|apply keeps_C_ret].
  destruct (decide (m_op A = NoTrans)); [apply keeps_C_ret|].
  destruct (_ || _); [apply keeps_C_ret | apply keeps_C_throw].
Qed.

End KeepsBodies.

(** Reduce a claim that a straight-line body keeps C to its stores. *)
Ltac keeps_step :=
  lazymatch goal with
  | |- keeps_C _ (tileGetForReading _ _ _) => apply keeps_C_tileGetForReading
  | |- keeps_C _ (tileGetForWriting _ _ _) => apply keeps_C_tileGetForWriting
  | |- keeps_C _ (tileGetForReading_set _ _ _) => apply keeps_C_tileGetForReading_set
  | |- keeps_C _ (tileGetForWriting_set _ _ _) => apply keeps_C_tileGetForWriting_set
  | |- keeps_C _ (tileTick _) => apply keeps_C_tileTick
  | |- keeps_C _ (tileRelease _ _) => apply keeps_C_tileRelease
  | |- keeps_C _ (log_call _) => apply keeps_C_log_call
  | |- keeps_C _ (set_err _) => apply keeps_C_set_err
  | |- keeps_C _ (assert_ _ _) => apply keeps_C_assert
  | |- keeps_C _ omp_taskwait => apply keeps_C_omp_taskwait
  | |- keeps_C _ rethrow => apply keeps_C_rethrow
  | |- keeps_C _ (throw _) => apply keeps_C_throw
  | |- keeps_C _ (mret _) => apply keeps_C_ret
  | |- keeps_C _ (omp_task _) => apply keeps_C_omp_task
  | |- keeps_C _ (omp_iteration _) => apply keeps_C_omp_iteration
  | |- keeps_C _ (try_catch _ _) => apply keeps_C_try_catch
  | |- keeps_C _ (when _ _) => apply keeps_C_when; intros ?
  | |- keeps_C _ (if ?d then _ else _) => destruct d
  | |- keeps_C _ (forZ _ _ _) => apply keeps_C_forZ; intros ? ?
  | |- keeps_C _ (gemm _ _ _ _ _ _ _ _) => apply keeps_C_gemm
  | |- keeps_C _ (syr2k_tile _ _ _ _ _ _ _) => apply keeps_C_syr2k_tile
  | |- keeps_C _ (host_diag_body _ _ _ _ _ _ _) => unfold host_diag_body
  | |- keeps_C _ (HostTask_offdiag_body _ _ _ _ _ _ _ _) =>
      unfold HostTask_offdiag_body; cbv zeta
  | |- keeps_C _ (HostNest_offdiag_body _ _ _ _ _ _ _ _) =>
      unfold HostNest_offdiag_body; cbv zeta
  | |- keeps_C _ (normalize_opA _ _ ≫= _) => apply keeps_C_normalize_opA; intros ?
  | |- keeps_C _ (_ ≫= _) => apply keeps_C_bind; [|intros ?]
  end.

Ltac solve_writable :=
  subst; unfold writable;
  repeat match goal with
         | H : bool_decide _ = true |- _ => apply bool_decide_eq_true in H
         end;
  split; [lia | split; [lia | done]].

Section KeepsRealizations.
Context {K : Type} `{SR : ScalarRing K}.
Variable env : environment.
Variables (alpha : K) (A B : Matrix K) (beta : K) (C : SymmetricMatrix).
Variable layout : Layout.

Lemma keeps_C_HostTask : keeps_C (writable C) (syr2k_HostTask env alpha A B beta C layout).
Proof. unfold syr2k_HostTask. repeat keeps_step. all: solve_writable. Qed.

Lemma keeps_C_HostNest : keeps_C (writable C) (syr2k_HostNest env alpha A B beta C layout).
Proof. unfold syr2k_HostNest. cbv zeta. repeat keeps_step. all: solve_writable. Qed.

Lemma offdiag_local_writable ij :
  In ij (offdiag_local C) -> writable C (fst ij) (snd ij).
Proof.
  destruct ij as [i j]. intros Hin.
  apply list_elem_of_In, elem_of_offdiag_local in Hin as [(Hj & Hi & Hl) _].
  unfold writable. simpl. split; [lia | split; [lia | done]].
Qed.

Lemma keeps_C_HostBatch : keeps_C (writable C) (syr2k_HostBatch env alpha A B beta C layout).
Proof.
  unfold syr2k_HostBatch. cbv zeta. repeat keeps_step.
  - solve_writable.
  - unfold HostBatch_offdiag. keeps_step. cbv zeta.
    assert (Hgroups : forall (pick : gemm_group K * gemm_group K -> gemm_group K) g,
              pick = fst \/ pick = snd ->
              In g (map (fun ij => pick (HostBatch_groups alpha A beta C op (opB_of op) ij))
                        (offdiag_local C)) ->
              ref_in (writable C) (g_c g)).
    { intros pick g Hpick Hg. apply in_map_iff in Hg as ([i j] & <- & Hin).
      apply offdiag_local_writable in Hin. unfold HostBatch_groups.
      destruct (decide (c_op C <> NoTrans)), Hpick as [-> | ->]; exact Hin. }
    keeps_step.
    { apply keeps_C_for_each. intros [i j] _. repeat keeps_step. }
    keeps_step.
    { destruct (slate_with_mkl env); [|apply keeps_C_throw].
      keeps_step; apply keeps_C_cblas_gemm_batch; intros g Hg.
      - apply (Hgroups fst); [by left | done].
      - apply (Hgroups snd); [by right | done]. }
    apply keeps_C_for_each. intros [i j] _. repeat keeps_step.
Qed.

Hypothesis Hsquare : c_mt C = c_nt C.
Hypothesis Hnt : (1 <= c_nt C)%Z.

(** The tiles of the batch groups of a device are writable. *)
Lemma device_refs_writable device c :
  In c (map (fun ij : Z * Z => RefC (fst ij) (snd ij))
            (gemm00_tiles C device ++ gemm10_tiles C device)) \/
  In c (map (fun ij : Z * Z => RefC (snd ij) (snd ij))
            (syr2k_0_tiles C device ++ syr2k_1_tiles C device)) ->
  ref_in (writable C) c.
Proof using Hsquare Hnt.
  assert (Hon : forall i j, on_device C device i j = true -> c_tileIsLocal C i j = true).
  { intros i j H. unfold on_device in H. by apply andb_true_iff in H as [? _]. }
  intros [Hin|Hin]; apply in_map_iff in Hin as ([i j] & <- & Hin);
    apply in_app_or in Hin as [Hin|Hin]; apply list_elem_of_In in Hin; simpl.
  - apply elem_of_gemm00_tiles in Hin as [? H]. apply Hon in H. unfold writable.
    split; [lia | split; [lia | done]].
  - apply elem_of_gemm10_tiles in Hin as [? H]. apply Hon in H. unfold writable.
    split; [lia | split; [lia | done]].
  - apply elem_of_syr2k_0_tiles in Hin as [? H]. apply Hon in H. unfold writable.
    split; [lia | split; [lia | done]].
  - apply elem_of_syr2k_1_tiles in Hin as [[-> ->] H]. apply Hon in H.
    rewrite Hsquare in H. unfold writable. split; [lia | split; [lia | done]].
Qed.

Lemma keeps_C_Devices_device_body device :
  keeps_C (writable C) (Devices_device_body env alpha A B beta C device).
Proof using Hsquare Hnt.
  unfold Devices_device_body. keeps_step. cbv zeta.
  assert (H00 : forall c, In c (map (fun ij : Z * Z => RefC (fst ij) (snd ij))
                                    (gemm00_tiles C device)) -> ref_in (writable C) c).
  { intros c Hc. apply (device_refs_writable device). left.
    rewrite map_app. apply in_or_app. by left. }
  assert (H10 : forall c, In c (map (fun ij : Z * Z => RefC (fst ij) (snd ij))
                                    (gemm10_tiles C device)) -> ref_in (writable C) c).
  { intros c Hc. apply (device_refs_writable device). left.
    rewrite map_app. apply in_or_app. by right. }
  assert (Hs0 : forall c, In c (map (fun ij : Z * Z => RefC (snd ij) (snd ij))
                                    (syr2k_0_tiles C device)) -> ref_in (writable C) c).
  { intros c Hc. apply (device_refs_writable device). right.
    rewrite map_app. apply in_or_app. by left. }
  assert (Hs1 : forall c, In c (map (fun ij : Z * Z => RefC (snd ij) (snd ij))
                                    (syr2k_1_tiles C device)) -> ref_in (writable C) c).
  { intros c Hc. apply (device_refs_writable device). right.
    rewrite map_app. apply in_or_app. by right. }
  destruct (bool_decide (c_op C <> NoTrans)); cbv zeta iota beta.
  all: repeat first [ keeps_step
                    | apply keeps_C_blas_batch_gemm
                    | apply keeps_C_blas_batch_syr2k ].
  all: try done.
  all: apply keeps_C_for_each; intros [i j] _; repeat keeps_step.
Qed.

Lemma keeps_C_Devices : keeps_C (writable C) (syr2k_Devices env alpha A B beta C).
Proof using Hsquare Hnt.
  unfold syr2k_Devices. repeat keeps_step.
  - unfold Devices_single_body. cbv zeta.
    repeat first [keeps_step | apply keeps_C_blas_syr2k_call]. simpl. solve_writable.
  - apply keeps_C_Devices_device_body.
Qed.

End KeepsRealizations.

(** X6.  Whatever fails and however the call ends, [syr2k] leaves every tile
    of C untouched that is not a local tile of the lower triangle within the
    block columns of C; for the device implementation this needs the square
    tile grid of a symmetric matrix with at least one tile. *)
Theorem syr2k_writes_local_lower_tiles_only :
  forall (K : Type) (SR : ScalarRing K) (env : environment) (alpha : K) (A B : Matrix K)
         (beta : K) (C : SymmetricMatrix) (layout : Layout) (target : Target)
         (st : state K) (i j : Z),
    (target = Devices -> c_mt C = c_nt C /\ (1 <= c_nt C)%Z) ->
    ~ writable C i j ->
    s_C (snd (syr2k env alpha A B beta C layout target st)) i j = s_C st i j.
Proof.
  intros K SR env alpha A B beta C layout target st i j Hdev Hij.
  unfold syr2k. destruct (syr2k_rejects A B C); [done|].
  destruct target.
  - by apply keeps_C_HostTask.
  - by apply keeps_C_HostNest.
  - by apply keeps_C_HostBatch.
  - destruct Hdev as [Hsq Hnt]; [done|]. by apply keeps_C_Devices.
Qed.

Lemma syr2k_writes_local_lower_tiles_only_witness :
  c_mt (grid 2) = c_nt (grid 2) /\ (1 <= c_nt (grid 2))%Z /\ ~ writable (grid 2) 0 1 /\
  s_C (snd (syr2k env_A00_fails 1%Z ones_matrix ones_matrix 1%Z (grid 2) ColMajor Devices
              state0)) 0 1 = s_C state0 0 1.
Proof.
  assert (Hout : ~ writable (grid 2) 0 1) by (unfold writable; lia).
  split; [reflexivity|]. split; [simpl; lia|]. split; [exact Hout|].
  apply (syr2k_writes_local_lower_tiles_only Z _ env_A00_fails 1%Z ones_matrix ones_matrix 1%Z
           (grid 2) ColMajor Devices state0 0 1); [|exact Hout].
  intros _. split; [reflexivity | simpl; lia].
Defined.

(** ** The transpose tags of the batched products *)

(** X7.  The normalization of the transpose tags in the batched
    implementations ([Op opA = A.op(); if (C.op() != Op::NoTrans) ...]) never
    changes the state; it throws exactly when C is transposed, A is
    transposed, their tags differ and the type is complex; so it never throws
    in a call the dispatcher accepted, where it yields [opA_normalized]. *)
Theorem normalize_opA_throws_iff :
  forall (K : Type) (SR : ScalarRing K) (A B : Matrix K) (C : SymmetricMatrix)
         (st : state K),
    snd (normalize_opA A C st) = st /\
    (fst (normalize_opA A C st) = Throw std_exception <->
       c_op C <> NoTrans /\ m_op A <> NoTrans /\ m_op A <> c_op C /\ is_real = false) /\
    (syr2k_rejects A B C = false ->
       fst (normalize_opA A C st) = Ok (opA_normalized A C)).
Proof.
  intros K SR A B C st. split; [|split].
  - unfold normalize_opA.
    destruct (decide (c_op C <> NoTrans)); [|done].
    destruct (decide (m_op A = NoTrans)); [done|]. by destruct (_ || _).
  - unfold normalize_opA.
    destruct (decide (c_op C <> NoTrans)) as [HC|HC]; [|split; [done | tauto]].
    destruct (decide (m_op A = NoTrans)) as [HA|HA]; [split; [done | tauto]|].
    destruct (bool_decide (m_op A = c_op C) || is_real) eqn:Hor.
    + split; [done|]. intros (_ & _ & Hne & Hreal).
      apply orb_true_iff in Hor as [Heq|Hr]; [|congruence].
      by apply bool_decide_eq_true in Heq.
    + apply orb_false_iff in Hor as [Hne Hreal]. apply bool_decide_eq_false in Hne.
      split; [done|]. by intros _.
  - intros Hacc. by rewrite (normalize_opA_ok A B C Hacc st).
Qed.

(** ** Failures inside the units of the host implementations *)

Lemma existsb_bind {X Y} (f : Y -> bool) (g : X -> list Y) (l : list X) :
  existsb f (l ≫= g) = existsb (fun x => existsb f (g x)) l.
Proof.
  induction l as [|x l IH]; [done|]. rewrite bind_cons, existsb_app. simpl. by rewrite IH.
Qed.

Lemma existsb_ext_in {X} (f g : X -> bool) (l : list X) :
  (forall x, In x l -> f x = g x) -> existsb f l = existsb g l.
Proof.
  induction l as [|x l IH]; intros Hfg; [done|]. simpl.
  rewrite (Hfg x) by (by left). rewrite IH; [done|]. intros y Hy. apply Hfg. by right.
Qed.

Lemma existsb_if {X} (f : X -> bool) (b : bool) (x : X) :
  existsb f (if b then [x] else []) = b && f x.
Proof. destruct b; simpl; [apply orb_false_r | done]. Qed.

Lemma length_bind {X Y} (g : X -> list Y) (l : list X) :
  length (l ≫= g) = list_sum (map (fun x => length (g x)) l).
Proof.
  induction l as [|x l IH]; [done|]. rewrite bind_cons, length_app. simpl. by rewrite IH.
Qed.

Lemma list_sum_ext_in {X} (f g : X -> nat) (l : list X) :
  (forall x, In x l -> f x = g x) -> list_sum (map f l) = list_sum (map g l).
Proof.
  induction l as [|x l IH]; intros Hfg; [done|]. simpl.
  rewrite (Hfg x) by (by left). rewrite IH; [done|]. intros y Hy. apply Hfg. by right.
Qed.

Lemma list_sum_all_zero {X} (f : X -> nat) (l : list X) :
  (forall x, In x l -> f x = 0) -> list_sum (map f l) = 0.
Proof.
  induction l as [|x l IH]; intros Hf; [done|]. simpl.
  rewrite (Hf x) by (by left). apply IH. intros y Hy. apply Hf. by right.
Qed.

Section Guarded.
Context {K : Type}.
Implicit Types (m : M K unit).

Lemma guarded_ret : guarded (mret tt : M K unit) false 0.
Proof. intros st. exists st. split; [done|]. split; [lia | done]. Qed.

Lemma guarded_eq m f f' n n' : guarded m f n -> f' = f -> n' = n -> guarded m f' n'.
Proof. by intros H -> ->. Qed.

Lemma guarded_bind m1 m2 f1 f2 n1 n2 :
  guarded m1 f1 n1 -> guarded m2 f2 n2 -> guarded (m1;; m2) (f1 || f2) (n1 + n2).
Proof.
  intros H1 H2 st. destruct (H1 st) as (st1 & Hr1 & Hs1 & He1).
  destruct (H2 st1) as (st2 & Hr2 & Hs2 & He2). exists st2.
  split; [by rewrite (bind_ok _ _ _ _ _ Hr1)|]. split; [lia|].
  destruct f2; [by rewrite orb_true_r|]. rewrite orb_false_r.
  destruct f1; by rewrite He2.
Qed.

Lemma guarded_when (b : bool) m f n :
  guarded m f n -> guarded (when b m) (b && f) (if b then n else 0).
Proof. destruct b; [done | intros _; apply guarded_ret]. Qed.

Lemma guarded_if {Q : Prop} (d : {Q} + {~ Q}) m1 m2 f1 f2 n1 n2 :
  guarded m1 f1 n1 -> guarded m2 f2 n2 ->
  guarded (if d then m1 else m2) (if d then f1 else f2) (if d then n1 else n2).
Proof. by destruct d. Qed.

Lemma guarded_for_each {X} (l : list X) (body : X -> M K unit) (F : X -> bool)
    (N : X -> nat) :
  (forall x, In x l -> guarded (body x) (F x) (N x)) ->
  guarded (for_each l body) (existsb F l) (list_sum (map N l)).
Proof.
  induction l as [|x l IH]; intros Hbody; [apply guarded_ret|].
  simpl. apply guarded_bind; [apply Hbody; by left|].
  apply IH. intros y Hy. apply Hbody. by right.
Qed.

Lemma guarded_forZ (lo hi : Z) (body : Z -> M K unit) (F : Z -> bool) (N : Z -> nat) :
  (forall x, (lo <= x < hi)%Z -> guarded (body x) (F x) (N x)) ->
  guarded (forZ lo hi body) (existsb F (seqZ lo (hi - lo)))
          (list_sum (map N (seqZ lo (hi - lo)))).
Proof.
  intros Hbody. apply guarded_for_each. intros x Hx. apply Hbody.
  apply list_elem_of_In, elem_of_seqZ in Hx. lia.
Qed.

(** A unit whose body either runs through, leaving [err] alone, or throws:
    the [catch] records the failure. *)
Lemma guarded_task (body : M K unit) (fails : bool) (line : Z) :
  line <> 0%Z ->
  (forall st, exists st',
      s_spawned st' = s_spawned st /\
      if fails then exists e, body st = (Throw e, st')
      else body st = (Ok tt, st') /\ s_err st' = s_err st) ->
  guarded (omp_task (try_catch body (set_err line))) fails 1.
Proof.
  intros Hline Hbody st. unfold omp_task, try_catch.
  destruct (Hbody (mkState (s_C st) (s_life st) (s_err st) (S (s_spawned st)) 0 (s_calls st)))
    as (st1 & Hs & Hout).
  destruct fails.
  - destruct Hout as (e & ->). eexists. split; [reflexivity|]. simpl in *.
    split; [lia | done].
  - destruct Hout as (-> & He). eexists. split; [reflexivity|]. simpl in *.
    split; [lia | done].
Qed.

Lemma guarded_iteration (body : M K unit) (fails : bool) (line : Z) :
  line <> 0%Z ->
  (forall st, exists st',
      s_spawned st' = s_spawned st /\
      if fails then exists e, body st = (Throw e, st')
      else body st = (Ok tt, st') /\ s_err st' = s_err st) ->
  guarded (omp_iteration (try_catch body (set_err line))) fails 0.
Proof.
  intros Hline Hbody st. unfold omp_iteration, try_catch.
  destruct (Hbody st) as (st1 & Hs & Hout).
  destruct fails.
  - destruct Hout as (e & ->). eexists. split; [reflexivity|]. simpl in *.
    split; [lia | done].
  - destruct Hout as (-> & He). eexists. split; [reflexivity|]. simpl in *.
    split; [lia | done].
Qed.

(** The frame of a host implementation around guarded work: the call throws
    [std::exception] after the [taskwait] exactly when a unit failed. *)
Lemma guarded_frame (env : environment) (cond : bool) (work : M K unit) fails n st :
  asserts_off env || cond = true -> guarded work fails n ->
  exists st',
    (assert_ env cond;; set_err 0;; work;; omp_taskwait;; rethrow) st
    = (if fails then Throw std_exception else Ok tt, st') /\
    s_pending st' = 0 /\ s_spawned st' = s_spawned st + n.
Proof.
  intros Hassert Hwork. unfold assert_. rewrite Hassert.
  destruct (Hwork (mkState (s_C st) (s_life st) 0 (s_spawned st) (s_pending st) (s_calls st)))
    as (st1 & Hrun & HS & HE). simpl in *.
  exists (mkState (s_C st1) (s_life st1) (s_err st1) (s_spawned st1) 0 (s_calls st1)).
  split; [|done].
  erewrite bind_ok by reflexivity.
  erewrite bind_ok by reflexivity.
  erewrite bind_ok by exact Hrun.
  erewrite bind_ok by reflexivity.
  unfold rethrow. erewrite bind_ok by reflexivity. simpl.
  destruct fails.
  - by destruct (decide (s_err st1 = 0%Z)).
  - rewrite HE. by destruct (decide (0 = 0)%Z).
Qed.

End Guarded.

Section HostUnits.
Context {K : Type} `{SR : ScalarRing K}.
Variable env : environment.
Variables (alpha : K) (A B : Matrix K) (beta : K) (C : SymmetricMatrix).

Lemma host_diag_body_outcome j st :
  exists st',
    s_spawned st' = s_spawned st /\
    if diag_unit_fails env j
    then exists e, host_diag_body env alpha A B beta C j st = (Throw e, st')
    else host_diag_body env alpha A B beta C j st = (Ok tt, st') /\ s_err st' = s_err st.
Proof.
  unfold diag_unit_fails, host_diag_body, tileGetForReading, tileGetForWriting.
  destruct (acquire_fails env (RefA j) None), (acquire_fails env (RefB j) None),
           (acquire_fails env (RefC j j) None); simpl orb; cbv iota.
  all: eexists; split; [|first [exists acquire_error; reflexivity | split; reflexivity]].
  all: reflexivity.
Qed.

Lemma HostTask_offdiag_body_outcome i j st :
  exists st',
    s_spawned st' = s_spawned st /\
    if acquire_fails env (RefA i) None || acquire_fails env (RefA j) None
       || acquire_fails env (RefB i) None || acquire_fails env (RefB j) None
       || acquire_fails env (RefC i j) None
    then exists e, HostTask_offdiag_body env alpha A B beta C i j st = (Throw e, st')
    else HostTask_offdiag_body env alpha A B beta C i j st = (Ok tt, st') /\
         s_err st' = s_err st.
Proof.
  unfold HostTask_offdiag_body, tileGetForReading, tileGetForWriting.
  destruct (acquire_fails env (RefA i) None), (acquire_fails env (RefA j) None),
           (acquire_fails env (RefB i) None), (acquire_fails env (RefB j) None),
           (acquire_fails env (RefC i j) None); simpl orb; cbv iota.
  all: eexists; split; [|first [exists acquire_error; reflexivity | split; reflexivity]].
  all: reflexivity.
Qed.

Lemma HostNest_offdiag_body_outcome i j st :
  exists st',
    s_spawned st' = s_spawned st /\
    if HostNest_unit_fails env (i, j)
    then exists e, HostNest_offdiag_body env alpha A B beta C i j st = (Throw e, st')
    else HostNest_offdiag_body env alpha A B beta C i j st = (Ok tt, st') /\
         s_err st' = s_err st.
Proof.
  unfold HostNest_unit_fails, HostNest_offdiag_body, tileGetForReading, tileGetForWriting.
  destruct (acquire_fails env (RefA i) None), (acquire_fails env (RefB j) None),
           (acquire_fails env (RefC i j) None); simpl orb; cbv iota.
  all: eexists; split; [|first [exists acquire_error; reflexivity | split; reflexivity]].
  all: reflexivity.
Qed.

Lemma HostTask_work_guarded :
  guarded
    (forZ 0 (c_nt C) (fun j =>
       forZ j (c_mt C) (fun i =>
         when (c_tileIsLocal C i j)
           (if decide (i = j)
            then omp_task (try_catch (host_diag_body env alpha A B beta C j) (set_err 90))
            else omp_task (try_catch (HostTask_offdiag_body env alpha A B beta C i j)
                                     (set_err 118))))))
    (existsb (HostTask_unit_fails env) (lower_local C))
    (length (lower_local C)).
Proof.
  eapply guarded_eq.
  - apply guarded_forZ; intros j Hj. apply guarded_forZ; intros i Hi.
    apply guarded_when, guarded_if.
    + apply guarded_task; [done | apply host_diag_body_outcome].
    + apply guarded_task; [done | apply HostTask_offdiag_body_outcome].
  - unfold lower_local. rewrite existsb_bind, Z.sub_0_r.
    apply existsb_ext_in; intros j _. rewrite existsb_bind.
    apply existsb_ext_in; intros i _. rewrite existsb_if. unfold HostTask_unit_fails.
    by destruct (decide (i = j)).
  - unfold lower_local. rewrite length_bind, Z.sub_0_r.
    apply list_sum_ext_in; intros j _. rewrite length_bind.
    apply list_sum_ext_in; intros i _.
    by destruct (c_tileIsLocal C i j), (decide (i = j)).
Qed.

Lemma HostNest_work_guarded :
  guarded
    (forZ 0 (c_nt C) (fun j =>
       when (c_tileIsLocal C j j)
         (omp_task (try_catch (host_diag_body env alpha A B beta C j) (set_err 169))));;
     forZ 0 (c_nt C) (fun j =>
       forZ 0 (c_mt C) (fun i =>
         when (bool_decide (i >= j + 1)%Z)
           (when (c_tileIsLocal C i j)
              (omp_iteration (try_catch (HostNest_offdiag_body env alpha A B beta C i j)
                                        (set_err 203)))))))
    (existsb (diag_unit_fails env) (diag_local C)
     || existsb (HostNest_unit_fails env) (offdiag_nest C))
    (length (diag_local C)).
Proof.
  eapply guarded_eq.
  - apply guarded_bind.
    + apply guarded_forZ; intros j Hj. apply guarded_when.
      apply guarded_task; [done | apply host_diag_body_outcome].
    + apply guarded_forZ; intros j Hj. apply guarded_forZ; intros i Hi.
      apply guarded_when, guarded_when.
      apply guarded_iteration; [done | apply HostNest_offdiag_body_outcome].
  - f_equal.
    + unfold diag_local. rewrite existsb_bind, Z.sub_0_r.
      apply existsb_ext_in; intros j _. by rewrite existsb_if.
    + unfold offdiag_nest. rewrite existsb_bind, !Z.sub_0_r.
      apply existsb_ext_in; intros j _. rewrite existsb_bind.
      apply existsb_ext_in; intros i _. rewrite existsb_if.
      by destruct (bool_decide (i >= j + 1)%Z), (c_tileIsLocal C i j).
  - unfold diag_local. rewrite length_bind, !Z.sub_0_r.
    assert (Hzero : list_sum
              (map (fun j : Z =>
                      list_sum (map (fun i : Z =>
                                       if bool_decide (i >= j + 1)%Z
                                       then if c_tileIsLocal C i j then 0 else 0
                                       else 0)
                                    (seqZ 0 (c_mt C))))
                   (seqZ 0 (c_nt C))) = 0).
    { apply list_sum_all_zero; intros j _. apply list_sum_all_zero; intros i _.
      by destruct (bool_decide (i >= j + 1)%Z), (c_tileIsLocal C i j). }
    rewrite Hzero, Nat.add_0_r.
    apply list_sum_ext_in; intros j _. by destruct (c_tileIsLocal C j j).
Qed.

End HostUnits.

(** X8.  HostTask, in any environment: for a call the dispatcher accepts
    whose layout assertion passes, every local tile of the lower triangle
    gets one task; a failing tile acquisition inside a task is caught there,
    the other tasks still run, and after the [taskwait] (no task is pending)
    the call throws [std::exception] exactly when an acquisition of some
    task failed, and returns normally otherwise. *)
Theorem HostTask_failures_reach_caller :
  forall (K : Type) (SR : ScalarRing K) (env : environment) (alpha : K) (A B : Matrix K)
         (beta : K) (C : SymmetricMatrix) (layout : Layout) (st : state K),
    syr2k_rejects A B C = false ->
    layout_ok env layout ->
    exists st',
      syr2k env alpha A B beta C layout HostTask st
      = (if existsb (HostTask_unit_fails env) (lower_local C)
         then Throw std_exception else Ok tt, st') /\
      s_pending st' = 0 /\
      s_spawned st' = s_spawned st + length (lower_local C).
Proof.
  intros K SR env alpha A B beta C layout st Hacc Hlayout.
  unfold syr2k. rewrite Hacc. unfold syr2k_HostTask.
  apply guarded_frame; [by apply layout_assert | apply HostTask_work_guarded].
Qed.

Lemma HostTask_failures_reach_caller_witness :
  syr2k_rejects ones_matrix ones_matrix (grid 2) = false /\
  layout_ok env_B1_fails ColMajor /\
  lower_local (grid 2) = [(0, 0); (1, 0); (1, 1)]%Z /\
  map (HostTask_unit_fails env_B1_fails) (lower_local (grid 2)) = [false; true; true] /\
  fst (syr2k env_B1_fails 1%Z ones_matrix ones_matrix 1%Z (grid 2) ColMajor HostTask state0)
  = Throw std_exception.
Proof.
  split; [reflexivity|]. split; [by right|]. split; [reflexivity|]. split; [reflexivity|].
  destruct (HostTask_failures_reach_caller Z _ env_B1_fails 1%Z ones_matrix ones_matrix 1%Z
              (grid 2) ColMajor state0) as (st' & Hrun & _); [reflexivity | by right |].
  by rewrite Hrun.
Defined.

(** X9.  HostNest, in any environment: for a call the dispatcher accepts
    whose layout assertion passes, every local diagonal tile gets one task
    and every local strictly lower tile one iteration of the parallel loop;
    a failing acquisition is caught in its unit, and after the [taskwait]
    the call throws [std::exception] exactly when an acquisition of a
    diagonal task (A(j), B(j), C(j, j)) or of an iteration (A(i), B(j),
    C(i, j)) failed, and returns normally otherwise. *)
Theorem HostNest_failures_reach_caller :
  forall (K : Type) (SR : ScalarRing K) (env : environment) (alpha : K) (A B : Matrix K)
         (beta : K) (C : SymmetricMatrix) (layout : Layout) (st : state K),
    syr2k_rejects A B C = false ->
    layout_ok env layout ->
    exists st',
      syr2k env alpha A B beta C layout HostNest st
      = (if existsb (diag_unit_fails env) (diag_local C)
            || existsb (HostNest_unit_fails env) (offdiag_nest C)
         then Throw std_exception else Ok tt, st') /\
      s_pending st' = 0 /\
      s_spawned st' = s_spawned st + length (diag_local C).
Proof.
  intros K SR env alpha A B beta C layout st Hacc Hlayout.
  unfold syr2k. rewrite Hacc. unfold syr2k_HostNest. cbv zeta.
  destruct (guarded_frame env (bool_decide (layout = ColMajor)) _ _ _ st
              (layout_assert env layout Hlayout)
              (HostNest_work_guarded env alpha A B beta C)) as (st' & Hrun & Hp & Hs).
  exists st'. split; [|done]. rewrite <- Hrun.
  by rewrite (M_bind_assoc (forZ 0 (c_nt C) _) (fun _ => forZ 0 (c_nt C) _)
                (fun _ => omp_taskwait;; rethrow)).
Qed.

Lemma HostNest_failures_reach_caller_witness :
  syr2k_rejects ones_matrix ones_matrix (grid 2) = false /\
  layout_ok env_B1_fails ColMajor /\
  existsb (HostNest_unit_fails env_B1_fails) (offdiag_nest (grid 2)) = false /\
  existsb (diag_unit_fails env_B1_fails) (diag_local (grid 2)) = true /\
  fst (syr2k env_B1_fails 1%Z ones_matrix ones_matrix 1%Z (grid 2) ColMajor HostNest state0)
  = Throw std_exception.
Proof.
  split; [reflexivity|]. split; [by right|]. split; [reflexivity|]. split; [reflexivity|].
  destruct (HostNest_failures_reach_caller Z _ env_B1_fails 1%Z ones_matrix ones_matrix 1%Z
              (grid 2) ColMajor state0) as (st' & Hrun & _); [reflexivity | by right |].
  by rewrite Hrun.
Defined.

(** ** What a successful run leaves behind *)

Lemma bind_all_nil {X Y} (l : list X) (g : X -> list Y) :
  (forall x, In x l -> g x = []) -> l ≫= g = [].
Proof.
  induction l as [|x l IH]; intros Hg; [done|].
  rewrite bind_cons, (Hg x) by (by left). apply IH. intros y Hy. apply Hg. by right.
Qed.

Section Summaries.
Context {K : Type} `{SR : ScalarRing K}.
Variable env : environment.
Variables (alpha : K) (A B : Matrix K) (beta : K) (C : SymmetricMatrix).
Hypothesis Hnf : no_failure env.

Lemma HostTask_summary :
  has_ops
    (forZ 0 (c_nt C) (fun j =>
       forZ j (c_mt C) (fun i =>
         when (c_tileIsLocal C i j)
           (if decide (i = j)
            then omp_task (try_catch (host_diag_body env alpha A B beta C j) (set_err 90))
            else omp_task (try_catch (HostTask_offdiag_body env alpha A B beta C i j)
                                     (set_err 118))))))
    (HostTask_ops alpha A B beta C) (host_ticks C) [] (length (lower_local C)).
Proof using Hnf.
  eapply has_ops_eq; [repeat ops_step Hnf | | | |].
  - unfold HostTask_ops, lower_local. rewrite !bind_bind, Z.sub_0_r.
    apply bind_ext_in; intros j _. rewrite bind_bind.
    apply bind_ext_in; intros i _. rewrite bind_if. unfold host_tile_ops. simpl.
    by destruct (c_tileIsLocal C i j), (decide (i = j)).
  - unfold host_ticks, lower_local. rewrite !bind_bind, Z.sub_0_r.
    apply bind_ext_in; intros j _. rewrite bind_bind.
    apply bind_ext_in; intros i _. rewrite bind_if. unfold host_unit_ticks, ticked. simpl.
    destruct (c_tileIsLocal C i j), (decide (i = j)); subst; by rewrite ?app_nil_r.
  - symmetry. rewrite Z.sub_0_r. apply bind_all_nil; intros j _.
    apply bind_all_nil; intros i _. by destruct (c_tileIsLocal C i j), (decide (i = j)).
  - unfold lower_local. rewrite length_bind, Z.sub_0_r.
    apply list_sum_ext_in; intros j _. rewrite length_bind.
    apply list_sum_ext_in; intros i _.
    by destruct (c_tileIsLocal C i j), (decide (i = j)).
Qed.

Lemma HostNest_summary :
  has_ops
    (forZ 0 (c_nt C) (fun j =>
       when (c_tileIsLocal C j j)
         (omp_task (try_catch (host_diag_body env alpha A B beta C j) (set_err 169))));;
     forZ 0 (c_nt C) (fun j =>
       forZ 0 (c_mt C) (fun i =>
         when (bool_decide (i >= j + 1)%Z)
           (when (c_tileIsLocal C i j)
              (omp_iteration (try_catch (HostNest_offdiag_body env alpha A B beta C i j)
                                        (set_err 203)))))))
    (HostNest_ops alpha A B beta C)
    ((diag_local C ≫= (fun j => [RefA j; RefB j])) ++ (offdiag_nest C ≫= ticked))
    [] (length (diag_local C)).
Proof using Hnf.
  eapply has_ops_eq; [repeat ops_step Hnf | | | |].
  - unfold HostNest_ops. f_equal.
    + unfold diag_local. rewrite bind_bind, Z.sub_0_r.
      apply bind_ext_in; intros j _. by rewrite bind_if.
    + unfold offdiag_nest. rewrite !Z.sub_0_r, bind_bind.
      apply bind_ext_in; intros j _. rewrite bind_bind.
      apply bind_ext_in; intros i _. rewrite bind_if. simpl.
      destruct (bool_decide (i >= j + 1)%Z), (c_tileIsLocal C i j); simpl;
        by rewrite ?app_nil_r.
  - f_equal.
    + unfold diag_local. rewrite bind_bind, Z.sub_0_r.
      apply bind_ext_in; intros j _. by rewrite bind_if.
    + unfold offdiag_nest. rewrite !Z.sub_0_r, bind_bind.
      apply bind_ext_in; intros j _. rewrite bind_bind.
      apply bind_ext_in; intros i _. rewrite bind_if. simpl.
      destruct (bool_decide (i >= j + 1)%Z), (c_tileIsLocal C i j); simpl;
        by rewrite ?app_nil_r.
  - symmetry. rewrite !Z.sub_0_r. apply app_nil; split.
    + apply bind_all_nil; intros j _. by destruct (c_tileIsLocal C j j).
    + apply bind_all_nil; intros j _. apply bind_all_nil; intros i _.
      by destruct (bool_decide (i >= j + 1)%Z), (c_tileIsLocal C i j).
  - unfold diag_local. rewrite length_bind, !Z.sub_0_r.
    rewrite (list_sum_all_zero
               (fun j : Z => list_sum (map (fun i : Z =>
                                if bool_decide (i >= j + 1)%Z
                                then if c_tileIsLocal C i j then 0 else 0
                                else 0) (seqZ 0 (c_mt C))))), Nat.add_0_r.
    + apply list_sum_ext_in; intros j _. by destruct (c_tileIsLocal C j j).
    + intros j _. apply list_sum_all_zero; intros i _.
      by destruct (bool_decide (i >= j + 1)%Z), (c_tileIsLocal C i j).
Qed.

Lemma cblas_gemm_batch_summary (groups : list (gemm_group K)) :
  (forall g, In g groups -> is_operand (g_a g) /\ is_operand (g_b g)) ->
  has_ops (cblas_gemm_batch A B groups) (groups ≫= group_ops A B) []
          [call_cblas_gemm_batch
             (map g_opA groups) (map g_opB groups) (map g_m groups) (map g_n groups)
             (map g_k groups) (map g_alpha groups) (map g_a groups) (map g_b groups)
             (map g_beta groups) (map g_c groups)] 0.
Proof.
  intros Hop. unfold cblas_gemm_batch.
  eapply has_ops_eq;
    [apply has_ops_bind;
       [apply (has_ops_of_effect _ (fun Cs => Cs) []); [apply has_effect_log_call | done]
       |apply (has_ops_for_each groups _ (group_ops A B) (fun _ => []) (fun _ => [])
                 (fun _ => 0))]
    | done | | |].
  - intros g Hin. destruct (Hop g Hin). by apply run_gemm_ops.
  - by rewrite bind_nothing.
  - by rewrite bind_nothing.
  - by rewrite list_sum_zero.
Qed.

Hypothesis Hacc : syr2k_rejects A B C = false.

Lemma HostBatch_offdiag_summary :
  slate_with_mkl env = true -> shapes_ok env A C ->
  has_ops (when (Nat.ltb 0 (length (offdiag_local C))) (HostBatch_offdiag env alpha A B beta C))
    (if Nat.ltb 0 (length (offdiag_local C)) then
       (offdiag_local C ≫= (fun ij =>
          group_ops A B (fst (HostBatch_groups alpha A beta C (opA_normalized A C)
                                               (opB_of (opA_normalized A C)) ij)))) ++
       (offdiag_local C ≫= (fun ij =>
          group_ops A B (snd (HostBatch_groups alpha A beta C (opA_normalized A C)
                                               (opB_of (opA_normalized A C)) ij))))
     else [])
    (if Nat.ltb 0 (length (offdiag_local C)) then offdiag_local C ≫= ticked else [])
    (HostBatch_calls alpha A beta C) 0.
Proof using Hnf Hacc.
  intros Hmkl Hshapes. unfold HostBatch_calls. cbv zeta.
  destruct (Nat.ltb 0 (length (offdiag_local C))); [|apply has_ops_ret].
  unfold when, HostBatch_offdiag.
  set (opA := opA_normalized A C). set (opB := opB_of opA).
  apply (has_effect_bind_value _ _ opA); [apply (normalize_opA_ok A B C Hacc)|].
  cbv zeta. rewrite Hmkl. fold opB.
  pose proof (cblas_gemm_batch_summary
                (map (fun ij => fst (HostBatch_groups alpha A beta C opA opB ij))
                     (offdiag_local C))) as H1.
  pose proof (cblas_gemm_batch_summary
                (map (fun ij => snd (HostBatch_groups alpha A beta C opA opB ij))
                     (offdiag_local C))) as H2.
  rewrite bind_map in H1, H2.
  eapply has_ops_eq;
    [apply has_ops_bind;
       [apply (has_ops_of_effect _ (fun Cs => Cs) []);
          [by apply shape_asserts_effect | done]
       |apply has_ops_bind;
          [apply has_ops_bind; [apply H1 | apply H2]
          |apply (has_ops_of_effect _ (fun Cs => Cs) []);
             [apply (has_effect_for_each_ticks (offdiag_local C) _ ticked) | done]]]
    | | reflexivity | |].
  - intros g Hg. apply in_map_iff in Hg as (ij & <- & _).
    apply (HostBatch_groups_operands alpha A beta C opA opB ij).
  - intros g Hg. apply in_map_iff in Hg as (ij & <- & _).
    apply (HostBatch_groups_operands alpha A beta C opA opB ij).
  - intros [i j] _. eapply has_effect_eq; [effect_steps Hnf | done..].
  - simpl. by rewrite app_nil_r.
  - done.
  - done.
Qed.

Lemma diag_tasks_summary (line : Z) :
  has_ops (forZ 0 (c_nt C) (fun j =>
             when (c_tileIsLocal C j j)
               (omp_task (try_catch (host_diag_body env alpha A B beta C j) (set_err line)))))
          (diag_local C ≫= diag_ops alpha A B beta C)
          (diag_local C ≫= (fun j => [RefA j; RefB j])) [] (length (diag_local C)).
Proof using Hnf.
  eapply has_ops_eq; [repeat ops_step Hnf | | | |].
  - unfold diag_local. rewrite bind_bind, Z.sub_0_r.
    apply bind_ext_in; intros j _. by rewrite bind_if.
  - unfold diag_local. rewrite bind_bind, Z.sub_0_r.
    apply bind_ext_in; intros j _. by rewrite bind_if.
  - symmetry. rewrite Z.sub_0_r. apply bind_all_nil; intros j _.
    by destruct (c_tileIsLocal C j j).
  - unfold diag_local. rewrite length_bind, Z.sub_0_r.
    apply list_sum_ext_in; intros j _. by destruct (c_tileIsLocal C j j).
Qed.

Lemma HostBatch_summary :
  slate_with_mkl env = true -> shapes_ok env A C ->
  has_ops
    (forZ 0 (c_nt C) (fun j =>
       when (c_tileIsLocal C j j)
         (omp_task (try_catch (host_diag_body env alpha A B beta C j) (set_err 254))));;
     forZ 0 (c_nt C) (fun j =>
       forZ (j + 1) (c_mt C) (fun i =>
         when (c_tileIsLocal C i j)
           (tileGetForReading env (RefA i) None;;
            tileGetForReading env (RefB j) None;;
            tileGetForWriting env (RefC i j) None)));;
     when (Nat.ltb 0 (length (offdiag_local C))) (HostBatch_offdiag env alpha A B beta C))
    (HostBatch_ops alpha A B beta C)
    ((diag_local C ≫= (fun j => [RefA j; RefB j])) ++
     (if Nat.ltb 0 (length (offdiag_local C)) then offdiag_local C ≫= ticked else []))
    (HostBatch_calls alpha A beta C) (length (diag_local C)).
Proof using Hnf Hacc.
  intros Hmkl Hshapes.
  eapply has_ops_eq;
    [apply has_ops_bind;
       [apply (diag_tasks_summary 254)
       |apply has_ops_bind;
          [apply (acquire_loop_ops env C Hnf)
          |by apply HostBatch_offdiag_summary]]
    | done | done | done | lia].
Qed.

Lemma Devices_summary :
  has_ops (if decide (c_nt C = 1%Z) then
             when (c_tileIsLocal C 0 0) (omp_task (Devices_single_body env alpha A B beta C))
           else
             forZ 0 (c_num_devices C) (fun device =>
               omp_task (try_catch (Devices_device_body env alpha A B beta C device)
                                   (set_err 846))))
          (Devices_ops alpha A B beta C) (device_ticks C) (Devices_calls alpha A beta C)
          (if decide (c_nt C = 1%Z) then (if c_tileIsLocal C 0 0 then 1 else 0)
           else 7 * length (seqZ 0 (c_num_devices C))).
Proof using Hnf Hacc.
  unfold Devices_ops, device_ticks, Devices_calls.
  eapply has_ops_eq;
    [apply has_ops_if;
       [apply has_ops_when, has_ops_omp_task;
        eapply has_ops_of_effect; [by apply Devices_single_body_effect | apply call_update_ops]
       |apply has_ops_forZ; intros device _;
        apply has_ops_omp_task, has_ops_try_catch;
        eapply has_ops_of_effect;
          [by apply Devices_device_body_effect | apply calls_update_ops]]
    | | | |].
  - by rewrite Z.sub_0_r.
  - by rewrite Z.sub_0_r.
  - by rewrite Z.sub_0_r.
  - rewrite Z.sub_0_r. destruct (decide (c_nt C = 1%Z)); [done|].
    induction (seqZ 0 (c_num_devices C)) as [|d l IH]; [done|]. simpl in *. lia.
Qed.

End Summaries.

(** The ticks of the host implementations, unit after unit. *)
Lemma ticks_perm (l1 l2 : list tile_ref) (t : tile_ref) :
  l1 ≡ₚ l2 -> ticks l1 t = ticks l2 t.
Proof. intros Hp. unfold ticks. by rewrite Hp. Qed.

Section HostTicks.
Variable C : SymmetricMatrix.
Hypothesis Hsquare : c_mt C = c_nt C.

Lemma lower_local_split :
  lower_local C ≡ₚ ((fun j : Z => (j, j)) <$> diag_local C) ++ offdiag_nest C.
Proof using Hsquare.
  apply NoDup_Permutation.
  - apply NoDup_lower_local.
  - apply NoDup_app. split; [|split; [|apply NoDup_offdiag_nest]].
    + apply (NoDup_fmap_2_strong (fun j : Z => (j, j))); [|apply NoDup_diag_local].
      by intros j1 j2 _ _ [= ->].
    + intros [i j] Hd Ho. apply list_elem_of_fmap in Hd as (j' & [= -> ->] & _).
      by apply elem_of_offdiag_nest in Ho as [_ Hne].
  - intros [i j]. rewrite elem_of_lower_local, elem_of_app, elem_of_offdiag_nest.
    rewrite list_elem_of_fmap. split.
    + intros Hij. destruct (decide (i = j)) as [->|Hne]; [|by right].
      left. exists j. split; [done|]. apply elem_of_diag_local.
      destruct Hij as (? & ? & ?). by split.
    + intros [(j' & [= -> ->] & Hd)|[Hij _]]; [|done].
      apply elem_of_diag_local in Hd as [Hj Hl]. unfold lower_tile.
      split; [done|]. split; [lia | done].
Qed.

Lemma offdiag_nest_local : offdiag_nest C ≡ₚ offdiag_local C.
Proof.
  apply NoDup_Permutation; [apply NoDup_offdiag_nest | apply NoDup_offdiag_local|].
  intros [i j]. by rewrite elem_of_offdiag_nest, elem_of_offdiag_local.
Qed.

Lemma host_ticks_split :
  host_ticks C ≡ₚ (diag_local C ≫= (fun j => [RefA j; RefB j])) ++ (offdiag_nest C ≫= ticked).
Proof using Hsquare.
  unfold host_ticks. rewrite lower_local_split, bind_app.
  assert (Hd : ((fun j : Z => (j, j)) <$> diag_local C) ≫= host_unit_ticks
               = diag_local C ≫= (fun j => [RefA j; RefB j])).
  { rewrite list_fmap_bind. apply bind_ext_in. intros j _.
    unfold host_unit_ticks. simpl. by destruct (decide (j = j)). }
  assert (Ho : offdiag_nest C ≫= host_unit_ticks = offdiag_nest C ≫= ticked).
  { apply bind_ext_in. intros [i j] Hin.
    apply list_elem_of_In, elem_of_offdiag_nest in Hin as [_ Hne].
    unfold host_unit_ticks. simpl. by destruct (decide (i = j)). }
  by rewrite Hd, Ho.
Qed.

End HostTicks.

(** ** Whole calls: what remains afterwards *)

Lemma ticks_host_units_A (l : list (Z * Z)) (k : Z) :
  ticks (l ≫= host_unit_ticks) (RefA k)
  = Z.of_nat (length (filter (fun ij => fst ij = k \/ snd ij = k) l)).
Proof.
  induction l as [|[i j] l IH]; [done|].
  rewrite bind_cons, ticks_app, IH, filter_cons.
  unfold host_unit_ticks, ticked. simpl fst. simpl snd.
  destruct (decide (i = j)) as [->|Hne]; rewrite !ticks_cons, ticks_nil;
    repeat destruct (decide _); simpl; try lia; exfalso; intuition congruence.
Qed.

Lemma ticks_host_units_B (l : list (Z * Z)) (k : Z) :
  ticks (l ≫= host_unit_ticks) (RefB k)
  = Z.of_nat (length (filter (fun ij => fst ij = k \/ snd ij = k) l)).
Proof.
  induction l as [|[i j] l IH]; [done|].
  rewrite bind_cons, ticks_app, IH, filter_cons.
  unfold host_unit_ticks, ticked. simpl fst. simpl snd.
  destruct (decide (i = j)) as [->|Hne]; rewrite !ticks_cons, ticks_nil;
    repeat destruct (decide _); simpl; try lia; exfalso; intuition congruence.
Qed.

Lemma ticks_host_units_C (l : list (Z * Z)) (i j : Z) :
  ticks (l ≫= host_unit_ticks) (RefC i j) = 0%Z.
Proof.
  induction l as [|[i' j'] l IH]; [done|].
  rewrite bind_cons, ticks_app, IH.
  unfold host_unit_ticks, ticked. simpl fst. simpl snd.
  destruct (decide (i' = j')); rewrite !ticks_cons, ticks_nil;
    repeat destruct (decide _); simpl; try lia; done.
Qed.

(** The ticks of the device units against those of the host units. *)
Lemma ticks_device_units_A (l : list (Z * Z)) (k : Z) :
  ticks (l ≫= ticked) (RefA k)
  = (ticks (l ≫= host_unit_ticks) (RefA k)
     + Z.of_nat (length (filter (fun ij => ij = (k, k)) l)))%Z.
Proof.
  induction l as [|[i j] l IH]; [done|].
  rewrite !bind_cons, !ticks_app, IH, filter_cons.
  unfold host_unit_ticks, ticked. simpl fst. simpl snd.
  destruct (decide (i = j)) as [->|Hne]; rewrite !ticks_cons, ticks_nil;
    repeat destruct (decide _); simpl; try lia; exfalso; intuition congruence.
Qed.

Lemma ticks_device_units_B (l : list (Z * Z)) (k : Z) :
  ticks (l ≫= ticked) (RefB k)
  = (ticks (l ≫= host_unit_ticks) (RefB k)
     + Z.of_nat (length (filter (fun ij => ij = (k, k)) l)))%Z.
Proof.
  induction l as [|[i j] l IH]; [done|].
  rewrite !bind_cons, !ticks_app, IH, filter_cons.
  unfold host_unit_ticks, ticked. simpl fst. simpl snd.
  destruct (decide (i = j)) as [->|Hne]; rewrite !ticks_cons, ticks_nil;
    repeat destruct (decide _); simpl; try lia; exfalso; intuition congruence.
Qed.

Lemma ticks_device_units_C (l : list (Z * Z)) (i j : Z) :
  ticks (l ≫= ticked) (RefC i j) = 0%Z.
Proof.
  induction l as [|[i' j'] l IH]; [done|].
  rewrite bind_cons, ticks_app, IH.
  unfold ticked. simpl fst. simpl snd.
  rewrite !ticks_cons, ticks_nil; repeat destruct (decide _); simpl; try lia; done.
Qed.

Lemma count_absent {X} `{EqDecision X} (l : list X) (x : X) :
  x ∉ l -> length (filter (fun y => y = x) l) = 0.
Proof.
  induction l as [|y l IH]; [done|]. intros Hx.
  rewrite filter_cons. destruct (decide (y = x)) as [->|Hne].
  - exfalso. apply Hx. by left.
  - apply IH. intros Hin. apply Hx. by right.
Qed.

Lemma count_diag_held (C : SymmetricMatrix) (k : Z) :
  c_mt C = c_nt C ->
  Z.of_nat (length (filter (fun ij => ij = (k, k)) (lower_local C))) = diag_held C k.
Proof.
  intros Hsq. unfold diag_held.
  destruct (bool_decide (0 <= k < c_nt C)%Z && c_tileIsLocal C k k) eqn:Hk.
  - apply andb_true_iff in Hk as [Hr Hl]. apply bool_decide_eq_true in Hr.
    rewrite count_NoDup; [done | apply NoDup_lower_local |].
    apply elem_of_lower_local. unfold lower_tile. split; [done|]. split; [lia | done].
  - rewrite count_absent; [done|]. intros Hin.
    apply elem_of_lower_local in Hin as (Hr & _ & Hl).
    rewrite Hl, andb_true_r in Hk. apply bool_decide_eq_false in Hk. by apply Hk.
Qed.

Section DeviceTiles.
Variable C : SymmetricMatrix.
Hypothesis Hdevices :
  forall i j, c_tileIsLocal C i j = true -> (0 <= c_tileDevice C i j < c_num_devices C)%Z.

Lemma elem_of_lower_on_device device i j :
  (i, j) ∈ lower_on_device C device
  <-> lower_tile C i j /\ device = c_tileDevice C i j.
Proof.
  unfold lower_on_device, lower_tile.
  rewrite (elem_of_pairs _ (fun j => seqZ j (c_mt C - j)) (on_device C device)).
  unfold on_device. rewrite !elem_of_seqZ, andb_true_iff, bool_decide_eq_true.
  intuition lia.
Qed.

Lemma NoDup_lower_on_device device : NoDup (lower_on_device C device).
Proof.
  apply (NoDup_pairs _ (fun j => seqZ j (c_mt C - j)) (on_device C device));
    intros; apply NoDup_seqZ.
Qed.

(** Every local lower tile is in the list of exactly one device. *)
Lemma devices_lower_perm :
  (seqZ 0 (c_num_devices C) ≫= lower_on_device C) ≡ₚ lower_local C.
Proof using Hdevices.
  apply NoDup_Permutation.
  - apply NoDup_bind; [| |apply NoDup_seqZ].
    + intros d1 d2 [i j] _ _ H1 H2.
      apply elem_of_lower_on_device in H1 as [_ ->].
      by apply elem_of_lower_on_device in H2 as [_ ->].
    + intros d _. apply NoDup_lower_on_device.
  - apply NoDup_lower_local.
  - intros [i j]. rewrite list_elem_of_bind, elem_of_lower_local. split.
    + intros (d & Hin & _). by apply elem_of_lower_on_device in Hin as [Hl _].
    + intros Hl. exists (c_tileDevice C i j). split.
      * by apply elem_of_lower_on_device.
      * apply elem_of_seqZ. destruct Hl as (_ & _ & Hloc).
        specialize (Hdevices i j Hloc). lia.
Qed.

Lemma device_ticks_perm :
  c_mt C = c_nt C -> device_ticks C ≡ₚ lower_local C ≫= ticked.
Proof using Hdevices.
  intros Hsq. unfold device_ticks. destruct (decide (c_nt C = 1%Z)) as [Hnt|Hnt].
  - unfold lower_local. rewrite Hsq, Hnt. simpl. rewrite !app_nil_r.
    change (Z.of_nat 0 + (Z.of_nat 0 + 0))%Z with 0%Z.
    change (Z.of_nat 0 + 0)%Z with 0%Z.
    destruct (c_tileIsLocal C 0 0); [by rewrite bind_singleton | done].
  - rewrite <- devices_lower_perm. by rewrite bind_bind.
Qed.

End DeviceTiles.

(** X10.  The three host implementations use up the inputs alike.  For a
    call the dispatcher accepts on a square tile grid, when no acquisition
    fails and the assertions pass (and MKL is there for HostBatch), the call
    returns normally with [err] 0 and no task pending, and it has decremented
    the life of A(k, 0) and of B(k, 0) by the number of local tiles of the
    lower triangle of C in block row k or block column k, the diagonal tile
    counted once; the life of the tiles of C is as it was. *)
Theorem host_implementations_tick_alike :
  forall (K : Type) (SR : ScalarRing K) (env : environment) (alpha : K) (A B : Matrix K)
         (beta : K) (C : SymmetricMatrix) (layout : Layout) (target : Target)
         (st : state K),
    syr2k_rejects A B C = false ->
    no_failure env ->
    c_mt C = c_nt C ->
    target <> Devices ->
    target_ok env A C layout target ->
    exists st',
      syr2k env alpha A B beta C layout target st = (Ok tt, st') /\
      s_err st' = 0%Z /\
      (forall k, s_life st' (RefA k)
                 = (s_life st (RefA k) - Z.of_nat (length (tiles_with C k)))%Z) /\
      (forall k, s_life st' (RefB k)
                 = (s_life st (RefB k) - Z.of_nat (length (tiles_with C k)))%Z) /\
      (forall i j, s_life st' (RefC i j) = s_life st (RefC i j)).
Proof.
  intros K SR env alpha A B beta C layout target st Hacc Hnf Hsq Htarget Hok.
  assert (Hgen : exists st',
             syr2k env alpha A B beta C layout target st = (Ok tt, st') /\
             s_err st' = 0%Z /\
             forall t, s_life st' t = (s_life st t - ticks (host_ticks C) t)%Z).
  { unfold syr2k. rewrite Hacc. destruct target; [| | |done].
    - unfold syr2k_HostTask.
      destruct (run_frame env _ _ _ _ _ _ st (layout_assert env layout Hok)
                  (HostTask_summary env alpha A B beta C Hnf))
        as (st' & Hrun & _ & HL & HE & _).
      exists st'. split; [done|]. split; [done|]. intros t. by rewrite HL.
    - unfold syr2k_HostNest.
      destruct (run_frame env _ _ _ _ _ _ st (layout_assert env layout Hok)
                  (HostNest_summary env alpha A B beta C Hnf))
        as (st' & Hrun & _ & HL & HE & _).
      exists st'. split; [|split; [done|]].
      + rewrite <- Hrun.
        by rewrite (M_bind_assoc _ _ (fun _ => omp_taskwait;; rethrow)).
      + intros t. rewrite HL. f_equal. symmetry. apply ticks_perm.
        by apply host_ticks_split.
    - destruct Hok as (Hlayout & Hmkl & Hshapes). unfold syr2k_HostBatch. cbv zeta.
      destruct (run_frame env _ _ _ _ _ _ st (layout_assert env layout Hlayout)
                  (HostBatch_summary env alpha A B beta C Hnf Hacc Hmkl Hshapes))
        as (st' & Hrun & _ & HL & HE & _).
      exists st'. split; [|split; [done|]].
      + rewrite <- Hrun.
        rewrite (M_bind_assoc _ _ (fun _ => omp_taskwait;; rethrow)).
        f_equal.
        by rewrite (M_bind_assoc _ _ (fun _ => omp_taskwait;; rethrow)).
      + intros t. rewrite HL. f_equal. symmetry. apply ticks_perm.
        rewrite (host_ticks_split C Hsq). f_equiv.
        destruct (Nat.ltb 0 (length (offdiag_local C))) eqn:Hlen.
        * by rewrite offdiag_nest_local.
        * apply Nat.ltb_ge in Hlen.
          assert (Hnil : offdiag_local C = []) by (apply length_zero_iff_nil; lia).
          by rewrite offdiag_nest_local, Hnil. }
  destruct Hgen as (st' & Hrun & HE & HL). exists st'.
  split; [done|]. split; [done|]. unfold tiles_with, host_ticks in *.
  split; [|split].
  - intros k. by rewrite HL, ticks_host_units_A.
  - intros k. by rewrite HL, ticks_host_units_B.
  - intros i j. rewrite HL, ticks_host_units_C. lia.
Qed.

Lemma host_implementations_tick_alike_witness :
  tiles_with (grid 2) 1 = [(1, 0); (1, 1)]%Z /\
  exists st',
    syr2k env_mkl 1%Z ones_matrix ones_matrix 1%Z (grid 2) ColMajor HostBatch state0
    = (Ok tt, st') /\
    s_life st' (RefA 1) = 1%Z.
Proof.
  split; [reflexivity|].
  destruct (host_implementations_tick_alike Z _ env_mkl 1%Z ones_matrix ones_matrix 1%Z
              (grid 2) ColMajor HostBatch state0)
    as (st' & Hrun & _ & HA & _).
  - reflexivity.
  - intros t d. reflexivity.
  - reflexivity.
  - discriminate.
  - split; [by right|]. split; [reflexivity|]. right. intros i j _. by split.
  - exists st'. split; [exact Hrun|]. by rewrite HA.
Defined.

Lemma HostBatch_calls_targets {K} `{SR : ScalarRing K} (alpha : K) (A : Matrix K) (beta : K)
    (C : SymmetricMatrix) :
  map call_target (HostBatch_calls alpha A beta C)
  = issued [(KindGemm, offdiag_local C); (KindGemm, offdiag_local C)].
Proof.
  unfold HostBatch_calls, issued. cbv zeta. simpl omap.
  destruct (Nat.ltb 0 (length (offdiag_local C))); [|done].
  simpl. unfold c_refs. rewrite !map_map.
  assert (H1 : map (fun ij => g_c (fst (HostBatch_groups alpha A beta C (opA_normalized A C)
                                          (opB_of (opA_normalized A C)) ij)))
                   (offdiag_local C)
               = map (fun ij => RefC (fst ij) (snd ij)) (offdiag_local C)).
  { apply map_ext. intros [i j]. unfold HostBatch_groups.
    by destruct (decide (c_op C <> NoTrans)). }
  assert (H2 : map (fun ij => g_c (snd (HostBatch_groups alpha A beta C (opA_normalized A C)
                                          (opB_of (opA_normalized A C)) ij)))
                   (offdiag_local C)
               = map (fun ij => RefC (fst ij) (snd ij)) (offdiag_local C)).
  { apply map_ext. intros [i j]. unfold HostBatch_groups.
    by destruct (decide (c_op C <> NoTrans)). }
  by rewrite H1, H2.
Qed.

(** X11.  HostBatch in a build with MKL, for a call the dispatcher accepts
    whose acquisitions and assertions pass: the call returns normally after
    one task per local diagonal tile and exactly two calls of
    [cblas_gemm_batch], each with one group per local tile strictly below the
    diagonal, in the order of the loops and on the same tiles of C; when there
    is no such tile, no call is issued at all. *)
Theorem HostBatch_with_mkl_batches :
  forall (K : Type) (SR : ScalarRing K) (env : environment) (alpha : K) (A B : Matrix K)
         (beta : K) (C : SymmetricMatrix) (layout : Layout) (st : state K),
    syr2k_rejects A B C = false ->
    no_failure env ->
    layout_ok env layout ->
    slate_with_mkl env = true ->
    shapes_ok env A C ->
    exists st',
      syr2k env alpha A B beta C layout HostBatch st = (Ok tt, st') /\
      s_spawned st' = s_spawned st + length (diag_local C) /\
      s_calls st' = s_calls st ++ HostBatch_calls alpha A beta C /\
      map call_target (HostBatch_calls alpha A beta C)
      = issued [(KindGemm, offdiag_local C); (KindGemm, offdiag_local C)].
Proof.
  intros K SR env alpha A B beta C layout st Hacc Hnf Hlayout Hmkl Hshapes.
  unfold syr2k. rewrite Hacc. unfold syr2k_HostBatch. cbv zeta.
  destruct (run_frame env _ _ _ _ _ _ st (layout_assert env layout Hlayout)
              (HostBatch_summary env alpha A B beta C Hnf Hacc Hmkl Hshapes))
    as (st' & Hrun & _ & _ & _ & HS & HK).
  exists st'. split; [|split; [done|split; [done|apply HostBatch_calls_targets]]].
  rewrite <- Hrun.
  rewrite (M_bind_assoc _ _ (fun _ => omp_taskwait;; rethrow)).
  f_equal.
  by rewrite (M_bind_assoc _ _ (fun _ => omp_taskwait;; rethrow)).
Qed.

Lemma HostBatch_with_mkl_batches_witness :
  exists st',
    syr2k env_mkl 1%Z ones_matrix ones_matrix 1%Z (grid 3) ColMajor HostBatch state0
    = (Ok tt, st') /\
    s_spawned st' = 3 /\
    map call_target (s_calls st')
    = [(KindGemm, [RefC 1 0; RefC 2 0; RefC 2 1]); (KindGemm, [RefC 1 0; RefC 2 0; RefC 2 1])].
Proof.
  destruct (HostBatch_with_mkl_batches Z _ env_mkl 1%Z ones_matrix ones_matrix 1%Z
              (grid 3) ColMajor state0)
    as (st' & Hrun & HS & HK & HT).
  - reflexivity.
  - intros t d. reflexivity.
  - by right.
  - reflexivity.
  - right. intros i j _. by split.
  - exists st'. split; [exact Hrun|]. split; [by rewrite HS|].
    rewrite HK. simpl s_calls. simpl app. by rewrite HT.
Defined.



(** ** Failures outside the tasks *)

Lemma for_each_check {K X} (l : list X) (body : X -> M K unit) (F : X -> bool) (e : exn) :
  (forall x st, In x l -> body x st = (if F x then Throw e else Ok tt, st)) ->
  forall st, for_each l body st = (if existsb F l then Throw e else Ok tt, st).
Proof.
  induction l as [|x l IH]; intros Hbody st; [done|]. simpl.
  pose proof (Hbody x st (or_introl eq_refl)) as Hx. destruct (F x); simpl.
  - by apply bind_throw.
  - erewrite bind_ok by exact Hx. apply IH. intros y st' Hy. apply Hbody. by right.
Qed.

Lemma guarded_of_effect {K} (m : M K unit) U T Cl N :
  has_effect m U T Cl N -> guarded m false N.
Proof.
  intros H st. destruct (H st) as (st' & Hrun & _ & _ & HE & HS & _).
  exists st'. by repeat split.
Qed.

Section HostBatchFailures.
Context {K : Type} `{SR : ScalarRing K}.
Variable env : environment.
Variables (alpha : K) (A B : Matrix K) (beta : K) (C : SymmetricMatrix).

(** The loading loop changes nothing; it throws at the first acquisition that
    fails. *)
Lemma HostBatch_load_outcome (st : state K) :
  forZ 0 (c_nt C) (fun j =>
    forZ (j + 1) (c_mt C) (fun i =>
      when (c_tileIsLocal C i j)
        (tileGetForReading env (RefA i) None;;
         tileGetForReading env (RefB j) None;;
         tileGetForWriting env (RefC i j) None))) st
  = (if existsb (HostBatch_load_fails env) (offdiag_local C)
     then Throw acquire_error else Ok tt, st).
Proof.
  unfold forZ.
  rewrite (for_each_check _ _
             (fun j => existsb (fun i => c_tileIsLocal C i j && HostBatch_load_fails env (i, j))
                               (seqZ (j + 1) (c_mt C - (j + 1)))) acquire_error).
  - unfold offdiag_local. rewrite existsb_bind.
    erewrite (existsb_ext_in _ _ (seqZ 0 (c_nt C - 0))); [by rewrite Z.sub_0_r|].
    intros j _. cbv beta. rewrite existsb_bind. apply existsb_ext_in. intros i _.
    by rewrite existsb_if.
  - intros j st' _. apply for_each_check. intros i st'' _.
    unfold when, HostBatch_load_fails, tileGetForReading, tileGetForWriting.
    by destruct (c_tileIsLocal C i j), (acquire_fails env (RefA i) None),
         (acquire_fails env (RefB j) None), (acquire_fails env (RefC i j) None).
Qed.

Lemma HostBatch_load_guarded :
  existsb (HostBatch_load_fails env) (offdiag_local C) = false ->
  guarded (K := K)
          (forZ 0 (c_nt C) (fun j =>
             forZ (j + 1) (c_mt C) (fun i =>
               when (c_tileIsLocal C i j)
                 (tileGetForReading env (RefA i) None;;
                  tileGetForReading env (RefB j) None;;
                  tileGetForWriting env (RefC i j) None))))
          false 0.
Proof.
  intros Hload st. exists st. rewrite HostBatch_load_outcome, Hload.
  split; [done|]. split; [by rewrite Nat.add_0_r | done].
Qed.

(** The tasks of the diagonal tiles: all created, none waited for yet. *)
Lemma diag_tasks_pending (line : Z) (l : list Z) (st : state K) :
  exists st',
    for_each l (fun j =>
      when (c_tileIsLocal C j j)
        (omp_task (try_catch (host_diag_body env alpha A B beta C j) (set_err line)))) st
    = (Ok tt, st') /\
    s_spawned st' = s_spawned st + length (l ≫= (fun j => if c_tileIsLocal C j j then [j] else [])) /\
    s_pending st' = s_pending st + length (l ≫= (fun j => if c_tileIsLocal C j j then [j] else [])).
Proof.
  revert st. induction l as [|j l IH]; intros st.
  - exists st. simpl. split; [done|]. split; lia.
  - simpl for_each. rewrite bind_cons, length_app.
    destruct (c_tileIsLocal C j j); unfold when.
    + assert (Htask : exists st1,
                 omp_task (try_catch (host_diag_body env alpha A B beta C j) (set_err line)) st
                 = (Ok tt, st1) /\
                 s_spawned st1 = S (s_spawned st) /\ s_pending st1 = S (s_pending st)).
      { unfold omp_task, try_catch.
        destruct (host_diag_body_outcome env alpha A B beta C j
                    (mkState (s_C st) (s_life st) (s_err st) (S (s_spawned st)) 0 (s_calls st)))
          as (st1 & Hs & Hout).
        destruct (diag_unit_fails env j).
        - destruct Hout as (e & ->). eexists. split; [reflexivity|]. simpl in *. by split.
        - destruct Hout as (-> & _). eexists. split; [reflexivity|]. simpl in *. by split. }
      destruct Htask as (st1 & Hrun & HS1 & HP1).
      destruct (IH st1) as (st2 & Hrest & HS2 & HP2).
      exists st2. split; [by rewrite (bind_ok _ _ _ _ _ Hrun)|]. simpl length. split; lia.
    + destruct (IH st) as (st2 & Hrest & HS2 & HP2).
      exists st2. split; [by erewrite bind_ok by reflexivity|]. simpl length. split; lia.
Qed.

Hypothesis Hacc : syr2k_rejects A B C = false.
Hypothesis Hmkl : slate_with_mkl env = true.
Hypothesis Hshapes : shapes_ok env A C.

(** The batched products and the ticks after them touch neither [err] nor
    the tasks, whatever acquisitions fail elsewhere. *)
Lemma HostBatch_offdiag_guarded :
  guarded (when (Nat.ltb 0 (length (offdiag_local C))) (HostBatch_offdiag env alpha A B beta C))
          false 0.
Proof using Hacc Hmkl Hshapes.
  change (HostBatch_offdiag env alpha A B beta C)
    with (HostBatch_offdiag (without_failures env) alpha A B beta C).
  eapply guarded_of_effect.
  apply (HostBatch_offdiag_summary (without_failures env) alpha A B beta C);
    [by intros t d | exact Hacc | exact Hmkl | exact Hshapes].
Qed.

Lemma HostBatch_work_guarded :
  existsb (HostBatch_load_fails env) (offdiag_local C) = false ->
  guarded
    ((forZ 0 (c_nt C) (fun j =>
        when (c_tileIsLocal C j j)
          (omp_task (try_catch (host_diag_body env alpha A B beta C j) (set_err 254))));;
      forZ 0 (c_nt C) (fun j =>
        forZ (j + 1) (c_mt C) (fun i =>
          when (c_tileIsLocal C i j)
            (tileGetForReading env (RefA i) None;;
             tileGetForReading env (RefB j) None;;
             tileGetForWriting env (RefC i j) None))));;
     when (Nat.ltb 0 (length (offdiag_local C))) (HostBatch_offdiag env alpha A B beta C))
    (existsb (diag_unit_fails env) (diag_local C)) (length (diag_local C)).
Proof using Hacc Hmkl Hshapes.
  intros Hload. eapply guarded_eq.
  - apply guarded_bind; [apply guarded_bind|apply HostBatch_offdiag_guarded].
    + apply guarded_forZ; intros j Hj. apply guarded_when.
      apply guarded_task; [done | apply host_diag_body_outcome].
    + apply HostBatch_load_guarded, Hload.
  - rewrite !orb_false_r. unfold diag_local. rewrite existsb_bind, Z.sub_0_r.
    apply existsb_ext_in; intros j _. by rewrite existsb_if.
  - rewrite !Nat.add_0_r. unfold diag_local. rewrite length_bind, !Z.sub_0_r.
    apply list_sum_ext_in; intros j _. by destruct (c_tileIsLocal C j j).
Qed.

End HostBatchFailures.

(** X13.  HostBatch in a build with MKL, in any environment, for a call the
    dispatcher accepts whose assertions pass.  The tiles strictly below the
    diagonal are acquired in the calling thread, outside any [try]: when one
    of these acquisitions fails, its exception leaves the call at once, past
    the [taskwait], with the tasks of the diagonal tiles created and still
    pending.  Otherwise the call waits for the tasks and then throws
    [std::exception] exactly when an acquisition in a diagonal task failed. *)
Theorem HostBatch_failures :
  forall (K : Type) (SR : ScalarRing K) (env : environment) (alpha : K) (A B : Matrix K)
         (beta : K) (C : SymmetricMatrix) (layout : Layout) (st : state K),
    syr2k_rejects A B C = false ->
    layout_ok env layout ->
    slate_with_mkl env = true ->
    shapes_ok env A C ->
    exists st',
      syr2k env alpha A B beta C layout HostBatch st
      = (if existsb (HostBatch_load_fails env) (offdiag_local C) then Throw acquire_error
         else if existsb (diag_unit_fails env) (diag_local C) then Throw std_exception
         else Ok tt, st') /\
      s_spawned st' = s_spawned st + length (diag_local C) /\
      s_pending st' = if existsb (HostBatch_load_fails env) (offdiag_local C)
                      then s_pending st + length (diag_local C) else 0.
Proof.
  intros K SR env alpha A B beta C layout st Hacc Hlayout Hmkl Hshapes.
  unfold syr2k. rewrite Hacc. unfold syr2k_HostBatch. cbv zeta.
  destruct (existsb (HostBatch_load_fails env) (offdiag_local C)) eqn:Hload.
  - unfold assert_. rewrite (layout_assert env layout Hlayout).
    erewrite bind_ok by reflexivity.
    erewrite bind_ok by reflexivity.
    unfold forZ at 1.
    destruct (diag_tasks_pending env alpha A B beta C 254 (seqZ 0 (c_nt C - 0))
                (mkState (s_C st) (s_life st) 0 (s_spawned st) (s_pending st) (s_calls st)))
      as (st2 & Hdiag & HS & HP).
    exists st2. split.
    + erewrite bind_ok by exact Hdiag.
      apply bind_throw. pose proof (HostBatch_load_outcome env C st2) as Hl.
      rewrite Hload in Hl. exact Hl.
    + unfold diag_local. rewrite Z.sub_0_r in HS, HP. by split.
  - destruct (guarded_frame env (bool_decide (layout = ColMajor)) _ _ _ st
                (layout_assert env layout Hlayout)
                (HostBatch_work_guarded env alpha A B beta C Hacc Hmkl Hshapes Hload))
      as (st' & Hrun & HP & HS).
    exists st'. split; [|by split].
    etransitivity; [|exact Hrun]. by rewrite !M_bind_assoc.
Qed.

Lemma HostBatch_failures_witness :
  existsb (HostBatch_load_fails env_mkl_A1_fails) (offdiag_local (grid 2)) = true /\
  exists st',
    syr2k env_mkl_A1_fails 1%Z ones_matrix ones_matrix 1%Z (grid 2) ColMajor HostBatch state0
    = (Throw acquire_error, st') /\
    s_pending st' = 2.
Proof.
  split; [reflexivity|].
  destruct (HostBatch_failures Z _ env_mkl_A1_fails 1%Z ones_matrix ones_matrix 1%Z
              (grid 2) ColMajor state0)
    as (st' & Hrun & _ & HP).
  - reflexivity.
  - by right.
  - reflexivity.
  - right. intros i j _. by split.
  - exists st'. split; [exact Hrun | exact HP].
Defined.

(** ** Failures in the device implementation *)

Section Escapes.
Context {K : Type}.
Implicit Types (m : M K unit).

Lemma escapes_eq m f f' : escapes m f -> f' = f -> escapes m f'.
Proof. by intros H ->. Qed.

Lemma escapes_bind m1 m2 f1 f2 :
  escapes m1 f1 -> escapes m2 f2 -> escapes (m1;; m2) (f1 || f2).
Proof.
  intros H1 H2 st. destruct (H1 st) as (st1 & Hr1 & He1). destruct f1; simpl.
  - exists st1. split; [|done]. unfold mbind, M_bind. by rewrite Hr1.
  - destruct (H2 st1) as (st2 & Hr2 & He2). exists st2.
    split; [by rewrite (bind_ok _ _ _ _ _ Hr1) | by rewrite He2].
Qed.

Lemma escapes_bind_value {X} (m : M K X) (f : X -> M K unit) (x : X) fails :
  (forall st, m st = (Ok x, st)) -> escapes (f x) fails -> escapes (m ≫= f) fails.
Proof.
  intros Hm Hf st. destruct (Hf st) as (st' & Hr & He). exists st'.
  split; [by rewrite (bind_ok _ _ _ _ _ (Hm st)) | done].
Qed.

Lemma escapes_of_effect m U T Cl N : has_effect m U T Cl N -> escapes m false.
Proof.
  intros H st. destruct (H st) as (st' & Hr & _ & _ & HE & _). by exists st'.
Qed.

Lemma escapes_when (b : bool) m f : escapes m f -> escapes (when b m) (b && f).
Proof.
  destruct b; [done|]. intros _ st. by exists st.
Qed.

Lemma escapes_try_catch m handler f : escapes m f -> escapes (try_catch m handler) f.
Proof.
  intros H st. destruct (H st) as (st' & Hr & He). exists st'.
  unfold try_catch. rewrite Hr. by destruct f.
Qed.

Lemma escapes_omp_task m f : escapes m f -> escapes (omp_task m) f.
Proof.
  intros H st. unfold omp_task.
  destruct (H (mkState (s_C st) (s_life st) (s_err st) (S (s_spawned st)) 0 (s_calls st)))
    as (st' & Hr & He).
  rewrite Hr. destruct f; eexists; (split; [reflexivity | exact He]).
Qed.

(** A task without a [try] whose body throws: the exception leaves it. *)
Lemma escapes_throwing_task m (fails : bool) :
  (forall st, m st = (if fails then Throw acquire_error else Ok tt, st)) ->
  escapes (omp_task m) fails.
Proof.
  intros H st. unfold omp_task. rewrite H.
  destruct fails; eexists; (split; [reflexivity | done]).
Qed.

Lemma escapes_for_each {X} (l : list X) (body : X -> M K unit) (F : X -> bool) :
  (forall x, In x l -> escapes (body x) (F x)) -> escapes (for_each l body) (existsb F l).
Proof.
  induction l as [|x l IH]; intros Hbody.
  - intros st. by exists st.
  - simpl. apply escapes_bind; [apply Hbody; by left|].
    apply IH. intros y Hy. apply Hbody. by right.
Qed.

(** The frame of an implementation around work that never writes [err]. *)
Lemma escapes_frame (env : environment) (cond : bool) (work : M K unit) fails st :
  asserts_off env || cond = true -> escapes work fails ->
  exists st',
    (assert_ env cond;; set_err 0;; work;; omp_taskwait;; rethrow) st
    = (if fails then Escaped acquire_error else Ok tt, st') /\
    s_err st' = 0%Z.
Proof.
  intros Hassert Hwork. unfold assert_. rewrite Hassert.
  destruct (Hwork (mkState (s_C st) (s_life st) 0 (s_spawned st) (s_pending st) (s_calls st)))
    as (st1 & Hrun & HE). simpl in HE.
  erewrite bind_ok by reflexivity.
  erewrite bind_ok by reflexivity.
  destruct fails.
  - exists st1. split; [|done]. unfold mbind, M_bind. by rewrite Hrun.
  - exists (mkState (s_C st1) (s_life st1) (s_err st1) (s_spawned st1) 0 (s_calls st1)).
    split; [|done].
    erewrite bind_ok by exact Hrun.
    erewrite bind_ok by reflexivity.
    unfold rethrow. erewrite bind_ok by reflexivity. simpl. rewrite HE.
    by destruct (decide (0 = 0)%Z).
Qed.

End Escapes.

Section DeviceFailures.
Context {K : Type} `{SR : ScalarRing K}.
Variable env : environment.
Variables (alpha : K) (A B : Matrix K) (beta : K) (C : SymmetricMatrix).

Lemma escapes_get_set_reading tiles device :
  escapes (K := K) (omp_task (tileGetForReading_set env tiles device))
          (existsb (fun t => acquire_fails env t (Some device)) tiles).
Proof.
  apply escapes_throwing_task. intros st. unfold tileGetForReading_set.
  by destruct (existsb _ tiles).
Qed.

Lemma escapes_get_set_writing tiles device :
  escapes (K := K) (omp_task (tileGetForWriting_set env tiles device))
          (existsb (fun t => acquire_fails env t (Some device)) tiles).
Proof.
  apply escapes_throwing_task. intros st. unfold tileGetForWriting_set.
  by destruct (existsb _ tiles).
Qed.

(** The single-tile task: its acquisitions are in the task itself. *)
Lemma Devices_single_escapes :
  escapes (omp_task (Devices_single_body env alpha A B beta C)) (single_unit_fails env C).
Proof.
  destruct (single_unit_fails env C) eqn:Hf.
  - intros st. unfold omp_task, Devices_single_body, tileGetForReading, tileGetForWriting.
    unfold single_unit_fails in Hf.
    destruct (acquire_fails env (RefA 0) (Some (c_tileDevice C 0 0)));
      [eexists; split; [reflexivity | done]|].
    destruct (acquire_fails env (RefB 0) (Some (c_tileDevice C 0 0)));
      [eexists; split; [reflexivity | done]|].
    destruct (acquire_fails env (RefC 0 0) (Some (c_tileDevice C 0 0)));
      [eexists; split; [reflexivity | done] | done].
  - assert (Heq : Devices_single_body env alpha A B beta C
                  = Devices_single_body (without_failures env) alpha A B beta C).
    { unfold single_unit_fails in Hf.
      apply orb_false_iff in Hf as [Hf HC]. apply orb_false_iff in Hf as [HA HB].
      unfold Devices_single_body, tileGetForReading, tileGetForWriting.
      by rewrite HA, HB, HC. }
    rewrite Heq. apply escapes_omp_task.
    eapply escapes_of_effect, Devices_single_body_effect. by intros t d.
Qed.

Hypothesis Hacc : syr2k_rejects A B C = false.

(** The task of a device: its acquisitions are in six tasks of their own,
    none of which has a [try]. *)
Lemma Devices_device_body_escapes device :
  escapes (Devices_device_body env alpha A B beta C device) (device_unit_fails env C device).
Proof using Hacc.
  unfold Devices_device_body.
  apply (escapes_bind_value _ _ (opA_normalized A C)); [apply (normalize_opA_ok A B C Hacc)|].
  destruct (bool_decide (c_op C <> NoTrans)); cbv zeta.
  all: eapply escapes_eq;
    [repeat lazymatch goal with
       | |- escapes (omp_task (tileGetForReading_set _ _ _)) _ =>
           apply escapes_get_set_reading
       | |- escapes (omp_task (tileGetForWriting_set _ _ _)) _ =>
           apply escapes_get_set_writing
       | |- escapes (_ ≫= _) _ => apply escapes_bind
       | |- escapes omp_taskwait _ => eapply escapes_of_effect, has_effect_omp_taskwait
       | |- escapes (when _ (blas_batch_gemm _ _ _ _ _ _ _ _ _ _ _ _)) _ =>
           eapply escapes_of_effect, (has_effect_when_call A B), blas_batch_gemm_effect;
           first [apply Forall_operand_A | apply Forall_operand_B]
       | |- escapes (when _ (blas_batch_syr2k _ _ _ _ _ _ _ _ _ _ _)) _ =>
           eapply escapes_of_effect, (has_effect_when_call A B), blas_batch_syr2k_effect;
           first [apply Forall_operand_A | apply Forall_operand_B]
       | |- escapes (for_each _ _) _ => eapply escapes_of_effect, tick_loop_effect
       end
    |].
  all: unfold device_unit_fails; rewrite !existsb_app;
    by repeat destruct (existsb _ _).
Qed.

Lemma Devices_work_escapes :
  escapes (if decide (c_nt C = 1%Z) then
             when (c_tileIsLocal C 0 0) (omp_task (Devices_single_body env alpha A B beta C))
           else
             forZ 0 (c_num_devices C) (fun device =>
               omp_task (try_catch (Devices_device_body env alpha A B beta C device)
                                   (set_err 846))))
          (Devices_fails env C).
Proof using Hacc.
  unfold Devices_fails. destruct (decide (c_nt C = 1%Z)).
  - apply escapes_when, Devices_single_escapes.
  - unfold forZ. rewrite Z.sub_0_r. apply escapes_for_each. intros device _.
    apply escapes_omp_task, escapes_try_catch, Devices_device_body_escapes.
Qed.

End DeviceFailures.

(** X14.  The device implementation, in any environment, for a call the
    dispatcher accepts whose assertion passes: every tile acquisition is in a
    task without a [try] (the single-tile task, or one of the six tasks inside
    the task of a device), so a failing acquisition is never recorded in
    [err] and never comes back as the [std::exception] thrown after the
    [taskwait]; its exception leaves the task.  The call returns normally
    exactly when no acquisition fails, and [err] is 0 either way. *)
Theorem Devices_failures_escape :
  forall (K : Type) (SR : ScalarRing K) (env : environment) (alpha : K) (A B : Matrix K)
         (beta : K) (C : SymmetricMatrix) (layout : Layout) (st : state K),
    syr2k_rejects A B C = false ->
    (asserts_off env = true \/ (c_num_devices C > 0)%Z) ->
    exists st',
      syr2k env alpha A B beta C layout Devices st
      = (if Devices_fails env C then Escaped acquire_error else Ok tt, st') /\
      s_err st' = 0%Z.
Proof.
  intros K SR env alpha A B beta C layout st Hacc Hdev.
  unfold syr2k. rewrite Hacc. unfold syr2k_Devices.
  apply escapes_frame; [|by apply Devices_work_escapes].
  destruct Hdev as [->|Hdev]; [done|].
  by rewrite bool_decide_eq_true_2, orb_true_r.
Qed.

Lemma Devices_failures_escape_witness :
  Devices_fails env_B1_fails_on_device grid_two_devices = true /\
  exists st',
    syr2k env_B1_fails_on_device 1%Z ones_matrix ones_matrix 1%Z grid_two_devices ColMajor
          Devices state0
    = (Escaped acquire_error, st') /\
    s_err st' = 0%Z.
Proof.
  split; [reflexivity|].
  destruct (Devices_failures_escape Z _ env_B1_fails_on_device 1%Z ones_matrix ones_matrix 1%Z
              grid_two_devices ColMajor state0)
    as (st' & Hrun & HE).
  - reflexivity.
  - right. simpl. lia.
  - exists st'. split; [exact Hrun | exact HE].
Defined.

(** ** The assertions at the entry *)

(** X15.  For a call the dispatcher accepts.  With assertions compiled in,
    a failing assertion at the entry of the implementation (the layout is not
    column-major on the host, C has no device on the devices) stops the call
    there, before any task exists and with every tile and counter as it was.
    Conversely HostTask, HostNest and the device implementation stop at an
    assertion in no other case: whatever acquisitions fail, they end by
    returning or by an exception. *)
Theorem syr2k_abort_is_entry_assertion :
  forall (K : Type) (SR : ScalarRing K) (env : environment) (alpha : K) (A B : Matrix K)
         (beta : K) (C : SymmetricMatrix) (layout : Layout) (target : Target)
         (st : state K),
    syr2k_rejects A B C = false ->
    (asserts_off env = false -> entry_assertion C layout target = false ->
       syr2k env alpha A B beta C layout target st = (Aborted, st)) /\
    (target <> HostBatch ->
       fst (syr2k env alpha A B beta C layout target st) = Aborted ->
       asserts_off env = false /\ entry_assertion C layout target = false).
Proof.
  intros K SR env alpha A B beta C layout target st Hacc. split.
  - intros Hon Hbad. unfold syr2k. rewrite Hacc.
    destruct target; simpl in Hbad;
      unfold syr2k_HostTask, syr2k_HostNest, syr2k_HostBatch, syr2k_Devices, assert_;
      by rewrite Hon, Hbad.
  - intros Htarget Habort.
    destruct (asserts_off env || entry_assertion C layout target) eqn:Hassert;
      [exfalso | by apply orb_false_iff in Hassert].
    unfold syr2k in Habort. rewrite Hacc in Habort.
    destruct target; [| |done|]; simpl in Hassert.
    + destruct (guarded_frame env (bool_decide (layout = ColMajor)) _ _ _ st Hassert
                  (HostTask_work_guarded env alpha A B beta C)) as (st' & Hrun & _).
      unfold syr2k_HostTask in Habort. rewrite Hrun in Habort.
      by destruct (existsb _ _).
    + destruct (guarded_frame env (bool_decide (layout = ColMajor)) _ _ _ st Hassert
                  (HostNest_work_guarded env alpha A B beta C)) as (st' & Hrun & _).
      unfold syr2k_HostNest in Habort. cbv zeta in Habort.
      rewrite <- (M_bind_assoc _ _ (fun _ => omp_taskwait;; rethrow)) in Habort.
      rewrite Hrun in Habort. by destruct (_ || _).
    + destruct (escapes_frame env (bool_decide (c_num_devices C > 0)%Z) _ _ st Hassert
                  (Devices_work_escapes env alpha A B beta C Hacc)) as (st' & Hrun & _).
      unfold syr2k_Devices in Habort. rewrite Hrun in Habort.
      by destruct (Devices_fails env C).
Qed.

Lemma syr2k_abort_is_entry_assertion_witness :
  syr2k env_plain 1%Z ones_matrix ones_matrix 1%Z (grid 2) RowMajor HostNest state0
  = (Aborted, state0).
Proof.
  destruct (syr2k_abort_is_entry_assertion Z _ env_plain 1%Z ones_matrix ones_matrix 1%Z
              (grid 2) RowMajor HostNest state0) as [Hstop _]; [reflexivity|].
  apply Hstop; reflexivity.
Defined.
